(** * MiniOS: memory allocators, PS/2 keyboard and virtio-net queues

    A shallow embedding of the kernel heap (src/boot/heap.c), the physical
    frame allocator (pmm.c), the PS/2 keyboard interrupt handler
    (keyboard.c) and the virtio-net send/receive paths (virtio_net.c),
    followed by the properties established about them.  Further sections
    cover the keyboard's reading side, the set-up of the virtio queues, the
    PCI configuration space (pci.c), the ATA driver (ata.c), the interrupt
    descriptor table (idt.c), the memory block functions (string.c) and the
    Internet checksum (icmp.c).

    Conventions.  C integers are [Z] with the wrap-around of their width
    written out; [size_t], [uintptr_t] and pointers are 64 bits wide
    (types.h).  The C operators [!], [%] on [int] and the bit operators are
    spelled with [lnot_c], [Z.rem], [Z.land], [Z.lor], [Z.shiftl]. *)

From Stdlib Require Import ZArith List Lia Bool Ascii FinFun.
Import ListNotations.
Local Open Scope Z_scope.

(** ** Shared C idioms *)

(** The C logical negation [!x] on an [int]. *)
Definition lnot_c (x : Z) : Z := if x =? 0 then 1 else 0.

(** Conversion to an unsigned integer of [w] bits. *)
Definition wrap (w : Z) (x : Z) : Z := x mod 2 ^ w.

Definition wrap8 : Z -> Z := wrap 8.
Definition wrap16 : Z -> Z := wrap 16.
Definition wrap32 : Z -> Z := wrap 32.
Definition wrap64 : Z -> Z := wrap 64.

(** Array cell update; an index outside the array leaves it as it is (the C
    code never does that on the states considered below). *)
Fixpoint list_set {A} (l : list A) (i : nat) (v : A) : list A :=
  match l, i with
  | [], _ => []
  | _ :: t, O => v :: t
  | h :: t, S i' => h :: list_set t i' v
  end.

Definition zget (l : list Z) (i : Z) : Z := nth (Z.to_nat i) l 0.
Definition zset (l : list Z) (i : Z) (v : Z) : list Z :=
  if i <? 0 then l else list_set l (Z.to_nat i) v.

(** ** PS/2 keyboard (keyboard.c) *)

Module Keyboard.

Definition KBD_BUFFER_SIZE : Z := 256.

Definition SC_LSHIFT : Z := 0x2A.
Definition SC_RSHIFT : Z := 0x36.
Definition SC_CTRL : Z := 0x1D.
Definition SC_ALT : Z := 0x38.
Definition SC_CAPS : Z := 0x3A.

Definition ch (a : ascii) : Z := Z.of_nat (nat_of_ascii a).

(** The initialisers of the two 128-entry tables list 119 values; C zero-fills
    the rest. *)
Definition scancode_to_ascii : list Z :=
  [0; 27; ch "1"; ch "2"; ch "3"; ch "4"; ch "5"; ch "6"; ch "7"; ch "8";
   ch "9"; ch "0"; ch "-"; ch "="; 8;
   9; ch "q"; ch "w"; ch "e"; ch "r"; ch "t"; ch "y"; ch "u"; ch "i"; ch "o";
   ch "p"; ch "["; ch "]"; 10;
   0; ch "a"; ch "s"; ch "d"; ch "f"; ch "g"; ch "h"; ch "j"; ch "k"; ch "l";
   ch ";"; ch "'"; ch "`";
   0; ch "\"; ch "z"; ch "x"; ch "c"; ch "v"; ch "b"; ch "n"; ch "m"; ch ",";
   ch "."; ch "/"; 0;
   ch "*"; 0; ch " "; 0; 0; 0; 0; 0; 0; 0; 0; 0; 0; 0; 0; 0;
   0; 0; 0; ch "-"; 0; 0; 0; ch "+"; 0; 0; 0; 0; 0; 0; 0; 0;
   0; 0; 0; 0; 0; 0; 0; 0; 0; 0; 0; 0; 0; 0; 0; 0;
   0; 0; 0; 0; 0; 0; 0; 0; 0; 0; 0; 0; 0; 0; 0; 0]
  ++ repeat 0 9%nat.

Definition scancode_to_ascii_shift : list Z :=
  [0; 27; ch "!"; ch "@"; ch "#"; ch "$"; ch "%"; ch "^"; ch "&"; ch "*";
   ch "("; ch ")"; ch "_"; ch "+"; 8;
   9; ch "Q"; ch "W"; ch "E"; ch "R"; ch "T"; ch "Y"; ch "U"; ch "I"; ch "O";
   ch "P"; ch "{"; ch "}"; 10;
   0; ch "A"; ch "S"; ch "D"; ch "F"; ch "G"; ch "H"; ch "J"; ch "K"; ch "L";
   ch ":"; 34; ch "~";
   0; ch "|"; ch "Z"; ch "X"; ch "C"; ch "V"; ch "B"; ch "N"; ch "M"; ch "<";
   ch ">"; ch "?"; 0;
   ch "*"; 0; ch " "; 0; 0; 0; 0; 0; 0; 0; 0; 0; 0; 0; 0; 0;
   0; 0; 0; ch "-"; 0; 0; 0; ch "+"; 0; 0; 0; 0; 0; 0; 0; 0;
   0; 0; 0; 0; 0; 0; 0; 0; 0; 0; 0; 0; 0; 0; 0; 0;
   0; 0; 0; 0; 0; 0; 0; 0; 0; 0; 0; 0; 0; 0; 0; 0]
  ++ repeat 0 9%nat.

(** The driver's globals: the ring buffer with its two indices and the four
    modifier flags (all [int] in the source). *)
Record kbd_state : Type := mk_kbd {
  kbd_buffer : list Z;
  kbd_buffer_head : Z;
  kbd_buffer_tail : Z;
  shift_pressed : Z;
  ctrl_pressed : Z;
  alt_pressed : Z;
  caps_lock : Z
}.

Definition set_shift (st : kbd_state) (v : Z) : kbd_state :=
  mk_kbd (kbd_buffer st) (kbd_buffer_head st) (kbd_buffer_tail st)
         v (ctrl_pressed st) (alt_pressed st) (caps_lock st).
Definition set_ctrl (st : kbd_state) (v : Z) : kbd_state :=
  mk_kbd (kbd_buffer st) (kbd_buffer_head st) (kbd_buffer_tail st)
         (shift_pressed st) v (alt_pressed st) (caps_lock st).
Definition set_alt (st : kbd_state) (v : Z) : kbd_state :=
  mk_kbd (kbd_buffer st) (kbd_buffer_head st) (kbd_buffer_tail st)
         (shift_pressed st) (ctrl_pressed st) v (caps_lock st).
Definition set_caps (st : kbd_state) (v : Z) : kbd_state :=
  mk_kbd (kbd_buffer st) (kbd_buffer_head st) (kbd_buffer_tail st)
         (shift_pressed st) (ctrl_pressed st) (alt_pressed st) v.

(** [kbd_buffer_put]: the byte is dropped when the ring is full. *)
Definition kbd_buffer_put (st : kbd_state) (c : Z) : kbd_state :=
  let next := Z.rem (kbd_buffer_head st + 1) KBD_BUFFER_SIZE in
  if negb (next =? kbd_buffer_tail st) then
    mk_kbd (zset (kbd_buffer st) (kbd_buffer_head st) c) next
           (kbd_buffer_tail st)
           (shift_pressed st) (ctrl_pressed st) (alt_pressed st) (caps_lock st)
  else st.

(** [keyboard_interrupt_handler], with the byte read from port 0x60 as its
    argument. *)
Definition keyboard_interrupt_handler (raw : Z) (st : kbd_state) : kbd_state :=
  let released := Z.land raw 0x80 in
  let scancode := Z.land raw 0x7F in
  if (scancode =? SC_LSHIFT) || (scancode =? SC_RSHIFT) then
    set_shift st (lnot_c released)
  else if scancode =? SC_CTRL then set_ctrl st (lnot_c released)
  else if scancode =? SC_ALT then set_alt st (lnot_c released)
  else if scancode =? SC_CAPS then
    (if released =? 0 then set_caps st (lnot_c (caps_lock st)) else st)
  else if negb (released =? 0) then st
  else
    let c := if negb (shift_pressed st =? 0)
             then zget scancode_to_ascii_shift scancode
             else zget scancode_to_ascii scancode in
    let c := if negb (caps_lock st =? 0) && (ch "a" <=? c) && (c <=? ch "z")
             then c - ch "a" + ch "A"
             else if negb (caps_lock st =? 0) && (ch "A" <=? c) && (c <=? ch "Z")
             then c - ch "A" + ch "a"
             else c in
    let c := if negb (ctrl_pressed st =? 0) && ((c =? ch "c") || (c =? ch "C"))
             then 3 else c in
    if negb (c =? 0) then kbd_buffer_put st c else st.

(** [keyboard_init] leaves the buffer cells as they are and resets the indices
    and the flags. *)
Definition keyboard_init (st : kbd_state) : kbd_state :=
  mk_kbd (kbd_buffer st) 0 0 0 0 0 0.

(** The handler run on a sequence of bytes, oldest first. *)
Definition deliver (raws : list Z) (st : kbd_state) : kbd_state :=
  fold_left (fun s r => keyboard_interrupt_handler r s) raws st.

(** Every flag holds 0 or 1: true after [keyboard_init] and kept by the
    handler, whose only stores to the flags are results of [!]. *)
Definition is_flag (x : Z) : Prop := x = 0 \/ x = 1.
Definition flags_boolean (st : kbd_state) : Prop :=
  is_flag (shift_pressed st) /\ is_flag (ctrl_pressed st) /\
  is_flag (alt_pressed st) /\ is_flag (caps_lock st).

Definition is_shift_key (sc : Z) : Prop := sc = SC_LSHIFT \/ sc = SC_RSHIFT.

End Keyboard.

(** ** Physical frame allocator (pmm.c) *)

Module Pmm.

Definition PMM_PAGE_SIZE : Z := 4096.
Definition PMM_PAGES_PER_BYTE : Z := 8.
Definition PMM_START_ADDR : Z := 0x200000.
Definition PMM_MEMORY_SIZE : Z := 14 * 1024 * 1024.
Definition PMM_TOTAL_PAGES : Z := PMM_MEMORY_SIZE / PMM_PAGE_SIZE.
Definition PMM_BITMAP_SIZE : Z := PMM_TOTAL_PAGES / PMM_PAGES_PER_BYTE.

(** The three globals; [pmm_bitmap] is an array of [PMM_BITMAP_SIZE] bytes. *)
Record pmm_state : Type := mk_pmm {
  pmm_bitmap : list Z;
  pmm_free_count : Z;
  pmm_total_pages : Z
}.

Definition pmm_set_bit (bm : list Z) (page : Z) : list Z :=
  zset bm (page / 8)
       (wrap8 (Z.lor (zget bm (page / 8)) (Z.shiftl 1 (page mod 8)))).

Definition pmm_clear_bit (bm : list Z) (page : Z) : list Z :=
  zset bm (page / 8)
       (wrap8 (Z.land (zget bm (page / 8)) (Z.lnot (Z.shiftl 1 (page mod 8))))).

(** The result is an [int]: non-zero when the frame is in use. *)
Definition pmm_test_bit (bm : list Z) (page : Z) : Z :=
  Z.land (zget bm (page / 8)) (Z.shiftl 1 (page mod 8)).

Definition pmm_init : pmm_state :=
  mk_pmm (repeat 0 (Z.to_nat PMM_BITMAP_SIZE)) PMM_TOTAL_PAGES PMM_TOTAL_PAGES.

(** The [for] loop of [pmm_alloc_page], with [n] iterations left and [i] the
    loop variable; the result pairs the new state with the returned pointer
    (0 is NULL). *)
Fixpoint alloc_page_loop (n : nat) (i : Z) (st : pmm_state) : pmm_state * Z :=
  match n with
  | O => (st, 0)
  | S n' =>
      if pmm_test_bit (pmm_bitmap st) i =? 0 then
        (mk_pmm (pmm_set_bit (pmm_bitmap st) i)
                (wrap64 (pmm_free_count st - 1)) (pmm_total_pages st),
         PMM_START_ADDR + i * PMM_PAGE_SIZE)
      else alloc_page_loop n' (i + 1) st
  end.

Definition pmm_alloc_page (st : pmm_state) : pmm_state * Z :=
  if pmm_free_count st =? 0 then (st, 0)
  else alloc_page_loop (Z.to_nat PMM_TOTAL_PAGES) 0 st.

(** The inner loop of [pmm_alloc_pages]: [pmm_set_bit] on [n] frames from
    [j] on. *)
Fixpoint set_bits (n : nat) (j : Z) (bm : list Z) : list Z :=
  match n with
  | O => bm
  | S n' => set_bits n' (j + 1) (pmm_set_bit bm j)
  end.

(** The outer loop of [pmm_alloc_pages], with its three variables. *)
Fixpoint alloc_pages_loop (n : nat) (i consecutive start : Z) (count : Z)
         (st : pmm_state) : pmm_state * Z :=
  match n with
  | O => (st, 0)
  | S n' =>
      if pmm_test_bit (pmm_bitmap st) i =? 0 then
        let start := if consecutive =? 0 then i else start in
        let consecutive := consecutive + 1 in
        if consecutive =? count then
          (mk_pmm (set_bits (Z.to_nat count) start (pmm_bitmap st))
                  (wrap64 (pmm_free_count st - count)) (pmm_total_pages st),
           PMM_START_ADDR + start * PMM_PAGE_SIZE)
        else alloc_pages_loop n' (i + 1) consecutive start count st
      else alloc_pages_loop n' (i + 1) 0 start count st
  end.

Definition pmm_alloc_pages (st : pmm_state) (count : Z) : pmm_state * Z :=
  if (count =? 0) || (pmm_free_count st <? count) then (st, 0)
  else alloc_pages_loop (Z.to_nat PMM_TOTAL_PAGES) 0 0 0 count st.

Definition pmm_free_page (st : pmm_state) (addr : Z) : pmm_state :=
  if (addr <? PMM_START_ADDR) || (addr >=? PMM_START_ADDR + PMM_MEMORY_SIZE)
  then st
  else
    let page := (addr - PMM_START_ADDR) / PMM_PAGE_SIZE in
    if negb (pmm_test_bit (pmm_bitmap st) page =? 0) then
      mk_pmm (pmm_clear_bit (pmm_bitmap st) page)
             (wrap64 (pmm_free_count st + 1)) (pmm_total_pages st)
    else st.

(** The loop of [pmm_free_pages]; the pointer arithmetic is on 64 bits. *)
Fixpoint free_pages_loop (n : nat) (i : Z) (addr : Z) (st : pmm_state)
  : pmm_state :=
  match n with
  | O => st
  | S n' =>
      free_pages_loop n' (i + 1) addr
        (pmm_free_page st (wrap64 (addr + wrap64 (i * PMM_PAGE_SIZE))))
  end.

Definition pmm_free_pages (st : pmm_state) (addr count : Z) : pmm_state :=
  free_pages_loop (Z.to_nat count) 0 addr st.

Definition pmm_get_free_pages (st : pmm_state) : Z := pmm_free_count st.

(** *** Vocabulary of the properties *)

(** Frame [p] is marked used in the bitmap. *)
Definition frame_used (bm : list Z) (p : Z) : bool :=
  negb (pmm_test_bit bm p =? 0).

Definition frames : list Z :=
  map Z.of_nat (seq 0 (Z.to_nat PMM_TOTAL_PAGES)).

(** Number of cleared bits among the [PMM_TOTAL_PAGES] bits of the bitmap. *)
Definition cleared_bits (bm : list Z) : Z :=
  Z.of_nat (length (filter (fun p => negb (frame_used bm p)) frames)).

(** [p] is the index of a frame of the managed window. *)
Definition in_window (p : Z) : Prop := 0 <= p < PMM_TOTAL_PAGES.

(** The frames [s .. s+n-1] all lie in the window and are free. *)
Definition free_run (bm : list Z) (s n : Z) : Prop :=
  0 <= s /\ s + n <= PMM_TOTAL_PAGES /\
  forall p, s <= p < s + n -> frame_used bm p = false.

(** The calls a client of the allocator can make. *)
Inductive pmm_op : Type :=
| AllocPage
| AllocPages (count : Z)
| FreePage (addr : Z)
| FreePages (addr count : Z).

(** Arguments are [size_t] values and pointers. *)
Definition op_in_range (o : pmm_op) : Prop :=
  match o with
  | AllocPage => True
  | AllocPages count => 0 <= count < 2 ^ 64
  | FreePage addr => 0 <= addr < 2 ^ 64
  | FreePages addr count => 0 <= addr < 2 ^ 64 /\ 0 <= count < 2 ^ 64
  end.

Definition pmm_step (st : pmm_state) (o : pmm_op) : pmm_state :=
  match o with
  | AllocPage => fst (pmm_alloc_page st)
  | AllocPages count => fst (pmm_alloc_pages st count)
  | FreePage addr => pmm_free_page st addr
  | FreePages addr count => pmm_free_pages st addr count
  end.

(** States reached from [pmm_init] by any sequence of calls. *)
Inductive pmm_reachable : pmm_state -> Prop :=
| reach_init : pmm_reachable pmm_init
| reach_step st o :
    pmm_reachable st -> op_in_range o -> pmm_reachable (pmm_step st o).

(** The state invariant: the bitmap has its declared shape and the counter
    agrees with it. *)
Definition bitmap_ok (bm : list Z) : Prop :=
  length bm = Z.to_nat PMM_BITMAP_SIZE /\ Forall (fun b => 0 <= b < 256) bm.

Definition pmm_inv (st : pmm_state) : Prop :=
  bitmap_ok (pmm_bitmap st) /\
  pmm_free_count st = cleared_bits (pmm_bitmap st).

End Pmm.

(** ** Virtio-net send and receive (virtio_net.c) *)

Module VirtioNet.

Definition VIRTIO_PCI_QUEUE_NOTIFY : Z := 0x10.
Definition VIRTQ_DESC_F_WRITE : Z := 0x02.
Definition NET_BUFFER_SIZE : Z := 2048.

(** [sizeof(virtio_net_hdr_t)]: two bytes and four 16-bit fields, packed. *)
Definition NET_HDR_SIZE : Z := 10.

Record virtq_desc_t : Type := mk_desc {
  d_addr : Z;
  d_len : Z;
  d_flags : Z;
  d_next : Z
}.

Record virtq_avail_t : Type := mk_avail {
  a_flags : Z;
  a_idx : Z;
  a_ring : list Z;
  a_used_event : Z
}.

Record virtq_used_elem_t : Type := mk_used_elem {
  e_id : Z;
  e_len : Z
}.

Record virtq_used_t : Type := mk_used {
  u_flags : Z;
  u_idx : Z;
  u_ring : list virtq_used_elem_t;
  u_avail_event : Z
}.

(** A virtqueue with the three rings it points to; [buffers] is the side
    table of slot buffer addresses. *)
Record virtq_t : Type := mk_virtq {
  desc : list virtq_desc_t;
  avail : virtq_avail_t;
  used : virtq_used_t;
  size : Z;
  last_used_idx : Z;
  buffers : list Z
}.

Inductive queue : Type := RXQ | TXQ.

(** Effects in program order: stores to the slot buffers, to a descriptor
    field, to the available ring and its index, the compiler barrier, and
    writes to an I/O port. *)
Inductive event : Type :=
| EvMemset (dst c n : Z)
| EvMemcpy (dst : Z) (bytes : list Z)
| EvDescAddr (q : queue) (i v : Z)
| EvDescLen (q : queue) (i v : Z)
| EvDescFlags (q : queue) (i v : Z)
| EvDescNext (q : queue) (i v : Z)
| EvAvailRing (q : queue) (slot v : Z)
| EvBarrier
| EvAvailIdx (q : queue) (v : Z)
| EvOutw (port v : Z).

(** The driver's globals, the memory that holds the slot buffers ([dma], one
    byte per address), and the effects so far, oldest first.  The rings and
    the slot buffers are separate objects, as [virtq_init] allocates them. *)
Record net_state : Type := mk_net {
  virtio_initialized : Z;
  io_base : Z;
  rx_queue : virtq_t;
  tx_queue : virtq_t;
  tx_idx : Z;
  dma : Z -> Z;
  trace : list event
}.

(** *** A state and error monad; [None] is an access outside an array or a
    division by zero, on which the C code has no defined result. *)
Definition M (A : Type) : Type := net_state -> option (A * net_state).

Definition ret {A} (a : A) : M A := fun st => Some (a, st).
Definition bind {A B} (m : M A) (k : A -> M B) : M B :=
  fun st => match m st with
            | Some (a, st') => k a st'
            | None => None
            end.
Definition fail {A} : M A := fun _ => None.
Definition gets {A} (f : net_state -> A) : M A := fun st => Some (f st, st).
Definition modify (f : net_state -> net_state) : M unit :=
  fun st => Some (tt, f st).

Notation "x <- m ;; k" := (bind m (fun x => k))
  (at level 61, m at next level, right associativity).
Notation "m ;;; k" := (bind m (fun _ => k))
  (at level 61, right associativity).

Definition get_queue (q : queue) (st : net_state) : virtq_t :=
  match q with RXQ => rx_queue st | TXQ => tx_queue st end.

Definition set_queue (q : queue) (v : virtq_t) (st : net_state) : net_state :=
  match q with
  | RXQ => mk_net (virtio_initialized st) (io_base st) v (tx_queue st)
                  (tx_idx st) (dma st) (trace st)
  | TXQ => mk_net (virtio_initialized st) (io_base st) (rx_queue st) v
                  (tx_idx st) (dma st) (trace st)
  end.

Definition log (e : event) (st : net_state) : net_state :=
  mk_net (virtio_initialized st) (io_base st) (rx_queue st) (tx_queue st)
         (tx_idx st) (dma st) (trace st ++ [e]).

Definition set_dma (m : Z -> Z) (st : net_state) : net_state :=
  mk_net (virtio_initialized st) (io_base st) (rx_queue st) (tx_queue st)
         (tx_idx st) m (trace st).

Definition set_tx_idx (v : Z) (st : net_state) : net_state :=
  mk_net (virtio_initialized st) (io_base st) (rx_queue st) (tx_queue st)
         v (dma st) (trace st).

Definition in_bounds {A} (i : Z) (l : list A) : bool :=
  (0 <=? i) && (i <? Z.of_nat (length l)).

(** [vq->buffers[i]] *)
Definition read_buffer (q : queue) (i : Z) : M Z :=
  fun st => if in_bounds i (buffers (get_queue q st))
            then Some (nth (Z.to_nat i) (buffers (get_queue q st)) 0, st)
            else None.

Definition update_desc (q : queue) (i : Z) (f : virtq_desc_t -> virtq_desc_t)
           (e : event) : M unit :=
  fun st =>
    let vq := get_queue q st in
    if in_bounds i (desc vq) then
      let d := nth (Z.to_nat i) (desc vq) (mk_desc 0 0 0 0) in
      Some (tt, log e (set_queue q
                  (mk_virtq (list_set (desc vq) (Z.to_nat i) (f d)) (avail vq)
                            (used vq) (size vq) (last_used_idx vq) (buffers vq))
                  st))
    else None.

(** [vq->desc[i].addr = v] and the three other fields *)
Definition write_desc_addr (q : queue) (i v : Z) : M unit :=
  update_desc q i (fun d => mk_desc v (d_len d) (d_flags d) (d_next d))
              (EvDescAddr q i v).
Definition write_desc_len (q : queue) (i v : Z) : M unit :=
  update_desc q i (fun d => mk_desc (d_addr d) v (d_flags d) (d_next d))
              (EvDescLen q i v).
Definition write_desc_flags (q : queue) (i v : Z) : M unit :=
  update_desc q i (fun d => mk_desc (d_addr d) (d_len d) v (d_next d))
              (EvDescFlags q i v).
Definition write_desc_next (q : queue) (i v : Z) : M unit :=
  update_desc q i (fun d => mk_desc (d_addr d) (d_len d) (d_flags d) v)
              (EvDescNext q i v).

(** [vq->avail->ring[slot] = v] *)
Definition write_avail_ring (q : queue) (slot v : Z) : M unit :=
  fun st =>
    let vq := get_queue q st in
    if in_bounds slot (a_ring (avail vq)) then
      Some (tt, log (EvAvailRing q slot v) (set_queue q
                  (mk_virtq (desc vq)
                     (mk_avail (a_flags (avail vq)) (a_idx (avail vq))
                               (list_set (a_ring (avail vq)) (Z.to_nat slot) v)
                               (a_used_event (avail vq)))
                     (used vq) (size vq) (last_used_idx vq) (buffers vq))
                  st))
    else None.

(** [vq->avail->idx = v] *)
Definition write_avail_idx (q : queue) (v : Z) : M unit :=
  modify (fun st =>
    let vq := get_queue q st in
    log (EvAvailIdx q v) (set_queue q
      (mk_virtq (desc vq)
         (mk_avail (a_flags (avail vq)) v (a_ring (avail vq))
                   (a_used_event (avail vq)))
         (used vq) (size vq) (last_used_idx vq) (buffers vq))
      st)).

Definition write_last_used_idx (q : queue) (v : Z) : M unit :=
  modify (fun st =>
    let vq := get_queue q st in
    set_queue q (mk_virtq (desc vq) (avail vq) (used vq) (size vq) v
                          (buffers vq)) st).

(** [vq->used->ring[i]] *)
Definition read_used_ring (q : queue) (i : Z) : M virtq_used_elem_t :=
  fun st => if in_bounds i (u_ring (used (get_queue q st)))
            then Some (nth (Z.to_nat i) (u_ring (used (get_queue q st)))
                           (mk_used_elem 0 0), st)
            else None.

(** [__asm__ volatile("" ::: "memory")] *)
Definition barrier : M unit := modify (log EvBarrier).

Definition outw (port v : Z) : M unit := modify (log (EvOutw port v)).

(** The C remainder on non-negative [int] operands. *)
Definition c_mod (a b : Z) : M Z :=
  if b =? 0 then fail else ret (Z.rem a b).

Fixpoint store_bytes (m : Z -> Z) (a : Z) (bytes : list Z) : Z -> Z :=
  match bytes with
  | [] => m
  | b :: rest => store_bytes (fun x => if x =? a then b else m x) (a + 1) rest
  end.

Definition load_bytes (m : Z -> Z) (a : Z) (n : Z) : list Z :=
  map (fun k => m (a + Z.of_nat k)) (seq 0 (Z.to_nat n)).

Definition memset (dst c n : Z) : M unit :=
  modify (fun st =>
    log (EvMemset dst c n)
        (set_dma (store_bytes (dma st) dst (repeat (wrap8 c) (Z.to_nat n))) st)).

Definition memcpy_to (dst : Z) (bytes : list Z) : M unit :=
  modify (fun st =>
    log (EvMemcpy dst bytes) (set_dma (store_bytes (dma st) dst bytes) st)).

(** [virtq_add_rx_buffer] *)
Definition virtq_add_rx_buffer (q : queue) (idx : Z) : M unit :=
  buf <- read_buffer q idx ;;
  write_desc_addr q idx buf ;;;
  write_desc_len q idx NET_BUFFER_SIZE ;;;
  write_desc_flags q idx VIRTQ_DESC_F_WRITE ;;;
  write_desc_next q idx 0 ;;;
  avail_idx <- gets (fun st => a_idx (avail (get_queue q st))) ;;
  sz <- gets (fun st => size (get_queue q st)) ;;
  slot <- c_mod avail_idx sz ;;
  write_avail_ring q slot (wrap16 idx) ;;;
  barrier ;;;
  write_avail_idx q (wrap16 (avail_idx + 1)).

(** [virtio_net_send]; [data] is the [len] bytes the caller points to, and
    the static local [tx_idx] is part of the state. *)
Definition virtio_net_send (data : list Z) : M Z :=
  let len := Z.of_nat (length data) in
  init <- gets virtio_initialized ;;
  if (init =? 0) || (len >? NET_BUFFER_SIZE - NET_HDR_SIZE) then ret (-1)
  else
    i <- gets tx_idx ;;
    buffer <- read_buffer TXQ i ;;
    memset buffer 0 NET_HDR_SIZE ;;;
    memcpy_to (buffer + NET_HDR_SIZE) data ;;;
    write_desc_addr TXQ i buffer ;;;
    write_desc_len TXQ i (wrap32 (NET_HDR_SIZE + len)) ;;;
    write_desc_flags TXQ i 0 ;;;
    write_desc_next TXQ i 0 ;;;
    avail_idx <- gets (fun st => a_idx (avail (tx_queue st))) ;;
    sz <- gets (fun st => size (tx_queue st)) ;;
    slot <- c_mod avail_idx sz ;;
    write_avail_ring TXQ slot (wrap16 i) ;;;
    barrier ;;;
    write_avail_idx TXQ (wrap16 (avail_idx + 1)) ;;;
    base <- gets io_base ;;
    outw (wrap16 (base + VIRTIO_PCI_QUEUE_NOTIFY)) 1 ;;;
    sz' <- gets (fun st => size (tx_queue st)) ;;
    next <- c_mod (i + 1) sz' ;;
    modify (set_tx_idx next) ;;;
    ret 0.

(** [virtio_net_receive]; the result pairs the returned [int] with the bytes
    copied into the caller's buffer. *)
Definition virtio_net_receive (max_len : Z) : M (Z * list Z) :=
  init <- gets virtio_initialized ;;
  if init =? 0 then ret (-1, [])
  else
    last <- gets (fun st => last_used_idx (rx_queue st)) ;;
    uidx <- gets (fun st => u_idx (used (rx_queue st))) ;;
    if last =? uidx then ret (0, [])
    else
      sz <- gets (fun st => size (rx_queue st)) ;;
      used_idx <- c_mod last sz ;;
      elem <- read_used_ring RXQ used_idx ;;
      let desc_idx := e_id elem in
      let len := e_len elem in
      write_last_used_idx RXQ (wrap16 (last + 1)) ;;;
      r <- (if len >? NET_HDR_SIZE then
              let len := wrap32 (len - NET_HDR_SIZE) in
              let len := if len >? max_len then max_len else len in
              buf <- read_buffer RXQ desc_idx ;;
              m <- gets dma ;;
              ret (len, load_bytes m (buf + NET_HDR_SIZE) len)
            else ret (0, [])) ;;
      (* the [uint32_t] index becomes the [int] argument; both index the
         same slot whenever the slot exists *)
      virtq_add_rx_buffer RXQ desc_idx ;;;
      base <- gets io_base ;;
      outw (wrap16 (base + VIRTIO_PCI_QUEUE_NOTIFY)) 0 ;;;
      ret r.

(** *** Vocabulary of the properties *)

(** The shape [virtq_init] gives a queue: [size] slots in each table, [size]
    being a non-zero [uint16_t]. *)
Definition queue_ok (vq : virtq_t) : Prop :=
  0 < size vq < 2 ^ 16 /\
  Z.of_nat (length (desc vq)) = size vq /\
  Z.of_nat (length (a_ring (avail vq))) = size vq /\
  Z.of_nat (length (u_ring (used vq))) = size vq /\
  Z.of_nat (length (buffers vq)) = size vq.

(** A queue of [n] slots as [virtq_init] leaves it, with slot buffers at
    [base], [base + stride], ... *)
Definition fresh_queue (n : nat) (base stride : Z) : virtq_t :=
  mk_virtq (repeat (mk_desc 0 0 0 0) n)
           (mk_avail 0 0 (repeat 0 n) 0)
           (mk_used 0 0 (repeat (mk_used_elem 0 0) n) 0)
           (Z.of_nat n) 0
           (map (fun k => base + Z.of_nat k * stride) (seq 0 n)).

(** The effect of [virtq_add_rx_buffer] on a queue with slot [idx]. *)
Definition rx_refill (vq : virtq_t) (idx : Z) : virtq_t :=
  mk_virtq
    (list_set (desc vq) (Z.to_nat idx)
       (mk_desc (nth (Z.to_nat idx) (buffers vq) 0) NET_BUFFER_SIZE
                VIRTQ_DESC_F_WRITE 0))
    (mk_avail (a_flags (avail vq)) (wrap16 (a_idx (avail vq) + 1))
       (list_set (a_ring (avail vq))
          (Z.to_nat (Z.rem (a_idx (avail vq)) (size vq))) (wrap16 idx))
       (a_used_event (avail vq)))
    (used vq) (size vq) (last_used_idx vq) (buffers vq).

Definition rx_refill_events (q : queue) (vq : virtq_t) (idx : Z) : list event :=
  [EvDescAddr q idx (nth (Z.to_nat idx) (buffers vq) 0);
   EvDescLen q idx NET_BUFFER_SIZE;
   EvDescFlags q idx VIRTQ_DESC_F_WRITE;
   EvDescNext q idx 0;
   EvAvailRing q (Z.rem (a_idx (avail vq)) (size vq)) (wrap16 idx);
   EvBarrier;
   EvAvailIdx q (wrap16 (a_idx (avail vq) + 1))].

(** An initialised driver with two queues of 16 slots and nothing sent or
    received yet. *)
Definition idle_state : net_state :=
  mk_net 1 0xC000 (fresh_queue 16 0x500000 2048) (fresh_queue 16 0x600000 2048)
         0 (fun _ => 0) [].

(** The same driver after the device has used RX slot 3 and reported a length
    of 10 bytes, the header alone. *)
Definition short_packet_state : net_state :=
  let rx := rx_queue idle_state in
  mk_net 1 0xC000
         (mk_virtq (desc rx) (avail rx)
                   (mk_used 0 1 (list_set (u_ring (used rx)) 0 (mk_used_elem 3 10)) 0)
                   (size rx) (last_used_idx rx) (buffers rx))
         (tx_queue idle_state) 0 (fun _ => 0) [].

End VirtioNet.

(** ** Kernel heap (heap.c) *)

Module Heap.

(** *** Byte-addressed memory *)

(** One byte per address; multi-byte values are little-endian (x86_64). *)
Definition mem : Type := Z -> Z.

Definition upd (m : mem) (a b : Z) : mem :=
  fun x => if x =? a then b else m x.

Fixpoint load (n : nat) (m : mem) (a : Z) : Z :=
  match n with
  | O => 0
  | S n' => m a mod 256 + 256 * load n' m (a + 1)
  end.

Fixpoint store (n : nat) (m : mem) (a v : Z) : mem :=
  match n with
  | O => m
  | S n' => store n' (upd m a (v mod 256)) (a + 1) (v / 256)
  end.

(** [memset(p, 0, n)] *)
Definition mem_zero (m : mem) (p n : Z) : mem :=
  fun x => if (p <=? x) && (x <? p + n) then 0 else m x.

(** *** The block header

    [struct heap_block { size_t size; int free; struct heap_block* next; }]
    on x86_64: [size] at offset 0, [free] at offset 8 (four bytes, then four
    bytes of padding), [next] at offset 16; 24 bytes in all. *)
Definition HEADER_SIZE : Z := 24.
Definition MIN_BLOCK_SIZE : Z := 16.

Definition get_size (m : mem) (block : Z) : Z := load 8 m block.
Definition get_free (m : mem) (block : Z) : Z := load 4 m (block + 8).
Definition get_next (m : mem) (block : Z) : Z := load 8 m (block + 16).

Definition set_size (m : mem) (block v : Z) : mem := store 8 m block v.
Definition set_free (m : mem) (block v : Z) : mem := store 4 m (block + 8) v.
Definition set_next (m : mem) (block v : Z) : mem := store 8 m (block + 16) v.

(** The allocator's globals together with the memory they point into. *)
Record heap_state : Type := mk_heap {
  memory : mem;
  heap_start : Z;
  heap_size : Z;
  heap_used : Z
}.

(** [(size + 15) & ~15] on [size_t] *)
Definition align_size (size : Z) : Z :=
  Z.land (wrap64 (size + 15)) (wrap64 (Z.lnot 15)).

Definition heap_init (m : mem) (start size : Z) : heap_state :=
  let m := set_size m start (wrap64 (size - HEADER_SIZE)) in
  let m := set_free m start 1 in
  let m := set_next m start 0 in
  mk_heap m start size HEADER_SIZE.

(** [find_free_block]: the [while] loop with [fuel] iterations allowed;
    [None] when they do not suffice, [Some 0] for NULL. *)
Fixpoint find_free_block (fuel : nat) (m : mem) (block size : Z) : option Z :=
  match fuel with
  | O => None
  | S fuel' =>
      if block =? 0 then Some 0
      else if negb (get_free m block =? 0) && (get_size m block >=? size)
           then Some block
           else find_free_block fuel' m (get_next m block) size
  end.

Definition split_block (m : mem) (block size : Z) : mem :=
  let remaining := wrap64 (get_size m block - size - HEADER_SIZE) in
  if remaining >=? MIN_BLOCK_SIZE then
    let new_block := wrap64 (block + HEADER_SIZE + size) in
    let m := set_size m new_block remaining in
    let m := set_free m new_block 1 in
    let m := set_next m new_block (get_next m block) in
    let m := set_size m block size in
    set_next m block new_block
  else m.

(** [merge_free_blocks]: the loop from [block] on, with [fuel] iterations
    allowed. *)
Fixpoint merge_loop (fuel : nat) (m : mem) (block : Z) : option mem :=
  match fuel with
  | O => None
  | S fuel' =>
      if block =? 0 then Some m
      else if get_next m block =? 0 then Some m
      else if negb (get_free m block =? 0) &&
              negb (get_free m (get_next m block) =? 0)
      then
        let m := set_size m block
                   (wrap64 (get_size m block +
                            wrap64 (HEADER_SIZE + get_size m (get_next m block)))) in
        let m := set_next m block (get_next m (get_next m block)) in
        merge_loop fuel' m block
      else merge_loop fuel' m (get_next m block)
  end.

Definition merge_free_blocks (fuel : nat) (st : heap_state) : option mem :=
  merge_loop fuel (memory st) (heap_start st).

(** [kmalloc]; the result pairs the new state with the returned pointer. *)
Definition kmalloc (fuel : nat) (st : heap_state) (size : Z)
  : option (heap_state * Z) :=
  if size =? 0 then Some (st, 0)
  else
    let size := align_size size in
    match find_free_block fuel (memory st) (heap_start st) size with
    | None => None
    | Some block =>
        if block =? 0 then Some (st, 0)
        else
          let m := split_block (memory st) block size in
          let m := set_free m block 0 in
          Some (mk_heap m (heap_start st) (heap_size st)
                        (wrap64 (heap_used st +
                                 wrap64 (get_size m block + HEADER_SIZE))),
                wrap64 (block + HEADER_SIZE))
    end.

Definition kcalloc (fuel : nat) (st : heap_state) (count size : Z)
  : option (heap_state * Z) :=
  let total := wrap64 (count * size) in
  match kmalloc fuel st total with
  | None => None
  | Some (st', ptr) =>
      if ptr =? 0 then Some (st', ptr)
      else Some (mk_heap (mem_zero (memory st') ptr total) (heap_start st')
                         (heap_size st') (heap_used st'), ptr)
  end.

Definition kfree (fuel : nat) (st : heap_state) (ptr : Z) : option heap_state :=
  if ptr =? 0 then Some st
  else
    let block := wrap64 (ptr - HEADER_SIZE) in
    if (block <? heap_start st) ||
       (block >=? wrap64 (heap_start st + heap_size st))
    then Some st
    else if get_free (memory st) block =? 0 then
      let m := set_free (memory st) block 1 in
      let used := wrap64 (heap_used st - wrap64 (get_size m block + HEADER_SIZE)) in
      match merge_loop fuel m (heap_start st) with
      | None => None
      | Some m' => Some (mk_heap m' (heap_start st) (heap_size st) used)
      end
    else Some st.

(** [heap_stats]: total, used and free bytes. *)
Definition heap_stats (st : heap_state) : Z * Z * Z :=
  (heap_size st, heap_used st, wrap64 (heap_size st - heap_used st)).

(** *** Walking the block list *)

(** The headers met from [block] on, following [next] until NULL, as
    (address, payload size, free flag); [None] when [fuel] links do not reach
    NULL. *)
Fixpoint walk (fuel : nat) (m : mem) (block : Z) : option (list (Z * Z * Z)) :=
  match fuel with
  | O => None
  | S fuel' =>
      if block =? 0 then Some []
      else match walk fuel' m (get_next m block) with
           | None => None
           | Some l => Some ((block, get_size m block, get_free m block) :: l)
           end
  end.

(** Sum of header size plus payload size over the non-free blocks. *)
Fixpoint used_bytes (l : list (Z * Z * Z)) : Z :=
  match l with
  | [] => 0
  | (_, size, free) :: rest =>
      (if free =? 0 then HEADER_SIZE + size else 0) + used_bytes rest
  end.


(** *** The block list as a sequence

    A well-formed heap is a sequence of blocks, each given by its payload size
    and free flag, laid out back to back from [heap_start]: a block at address
    [a] is followed by the block at [a + HEADER_SIZE + size], and the last
    block's [next] is NULL. *)
Record block : Type := mk_block {
  b_size : Z;
  b_free : bool
}.

Definition flag (f : bool) : Z := if f then 1 else 0.
Definition span (b : block) : Z := HEADER_SIZE + b_size b.

Fixpoint total (bl : list block) : Z :=
  match bl with
  | [] => 0
  | b :: rest => span b + total rest
  end.

Definition nonempty {A} (l : list A) : bool :=
  match l with [] => false | _ => true end.

(** [chain m a bl more]: the headers of [bl] sit back to back in [m] from
    address [a] on and are linked in this order; [more] tells whether the last
    of them links to a further block or to NULL. *)
Fixpoint chain (m : mem) (a : Z) (bl : list block) (more : bool) : Prop :=
  match bl with
  | [] => True
  | b :: rest =>
      0 <= b_size b /\
      get_size m a = b_size b /\
      get_free m a = flag (b_free b) /\
      get_next m a = (if nonempty rest || more then a + span b else 0) /\
      chain m (a + span b) rest more
  end.

(** The state [st] holds the block sequence [bl]. *)
Definition heap_repr (st : heap_state) (bl : list block) : Prop :=
  bl <> [] /\ 0 < heap_start st /\
  heap_start st + heap_size st + HEADER_SIZE <= 2 ^ 64 /\
  total bl = heap_size st /\
  chain (memory st) (heap_start st) bl false.

(** Bytes in use according to the sequence. *)
Fixpoint used_sum (bl : list block) : Z :=
  match bl with
  | [] => 0
  | b :: rest => (if b_free b then 0 else span b) + used_sum rest
  end.

(** Every block of the sequence starts at a multiple of 8 from [off]. *)
Fixpoint offsets_aligned (bl : list block) (off : Z) : Prop :=
  match bl with
  | [] => True
  | b :: rest => off mod 8 = 0 /\ offsets_aligned rest (off + span b)
  end.

(** First fit on the sequence: the blocks before the chosen one, the chosen
    block, and the blocks after it. *)
Fixpoint first_fit (bl : list block) (size : Z)
  : option (list block * block * list block) :=
  match bl with
  | [] => None
  | b :: rest =>
      if b_free b && (b_size b >=? size) then Some ([], b, rest)
      else match first_fit rest size with
           | Some (pre, c, post) => Some (b :: pre, c, post)
           | None => None
           end
  end.

(** What the chosen block becomes: the used block of [size] bytes followed by
    the free remainder, or the whole block when the remainder is too small. *)
Definition carve (b : block) (size : Z) : list block :=
  if b_size b - size - HEADER_SIZE >=? MIN_BLOCK_SIZE
  then [mk_block size false; mk_block (b_size b - size - HEADER_SIZE) true]
  else [mk_block (b_size b) false].

(** The coalescing pass, with [cur] the block under the cursor. *)
Fixpoint coalesce (cur : block) (rest : list block) : list block :=
  match rest with
  | [] => [cur]
  | b :: rest' =>
      if b_free cur && b_free b
      then coalesce (mk_block (b_size cur + (HEADER_SIZE + b_size b)) true) rest'
      else cur :: coalesce b rest'
  end.

Definition coalesce_all (bl : list block) : list block :=
  match bl with
  | [] => []
  | b :: rest => coalesce b rest
  end.

(** The invariant of an intact heap: the state holds a sequence, the used
    counter is the first header plus the bytes of the non-free blocks, and
    headers are 8 bytes apart modulo 8. *)
Definition heap_inv (st : heap_state) (bl : list block) : Prop :=
  heap_repr st bl /\
  heap_used st = HEADER_SIZE + used_sum bl /\
  offsets_aligned bl 0.

(** The address [find_free_block] returns on a sequence. *)
Definition fit_address (a : Z) (bl : list block) (size : Z) : Z :=
  match first_fit bl size with
  | Some (pre, _, _) => a + total pre
  | None => 0
  end.

(** What [walk] returns on a sequence that starts at [a]. *)
Fixpoint entries (a : Z) (bl : list block) : list (Z * Z * Z) :=
  match bl with
  | [] => []
  | b :: rest => (a, b_size b, flag (b_free b)) :: entries (a + span b) rest
  end.

(** A [kfree] that changes nothing: a NULL pointer, a header outside the heap
    region, or a block that is already free. *)
Definition free_noop (st : heap_state) (bl : list block) (ptr : Z) : Prop :=
  ptr = 0 \/ wrap64 (ptr - HEADER_SIZE) < heap_start st \/
  wrap64 (heap_start st + heap_size st) <= wrap64 (ptr - HEADER_SIZE) \/
  exists pre b post,
    bl = pre ++ b :: post /\ b_free b = true /\
    ptr = heap_start st + total pre + HEADER_SIZE.

(** *** Calls that keep the list intact *)

(** The first-fit block, if there is one, exceeds the rounded request by at
    least the header size, so that the subtraction in [split_block] does not
    wrap. *)
Definition request_ok (fuel : nat) (st : heap_state) (size : Z) : Prop :=
  match find_free_block fuel (memory st) (heap_start st) (align_size size) with
  | Some blk =>
      blk = 0 \/ align_size size + HEADER_SIZE <= get_size (memory st) blk
  | None => False
  end.

(** [ptr] is NULL, or its header lies outside the heap region, or it is the
    payload address of a block of the list. *)
Definition pointer_ok (fuel : nat) (st : heap_state) (ptr : Z) : Prop :=
  ptr = 0 \/
  (wrap64 (ptr - HEADER_SIZE) < heap_start st \/
   wrap64 (heap_start st + heap_size st) <= wrap64 (ptr - HEADER_SIZE)) \/
  exists l, walk fuel (memory st) (heap_start st) = Some l /\
            In (ptr - HEADER_SIZE) (map (fun e => fst (fst e)) l).

(** The region handed to [heap_init]: not at NULL, room for one header, and
    inside the address space. *)
Definition region_ok (start size : Z) : Prop :=
  0 < start /\ HEADER_SIZE <= size /\ start + size + HEADER_SIZE <= 2 ^ 64.

(** States reached from [heap_init] by calls that return and keep the list
    intact. *)
Inductive heap_reachable (m0 : mem) (start size : Z) : heap_state -> Prop :=
| reach_heap_init : heap_reachable m0 start size (heap_init m0 start size)
| reach_kmalloc fuel st n st' p :
    heap_reachable m0 start size st ->
    0 <= n < 2 ^ 64 -> request_ok fuel st n ->
    kmalloc fuel st n = Some (st', p) ->
    heap_reachable m0 start size st'
| reach_kcalloc fuel st count n st' p :
    heap_reachable m0 start size st ->
    wrap64 (count * n) <= 2 ^ 64 - 16 ->
    request_ok fuel st (wrap64 (count * n)) ->
    kcalloc fuel st count n = Some (st', p) ->
    heap_reachable m0 start size st'
| reach_kfree fuel st ptr st' :
    heap_reachable m0 start size st ->
    0 <= ptr < 2 ^ 64 -> pointer_ok fuel st ptr ->
    kfree fuel st ptr = Some st' ->
    heap_reachable m0 start size st'.

(** *** Call sequences *)

Definition obind {A B} (o : option A) (k : A -> option B) : option B :=
  match o with
  | Some a => k a
  | None => None
  end.

Notation "x <-- o ;; k" := (obind o (fun x => k))
  (at level 61, o at next level, right associativity).

(** [a = kmalloc(64); b = kmalloc(64); c = kmalloc(64); kfree(b); kfree(a);
    kfree(c)] on a fresh heap of 1 MiB at [base]. *)
Definition split_and_coalesce (fuel : nat) (m0 : mem) (base : Z)
  : option heap_state :=
  let st0 := heap_init m0 base (1024 * 1024) in
  r1 <-- kmalloc fuel st0 64 ;;
  r2 <-- kmalloc fuel (fst r1) 64 ;;
  r3 <-- kmalloc fuel (fst r2) 64 ;;
  st4 <-- kfree fuel (fst r3) (snd r2) ;;
  st5 <-- kfree fuel st4 (snd r1) ;;
  kfree fuel st5 (snd r3).

(** The three header fields of the block whose payload is at [ptr]. *)
Definition header_of (st : heap_state) (ptr : Z) : Z * Z * Z :=
  let blk := ptr - HEADER_SIZE in
  (get_size (memory st) blk, get_free (memory st) blk, get_next (memory st) blk).

(** [a = kmalloc(64); b = kmalloc(64); kfree(a); c = kmalloc(64)] on the
    kernel's heap (4 MiB at 0x400000, kernel.c), on zeroed memory: the three
    pointers, the headers of [a] and [b] before the last call, and the header
    of [b] after it. *)
Definition exact_fit_reuse (fuel : nat)
  : option (Z * Z * Z * (Z * Z * Z) * (Z * Z * Z) * (Z * Z * Z)) :=
  let st0 := heap_init (fun _ => 0) 0x400000 (4 * 1024 * 1024) in
  r1 <-- kmalloc fuel st0 64 ;;
  r2 <-- kmalloc fuel (fst r1) 64 ;;
  st3 <-- kfree fuel (fst r2) (snd r1) ;;
  r4 <-- kmalloc fuel st3 64 ;;
  Some (snd r1, snd r2, snd r4,
        header_of st3 (snd r1), header_of st3 (snd r2),
        header_of (fst r4) (snd r2)).

End Heap.

(** ** Shapes of the block list (heap.c) *)

Module HeapShape.

Import Heap.

(** The sequences an intact heap of [size] bytes goes through: the single
    free block left by [heap_init], the first-fit block carved by [kmalloc]
    and [kcalloc], and a used block marked free and the list coalesced by
    [kfree]. *)
Inductive seq_reachable (size : Z) : list block -> Prop :=
| seq_init :
    seq_reachable size [mk_block (size - HEADER_SIZE) true]
| seq_alloc bl req pre b post :
    seq_reachable size bl ->
    0 <= req -> req mod 16 = 0 ->
    first_fit bl req = Some (pre, b, post) ->
    req + HEADER_SIZE <= b_size b ->
    seq_reachable size (pre ++ carve b req ++ post)
| seq_free pre b post :
    seq_reachable size (pre ++ b :: post) ->
    b_free b = false ->
    seq_reachable size (coalesce_all (pre ++ mk_block (b_size b) true :: post)).

Definition head_free (bl : list block) : bool :=
  match bl with
  | b :: _ => b_free b
  | [] => false
  end.

Definition last_free (bl : list block) : bool :=
  b_free (last bl (mk_block 0 false)).

(** No two neighbours of the sequence are both free. *)
Fixpoint separated (bl : list block) : Prop :=
  match bl with
  | [] => True
  | b :: rest => b_free b && head_free rest = false /\ separated rest
  end.

(** The same on the headers met by [walk]. *)
Fixpoint no_free_neighbours (l : list (Z * Z * Z)) : Prop :=
  match l with
  | [] => True
  | (_, _, f1) :: rest =>
      match rest with
      | (_, _, f2) :: _ => f1 = 0 \/ f2 = 0
      | [] => True
      end /\ no_free_neighbours rest
  end.

(** The header words [merge_free_blocks] may write: the [size] and [next]
    fields of the blocks of a sequence laid out from [a]. *)
Definition link_word (a : Z) (bl : list block) (x : Z) : Prop :=
  exists pre b post,
    bl = pre ++ b :: post /\
    (a + total pre <= x < a + total pre + 8 \/
     a + total pre + 16 <= x < a + total pre + 24).

(** A header of the walk that a request of [size] bytes can take. *)
Definition fits (size : Z) (e : Z * Z * Z) : Prop :=
  snd e <> 0 /\ size <= snd (fst e).

(** Example states: the kernel's heap after a few calls.  [alloc] and
    [release] are [kmalloc] and [kfree] with fuel for eight blocks. *)
Definition fresh_heap : heap_state :=
  heap_init (fun _ => 0) 0x400000 (4 * 1024 * 1024).

Definition alloc (st : heap_state) (n : Z) : heap_state * Z :=
  match kmalloc 8 st n with
  | Some r => r
  | None => (st, 0)
  end.

Definition release (st : heap_state) (p : Z) : heap_state :=
  match kfree 8 st p with
  | Some s => s
  | None => st
  end.

(** Two allocations of 64 bytes, the first one freed: a free block of 64
    bytes, a used one, and the free rest. *)
Definition holed_heap : heap_state :=
  let a := alloc fresh_heap 64 in
  let b := alloc (fst a) 64 in
  release (fst b) (snd a).

(** One allocation that takes the whole heap: no free block is left. *)
Definition full_heap : heap_state := fst (alloc fresh_heap 4194256).

(** Four allocations of 64 bytes, then the first, the second and the fourth
    freed. *)
Definition merged_heap : heap_state :=
  let a := alloc fresh_heap 64 in
  let b := alloc (fst a) 64 in
  let c := alloc (fst b) 64 in
  let d := alloc (fst c) 64 in
  release (release (release (fst d) (snd a)) (snd b)) (snd d).

End HeapShape.

(** ** Reading from the keyboard (keyboard.c) *)

Module KeyboardReader.

Import Keyboard.

(** [keyboard_haschar]: the [int] value of [head != tail]. *)
Definition keyboard_haschar (st : kbd_state) : Z :=
  if kbd_buffer_head st =? kbd_buffer_tail st then 0 else 1.

(** The two statements of [keyboard_getchar] after its wait loop. *)
Definition take_char (st : kbd_state) : Z * kbd_state :=
  (zget (kbd_buffer st) (kbd_buffer_tail st),
   mk_kbd (kbd_buffer st) (kbd_buffer_head st)
          (Z.rem (kbd_buffer_tail st + 1) KBD_BUFFER_SIZE)
          (shift_pressed st) (ctrl_pressed st) (alt_pressed st) (caps_lock st)).

(** [keyboard_getchar].  [hlt] returns once an interrupt has been served;
    [irqs] lists the bytes the controller hands to the interrupt handler from
    the call on, and the result carries those not yet served.  [None]: the
    buffer is empty and no interrupt comes, the processor stays halted.
    Interrupts served while the caller is not halted are a [deliver] between
    two calls. *)
Fixpoint keyboard_getchar (irqs : list Z) (st : kbd_state)
  : option (Z * kbd_state * list Z) :=
  if negb (keyboard_haschar st =? 0) then
    Some (fst (take_char st), snd (take_char st), irqs)
  else
    match irqs with
    | [] => None
    | r :: rest => keyboard_getchar rest (keyboard_interrupt_handler r st)
    end.

(** The loop of [keyboard_readline] from position [pos] on, over the
    characters that the successive calls of [keyboard_getchar] return;
    [buffer] is the caller's array.  The result is the array, the returned
    [int] and the characters not consumed; [None] when the loop waits for a
    character that does not come. *)
Fixpoint readline_loop (chars : list Z) (buffer : list Z) (pos max_len : Z)
  : option (list Z * Z * list Z) :=
  if pos <? max_len - 1 then
    match chars with
    | [] => None
    | c :: rest =>
        if (c =? 10) || (c =? 13) then Some (zset buffer pos 0, pos, rest)
        else if c =? 8 then
          readline_loop rest buffer (if pos >? 0 then pos - 1 else pos) max_len
        else if c =? 3 then Some (zset buffer 0 0, -1, rest)
        else if c >=? 32 then
          readline_loop rest (zset buffer pos c) (pos + 1) max_len
        else readline_loop rest buffer pos max_len
    end
  else Some (zset buffer pos 0, pos, chars).

Definition keyboard_readline (chars : list Z) (buffer : list Z) (max_len : Z)
  : option (list Z * Z * list Z) :=
  readline_loop chars buffer 0 max_len.

(** *** Vocabulary of the properties *)

(** The ring has its declared size and both indices point into it. *)
Definition ring_ok (st : kbd_state) : Prop :=
  length (kbd_buffer st) = Z.to_nat KBD_BUFFER_SIZE /\
  0 <= kbd_buffer_head st < KBD_BUFFER_SIZE /\
  0 <= kbd_buffer_tail st < KBD_BUFFER_SIZE.

(** The characters waiting in the ring, oldest first: the cells from [tail]
    up to [head], around the end of the array. *)
Definition queued (st : kbd_state) : list Z :=
  map (fun k => zget (kbd_buffer st)
                     ((kbd_buffer_tail st + Z.of_nat k) mod KBD_BUFFER_SIZE))
      (seq 0 (Z.to_nat ((kbd_buffer_head st - kbd_buffer_tail st)
                        mod KBD_BUFFER_SIZE))).

(** The character a key produces, as a user of a US keyboard expects it:
    Caps Lock inverts Shift on the letter keys and has no effect on the
    others. *)
Definition is_lower (c : Z) : bool := (ch "a" <=? c) && (c <=? ch "z").

Definition key_char (shift caps : bool) (sc : Z) : Z :=
  let base := zget scancode_to_ascii sc in
  if is_lower base then (if xorb shift caps then base - 32 else base)
  else if shift then zget scancode_to_ascii_shift sc else base.

(** The character the handler computes for the make code [sc]. *)
Definition handler_char (shift caps ctrl : Z) (sc : Z) : Z :=
  let c := if negb (shift =? 0)
           then zget scancode_to_ascii_shift sc
           else zget scancode_to_ascii sc in
  let c := if negb (caps =? 0) && (ch "a" <=? c) && (c <=? ch "z")
           then c - ch "a" + ch "A"
           else if negb (caps =? 0) && (ch "A" <=? c) && (c <=? ch "Z")
           then c - ch "A" + ch "a"
           else c in
  if negb (ctrl =? 0) && ((c =? ch "c") || (c =? ch "C")) then 3 else c.

Definition flag_bit (b : bool) : Z := if b then 1 else 0.

Definition is_modifier (sc : Z) : bool :=
  (sc =? SC_LSHIFT) || (sc =? SC_RSHIFT) || (sc =? SC_CTRL) ||
  (sc =? SC_ALT) || (sc =? SC_CAPS).

(** The character a press of [sc] enqueues in state [st], 0 for none: that
    of [key_char] under the state's Shift and Caps Lock, or the code 3 for
    Ctrl with the letter c. *)
Definition press_char (st : kbd_state) (sc : Z) : Z :=
  let c := key_char (negb (shift_pressed st =? 0))
                    (negb (caps_lock st =? 0)) sc in
  if negb (ctrl_pressed st =? 0) && ((c =? ch "c") || (c =? ch "C"))
  then 3 else c.

(** Make codes of keys other than the modifiers. *)
Definition plain_keys (scs : list Z) : Prop :=
  Forall (fun sc => 0 <= sc < 128 /\ is_modifier sc = false) scs.

(** The handler's character and [key_char] agree on [sc] under the four
    settings of Shift and Caps Lock. *)
Definition key_char_agrees (sc : Z) : bool :=
  forallb (fun s =>
    forallb (fun k =>
      is_modifier sc ||
      (handler_char (flag_bit s) (flag_bit k) 0 sc =? key_char s k sc))
    [false; true]) [false; true].

(** Line editing: a printable character is appended, a backspace removes the
    last character if there is one, any other character is ignored. *)
Definition edit (line : list Z) (c : Z) : list Z :=
  if c =? 8 then removelast line
  else if c >=? 32 then line ++ [c]
  else line.

(** The line stays shorter than [lim] while [cs] is typed. *)
Fixpoint stays_below (lim : Z) (line : list Z) (cs : list Z) : Prop :=
  Z.of_nat (length line) < lim /\
  match cs with
  | [] => True
  | c :: cs' => stays_below lim (edit line c) cs'
  end.

(** None of the keys ends the line. *)
Definition no_terminator (cs : list Z) : Prop :=
  Forall (fun c => c <> 10 /\ c <> 13 /\ c <> 3) cs.

End KeyboardReader.

(** ** Setting up the virtio queues (virtio_net.c) *)

Module VirtioSetup.

Import VirtioNet.

Definition PAGE_SIZE : Z := 4096.

(** [ALIGN_UP(x, align)] on a [size_t] or [uintptr_t]:
    [((x) + ((align) - 1)) & ~((align) - 1)]. *)
Definition ALIGN_UP (x align : Z) : Z :=
  Z.land (wrap64 (x + (align - 1))) (wrap64 (Z.lnot (align - 1))).

(** The addresses [virtq_init] computes for a queue of [size] slots when
    [kcalloc] returns [mem]: the number of bytes it asks [kcalloc] for, and
    the [desc], [avail] and [used] pointers. *)
Record ring_layout : Type := mk_layout {
  alloc_bytes : Z;
  desc_at : Z;
  avail_at : Z;
  used_at : Z
}.

Definition desc_table_bytes (size : Z) : Z := wrap64 (size * 16).
Definition avail_ring_bytes (size : Z) : Z := wrap64 (2 * 3 + 2 * size).
Definition used_ring_bytes (size : Z) : Z := wrap64 (2 * 3 + 8 * size).

Definition virtq_layout (mem size : Z) : ring_layout :=
  let desc_size := desc_table_bytes size in
  let avail_size := avail_ring_bytes size in
  let used_size := used_ring_bytes size in
  let total_size :=
    wrap64 (ALIGN_UP (wrap64 (desc_size + avail_size)) PAGE_SIZE +
            ALIGN_UP used_size PAGE_SIZE) in
  let mem' := ALIGN_UP mem PAGE_SIZE in
  mk_layout (wrap64 (total_size + PAGE_SIZE))
            mem'
            (wrap64 (mem' + desc_size))
            (ALIGN_UP (wrap64 (wrap64 (mem' + desc_size) + avail_size))
                      PAGE_SIZE).

(** The page frame number [virtq_setup] writes to the device. *)
Definition queue_pfn (l : ring_layout) : Z := wrap32 (desc_at l / PAGE_SIZE).

(** The loop of [virtio_net_init] that offers the RX buffers to the device,
    [for (i = 0; i < rx_queue.size; i++) virtq_add_rx_buffer(&rx_queue, i)],
    from [i] on and with [fuel] iterations allowed, followed by the write to
    the queue-notify port. *)
Fixpoint rx_offer_loop (fuel : nat) (i : Z) : M unit :=
  fun st =>
    if i <? size (rx_queue st) then
      match fuel with
      | O => None
      | S fuel' =>
          (virtq_add_rx_buffer RXQ i ;;; rx_offer_loop fuel' (i + 1)) st
      end
    else Some (tt, st).

Definition rx_offer_all (fuel : nat) : M unit :=
  rx_offer_loop fuel 0 ;;;
  base <- gets io_base ;;
  outw (wrap16 (base + VIRTIO_PCI_QUEUE_NOTIFY)) 0.

(** The descriptor that offers the buffer at [b] to the device. *)
Definition rx_desc (b : Z) : virtq_desc_t :=
  mk_desc b NET_BUFFER_SIZE VIRTQ_DESC_F_WRITE 0.

(** A driver whose queues have just been allocated by [virtq_init]. *)
Definition allocated_state : net_state :=
  mk_net 0 0xC000 (fresh_queue 16 0x500000 2048) (fresh_queue 16 0x600000 2048)
         0 (fun _ => 0) [].

(** [idle_state] after the device has filled RX slot 5 with a packet of four
    bytes behind the 10-byte header. *)
Definition packet_state : net_state :=
  let rx := rx_queue idle_state in
  mk_net 1 0xC000
         (mk_virtq (desc rx) (avail rx)
                   (mk_used 0 1 (list_set (u_ring (used rx)) 0 (mk_used_elem 5 14)) 0)
                   (size rx) (last_used_idx rx) (buffers rx))
         (tx_queue idle_state) 0
         (store_bytes (fun _ => 0) (0x500000 + 5 * 2048 + 10) [1; 2; 3; 4]) [].

End VirtioSetup.

(** ** PCI configuration space (pci.c) *)

Module Pci.

Definition MAX_PCI_DEVICES : Z := 32.

(** [pci_address]; the arguments are [uint8_t], the result [uint32_t]. *)
Definition pci_address (bus device func offset : Z) : Z :=
  wrap32 (Z.lor (Z.lor (Z.lor (Z.lor (Z.shiftl 1 31)
                                     (wrap32 (Z.shiftl bus 16)))
                              (wrap32 (Z.shiftl device 11)))
                       (wrap32 (Z.shiftl func 8)))
                (Z.land offset 0xFC)).

(** The configuration mechanism: a write to port 0xCF8 selects a dword, a
    read of port 0xCFC returns it.  The space is the map from the value at
    0xCF8 to the dword; the two port accesses of [pci_config_read] are one
    lookup in it. *)
Definition config_space : Type := Z -> Z.

Definition pci_config_read (cs : config_space) (bus device func offset : Z)
  : Z :=
  cs (pci_address bus device func offset).

Definition pci_config_read16 (cs : config_space) (bus device func offset : Z)
  : Z :=
  Z.land (Z.shiftr (pci_config_read cs bus device func offset)
                   (Z.land offset 2 * 8)) 0xFFFF.

Definition pci_config_read8 (cs : config_space) (bus device func offset : Z)
  : Z :=
  Z.land (Z.shiftr (pci_config_read cs bus device func offset)
                   (Z.land offset 3 * 8)) 0xFF.

Definition pci_device_exists (cs : config_space) (bus device func : Z) : bool :=
  negb (pci_config_read16 cs bus device func 0 =? 0xFFFF).

Record pci_device_t : Type := mk_pci_device {
  bus : Z;
  device : Z;
  function : Z;
  vendor_id : Z;
  device_id : Z;
  class_code : Z;
  subclass : Z;
  prog_if : Z;
  revision : Z;
  bar : list Z;
  irq_line : Z
}.

Definition pci_read_device (cs : config_space) (b d f : Z) : pci_device_t :=
  let class_info := pci_config_read cs b d f 8 in
  mk_pci_device b d f
    (pci_config_read16 cs b d f 0)
    (pci_config_read16 cs b d f 2)
    (Z.land (Z.shiftr class_info 24) 0xFF)
    (Z.land (Z.shiftr class_info 16) 0xFF)
    (Z.land (Z.shiftr class_info 8) 0xFF)
    (Z.land class_info 0xFF)
    (map (fun i => pci_config_read cs b d f (0x10 + i * 4)) [0; 1; 2; 3; 4; 5])
    (pci_config_read8 cs b d f 0x3C).

(** The table [pci_devices] with [pci_device_count]: the list of the entries
    in use, oldest first.  A device found when the table is full is not
    recorded. *)
Definition record_device (reg : list pci_device_t) (dev : pci_device_t)
  : list pci_device_t :=
  if Z.of_nat (length reg) <? MAX_PCI_DEVICES then reg ++ [dev] else reg.

(** The three loops of [pci_enumerate], innermost first; [n] is the number
    of iterations left before the loop variable reaches its bound. *)
Fixpoint func_loop (cs : config_space) (b d : Z) (n : nat) (func : Z)
         (reg : list pci_device_t) : list pci_device_t :=
  match n with
  | O => reg
  | S n' =>
      if negb (pci_device_exists cs b d func) then
        if func =? 0 then reg else func_loop cs b d n' (func + 1) reg
      else
        let reg := record_device reg (pci_read_device cs b d func) in
        if (func =? 0) &&
           (Z.land (pci_config_read8 cs b d 0 0x0E) 0x80 =? 0)
        then reg
        else func_loop cs b d n' (func + 1) reg
  end.

Fixpoint device_loop (cs : config_space) (b : Z) (n : nat) (d : Z)
         (reg : list pci_device_t) : list pci_device_t :=
  match n with
  | O => reg
  | S n' => device_loop cs b n' (d + 1) (func_loop cs b d 8 0 reg)
  end.

Fixpoint bus_loop (cs : config_space) (n : nat) (b : Z)
         (reg : list pci_device_t) : list pci_device_t :=
  match n with
  | O => reg
  | S n' => bus_loop cs n' (b + 1) (device_loop cs b 32 0 reg)
  end.

Definition pci_enumerate (cs : config_space) : list pci_device_t :=
  bus_loop cs 256 0 [].

Definition pci_get_device_count (reg : list pci_device_t) : Z :=
  Z.of_nat (length reg).

(** [pci_find_device]: [Some dev] stands for the result 1 with [dev] copied
    to the caller, [None] for the result 0. *)
Fixpoint pci_find_device (reg : list pci_device_t) (vendor dev_id : Z)
  : option pci_device_t :=
  match reg with
  | [] => None
  | r :: rest =>
      if (vendor_id r =? vendor) && (device_id r =? dev_id) then Some r
      else pci_find_device rest vendor dev_id
  end.

(** *** Vocabulary of the properties *)

(** A bit field of a 32-bit value. *)
Definition field (k m : Z) (x : Z) : Z := Z.land (Z.shiftr (wrap32 x) k) m.


(** The functions a scan of the bus should report for slot [d] of bus [b]:
    function 0 if it answers, and, when its header type has the
    multi-function bit, the functions 1 to 7 that answer. *)
Definition multi_function (cs : config_space) (b d : Z) : bool :=
  negb (Z.land (pci_config_read8 cs b d 0 0x0E) 0x80 =? 0).

Definition slot_functions (cs : config_space) (b d : Z) : list Z :=
  if pci_device_exists cs b d 0 then
    0 :: (if multi_function cs b d
          then filter (pci_device_exists cs b d) [1; 2; 3; 4; 5; 6; 7]
          else [])
  else [].

Definition upto (n : nat) : list Z := map Z.of_nat (seq 0 n).

(** All of them, by bus, slot and function. *)
Definition bus_functions (cs : config_space) : list pci_device_t :=
  flat_map (fun b =>
    flat_map (fun d =>
      map (pci_read_device cs b d) (slot_functions cs b d))
    (upto 32))
  (upto 256).

End Pci.

(** ** ATA disk driver in PIO mode (ata.c) *)

Module Ata.

Definition ATA_PRIMARY_IO : Z := 0x1F0.
Definition ATA_PRIMARY_CTRL : Z := 0x3F6.
Definition ATA_SECONDARY_IO : Z := 0x170.
Definition ATA_SECONDARY_CTRL : Z := 0x376.

Definition ATA_REG_DATA : Z := 0x00.
Definition ATA_REG_SECCOUNT : Z := 0x02.
Definition ATA_REG_LBA_LO : Z := 0x03.
Definition ATA_REG_LBA_MID : Z := 0x04.
Definition ATA_REG_LBA_HI : Z := 0x05.
Definition ATA_REG_DRIVE : Z := 0x06.
Definition ATA_REG_STATUS : Z := 0x07.
Definition ATA_REG_COMMAND : Z := 0x07.

Definition ATA_CMD_READ_PIO : Z := 0x20.
Definition ATA_CMD_WRITE_PIO : Z := 0x30.
Definition ATA_CMD_IDENTIFY : Z := 0xEC.

Definition ATA_SR_BSY : Z := 0x80.
Definition ATA_SR_DRQ : Z := 0x08.
Definition ATA_SR_ERR : Z := 0x01.

Definition ATA_DRIVE_MASTER : Z := 0xE0.

Definition WAIT_POLLS : nat := Z.to_nat 100000.

(** Port accesses, as ports.h has them. *)
Inductive io_event : Type :=
| IoIn8 (port v : Z)
| IoOut8 (port v : Z)
| IoIn16 (port v : Z)
| IoOut16 (port v : Z).

(** The hardware behind the ports: the value a read of a port returns, given
    the accesses made so far (oldest first). *)
Definition device : Type := list io_event -> Z -> Z.

(** The driver's globals and the port accesses made so far. *)
Record ata_state : Type := mk_ata {
  ata_io_base : Z;
  ata_ctrl_base : Z;
  ata_drive_present : Z;
  io_log : list io_event
}.

Definition log_io (e : io_event) (st : ata_state) : ata_state :=
  mk_ata (ata_io_base st) (ata_ctrl_base st) (ata_drive_present st)
         (io_log st ++ [e]).

Section Driver.

Variable dev : device.

Definition inb (port : Z) (st : ata_state) : Z * ata_state :=
  let v := wrap8 (dev (io_log st) (wrap16 port)) in
  (v, log_io (IoIn8 (wrap16 port) v) st).

Definition inw (port : Z) (st : ata_state) : Z * ata_state :=
  let v := wrap16 (dev (io_log st) (wrap16 port)) in
  (v, log_io (IoIn16 (wrap16 port) v) st).

Definition outb (port v : Z) (st : ata_state) : ata_state :=
  log_io (IoOut8 (wrap16 port) (wrap8 v)) st.

Definition outw (port v : Z) (st : ata_state) : ata_state :=
  log_io (IoOut16 (wrap16 port) (wrap16 v)) st.

Definition io_wait (st : ata_state) : ata_state := outb 0x80 0 st.

(** [ata_wait_ready]: the loop [while (timeout--)] with [n] polls left. *)
Fixpoint wait_ready_loop (n : nat) (st : ata_state) : Z * ata_state :=
  match n with
  | O => (-1, st)
  | S n' =>
      let (status, st) := inb (ata_io_base st + ATA_REG_STATUS) st in
      if Z.land status ATA_SR_BSY =? 0 then (0, st)
      else wait_ready_loop n' st
  end.

Definition ata_wait_ready (st : ata_state) : Z * ata_state :=
  wait_ready_loop WAIT_POLLS st.

(** [ata_wait_drq] *)
Fixpoint wait_drq_loop (n : nat) (st : ata_state) : Z * ata_state :=
  match n with
  | O => (-1, st)
  | S n' =>
      let (status, st) := inb (ata_io_base st + ATA_REG_STATUS) st in
      if negb (Z.land status ATA_SR_ERR =? 0) then (-1, st)
      else if negb (Z.land status ATA_SR_DRQ =? 0) then (0, st)
      else wait_drq_loop n' st
  end.

Definition ata_wait_drq (st : ata_state) : Z * ata_state :=
  wait_drq_loop WAIT_POLLS st.

(** [ata_soft_reset] *)
Definition ata_soft_reset (st : ata_state) : ata_state :=
  let st := outb (ata_ctrl_base st) 0x04 st in
  let st := io_wait (io_wait (io_wait (io_wait st))) in
  let st := outb (ata_ctrl_base st) 0x00 st in
  io_wait st.

(** The 256 reads of the data port that fetch one sector; the words are
    appended to [buf] in the order read. *)
Fixpoint read_words (n : nat) (buf : list Z) (st : ata_state)
  : list Z * ata_state :=
  match n with
  | O => (buf, st)
  | S n' =>
      let (w, st) := inw (ata_io_base st + ATA_REG_DATA) st in
      read_words n' (buf ++ [w]) st
  end.

(** The wait for DRQ or ERR inside [ata_identify]; the result tells whether
    the loop was left by [break], and carries the value of [timeout] after
    the loop. *)
Fixpoint identify_wait (n : nat) (timeout : Z) (st : ata_state)
  : option Z * ata_state :=
  match n with
  | O => (Some (timeout - 1), st)
  | S n' =>
      let timeout := timeout - 1 in
      let (status, st) := inb (ata_io_base st + ATA_REG_STATUS) st in
      if negb (Z.land status ATA_SR_ERR =? 0) then (None, st)
      else if negb (Z.land status ATA_SR_DRQ =? 0) then (Some timeout, st)
      else identify_wait n' timeout st
  end.

(** [ata_identify] *)
Definition ata_identify (st : ata_state) : Z * ata_state :=
  let st := outb (ata_io_base st + ATA_REG_DRIVE) ATA_DRIVE_MASTER st in
  let st := io_wait st in
  let st := outb (ata_io_base st + ATA_REG_SECCOUNT) 0 st in
  let st := outb (ata_io_base st + ATA_REG_LBA_LO) 0 st in
  let st := outb (ata_io_base st + ATA_REG_LBA_MID) 0 st in
  let st := outb (ata_io_base st + ATA_REG_LBA_HI) 0 st in
  let st := outb (ata_io_base st + ATA_REG_COMMAND) ATA_CMD_IDENTIFY st in
  let st := io_wait st in
  let (status, st) := inb (ata_io_base st + ATA_REG_STATUS) st in
  if status =? 0 then (0, st)
  else
    let (r, st) := ata_wait_ready st in
    if r <? 0 then (0, st)
    else
      let (mid, st) := inb (ata_io_base st + ATA_REG_LBA_MID) st in
      if negb (mid =? 0) then (0, st)
      else
        let (hi, st) := inb (ata_io_base st + ATA_REG_LBA_HI) st in
        if negb (hi =? 0) then (0, st)
        else
          match identify_wait WAIT_POLLS 100000 st with
          | (None, st) => (0, st)
          | (Some timeout, st) =>
              if timeout <=? 0 then (0, st)
              else
                let (_, st) := read_words 256 [] st in
                (1, st)
          end.

Definition set_bases (io ctrl : Z) (st : ata_state) : ata_state :=
  mk_ata io ctrl (ata_drive_present st) (io_log st).

Definition set_present (v : Z) (st : ata_state) : ata_state :=
  mk_ata (ata_io_base st) (ata_ctrl_base st) v (io_log st).

(** [ata_init] *)
Definition ata_init (st : ata_state) : ata_state :=
  let st := set_present 0 st in
  let st := set_bases ATA_PRIMARY_IO ATA_PRIMARY_CTRL st in
  let (status, st) := inb (ata_io_base st + ATA_REG_STATUS) st in
  let probe :=
    if status =? 0xFF then
      let st := set_bases ATA_SECONDARY_IO ATA_SECONDARY_CTRL st in
      let (status, st) := inb (ata_io_base st + ATA_REG_STATUS) st in
      (negb (status =? 0xFF), st)
    else (true, st) in
  if fst probe then
    let st := ata_soft_reset (snd probe) in
    let (found, st) := ata_identify st in
    if negb (found =? 0) then set_present 1 st else st
  else snd probe.

Definition ata_is_present (st : ata_state) : Z := ata_drive_present st.

(** The register writes that open a transfer of [count] sectors at [lba]
    with command [cmd]. *)
Definition select_sectors (lba count cmd : Z) (st : ata_state) : ata_state :=
  let st := outb (ata_io_base st + ATA_REG_DRIVE)
                 (Z.lor (Z.lor ATA_DRIVE_MASTER 0x40)
                        (Z.land (Z.shiftr lba 24) 0x0F)) st in
  let st := io_wait st in
  let st := outb (ata_io_base st + ATA_REG_SECCOUNT) count st in
  let st := outb (ata_io_base st + ATA_REG_LBA_LO) (Z.land lba 0xFF) st in
  let st := outb (ata_io_base st + ATA_REG_LBA_MID)
                 (Z.land (Z.shiftr lba 8) 0xFF) st in
  let st := outb (ata_io_base st + ATA_REG_LBA_HI)
                 (Z.land (Z.shiftr lba 16) 0xFF) st in
  outb (ata_io_base st + ATA_REG_COMMAND) cmd st.

(** The sector loop of [ata_read_sectors], with [n] sectors left. *)
Fixpoint read_sector_loop (n : nat) (buf : list Z) (st : ata_state)
  : Z * list Z * ata_state :=
  match n with
  | O => (0, buf, st)
  | S n' =>
      let (r, st) := ata_wait_drq st in
      if r <? 0 then (-1, buf, st)
      else
        let (buf, st) := read_words 256 buf st in
        read_sector_loop n' buf st
  end.

(** [ata_read_sectors]; the words stored through [buffer] are returned in
    the order of their addresses. *)
Definition ata_read_sectors (lba count : Z) (st : ata_state)
  : Z * list Z * ata_state :=
  if ata_drive_present st =? 0 then (-1, [], st)
  else
    let count := if count =? 0 then 1 else count in
    let (r, st) := ata_wait_ready st in
    if r <? 0 then (-1, [], st)
    else
      let st := select_sectors lba count ATA_CMD_READ_PIO st in
      read_sector_loop (Z.to_nat count) [] st.

(** The 256 writes to the data port that send one sector, from word [i] of
    it on; [data] is the caller's buffer as 16-bit words. *)
Fixpoint write_words (n : nat) (data : list Z) (sector i : Z) (st : ata_state)
  : ata_state :=
  match n with
  | O => st
  | S n' =>
      let st := outw (ata_io_base st + ATA_REG_DATA)
                     (nth (Z.to_nat (sector * 256 + i)) data 0) st in
      write_words n' data sector (i + 1) st
  end.

Fixpoint write_sector_loop (n : nat) (data : list Z) (sector : Z)
         (st : ata_state) : Z * ata_state :=
  match n with
  | O => (0, snd (ata_wait_ready st))
  | S n' =>
      let (r, st) := ata_wait_drq st in
      if r <? 0 then (-1, st)
      else
        let st := write_words 256 data sector 0 st in
        let st := io_wait st in
        write_sector_loop n' data (sector + 1) st
  end.

(** [ata_write_sectors] *)
Definition ata_write_sectors (lba count : Z) (data : list Z) (st : ata_state)
  : Z * ata_state :=
  if ata_drive_present st =? 0 then (-1, st)
  else
    let count := if count =? 0 then 1 else count in
    let (r, st) := ata_wait_ready st in
    if r <? 0 then (-1, st)
    else
      let st := select_sectors lba count ATA_CMD_WRITE_PIO st in
      write_sector_loop (Z.to_nat count) data 0 st.

End Driver.

(** *** Vocabulary of the properties *)

Definition is_output (e : io_event) : bool :=
  match e with
  | IoOut8 _ _ | IoOut16 _ _ => true
  | _ => false
  end.

(** The writes among the accesses, in order. *)
Definition outputs (l : list io_event) : list io_event := filter is_output l.

(** The words read from [port], in order. *)
Fixpoint words_read (port : Z) (l : list io_event) : list Z :=
  match l with
  | [] => []
  | IoIn16 p v :: rest =>
      if p =? port then v :: words_read port rest else words_read port rest
  | _ :: rest => words_read port rest
  end.

(** The words written to [port], in order. *)
Fixpoint words_written (port : Z) (l : list io_event) : list Z :=
  match l with
  | [] => []
  | IoOut16 p v :: rest =>
      if p =? port then v :: words_written port rest
      else words_written port rest
  | _ :: rest => words_written port rest
  end.

(** [st'] is [st] after the port accesses [l]; the globals are the same. *)
Definition extends (st st' : ata_state) (l : list io_event) : Prop :=
  ata_io_base st' = ata_io_base st /\
  ata_ctrl_base st' = ata_ctrl_base st /\
  ata_drive_present st' = ata_drive_present st /\
  io_log st' = io_log st ++ l.

(** The register writes that open a transfer, as the drive decodes them:
    the low 28 bits of the block address spread over four registers. *)
Definition transfer_setup (base lba count cmd : Z) : list io_event :=
  [IoOut8 (base + ATA_REG_DRIVE) (0xE0 + (lba / 2 ^ 24) mod 16);
   IoOut8 0x80 0;
   IoOut8 (base + ATA_REG_SECCOUNT) count;
   IoOut8 (base + ATA_REG_LBA_LO) (lba mod 256);
   IoOut8 (base + ATA_REG_LBA_MID) ((lba / 2 ^ 8) mod 256);
   IoOut8 (base + ATA_REG_LBA_HI) ((lba / 2 ^ 16) mod 256);
   IoOut8 (base + ATA_REG_COMMAND) cmd].

(** The writes that send sector [k] of [data]: its 256 words to the data
    port, then the write to port 0x80 of [io_wait]. *)
Definition sector_writes (base : Z) (data : list Z) (k : nat)
  : list io_event :=
  map (fun i => IoOut16 (base + ATA_REG_DATA)
                        (wrap16 (nth (k * 256 + i) data 0)))
      (seq 0 256)
  ++ [IoOut8 0x80 0].

(** A drive that is always busy. *)
Definition always_busy (dev : device) (base : Z) : Prop :=
  forall l, Z.land (wrap8 (dev l (base + ATA_REG_STATUS))) ATA_SR_BSY <> 0.

(** A drive that answers every poll with ready, data request and no
    error. *)
Definition always_ready (dev : device) (base : Z) : Prop :=
  forall l,
    let s := wrap8 (dev l (base + ATA_REG_STATUS)) in
    Z.land s ATA_SR_BSY = 0 /\ Z.land s ATA_SR_ERR = 0 /\
    Z.land s ATA_SR_DRQ <> 0.

(** No controller on either channel: the status ports float high. *)
Definition no_controller (dev : device) : Prop :=
  forall l,
    wrap8 (dev l (ATA_PRIMARY_IO + ATA_REG_STATUS)) = 0xFF /\
    wrap8 (dev l (ATA_SECONDARY_IO + ATA_REG_STATUS)) = 0xFF.

(** Example devices. *)
Definition busy_drive : device := fun _ _ => 0x80.
Definition ready_drive : device :=
  fun l port => if port =? 0x1F7 then 0x58 else Z.of_nat (length l).
Definition floating_bus : device := fun _ _ => 0xFF.

Definition boot_state : ata_state := mk_ata 0x1F0 0x3F6 0 [].
Definition ready_state : ata_state := mk_ata 0x1F0 0x3F6 1 [].

End Ata.

(** ** Interrupt descriptor table (idt.c) *)

Module Idt.

Definition KERNEL_CS : Z := 0x08.
Definition INT_GATE : Z := 0x8E.

(** [idt_entry_t], a 64-bit mode gate. *)
Record idt_entry_t : Type := mk_idt_entry {
  offset_low : Z;
  selector : Z;
  ist : Z;
  type_attr : Z;
  offset_mid : Z;
  offset_high : Z;
  reserved : Z
}.

(** [idt_set_entry] on the table [idt]. *)
Definition idt_set_entry (idt : list idt_entry_t) (index handler sel attr : Z)
  : list idt_entry_t :=
  if index <? 0 then idt
  else
    list_set idt (Z.to_nat index)
      (mk_idt_entry (Z.land handler 0xFFFF) (wrap16 sel) 0 (wrap8 attr)
                    (Z.land (Z.shiftr handler 16) 0xFFFF)
                    (Z.land (Z.shiftr handler 32) 0xFFFFFFFF) 0).

(** The loop of [idt_init] that clears the table, from entry [i] on. *)
Fixpoint clear_entries (n : nat) (i : Z) (idt : list idt_entry_t)
  : list idt_entry_t :=
  match n with
  | O => idt
  | S n' => clear_entries n' (i + 1) (idt_set_entry idt i 0 0 0)
  end.

(** The 48 calls of [idt_init] that install the exception and IRQ stubs, in
    source order; [stub v] is the address of [isr0] .. [isr31] for the
    vectors 0 to 31 and of [irq0] .. [irq15] for the vectors 32 to 47. *)
Fixpoint install_stubs (stub : Z -> Z) (n : nat) (v : Z)
         (idt : list idt_entry_t) : list idt_entry_t :=
  match n with
  | O => idt
  | S n' =>
      install_stubs stub n' (v + 1)
                    (idt_set_entry idt v (stub v) KERNEL_CS INT_GATE)
  end.

(** The table [idt_init] builds. *)
Definition idt_init_table (stub : Z -> Z) (idt : list idt_entry_t)
  : list idt_entry_t :=
  install_stubs stub 48 0 (clear_entries 256 0 idt).

(** *** Vocabulary of the properties *)

(** The handler address as the processor assembles it from a gate. *)
Definition gate_offset (e : idt_entry_t) : Z :=
  offset_low e + 2 ^ 16 * offset_mid e + 2 ^ 32 * offset_high e.

Definition null_entry : idt_entry_t := mk_idt_entry 0 0 0 0 0 0 0.

(** The gate [idt_set_entry] stores at [index]. *)
Definition gate_at (idt : list idt_entry_t) (index : Z) : idt_entry_t :=
  nth (Z.to_nat index) idt null_entry.

End Idt.

(** ** Memory block functions (string.c) *)

Module StringLib.

Import Heap.

(** The loop [while (n--) *d++ = *s++] of [memcpy] and of the forward case
    of [memmove], on byte memory. *)
Fixpoint copy_forward (n : nat) (m : mem) (d s : Z) : mem :=
  match n with
  | O => m
  | S n' => copy_forward n' (upd m d (m s)) (d + 1) (s + 1)
  end.

(** The loop [while (n--) *--d = *--s]. *)
Fixpoint copy_backward (n : nat) (m : mem) (d s : Z) : mem :=
  match n with
  | O => m
  | S n' => copy_backward n' (upd m (d - 1) (m (s - 1))) (d - 1) (s - 1)
  end.

Definition memcpy (m : mem) (dest src n : Z) : mem :=
  copy_forward (Z.to_nat n) m dest src.

Definition memmove (m : mem) (dest src n : Z) : mem :=
  if dest <? src then copy_forward (Z.to_nat n) m dest src
  else if dest >? src then copy_backward (Z.to_nat n) m (dest + n) (src + n)
  else m.

(** [memcmp]; the bytes are read as [uint8_t] and subtracted as [int]. *)
Fixpoint compare_bytes (n : nat) (m : mem) (p1 p2 : Z) : Z :=
  match n with
  | O => 0
  | S n' =>
      if negb (m p1 =? m p2) then m p1 - m p2
      else compare_bytes n' m (p1 + 1) (p2 + 1)
  end.

Definition memcmp (m : mem) (s1 s2 n : Z) : Z :=
  compare_bytes (Z.to_nat n) m s1 s2.

End StringLib.

(** ** Internet checksum (icmp.c) *)

Module Checksum.

(** The first loop of [checksum] and the odd trailing byte: [data] is the
    block as bytes, read as little-endian 16-bit words; [sum] is a
    [uint32_t]. *)
Fixpoint sum_words (data : list Z) (sum : Z) : Z :=
  match data with
  | b0 :: b1 :: rest => sum_words rest (wrap32 (sum + (b0 + 256 * b1)))
  | [b0] => wrap32 (sum + b0)
  | [] => sum
  end.

(** [while (sum >> 16) sum = (sum & 0xFFFF) + (sum >> 16);] with [fuel]
    iterations allowed. *)
Fixpoint fold_carries (fuel : nat) (sum : Z) : option Z :=
  if Z.shiftr sum 16 =? 0 then Some sum
  else
    match fuel with
    | O => None
    | S fuel' =>
        fold_carries fuel' (wrap32 (Z.land sum 0xFFFF + Z.shiftr sum 16))
    end.

(** [checksum]; the result is [(uint16_t)~sum]. *)
Definition checksum (fuel : nat) (data : list Z) : option Z :=
  match fold_carries fuel (sum_words data 0) with
  | Some sum => Some (wrap16 (Z.lnot sum))
  | None => None
  end.

(** The store of a [uint16_t] at byte offset [pos] of a block, as
    [ip->checksum = ...] and [icmp->checksum = ...] do it. *)
Definition store16 (data : list Z) (pos : nat) (v : Z) : list Z :=
  list_set (list_set data pos (v mod 256)) (S pos) (v / 256).

(** *** Vocabulary of the properties *)

(** The sum of the words without wrap-around. *)
Fixpoint word_sum (data : list Z) : Z :=
  match data with
  | b0 :: b1 :: rest => (b0 + 256 * b1) + word_sum rest
  | [b0] => b0
  | [] => 0
  end.

Definition bytes_ok (data : list Z) : Prop :=
  Forall (fun b => 0 <= b < 256) data.

End Checksum.

(** * Properties *)

(** ** Arrays and fixed-width integers *)

Lemma list_set_length {A} (l : list A) (i : nat) (v : A) :
  length (list_set l i v) = length l.
Proof.
  revert i; induction l as [|h t IH]; intros [|i]; simpl; auto.
Qed.

Lemma nth_list_set_same {A} (l : list A) (i : nat) (v d : A) :
  (i < length l)%nat -> nth i (list_set l i v) d = v.
Proof.
  revert i; induction l as [|h t IH]; intros [|i] H; simpl in *; try lia; auto.
  apply IH; lia.
Qed.

Lemma nth_list_set_other {A} (l : list A) (i j : nat) (v d : A) :
  i <> j -> nth j (list_set l i v) d = nth j l d.
Proof.
  revert i j; induction l as [|h t IH]; intros [|i] [|j] H; simpl; auto; try lia.
Qed.

Lemma Forall_list_set {A} (P : A -> Prop) (l : list A) (i : nat) (v : A) :
  Forall P l -> P v -> Forall P (list_set l i v).
Proof.
  intros Hl Hv; revert i; induction Hl; intros [|i]; simpl; auto.
Qed.

Lemma list_set_twice {A} (l : list A) (i : nat) (a b : A) :
  list_set (list_set l i a) i b = list_set l i b.
Proof.
  revert i; induction l as [|h t IH]; intros [|i]; simpl; auto. now rewrite IH.
Qed.

Lemma wrap16_small (x : Z) : 0 <= x < 2 ^ 16 -> wrap16 x = x.
Proof. intros H. unfold wrap16, wrap. now apply Z.mod_small. Qed.

Lemma wrap32_small (x : Z) : 0 <= x < 2 ^ 32 -> wrap32 x = x.
Proof. intros H. unfold wrap32, wrap. now apply Z.mod_small. Qed.

Lemma wrap64_small (x : Z) : 0 <= x < 2 ^ 64 -> wrap64 x = x.
Proof. intros H. unfold wrap64, wrap. now apply Z.mod_small. Qed.

(** ** Keyboard: modifier flags under make/break sequences *)

Module KeyboardProofs.
Import Keyboard.

Lemma lnot_c_flag (x : Z) : is_flag (lnot_c x).
Proof. unfold is_flag, lnot_c. destruct (x =? 0); auto. Qed.

Lemma lnot_c_involutive (x : Z) : is_flag x -> lnot_c (lnot_c x) = x.
Proof. intros [-> | ->]; reflexivity. Qed.

Lemma kbd_buffer_put_flags (st : kbd_state) (c : Z) :
  shift_pressed (kbd_buffer_put st c) = shift_pressed st /\
  ctrl_pressed (kbd_buffer_put st c) = ctrl_pressed st /\
  alt_pressed (kbd_buffer_put st c) = alt_pressed st /\
  caps_lock (kbd_buffer_put st c) = caps_lock st.
Proof.
  unfold kbd_buffer_put.
  destruct (negb _); simpl; auto.
Qed.

(** [keyboard_init] establishes [flags_boolean]. *)
Lemma keyboard_init_flags (st : kbd_state) : flags_boolean (keyboard_init st).
Proof. unfold flags_boolean, is_flag; simpl; auto. Qed.

(** The handler keeps [flags_boolean], whatever byte arrives. *)
Lemma handler_flags_boolean (raw : Z) (st : kbd_state) :
  flags_boolean st -> flags_boolean (keyboard_interrupt_handler raw st).
Proof.
  intros (Hs & Hc & Ha & Hl).
  unfold keyboard_interrupt_handler.
  destruct (_ || _).
  { repeat split; simpl; auto using lnot_c_flag. }
  destruct (_ =? SC_CTRL).
  { repeat split; simpl; auto using lnot_c_flag. }
  destruct (_ =? SC_ALT).
  { repeat split; simpl; auto using lnot_c_flag. }
  destruct (_ =? SC_CAPS).
  { destruct (_ =? 0); repeat split; simpl; auto using lnot_c_flag. }
  destruct (negb (Z.land raw 128 =? 0)); [repeat split; auto|].
  match goal with |- flags_boolean (if ?b then kbd_buffer_put _ ?c else _) =>
    destruct b; [|repeat split; auto];
    destruct (kbd_buffer_put_flags st c) as (E1 & E2 & E3 & E4)
  end.
  unfold flags_boolean. rewrite E1, E2, E3, E4. auto.
Qed.

Lemma deliver_flags_boolean (raws : list Z) (st : kbd_state) :
  flags_boolean st -> flags_boolean (deliver raws st).
Proof.
  revert st. induction raws as [|r raws IH]; intros st H; simpl; auto.
  apply IH. now apply handler_flags_boolean.
Qed.

(** A make code of a shift key followed by the break code of the same key:
    the flag is first set, then cleared; nothing else is touched. *)
Lemma shift_make_break (sc : Z) (st : kbd_state) :
  is_shift_key sc ->
  deliver [sc; Z.lor sc 0x80] st = set_shift st 0.
Proof.
  intros [-> | ->]; reflexivity.
Qed.

(** A caps-lock make code toggles the flag and the break code does nothing. *)
Lemma caps_press_release (st : kbd_state) :
  deliver [SC_CAPS; Z.lor SC_CAPS 0x80] st = set_caps st (lnot_c (caps_lock st)).
Proof. reflexivity. Qed.

(** C9, as stated, fails: with the left shift key held down (flag set), a
    press and release of the right shift key clears the flag. *)
Lemma shift_make_break_clears_held_flag :
  let st0 := keyboard_init (mk_kbd (repeat 0 256%nat) 0 0 0 0 0 0) in
  let st1 := keyboard_interrupt_handler SC_LSHIFT st0 in
  let st2 := deliver [SC_RSHIFT; Z.lor SC_RSHIFT 0x80] st1 in
  flags_boolean st1 /\ shift_pressed st1 = 1 /\ shift_pressed st2 = 0 /\
  ~ (shift_pressed st2 = shift_pressed st1 /\ ctrl_pressed st2 = ctrl_pressed st1 /\
     alt_pressed st2 = alt_pressed st1 /\ caps_lock st2 = caps_lock st1).
Proof.
  cbv zeta. split; [|split; [reflexivity|split; [reflexivity|]]].
  - apply handler_flags_boolean, keyboard_init_flags.
  - intros (H & _). vm_compute in H. discriminate H.
Qed.

(** C9 (amended): in every keyboard state whose flags hold 0 or 1 and whose
    shift flag is clear, a shift make code followed by the break code of the
    same key leaves the whole state (the four flags, the ring buffer and both
    indices) as it was; in every state the sequence leaves the shift flag clear
    and touches nothing else; and two caps-lock press and release sequences
    bring [caps_lock] back to its value and touch nothing else. *)
Theorem shift_press_release_and_caps_twice (sc : Z) (st : kbd_state) :
  flags_boolean st -> is_shift_key sc ->
  deliver [sc; Z.lor sc 0x80] st = set_shift st 0 /\
  (shift_pressed st = 0 -> deliver [sc; Z.lor sc 0x80] st = st) /\
  deliver [SC_CAPS; Z.lor SC_CAPS 0x80; SC_CAPS; Z.lor SC_CAPS 0x80] st = st.
Proof.
  intros (Hs & Hc & Ha & Hl) Hk.
  pose proof (shift_make_break sc st Hk) as E.
  split; [exact E|]. split.
  - intros H0. rewrite E. destruct st; simpl in *. now subst.
  - change (deliver [SC_CAPS; Z.lor SC_CAPS 128; SC_CAPS; Z.lor SC_CAPS 128] st)
      with (deliver [SC_CAPS; Z.lor SC_CAPS 128]
              (deliver [SC_CAPS; Z.lor SC_CAPS 128] st)).
    rewrite !caps_press_release.
    unfold set_caps; simpl. rewrite (lnot_c_involutive _ Hl).
    now destruct st.
Qed.

Lemma shift_press_release_and_caps_twice_witness :
  let st := keyboard_init (mk_kbd (repeat 0 256%nat) 0 0 0 0 0 0) in
  deliver [SC_LSHIFT; Z.lor SC_LSHIFT 0x80] st = set_shift st 0 /\
  (shift_pressed st = 0 -> deliver [SC_LSHIFT; Z.lor SC_LSHIFT 0x80] st = st) /\
  deliver [SC_CAPS; Z.lor SC_CAPS 0x80; SC_CAPS; Z.lor SC_CAPS 0x80] st = st.
Proof.
  apply (shift_press_release_and_caps_twice SC_LSHIFT).
  - apply keyboard_init_flags.
  - left; reflexivity.
Defined.

End KeyboardProofs.

(** ** Frame allocator: bitmap lemmas *)

Module PmmProofs.
Import Pmm.

(** *** Arrays *)

Lemma zset_length (l : list Z) (i v : Z) : length (zset l i v) = length l.
Proof. unfold zset. destruct (i <? 0); auto using list_set_length. Qed.

Lemma zget_zset_same (l : list Z) (i v : Z) :
  0 <= i < Z.of_nat (length l) -> zget (zset l i v) i = v.
Proof.
  intros H. unfold zget, zset.
  destruct (Z.ltb_spec i 0); [lia|]. apply nth_list_set_same. lia.
Qed.

Lemma zget_zset_other (l : list Z) (i j v : Z) :
  0 <= i -> 0 <= j -> i <> j -> zget (zset l i v) j = zget l j.
Proof.
  intros Hi Hj H. unfold zget, zset.
  destruct (Z.ltb_spec i 0); [lia|]. apply nth_list_set_other. lia.
Qed.

Lemma Forall_zset (P : Z -> Prop) (l : list Z) (i v : Z) :
  Forall P l -> P v -> Forall P (zset l i v).
Proof.
  intros. unfold zset. destruct (i <? 0); auto using Forall_list_set.
Qed.

(** *** One bit of one byte *)

Lemma shiftl_1_testbit (k n : Z) :
  0 <= k -> Z.testbit (Z.shiftl 1 k) n = (k =? n).
Proof.
  intros Hk. rewrite Z.shiftl_1_l. destruct (Z.ltb_spec n 0).
  - rewrite Z.testbit_neg_r by lia. symmetry. apply Z.eqb_neq. lia.
  - rewrite Z.pow2_bits_eqb by lia. reflexivity.
Qed.

Lemma land_bit_zero (b k : Z) :
  0 <= k -> (Z.land b (Z.shiftl 1 k) =? 0) = negb (Z.testbit b k).
Proof.
  intros Hk. destruct (Z.testbit b k) eqn:E; simpl.
  - apply Z.eqb_neq. intros H.
    assert (Z.testbit (Z.land b (Z.shiftl 1 k)) k = false)
      by (rewrite H; apply Z.bits_0).
    rewrite Z.land_spec, shiftl_1_testbit, E, Z.eqb_refl in H0 by lia.
    discriminate.
  - apply Z.eqb_eq. apply Z.bits_inj'. intros n Hn.
    rewrite Z.land_spec, shiftl_1_testbit, Z.bits_0 by lia.
    destruct (Z.eqb_spec k n); subst; [rewrite E|]; auto using andb_false_r.
Qed.

Lemma frame_used_testbit (bm : list Z) (p : Z) :
  frame_used bm p = Z.testbit (zget bm (p / 8)) (p mod 8).
Proof.
  unfold frame_used, pmm_test_bit.
  rewrite land_bit_zero by (apply Z.mod_pos_bound; lia).
  apply negb_involutive.
Qed.

Lemma wrap8_testbit (x k : Z) :
  0 <= k < 8 -> Z.testbit (wrap8 x) k = Z.testbit x k.
Proof.
  intros Hk. unfold wrap8, wrap. apply Z.mod_pow2_bits_low. lia.
Qed.

Lemma wrap8_range (x : Z) : 0 <= wrap8 x < 256.
Proof. unfold wrap8, wrap. change (2 ^ 8) with 256. apply Z.mod_pos_bound. lia. Qed.

Lemma page_split (p q : Z) :
  p <> q -> p / 8 <> q / 8 \/ (p / 8 = q / 8 /\ p mod 8 <> q mod 8).
Proof.
  intros H. destruct (Z.eq_dec (p / 8) (q / 8)) as [E|E]; [right|left; auto].
  split; auto. intros E'.
  apply H. rewrite (Z.div_mod p 8), (Z.div_mod q 8) by lia. lia.
Qed.

Lemma byte_index_ok (bm : list Z) (p : Z) :
  bitmap_ok bm -> in_window p -> 0 <= p / 8 < Z.of_nat (length bm).
Proof.
  intros [Hl _] Hp. rewrite Hl. unfold in_window in Hp.
  change PMM_TOTAL_PAGES with 3584 in Hp.
  change (Z.of_nat (Z.to_nat PMM_BITMAP_SIZE)) with 448.
  split; [apply Z.div_pos; lia|apply Z.div_lt_upper_bound; lia].
Qed.

Lemma pmm_set_bit_ok (bm : list Z) (p : Z) :
  bitmap_ok bm -> bitmap_ok (pmm_set_bit bm p).
Proof.
  intros [Hl Hb]. split; unfold pmm_set_bit.
  - now rewrite zset_length.
  - apply Forall_zset; auto using wrap8_range.
Qed.

Lemma pmm_clear_bit_ok (bm : list Z) (p : Z) :
  bitmap_ok bm -> bitmap_ok (pmm_clear_bit bm p).
Proof.
  intros [Hl Hb]. split; unfold pmm_clear_bit.
  - now rewrite zset_length.
  - apply Forall_zset; auto using wrap8_range.
Qed.

(** [pmm_set_bit] marks frame [p] and no other frame. *)
Lemma frame_used_set_bit (bm : list Z) (p q : Z) :
  bitmap_ok bm -> in_window p -> 0 <= q ->
  frame_used (pmm_set_bit bm p) q = (q =? p) || frame_used bm q.
Proof.
  intros Hok Hp Hq. pose proof (byte_index_ok bm p Hok Hp) as Hi.
  assert (Hk : 0 <= p mod 8 < 8) by (apply Z.mod_pos_bound; lia).
  assert (Hk' : 0 <= q mod 8 < 8) by (apply Z.mod_pos_bound; lia).
  rewrite !frame_used_testbit. unfold pmm_set_bit.
  destruct (Z.eqb_spec q p) as [->|Hne]; simpl.
  - rewrite zget_zset_same, wrap8_testbit, Z.lor_spec, shiftl_1_testbit by lia.
    rewrite Z.eqb_refl. apply orb_true_r.
  - destruct (page_split p q ltac:(lia)) as [Hd|[Hd Hm]].
    + rewrite zget_zset_other; auto; try lia. apply Z.div_pos; lia.
    + rewrite <- Hd, zget_zset_same, wrap8_testbit, Z.lor_spec, shiftl_1_testbit by lia.
      destruct (Z.eqb_spec (p mod 8) (q mod 8)); [lia|]. apply orb_false_r.
Qed.

(** [pmm_clear_bit] clears frame [p] and no other frame. *)
Lemma frame_used_clear_bit (bm : list Z) (p q : Z) :
  bitmap_ok bm -> in_window p -> 0 <= q ->
  frame_used (pmm_clear_bit bm p) q = negb (q =? p) && frame_used bm q.
Proof.
  intros Hok Hp Hq. pose proof (byte_index_ok bm p Hok Hp) as Hi.
  assert (Hk : 0 <= p mod 8 < 8) by (apply Z.mod_pos_bound; lia).
  assert (Hk' : 0 <= q mod 8 < 8) by (apply Z.mod_pos_bound; lia).
  rewrite !frame_used_testbit. unfold pmm_clear_bit.
  destruct (Z.eqb_spec q p) as [->|Hne]; simpl.
  - rewrite zget_zset_same, wrap8_testbit, Z.land_spec, Z.lnot_spec,
      shiftl_1_testbit by lia.
    rewrite Z.eqb_refl. apply andb_false_r.
  - destruct (page_split p q ltac:(lia)) as [Hd|[Hd Hm]].
    + rewrite zget_zset_other; auto; try lia. apply Z.div_pos; lia.
    + rewrite <- Hd, zget_zset_same, wrap8_testbit, Z.land_spec, Z.lnot_spec,
        shiftl_1_testbit by lia.
      destruct (Z.eqb_spec (p mod 8) (q mod 8)); [lia|]. apply andb_true_r.
Qed.

(** *** Counting cleared bits *)

Lemma filter_length_flip (f g : Z -> bool) (p : Z) (l : list Z) :
  NoDup l -> In p l -> f p = true -> g p = false ->
  (forall q, In q l -> q <> p -> f q = g q) ->
  length (filter f l) = S (length (filter g l)).
Proof.
  intros Hnd. induction Hnd as [|x l Hx Hnd IH]; intros Hin Hf Hg Hrest.
  - destruct Hin.
  - simpl. destruct (Z.eq_dec x p) as [->|Hne].
    + rewrite Hf, Hg. simpl. f_equal.
      f_equal. apply filter_ext_in. intros q Hq. apply Hrest; [now right|].
      intros ->. contradiction.
    + destruct Hin as [E|Hin]; [contradiction|].
      rewrite (Hrest x (or_introl eq_refl) Hne).
      destruct (g x); simpl; rewrite IH; auto;
        intros q Hq; apply Hrest; now right.
Qed.

Lemma frames_NoDup : NoDup frames.
Proof.
  unfold frames. apply Injective_map_NoDup; [|apply seq_NoDup].
  intros x y. apply Nat2Z.inj.
Qed.

Lemma in_frames (p : Z) : In p frames <-> in_window p.
Proof.
  unfold frames, in_window. rewrite in_map_iff. split.
  - intros (n & <- & Hn). apply in_seq in Hn.
    change PMM_TOTAL_PAGES with 3584 in *. lia.
  - intros H. exists (Z.to_nat p). split; [lia|]. apply in_seq.
    change PMM_TOTAL_PAGES with 3584 in *. lia.
Qed.

Lemma cleared_bits_set (bm : list Z) (p : Z) :
  bitmap_ok bm -> in_window p -> frame_used bm p = false ->
  cleared_bits (pmm_set_bit bm p) = cleared_bits bm - 1.
Proof.
  intros Hok Hp Hfree. unfold cleared_bits.
  rewrite (filter_length_flip (fun q => negb (frame_used bm q))
             (fun q => negb (frame_used (pmm_set_bit bm p) q)) p frames);
    auto using frames_NoDup.
  - lia.
  - now apply in_frames.
  - now rewrite Hfree.
  - rewrite frame_used_set_bit, Z.eqb_refl by (auto; apply Hp). reflexivity.
  - intros q Hq Hne. apply in_frames in Hq.
    rewrite frame_used_set_bit by (auto; apply Hq).
    destruct (Z.eqb_spec q p); [contradiction|reflexivity].
Qed.

Lemma cleared_bits_clear (bm : list Z) (p : Z) :
  bitmap_ok bm -> in_window p -> frame_used bm p = true ->
  cleared_bits (pmm_clear_bit bm p) = cleared_bits bm + 1.
Proof.
  intros Hok Hp Hused. unfold cleared_bits.
  rewrite (filter_length_flip (fun q => negb (frame_used (pmm_clear_bit bm p) q))
             (fun q => negb (frame_used bm q)) p frames);
    auto using frames_NoDup.
  - lia.
  - now apply in_frames.
  - rewrite frame_used_clear_bit, Z.eqb_refl by (auto; apply Hp). reflexivity.
  - now rewrite Hused.
  - intros q Hq Hne. apply in_frames in Hq.
    rewrite frame_used_clear_bit by (auto; apply Hq).
    destruct (Z.eqb_spec q p); [contradiction|reflexivity].
Qed.

Lemma cleared_bits_range (bm : list Z) : 0 <= cleared_bits bm <= PMM_TOTAL_PAGES.
Proof.
  unfold cleared_bits. split; [lia|].
  pose proof (filter_length_le (fun p => negb (frame_used bm p)) frames) as H.
  unfold frames in H at 2. rewrite length_map, length_seq in H.
  change PMM_TOTAL_PAGES with 3584 in *. lia.
Qed.

(** A free frame in the window makes the count positive. *)
Lemma cleared_bits_pos (bm : list Z) (p : Z) :
  in_window p -> frame_used bm p = false -> 0 < cleared_bits bm.
Proof.
  intros Hp Hf. unfold cleared_bits.
  assert (In p (filter (fun p => negb (frame_used bm p)) frames)).
  { apply filter_In. split; [now apply in_frames|now rewrite Hf]. }
  destruct (filter _ frames); [contradiction|simpl; lia].
Qed.

(** *** The operations keep the invariant *)

Lemma pmm_init_inv : pmm_inv pmm_init.
Proof.
  split; [split|].
  - apply repeat_length.
  - unfold pmm_init, pmm_bitmap.
    induction (Z.to_nat PMM_BITMAP_SIZE); simpl; constructor; auto; lia.
  - vm_compute. reflexivity.
Qed.

(** What one call of [pmm_alloc_page]'s loop does: nothing, or it takes the
    first free frame at or after [i]. *)
Lemma alloc_page_loop_spec (n : nat) (i : Z) (st : pmm_state) :
  0 <= i -> i + Z.of_nat n = PMM_TOTAL_PAGES ->
  (alloc_page_loop n i st = (st, 0) /\
   forall p, i <= p < PMM_TOTAL_PAGES -> frame_used (pmm_bitmap st) p = true) \/
  (exists p, i <= p < PMM_TOTAL_PAGES /\
     frame_used (pmm_bitmap st) p = false /\
     (forall q, i <= q < p -> frame_used (pmm_bitmap st) q = true) /\
     alloc_page_loop n i st =
       (mk_pmm (pmm_set_bit (pmm_bitmap st) p) (wrap64 (pmm_free_count st - 1))
               (pmm_total_pages st),
        PMM_START_ADDR + p * PMM_PAGE_SIZE)).
Proof.
  revert i. induction n as [|n IH]; intros i Hi Hn.
  - left. split; [reflexivity|]. intros p Hp. lia.
  - cbn [alloc_page_loop]. destruct (pmm_test_bit (pmm_bitmap st) i =? 0) eqn:E.
    + right. exists i. repeat split; try lia.
      unfold frame_used. now rewrite E.
    + destruct (IH (i + 1)) as [[E1 H1]|(p & Hp & Hf & Hq & E1)]; try lia.
      * left. split; auto. intros p Hp.
        destruct (Z.eq_dec p i) as [->|]; [unfold frame_used; now rewrite E|].
        apply H1. lia.
      * right. exists p. repeat split; auto; try lia. intros q Hq'.
        destruct (Z.eq_dec q i) as [->|]; [unfold frame_used; now rewrite E|].
        apply Hq. lia.
Qed.

Lemma pmm_alloc_page_spec (st : pmm_state) :
  pmm_inv st ->
  (pmm_alloc_page st = (st, 0)) \/
  (exists p, in_window p /\ frame_used (pmm_bitmap st) p = false /\
     (forall q, 0 <= q < p -> frame_used (pmm_bitmap st) q = true) /\
     pmm_alloc_page st =
       (mk_pmm (pmm_set_bit (pmm_bitmap st) p) (pmm_free_count st - 1)
               (pmm_total_pages st),
        PMM_START_ADDR + p * PMM_PAGE_SIZE)).
Proof.
  intros [Hok Hc]. unfold pmm_alloc_page.
  destruct (pmm_free_count st =? 0); [now left|].
  destruct (alloc_page_loop_spec (Z.to_nat PMM_TOTAL_PAGES) 0 st)
    as [[E _]|(p & Hp & Hf & Hq & E)]; try lia; [reflexivity| |].
  - now left.
  - right. exists p. repeat split; auto; try lia. rewrite E.
    rewrite wrap64_small; auto.
    pose proof (cleared_bits_pos _ p ltac:(split; lia) Hf).
    pose proof (cleared_bits_range (pmm_bitmap st)).
    change PMM_TOTAL_PAGES with 3584 in *. lia.
Qed.

Lemma pmm_alloc_page_inv (st : pmm_state) :
  pmm_inv st -> pmm_inv (fst (pmm_alloc_page st)).
Proof.
  intros Hinv. destruct (pmm_alloc_page_spec st Hinv) as [E|(p & Hp & Hf & _ & E)];
    rewrite E; cbn [fst]; auto.
  destruct Hinv as [Hok Hc]. split; cbn [pmm_bitmap pmm_free_count].
  - now apply pmm_set_bit_ok.
  - rewrite cleared_bits_set; auto. lia.
Qed.

Lemma page_of_addr_in_window (addr : Z) :
  PMM_START_ADDR <= addr < PMM_START_ADDR + PMM_MEMORY_SIZE ->
  in_window ((addr - PMM_START_ADDR) / PMM_PAGE_SIZE).
Proof.
  unfold in_window.
  change PMM_START_ADDR with 2097152. change PMM_MEMORY_SIZE with 14680064.
  change PMM_TOTAL_PAGES with 3584. change PMM_PAGE_SIZE with 4096.
  intros H. split; [apply Z.div_pos; lia|apply Z.div_lt_upper_bound; lia].
Qed.

(** The three cases of [pmm_free_page]. *)
Lemma pmm_free_page_cases (st : pmm_state) (addr : Z) :
  let page := (addr - PMM_START_ADDR) / PMM_PAGE_SIZE in
  (addr < PMM_START_ADDR \/ PMM_START_ADDR + PMM_MEMORY_SIZE <= addr ->
   pmm_free_page st addr = st) /\
  (PMM_START_ADDR <= addr < PMM_START_ADDR + PMM_MEMORY_SIZE ->
   frame_used (pmm_bitmap st) page = false -> pmm_free_page st addr = st) /\
  (PMM_START_ADDR <= addr < PMM_START_ADDR + PMM_MEMORY_SIZE ->
   frame_used (pmm_bitmap st) page = true ->
   pmm_free_page st addr =
     mk_pmm (pmm_clear_bit (pmm_bitmap st) page)
            (wrap64 (pmm_free_count st + 1)) (pmm_total_pages st)).
Proof.
  intros page. unfold pmm_free_page. fold page. unfold frame_used.
  destruct (Z.ltb_spec addr PMM_START_ADDR),
    (Z.geb_spec addr (PMM_START_ADDR + PMM_MEMORY_SIZE)); cbn [orb];
    repeat split; intros; try lia; auto.
  - now rewrite H2.
  - now rewrite H2.
Qed.

Lemma pmm_free_page_inv (st : pmm_state) (addr : Z) :
  pmm_inv st -> pmm_inv (pmm_free_page st addr).
Proof.
  intros [Hok Hc].
  destruct (pmm_free_page_cases st addr) as (Hout & Hfree & Hused).
  destruct (Z.lt_ge_cases addr PMM_START_ADDR);
    [rewrite Hout by lia; now split|].
  destruct (Z.lt_ge_cases addr (PMM_START_ADDR + PMM_MEMORY_SIZE));
    [|rewrite Hout by lia; now split].
  pose proof (page_of_addr_in_window addr ltac:(lia)) as Hp.
  destruct (frame_used (pmm_bitmap st) ((addr - PMM_START_ADDR) / PMM_PAGE_SIZE))
    eqn:Hu; [|rewrite Hfree by (auto; lia); now split].
  rewrite Hused by (auto; lia). split; cbn [pmm_bitmap pmm_free_count].
  - now apply pmm_clear_bit_ok.
  - pose proof (cleared_bits_range (pmm_clear_bit (pmm_bitmap st)
                  ((addr - PMM_START_ADDR) / PMM_PAGE_SIZE))) as Hr.
    rewrite (cleared_bits_clear _ _ Hok Hp Hu) in *.
    rewrite wrap64_small; [lia|].
    change PMM_TOTAL_PAGES with 3584 in *. lia.
Qed.

Lemma free_pages_loop_inv (n : nat) (i addr : Z) (st : pmm_state) :
  pmm_inv st -> pmm_inv (free_pages_loop n i addr st).
Proof.
  revert i st. induction n as [|n IH]; intros i st H; cbn [free_pages_loop]; auto.
  apply IH. now apply pmm_free_page_inv.
Qed.

(** *** Contiguous allocation *)

Lemma set_bits_ok (n : nat) (j : Z) (bm : list Z) :
  bitmap_ok bm -> bitmap_ok (set_bits n j bm).
Proof.
  revert j bm. induction n as [|n IH]; intros j bm H; cbn [set_bits]; auto.
  apply IH. now apply pmm_set_bit_ok.
Qed.

(** [set_bits] marks the frames [j .. j+n-1] and no other frame. *)
Lemma frame_used_set_bits (n : nat) (j : Z) (bm : list Z) (q : Z) :
  bitmap_ok bm -> 0 <= j -> j + Z.of_nat n <= PMM_TOTAL_PAGES -> 0 <= q ->
  frame_used (set_bits n j bm) q =
  ((j <=? q) && (q <? j + Z.of_nat n)) || frame_used bm q.
Proof.
  revert j bm. induction n as [|n IH]; intros j bm Hok Hj Hn Hq; cbn [set_bits].
  - destruct (Z.leb_spec j q), (Z.ltb_spec q (j + Z.of_nat 0)); cbn [andb orb]; auto; lia.
  - rewrite IH, frame_used_set_bit; auto using pmm_set_bit_ok; try lia;
      [|unfold in_window; lia].
    destruct (Z.leb_spec j q), (Z.leb_spec (j + 1) q),
      (Z.ltb_spec q (j + 1 + Z.of_nat n)), (Z.ltb_spec q (j + Z.of_nat (S n))),
      (Z.eqb_spec q j); cbn [andb orb]; auto; lia.
Qed.

Lemma cleared_bits_set_bits (n : nat) (j : Z) (bm : list Z) :
  bitmap_ok bm -> 0 <= j -> j + Z.of_nat n <= PMM_TOTAL_PAGES ->
  (forall p, j <= p < j + Z.of_nat n -> frame_used bm p = false) ->
  cleared_bits (set_bits n j bm) = cleared_bits bm - Z.of_nat n.
Proof.
  revert j bm. induction n as [|n IH]; intros j bm Hok Hj Hn Hfree; cbn [set_bits].
  - lia.
  - rewrite IH; auto using pmm_set_bit_ok; try lia.
    + rewrite cleared_bits_set; auto; [lia|unfold in_window; lia|apply Hfree; lia].
    + intros p Hp. rewrite frame_used_set_bit; auto; [|unfold in_window; lia|lia].
      destruct (Z.eqb_spec p j); [lia|]. apply Hfree. lia.
Qed.

(** The scan of [pmm_alloc_pages]: [consecutive] counts the free frames just
    before [i], and no run of [count] free frames starts before them. *)
Lemma alloc_pages_loop_spec (n : nat) (i c s count : Z) (st : pmm_state) :
  0 <= i -> i + Z.of_nat n = PMM_TOTAL_PAGES -> 0 <= c < count -> c <= i ->
  (0 < c -> s = i - c) ->
  (forall p, i - c <= p < i -> frame_used (pmm_bitmap st) p = false) ->
  (forall t, t < i - c -> ~ free_run (pmm_bitmap st) t count) ->
  (alloc_pages_loop n i c s count st = (st, 0) /\
   forall t, ~ free_run (pmm_bitmap st) t count) \/
  (exists t, free_run (pmm_bitmap st) t count /\
     (forall t', t' < t -> ~ free_run (pmm_bitmap st) t' count) /\
     alloc_pages_loop n i c s count st =
       (mk_pmm (set_bits (Z.to_nat count) t (pmm_bitmap st))
               (wrap64 (pmm_free_count st - count)) (pmm_total_pages st),
        PMM_START_ADDR + t * PMM_PAGE_SIZE)).
Proof.
  revert i c s. induction n as [|n IH]; intros i c s Hi Hn Hc Hci Hs Hrun Hno.
  - left. split; [reflexivity|]. intros t (Ht0 & Ht1 & Ht).
    destruct (Z.lt_ge_cases t (i - c)) as [Hlt|Hge].
    + apply (Hno t Hlt). repeat split; auto.
    + lia.
  - cbn [alloc_pages_loop]. destruct (pmm_test_bit (pmm_bitmap st) i =? 0) eqn:E.
    + assert (Es : (if c =? 0 then i else s) = i - c).
      { destruct (Z.eqb_spec c 0); [lia|apply Hs; lia]. }
      rewrite Es.
      assert (Hrun' : forall p, i - c <= p < i + 1 ->
                frame_used (pmm_bitmap st) p = false).
      { intros p Hp. destruct (Z.eq_dec p i) as [->|];
          [unfold frame_used; now rewrite E|apply Hrun; lia]. }
      destruct (Z.eqb_spec (c + 1) count) as [Ecount|Hne].
      * right. exists (i - c). split; [|split; auto].
        repeat split; try lia. intros p Hp. apply Hrun'. lia.
      * apply IH; try lia.
        -- intros p Hp. apply Hrun'. lia.
        -- intros t Ht. apply Hno. lia.
    + apply IH; try lia.
      * intros t Ht (Ht0 & Ht1 & Hfree).
        destruct (Z.lt_ge_cases t (i - c)) as [Hlt|Hge].
        -- apply (Hno t Hlt). repeat split; auto.
        -- assert (frame_used (pmm_bitmap st) i = false) by (apply Hfree; lia).
           unfold frame_used in H. rewrite E in H. discriminate.
Qed.

(** A run of [count] free frames bounds the number of cleared bits below. *)
Lemma free_run_cleared_bits (bm : list Z) (t count : Z) :
  bitmap_ok bm -> 0 <= count -> free_run bm t count -> count <= cleared_bits bm.
Proof.
  intros Hok Hc (Ht0 & Ht1 & Hfree).
  pose proof (cleared_bits_set_bits (Z.to_nat count) t bm Hok Ht0) as H.
  rewrite Z2Nat.id in H by lia. specialize (H Ht1 Hfree).
  pose proof (cleared_bits_range (set_bits (Z.to_nat count) t bm)). lia.
Qed.

Lemma pmm_alloc_pages_inv (st : pmm_state) (count : Z) :
  pmm_inv st -> 0 <= count -> pmm_inv (fst (pmm_alloc_pages st count)).
Proof.
  intros [Hok Hc] Hcount. unfold pmm_alloc_pages.
  destruct (Z.eqb_spec count 0); cbn [orb fst]; [now split|].
  destruct (Z.ltb_spec (pmm_free_count st) count); [now split|].
  destruct (alloc_pages_loop_spec (Z.to_nat PMM_TOTAL_PAGES) 0 0 0 count st)
    as [[E _]|(t & Hrun & _ & E)]; try lia.
  - reflexivity.
  - intros t Ht (Ht0 & _). lia.
  - rewrite E. now split.
  - rewrite E. cbn [fst]. destruct Hrun as (Ht0 & Ht1 & Hfree).
    split; cbn [pmm_bitmap pmm_free_count].
    + now apply set_bits_ok.
    + rewrite cleared_bits_set_bits; auto; rewrite ?Z2Nat.id; try lia; auto.
      pose proof (cleared_bits_range (pmm_bitmap st)).
      rewrite wrap64_small; [lia|]. change PMM_TOTAL_PAGES with 3584 in *. lia.
Qed.

Lemma pmm_step_inv (st : pmm_state) (o : pmm_op) :
  pmm_inv st -> op_in_range o -> pmm_inv (pmm_step st o).
Proof.
  intros H Ho. destruct o; cbn [pmm_step op_in_range] in *.
  - now apply pmm_alloc_page_inv.
  - apply pmm_alloc_pages_inv; auto; lia.
  - now apply pmm_free_page_inv.
  - now apply free_pages_loop_inv.
Qed.

Lemma pmm_reachable_inv (st : pmm_state) : pmm_reachable st -> pmm_inv st.
Proof.
  induction 1; auto using pmm_init_inv, pmm_step_inv.
Qed.

(** *** Properties of the allocator *)

Lemma page_of_frame_addr (p : Z) :
  (PMM_START_ADDR + p * PMM_PAGE_SIZE - PMM_START_ADDR) / PMM_PAGE_SIZE = p.
Proof.
  replace (PMM_START_ADDR + p * PMM_PAGE_SIZE - PMM_START_ADDR)
    with (p * PMM_PAGE_SIZE) by lia.
  apply Z.div_mul. discriminate.
Qed.

Lemma frame_addr_in_window (p : Z) :
  in_window p ->
  (PMM_START_ADDR + p * PMM_PAGE_SIZE) mod PMM_PAGE_SIZE = 0 /\
  PMM_START_ADDR <= PMM_START_ADDR + p * PMM_PAGE_SIZE
    < PMM_START_ADDR + PMM_MEMORY_SIZE.
Proof.
  unfold in_window.
  change PMM_START_ADDR with (512 * PMM_PAGE_SIZE).
  change PMM_MEMORY_SIZE with (PMM_TOTAL_PAGES * PMM_PAGE_SIZE).
  intros H. split.
  - rewrite <- Z.mul_add_distr_r. apply Z.mod_mul. discriminate.
  - change PMM_PAGE_SIZE with 4096. lia.
Qed.

(** C4: in every state reached from [pmm_init] by allocations and frees, the
    number of cleared bitmap bits is [pmm_free_count]; a non-null result of
    [pmm_alloc_page] is a multiple of 4096 inside
    [[0x200000, 0x200000 + 14 MiB)]; and [pmm_free_page] on that result
    brings [pmm_free_count] back to its value before the allocation. *)
Theorem pmm_count_alignment_and_roundtrip (st : pmm_state) :
  pmm_reachable st ->
  cleared_bits (pmm_bitmap st) = pmm_free_count st /\
  forall st' a, pmm_alloc_page st = (st', a) -> a <> 0 ->
    a mod 4096 = 0 /\
    0x200000 <= a < 0x200000 + 14 * 1024 * 1024 /\
    pmm_free_count (pmm_free_page st' a) = pmm_free_count st.
Proof.
  intros Hr. pose proof (pmm_reachable_inv st Hr) as Hinv.
  split; [symmetry; apply Hinv|]. intros st' a E Ha.
  destruct (pmm_alloc_page_spec st Hinv) as [E'|(p & Hp & Hf & _ & E')];
    pose proof (eq_trans (eq_sym E') E) as E2;
    pose proof (f_equal fst E2) as Est; pose proof (f_equal snd E2) as Ea;
    cbn [fst snd] in Est, Ea; [congruence|].
  clear E E' E2. subst st' a.
  destruct (frame_addr_in_window p Hp) as [Hal Hwin].
  split; [exact Hal|]. split; [exact Hwin|].
  destruct (pmm_free_page_cases
              (mk_pmm (pmm_set_bit (pmm_bitmap st) p) (pmm_free_count st - 1)
                      (pmm_total_pages st))
              (PMM_START_ADDR + p * PMM_PAGE_SIZE)) as (_ & _ & Hused).
  rewrite Hused; auto; cbn [pmm_bitmap pmm_free_count].
  - destruct Hinv as [Hok Hc].
    pose proof (cleared_bits_range (pmm_bitmap st)).
    pose proof (cleared_bits_pos _ p Hp Hf).
    replace (pmm_free_count st - 1 + 1) with (pmm_free_count st) by lia.
    apply wrap64_small. change PMM_TOTAL_PAGES with 3584 in *. lia.
  - rewrite page_of_frame_addr, frame_used_set_bit, Z.eqb_refl;
      auto; try apply Hinv; apply Hp.
Qed.

Lemma pmm_count_alignment_and_roundtrip_witness :
  cleared_bits (pmm_bitmap pmm_init) = pmm_free_count pmm_init /\
  forall st' a, pmm_alloc_page pmm_init = (st', a) -> a <> 0 ->
    a mod 4096 = 0 /\
    0x200000 <= a < 0x200000 + 14 * 1024 * 1024 /\
    pmm_free_count (pmm_free_page st' a) = pmm_free_count pmm_init.
Proof.
  apply (pmm_count_alignment_and_roundtrip pmm_init). constructor.
Defined.

(** C6: [pmm_alloc_pages 0] is null; when the bitmap has no run of [count]
    free frames the call is null and the state is untouched; when it has one,
    the call returns the address of the first such run, marks these [count]
    frames and no other frame, and lowers the free count by [count]. *)
Theorem pmm_alloc_pages_first_run (st : pmm_state) (count : Z) :
  pmm_inv st -> 0 <= count < 2 ^ 64 ->
  (count = 0 -> pmm_alloc_pages st count = (st, 0)) /\
  ((forall t, ~ free_run (pmm_bitmap st) t count) ->
   pmm_alloc_pages st count = (st, 0)) /\
  (0 < count -> forall t,
   free_run (pmm_bitmap st) t count ->
   (forall t', t' < t -> ~ free_run (pmm_bitmap st) t' count) ->
   exists bm',
     pmm_alloc_pages st count =
       (mk_pmm bm' (pmm_free_count st - count) (pmm_total_pages st),
        PMM_START_ADDR + t * PMM_PAGE_SIZE) /\
     forall q, 0 <= q ->
       frame_used bm' q =
       ((t <=? q) && (q <? t + count)) || frame_used (pmm_bitmap st) q).
Proof.
  intros [Hok Hc] Hcount. unfold pmm_alloc_pages. split; [|split].
  - intros ->. reflexivity.
  - intros Hno. destruct (Z.eqb_spec count 0); cbn [orb]; auto.
    destruct (Z.ltb_spec (pmm_free_count st) count); auto.
    destruct (alloc_pages_loop_spec (Z.to_nat PMM_TOTAL_PAGES) 0 0 0 count st
                ltac:(lia) eq_refl ltac:(lia) ltac:(lia) ltac:(lia)
                ltac:(intros; lia) ltac:(intros t _; apply Hno))
      as [[E _]|(t & Hrun & _)]; auto.
    destruct (Hno t Hrun).
  - intros Hpos t Hrun Hfirst.
    pose proof (free_run_cleared_bits _ t count Hok ltac:(lia) Hrun) as Hle.
    destruct (Z.eqb_spec count 0); [lia|]. cbn [orb].
    destruct (Z.ltb_spec (pmm_free_count st) count); [lia|].
    assert (Hbefore : forall t', t' < 0 - 0 -> ~ free_run (pmm_bitmap st) t' count)
      by (intros t' Ht' (Ht0 & _); lia).
    destruct (alloc_pages_loop_spec (Z.to_nat PMM_TOTAL_PAGES) 0 0 0 count st
                ltac:(lia) eq_refl ltac:(lia) ltac:(lia) ltac:(lia)
                ltac:(intros; lia) Hbefore)
      as [[_ Hno]|(t0 & Hrun0 & Hfirst0 & E)]; [destruct (Hno t Hrun)|].
    assert (t0 = t).
    { destruct (Z.lt_trichotomy t0 t) as [Hlt|[Heq|Hgt]]; auto.
      - destruct (Hfirst t0 Hlt Hrun0).
      - destruct (Hfirst0 t Hgt Hrun). }
    subst t0. exists (set_bits (Z.to_nat count) t (pmm_bitmap st)).
    rewrite E. split.
    + rewrite wrap64_small; auto.
      pose proof (cleared_bits_range (pmm_bitmap st)).
      change PMM_TOTAL_PAGES with 3584 in *. lia.
    + intros q Hq. destruct Hrun as (Ht0 & Ht1 & _).
      rewrite frame_used_set_bits; auto; rewrite Z2Nat.id; auto; lia.
Qed.

Lemma pmm_alloc_pages_first_run_witness :
  (4 = 0 -> pmm_alloc_pages pmm_init 4 = (pmm_init, 0)) /\
  ((forall t, ~ free_run (pmm_bitmap pmm_init) t 4) ->
   pmm_alloc_pages pmm_init 4 = (pmm_init, 0)) /\
  (0 < 4 -> forall t,
   free_run (pmm_bitmap pmm_init) t 4 ->
   (forall t', t' < t -> ~ free_run (pmm_bitmap pmm_init) t' 4) ->
   exists bm',
     pmm_alloc_pages pmm_init 4 =
       (mk_pmm bm' (pmm_free_count pmm_init - 4) (pmm_total_pages pmm_init),
        PMM_START_ADDR + t * PMM_PAGE_SIZE) /\
     forall q, 0 <= q ->
       frame_used bm' q =
       ((t <=? q) && (q <? t + 4)) || frame_used (pmm_bitmap pmm_init) q).
Proof.
  apply (pmm_alloc_pages_first_run pmm_init 4); [apply pmm_init_inv|lia].
Defined.

(** On a fresh bitmap [pmm_alloc_pages 4] returns the base of the window, the
    next call the address 16 KiB further, and after [pmm_free_pages] of the
    first four frames the base again. *)
Example pmm_alloc_pages_fresh :
  let r1 := pmm_alloc_pages pmm_init 4 in
  let r2 := pmm_alloc_pages (fst r1) 4 in
  let r3 := pmm_alloc_pages (pmm_free_pages (fst r2) (snd r1) 4) 4 in
  snd r1 = PMM_START_ADDR /\ snd r2 = PMM_START_ADDR + 16 * 1024 /\
  snd r3 = PMM_START_ADDR /\ pmm_free_count (fst r3) = PMM_TOTAL_PAGES - 8.
Proof. vm_compute. repeat split; reflexivity. Qed.

(** C10: [pmm_free_page] on any address of the window, aligned or not, acts on
    the frame that contains it: a set bit is cleared (and only that bit) and
    the free count grows by one, a clear bit leaves the state as it is; an
    address outside the window leaves the state as it is. *)
Theorem pmm_free_page_containing_frame (st : pmm_state) (addr : Z) :
  pmm_inv st ->
  let page := (addr - 0x200000) / 4096 in
  let st' := pmm_free_page st addr in
  (0x200000 <= addr < 0x200000 + 14 * 1024 * 1024 ->
   (frame_used (pmm_bitmap st) page = true ->
    frame_used (pmm_bitmap st') page = false /\
    (forall q, 0 <= q -> q <> page ->
       frame_used (pmm_bitmap st') q = frame_used (pmm_bitmap st) q) /\
    pmm_free_count st' = pmm_free_count st + 1) /\
   (frame_used (pmm_bitmap st) page = false -> st' = st)) /\
  (addr < 0x200000 \/ 0x200000 + 14 * 1024 * 1024 <= addr -> st' = st).
Proof.
  intros [Hok Hc] page st'.
  destruct (pmm_free_page_cases st addr) as (Hout & Hfree & Hused).
  split; [|exact Hout]. intros Hwin. split; [|now apply Hfree].
  intros Hu. pose proof (page_of_addr_in_window addr Hwin) as Hp.
  unfold st'. rewrite (Hused Hwin Hu). cbn [pmm_bitmap pmm_free_count].
  split; [|split].
  - rewrite frame_used_clear_bit, Z.eqb_refl; auto. apply Hp.
  - intros q Hq Hne. rewrite frame_used_clear_bit; auto.
    change ((addr - PMM_START_ADDR) / PMM_PAGE_SIZE) with page.
    destruct (Z.eqb_spec q page); [contradiction|reflexivity].
  - pose proof (cleared_bits_range (pmm_clear_bit (pmm_bitmap st)
                  ((addr - PMM_START_ADDR) / PMM_PAGE_SIZE))) as Hr.
    rewrite (cleared_bits_clear _ _ Hok Hp Hu) in Hr.
    apply wrap64_small. change PMM_TOTAL_PAGES with 3584 in *. lia.
Qed.

Lemma pmm_free_page_containing_frame_witness :
  let st := fst (pmm_alloc_pages pmm_init 2) in
  let addr := 0x200000 + 4096 + 123 in
  let page := (addr - 0x200000) / 4096 in
  let st' := pmm_free_page st addr in
  (0x200000 <= addr < 0x200000 + 14 * 1024 * 1024 ->
   (frame_used (pmm_bitmap st) page = true ->
    frame_used (pmm_bitmap st') page = false /\
    (forall q, 0 <= q -> q <> page ->
       frame_used (pmm_bitmap st') q = frame_used (pmm_bitmap st) q) /\
    pmm_free_count st' = pmm_free_count st + 1) /\
   (frame_used (pmm_bitmap st) page = false -> st' = st)) /\
  (addr < 0x200000 \/ 0x200000 + 14 * 1024 * 1024 <= addr -> st' = st).
Proof.
  apply (pmm_free_page_containing_frame (fst (pmm_alloc_pages pmm_init 2))
           (0x200000 + 4096 + 123)).
  apply pmm_alloc_pages_inv; [apply pmm_init_inv|lia].
Defined.

End PmmProofs.

(** ** Virtio-net: what one send and one receive do to the rings *)

Module VirtioNetProofs.
Import VirtioNet.

Lemma bind_some {A B} (m : M A) (k : A -> M B) (st st' : net_state) (a : A) :
  m st = Some (a, st') -> bind m k st = k a st'.
Proof. intros H. unfold bind. now rewrite H. Qed.

Lemma in_bounds_list_set {A} (i : Z) (l : list A) (j : nat) (v : A) :
  in_bounds i (list_set l j v) = in_bounds i l.
Proof. unfold in_bounds. now rewrite list_set_length. Qed.

Lemma in_bounds_true {A} (i : Z) (l : list A) :
  0 <= i < Z.of_nat (length l) -> in_bounds i l = true.
Proof.
  intros H. unfold in_bounds.
  destruct (Z.leb_spec 0 i), (Z.ltb_spec i (Z.of_nat (length l))); auto; lia.
Qed.

(** Bytes stored by [store_bytes] are read back, and addresses outside the
    stored range keep their contents. *)
Lemma store_bytes_outside (bytes : list Z) (m : Z -> Z) (a x : Z) :
  x < a \/ a + Z.of_nat (length bytes) <= x -> store_bytes m a bytes x = m x.
Proof.
  revert m a. induction bytes as [|b rest IH]; intros m a H; simpl in *; auto.
  rewrite IH by lia. destruct (Z.eqb_spec x a); auto; lia.
Qed.

Lemma store_bytes_inside (bytes : list Z) (m : Z -> Z) (a : Z) (k : nat) :
  (k < length bytes)%nat ->
  store_bytes m a bytes (a + Z.of_nat k) = nth k bytes 0.
Proof.
  revert m a k. induction bytes as [|b rest IH]; intros m a k H; simpl in *; [lia|].
  destruct k as [|k].
  - rewrite store_bytes_outside by lia. rewrite Z.add_0_r, Z.eqb_refl. reflexivity.
  - replace (a + Z.of_nat (S k)) with (a + 1 + Z.of_nat k) by lia.
    apply IH. lia.
Qed.

Ltac unfold_prims :=
  unfold read_buffer, write_desc_addr, write_desc_len, write_desc_flags,
    write_desc_next, update_desc, write_avail_ring, write_avail_idx,
    write_last_used_idx, read_used_ring, barrier, outw, memset, memcpy_to,
    c_mod, gets, modify, bind, ret, fail, log, set_queue, get_queue, set_dma,
    set_tx_idx.

Ltac run_prims :=
  repeat (cbn [rx_queue tx_queue size desc avail a_ring used buffers a_idx
               a_flags a_used_event last_used_idx virtio_initialized io_base
               tx_idx dma trace u_idx u_ring e_id e_len app fst snd
               d_addr d_len d_flags d_next orb];
          rewrite ?in_bounds_list_set, ?list_set_length;
          try rewrite in_bounds_true by lia;
          try rewrite nth_list_set_same by lia;
          rewrite ?list_set_twice).

Lemma rem_in_range (a n : Z) : 0 <= a -> 0 < n -> 0 <= Z.rem a n < n.
Proof. intros Ha Hn. apply Z.rem_bound_pos; lia. Qed.

Lemma virtq_add_rx_buffer_rx (st : net_state) (idx : Z) :
  queue_ok (rx_queue st) -> 0 <= idx < size (rx_queue st) ->
  0 <= a_idx (avail (rx_queue st)) ->
  virtq_add_rx_buffer RXQ idx st =
  Some (tt, mk_net (virtio_initialized st) (io_base st)
              (rx_refill (rx_queue st) idx) (tx_queue st) (tx_idx st) (dma st)
              (trace st ++ rx_refill_events RXQ (rx_queue st) idx)).
Proof.
  destruct st as [ini base rxq txq ti m tr].
  destruct rxq as [ds [af ai ring ue] us sz lu bufs].
  unfold queue_ok. cbn [rx_queue size desc avail a_ring used buffers a_idx].
  intros (Hsz & Hd & Hr & Hu & Hb) Hidx Hai.
  pose proof (rem_in_range ai sz Hai ltac:(lia)) as Hslot.
  unfold virtq_add_rx_buffer, rx_refill, rx_refill_events.
  unfold_prims. run_prims.
  destruct (Z.eqb_spec sz 0); [lia|]. run_prims.
  rewrite <- !app_assoc. reflexivity.
Qed.



(** C7: a send on an initialised driver with a payload of at most 2038 bytes
    returns 0, having, in this order, zeroed the 10-byte header of the slot
    buffer and copied the payload behind it, set the slot's descriptor to
    {buffer address, 10 + payload length, 0, 0}, stored the slot index in
    [avail.ring[avail.idx % size]], passed the barrier, advanced [avail.idx]
    by one modulo 2^16 and written 1 to the queue-notify port; the slot index
    for the next call is the successor modulo the queue size. *)
Theorem virtio_net_send_publishes_slot (st : net_state) (data : list Z) :
  virtio_initialized st <> 0 ->
  Z.of_nat (length data) <= 2038 ->
  queue_ok (tx_queue st) ->
  0 <= tx_idx st < size (tx_queue st) ->
  0 <= a_idx (avail (tx_queue st)) < 2 ^ 16 ->
  let vq := tx_queue st in
  let i := tx_idx st in
  let buf := nth (Z.to_nat i) (buffers vq) 0 in
  let slot := a_idx (avail vq) mod size vq in
  let len := Z.of_nat (length data) in
  exists st',
    virtio_net_send data st = Some (0, st') /\
    a_ring (avail (tx_queue st')) = list_set (a_ring (avail vq)) (Z.to_nat slot) i /\
    desc (tx_queue st') = list_set (desc vq) (Z.to_nat i) (mk_desc buf (10 + len) 0 0) /\
    (forall k, 0 <= k < 10 -> dma st' (buf + k) = 0) /\
    (forall k, (k < length data)%nat ->
       dma st' (buf + 10 + Z.of_nat k) = nth k data 0) /\
    a_idx (avail (tx_queue st')) = (a_idx (avail vq) + 1) mod 2 ^ 16 /\
    trace st' = trace st ++
      [EvMemset buf 0 10; EvMemcpy (buf + 10) data;
       EvDescAddr TXQ i buf; EvDescLen TXQ i (10 + len);
       EvDescFlags TXQ i 0; EvDescNext TXQ i 0;
       EvAvailRing TXQ slot i; EvBarrier;
       EvAvailIdx TXQ ((a_idx (avail vq) + 1) mod 2 ^ 16);
       EvOutw (wrap16 (io_base st + VIRTIO_PCI_QUEUE_NOTIFY)) 1] /\
    tx_idx st' = (i + 1) mod size vq /\
    size (tx_queue st') = size vq /\
    buffers (tx_queue st') = buffers vq /\
    rx_queue st' = rx_queue st.
Proof.
  destruct st as [ini base rxq txq ti m tr].
  destruct txq as [ds [af ai ring ue] us sz lu bufs].
  unfold queue_ok.
  cbn [tx_queue rx_queue size desc avail a_ring used buffers a_idx tx_idx
       virtio_initialized io_base trace].
  intros Hini Hlen (Hsz & Hd & Hr & Hu & Hb) Hidx Hai.
  pose proof (rem_in_range ai sz ltac:(lia) ltac:(lia)) as Hslot.
  pose proof (rem_in_range (ti + 1) sz ltac:(lia) ltac:(lia)) as Hnext.
  rewrite <- (Z.rem_mod_nonneg ai sz), <- (Z.rem_mod_nonneg (ti + 1) sz) by lia.
  unfold virtio_net_send. unfold_prims. run_prims.
  destruct (Z.eqb_spec ini 0); [contradiction|].
  destruct (Z.gtb_spec (Z.of_nat (length data)) (NET_BUFFER_SIZE - NET_HDR_SIZE));
    [change (NET_BUFFER_SIZE - NET_HDR_SIZE) with 2038 in *; lia|].
  assert (Hz : (sz =? 0) = false) by (apply Z.eqb_neq; lia).
  run_prims. rewrite Hz. run_prims. rewrite Hz. run_prims.
  rewrite (wrap16_small ti), wrap32_small by (change NET_HDR_SIZE with 10; lia).
  eexists. split; [reflexivity|]. run_prims.
  change NET_HDR_SIZE with 10. change (Z.to_nat 10) with 10%nat.
  change (wrap8 0) with 0.
  repeat split; auto.
  - intros k Hk. rewrite store_bytes_outside by lia.
    replace k with (Z.of_nat (Z.to_nat k)) by lia.
    rewrite store_bytes_inside by (rewrite repeat_length; lia).
    apply nth_repeat.
  - intros k Hk. now apply store_bytes_inside.
  - now rewrite <- !app_assoc.
Qed.

(** C8: on an initialised driver, [virtio_net_receive] with
    [last_used_idx == used.idx] returns 0 and changes nothing; with a used
    entry whose length is at most 10 it returns 0 with no byte copied,
    advances [last_used_idx] by one, gives the slot back to the RX available
    ring (descriptor {buffer address, 2048, device-writable, 0}, ring entry,
    barrier, index) and then writes 0 to the queue-notify port. *)
Theorem virtio_net_receive_nothing_or_short (st : net_state) (max_len : Z) :
  virtio_initialized st <> 0 ->
  let vq := rx_queue st in
  let e := nth (Z.to_nat (last_used_idx vq mod size vq)) (u_ring (used vq))
               (mk_used_elem 0 0) in
  (last_used_idx vq = u_idx (used vq) ->
   virtio_net_receive max_len st = Some ((0, []), st)) /\
  (last_used_idx vq <> u_idx (used vq) ->
   queue_ok vq -> 0 <= last_used_idx vq < 2 ^ 16 ->
   0 <= a_idx (avail vq) < 2 ^ 16 ->
   e_len e <= 10 -> 0 <= e_id e < size vq ->
   exists st',
     virtio_net_receive max_len st = Some ((0, []), st') /\
     last_used_idx (rx_queue st') = (last_used_idx vq + 1) mod 2 ^ 16 /\
     desc (rx_queue st') =
       list_set (desc vq) (Z.to_nat (e_id e))
         (mk_desc (nth (Z.to_nat (e_id e)) (buffers vq) 0) 2048
                  VIRTQ_DESC_F_WRITE 0) /\
     a_ring (avail (rx_queue st')) =
       list_set (a_ring (avail vq))
         (Z.to_nat (a_idx (avail vq) mod size vq)) (e_id e) /\
     a_idx (avail (rx_queue st')) = (a_idx (avail vq) + 1) mod 2 ^ 16 /\
     trace st' = trace st ++
       [EvDescAddr RXQ (e_id e) (nth (Z.to_nat (e_id e)) (buffers vq) 0);
        EvDescLen RXQ (e_id e) 2048;
        EvDescFlags RXQ (e_id e) VIRTQ_DESC_F_WRITE;
        EvDescNext RXQ (e_id e) 0;
        EvAvailRing RXQ (a_idx (avail vq) mod size vq) (e_id e);
        EvBarrier;
        EvAvailIdx RXQ ((a_idx (avail vq) + 1) mod 2 ^ 16);
        EvOutw (wrap16 (io_base st + VIRTIO_PCI_QUEUE_NOTIFY)) 0] /\
     used (rx_queue st') = used vq /\ dma st' = dma st /\
     tx_queue st' = tx_queue st).
Proof.
  intros Hini vq e. split.
  - intros Heq. unfold virtio_net_receive. unfold_prims.
    destruct (Z.eqb_spec (virtio_initialized st) 0); [contradiction|].
    fold vq. rewrite Heq, Z.eqb_refl. reflexivity.
  - intros Hne Hok Hlast Hai Hlen Hid.
    pose proof Hok as (Hsz & Hd & Hr & Hu & Hb).
    pose proof (rem_in_range (last_used_idx vq) (size vq) ltac:(lia) ltac:(lia))
      as Hslot.
    unfold e in *. clear e.
    rewrite <- (Z.rem_mod_nonneg (last_used_idx vq) (size vq)) in * by lia.
    rewrite <- (Z.rem_mod_nonneg (a_idx (avail vq)) (size vq)) by lia.
    unfold virtio_net_receive.
    rewrite (bind_some _ _ st st (virtio_initialized st)) by reflexivity.
    destruct (Z.eqb_spec (virtio_initialized st) 0); [contradiction|].
    rewrite (bind_some _ _ st st (last_used_idx vq)) by reflexivity.
    rewrite (bind_some _ _ st st (u_idx (used vq))) by reflexivity.
    destruct (Z.eqb_spec (last_used_idx vq) (u_idx (used vq))); [contradiction|].
    rewrite (bind_some _ _ st st (size vq)) by reflexivity.
    rewrite (bind_some _ _ st st (Z.rem (last_used_idx vq) (size vq)))
      by (unfold c_mod; destruct (Z.eqb_spec (size vq) 0); [lia|reflexivity]).
    rewrite (bind_some _ _ st st
               (nth (Z.to_nat (Z.rem (last_used_idx vq) (size vq)))
                    (u_ring (used vq)) (mk_used_elem 0 0)))
      by (unfold read_used_ring; cbn [get_queue]; fold vq;
          now rewrite in_bounds_true by lia).
    set (e' := nth (Z.to_nat (Z.rem (last_used_idx vq) (size vq)))
                   (u_ring (used vq)) (mk_used_elem 0 0)) in *.
    set (st1 := set_queue RXQ
                  (mk_virtq (desc vq) (avail vq) (used vq) (size vq)
                            (wrap16 (last_used_idx vq + 1)) (buffers vq)) st).
    rewrite (bind_some _ _ st st1 tt) by reflexivity.
    destruct (Z.gtb_spec (e_len e') NET_HDR_SIZE);
      [change NET_HDR_SIZE with 10 in *; lia|].
    rewrite (bind_some _ _ st1 st1 (0, [])) by reflexivity.
    rewrite (bind_some _ _ _ _ _ (virtq_add_rx_buffer_rx st1 (e_id e') Hok Hid
                                    ltac:(cbn; fold vq; lia))).
    eexists. split; [reflexivity|].
    unfold outw, modify, log, rx_refill, rx_refill_events.
    cbn [rx_queue tx_queue last_used_idx desc avail a_ring a_idx
         trace used dma st1 set_queue size buffers io_base a_flags].
    fold vq. rewrite (wrap16_small (e_id e')) by lia.
    rewrite <- !app_assoc. repeat split; reflexivity.
Qed.


Lemma idle_state_queues_ok :
  queue_ok (tx_queue idle_state) /\ queue_ok (rx_queue short_packet_state).
Proof. unfold queue_ok. repeat split; vm_compute; congruence. Qed.

Lemma virtio_net_send_publishes_slot_witness :
  let st := idle_state in
  let data := [0xde; 0xad; 0xbe; 0xef] in
  let vq := tx_queue st in
  let i := tx_idx st in
  let buf := nth (Z.to_nat i) (buffers vq) 0 in
  let slot := a_idx (avail vq) mod size vq in
  let len := Z.of_nat (length data) in
  exists st',
    virtio_net_send data st = Some (0, st') /\
    a_ring (avail (tx_queue st')) = list_set (a_ring (avail vq)) (Z.to_nat slot) i /\
    desc (tx_queue st') = list_set (desc vq) (Z.to_nat i) (mk_desc buf (10 + len) 0 0) /\
    (forall k, 0 <= k < 10 -> dma st' (buf + k) = 0) /\
    (forall k, (k < length data)%nat ->
       dma st' (buf + 10 + Z.of_nat k) = nth k data 0) /\
    a_idx (avail (tx_queue st')) = (a_idx (avail vq) + 1) mod 2 ^ 16 /\
    trace st' = trace st ++
      [EvMemset buf 0 10; EvMemcpy (buf + 10) data;
       EvDescAddr TXQ i buf; EvDescLen TXQ i (10 + len);
       EvDescFlags TXQ i 0; EvDescNext TXQ i 0;
       EvAvailRing TXQ slot i; EvBarrier;
       EvAvailIdx TXQ ((a_idx (avail vq) + 1) mod 2 ^ 16);
       EvOutw (wrap16 (io_base st + VIRTIO_PCI_QUEUE_NOTIFY)) 1] /\
    tx_idx st' = (i + 1) mod size vq /\
    size (tx_queue st') = size vq /\
    buffers (tx_queue st') = buffers vq /\
    rx_queue st' = rx_queue st.
Proof.
  apply (virtio_net_send_publishes_slot idle_state [0xde; 0xad; 0xbe; 0xef]).
  - vm_compute. congruence.
  - vm_compute. congruence.
  - apply idle_state_queues_ok.
  - vm_compute. split; congruence.
  - vm_compute. split; congruence.
Defined.

Lemma virtio_net_receive_nothing_or_short_witness :
  let st := short_packet_state in
  let vq := rx_queue st in
  let e := nth (Z.to_nat (last_used_idx vq mod size vq)) (u_ring (used vq))
               (mk_used_elem 0 0) in
  (last_used_idx vq = u_idx (used vq) ->
   virtio_net_receive 1500 st = Some ((0, []), st)) /\
  (last_used_idx vq <> u_idx (used vq) ->
   queue_ok vq -> 0 <= last_used_idx vq < 2 ^ 16 ->
   0 <= a_idx (avail vq) < 2 ^ 16 ->
   e_len e <= 10 -> 0 <= e_id e < size vq ->
   exists st',
     virtio_net_receive 1500 st = Some ((0, []), st') /\
     last_used_idx (rx_queue st') = (last_used_idx vq + 1) mod 2 ^ 16 /\
     desc (rx_queue st') =
       list_set (desc vq) (Z.to_nat (e_id e))
         (mk_desc (nth (Z.to_nat (e_id e)) (buffers vq) 0) 2048
                  VIRTQ_DESC_F_WRITE 0) /\
     a_ring (avail (rx_queue st')) =
       list_set (a_ring (avail vq))
         (Z.to_nat (a_idx (avail vq) mod size vq)) (e_id e) /\
     a_idx (avail (rx_queue st')) = (a_idx (avail vq) + 1) mod 2 ^ 16 /\
     trace st' = trace st ++
       [EvDescAddr RXQ (e_id e) (nth (Z.to_nat (e_id e)) (buffers vq) 0);
        EvDescLen RXQ (e_id e) 2048;
        EvDescFlags RXQ (e_id e) VIRTQ_DESC_F_WRITE;
        EvDescNext RXQ (e_id e) 0;
        EvAvailRing RXQ (a_idx (avail vq) mod size vq) (e_id e);
        EvBarrier;
        EvAvailIdx RXQ ((a_idx (avail vq) + 1) mod 2 ^ 16);
        EvOutw (wrap16 (io_base st + VIRTIO_PCI_QUEUE_NOTIFY)) 0] /\
     used (rx_queue st') = used vq /\ dma st' = dma st /\
     tx_queue st' = tx_queue st).
Proof.
  apply (virtio_net_receive_nothing_or_short short_packet_state 1500).
  vm_compute. congruence.
Defined.

(** The short-packet case of the receive path applies to
    [short_packet_state]. *)
Example short_packet_state_is_short :
  let vq := rx_queue short_packet_state in
  last_used_idx vq <> u_idx (used vq) /\
  nth (Z.to_nat (last_used_idx vq mod size vq)) (u_ring (used vq))
      (mk_used_elem 0 0) = mk_used_elem 3 10 /\
  option_map fst (virtio_net_receive 1500 short_packet_state) = Some (0, []).
Proof. vm_compute. repeat split; congruence. Qed.

End VirtioNetProofs.

(** ** Kernel heap: memory lemmas *)

Module HeapProofs.
Import Heap.

Lemma upd_same (m : mem) (a b : Z) : upd m a b a = b.
Proof. unfold upd. now rewrite Z.eqb_refl. Qed.

Lemma upd_other (m : mem) (a b x : Z) : x <> a -> upd m a b x = m x.
Proof. intros H. unfold upd. destruct (Z.eqb_spec x a); congruence. Qed.

Lemma store_outside (n : nat) (m : mem) (a v x : Z) :
  x < a \/ a + Z.of_nat n <= x -> store n m a v x = m x.
Proof.
  revert m a v. induction n as [|n IH]; intros m a v H; cbn [store]; auto.
  rewrite IH by lia. apply upd_other. lia.
Qed.

Lemma load_ext (n : nat) (m m' : mem) (a : Z) :
  (forall x, a <= x < a + Z.of_nat n -> m' x = m x) -> load n m' a = load n m a.
Proof.
  revert a. induction n as [|n IH]; intros a H; cbn [load]; auto.
  rewrite H by lia. rewrite IH; auto. intros x Hx. apply H. lia.
Qed.

Lemma load_store_other (k n : nat) (m : mem) (a b v : Z) :
  b + Z.of_nat k <= a \/ a + Z.of_nat n <= b ->
  load k (store n m a v) b = load k m b.
Proof.
  intros H. apply load_ext. intros x Hx. apply store_outside. lia.
Qed.

Lemma load_store_same (n : nat) (m : mem) (a v : Z) :
  load n (store n m a v) a = v mod 256 ^ Z.of_nat n.
Proof.
  revert m a v. induction n as [|n IH]; intros m a v.
  - cbn [load store]. now rewrite Z.pow_0_r, Z.mod_1_r.
  - cbn [load store]. rewrite IH.
    rewrite store_outside, upd_same by lia.
    rewrite Z.mod_mod by lia.
    rewrite Nat2Z.inj_succ, Z.pow_succ_r by lia.
    rewrite (Z.rem_mul_r v 256 (256 ^ Z.of_nat n)) by lia. reflexivity.
Qed.

Lemma load_mem_zero_other (k : nat) (m : mem) (p n b : Z) :
  b + Z.of_nat k <= p \/ p + n <= b ->
  load k (mem_zero m p n) b = load k m b.
Proof.
  intros H. apply load_ext. intros x Hx. unfold mem_zero.
  destruct (Z.leb_spec p x), (Z.ltb_spec x (p + n)); cbn [andb]; auto; lia.
Qed.

(** *** Header fields *)

Lemma get_set_size (m : mem) (a v : Z) :
  0 <= v < 2 ^ 64 -> get_size (set_size m a v) a = v.
Proof.
  intros H. unfold get_size, set_size. rewrite load_store_same.
  apply Z.mod_small. exact H.
Qed.

Lemma get_set_free (m : mem) (a v : Z) :
  0 <= v < 2 ^ 32 -> get_free (set_free m a v) a = v.
Proof.
  intros H. unfold get_free, set_free. rewrite load_store_same.
  apply Z.mod_small. exact H.
Qed.

Lemma get_set_next (m : mem) (a v : Z) :
  0 <= v < 2 ^ 64 -> get_next (set_next m a v) a = v.
Proof.
  intros H. unfold get_next, set_next. rewrite load_store_same.
  apply Z.mod_small. exact H.
Qed.

(** Reading a field that a store did not touch. *)
Ltac field_frame :=
  unfold get_size, get_free, get_next, set_size, set_free, set_next;
  apply load_store_other; cbn [Z.of_nat Pos.of_succ_nat Pos.succ]; lia.

Lemma size_frame_size (m : mem) (a b v : Z) :
  a + 8 <= b \/ b + 8 <= a -> get_size (set_size m b v) a = get_size m a.
Proof. intros; field_frame. Qed.
Lemma size_frame_free (m : mem) (a b v : Z) :
  a + 8 <= b + 8 \/ b + 12 <= a -> get_size (set_free m b v) a = get_size m a.
Proof. intros; field_frame. Qed.
Lemma size_frame_next (m : mem) (a b v : Z) :
  a + 8 <= b + 16 \/ b + 24 <= a -> get_size (set_next m b v) a = get_size m a.
Proof. intros; field_frame. Qed.
Lemma free_frame_size (m : mem) (a b v : Z) :
  a + 12 <= b \/ b + 8 <= a + 8 -> get_free (set_size m b v) a = get_free m a.
Proof. intros; field_frame. Qed.
Lemma free_frame_free (m : mem) (a b v : Z) :
  a + 4 <= b \/ b + 4 <= a -> get_free (set_free m b v) a = get_free m a.
Proof. intros; field_frame. Qed.
Lemma free_frame_next (m : mem) (a b v : Z) :
  a + 12 <= b + 16 \/ b + 24 <= a + 8 -> get_free (set_next m b v) a = get_free m a.
Proof. intros; field_frame. Qed.
Lemma next_frame_size (m : mem) (a b v : Z) :
  a + 24 <= b \/ b + 8 <= a + 16 -> get_next (set_size m b v) a = get_next m a.
Proof. intros; field_frame. Qed.
Lemma next_frame_free (m : mem) (a b v : Z) :
  a + 24 <= b + 8 \/ b + 12 <= a + 16 -> get_next (set_free m b v) a = get_next m a.
Proof. intros; field_frame. Qed.
Lemma next_frame_next (m : mem) (a b v : Z) :
  a + 8 <= b \/ b + 8 <= a -> get_next (set_next m b v) a = get_next m a.
Proof. intros; field_frame. Qed.

(** Bytes outside the header at [b] survive a store to one of its fields. *)
Lemma set_size_outside (m : mem) (b v x : Z) :
  x < b \/ b + 24 <= x -> set_size m b v x = m x.
Proof. intros. unfold set_size. apply store_outside. cbn; lia. Qed.
Lemma set_free_outside (m : mem) (b v x : Z) :
  x < b \/ b + 24 <= x -> set_free m b v x = m x.
Proof. intros. unfold set_free. apply store_outside. cbn; lia. Qed.
Lemma set_next_outside (m : mem) (b v x : Z) :
  x < b \/ b + 24 <= x -> set_next m b v x = m x.
Proof. intros. unfold set_next. apply store_outside. cbn; lia. Qed.

(** Rewrites reads through stores; the side conditions are linear. *)
Ltac mem_simpl :=
  repeat first
    [ rewrite get_set_size by lia
    | rewrite get_set_free by lia
    | rewrite get_set_next by lia
    | rewrite size_frame_size by lia
    | rewrite size_frame_free by lia
    | rewrite size_frame_next by lia
    | rewrite free_frame_size by lia
    | rewrite free_frame_free by lia
    | rewrite free_frame_next by lia
    | rewrite next_frame_size by lia
    | rewrite next_frame_free by lia
    | rewrite next_frame_next by lia
    | rewrite set_size_outside by lia
    | rewrite set_free_outside by lia
    | rewrite set_next_outside by lia ].

(** *** Block sequences in memory *)

Lemma chain_total_nonneg (m : mem) (bl : list block) (a : Z) (more : bool) :
  chain m a bl more -> 0 <= total bl.
Proof.
  revert a. induction bl as [|b rest IH]; intros a H; cbn [total]; [lia|].
  destruct H as (Hs & _ & _ & _ & Hc). specialize (IH _ Hc).
  unfold span, HEADER_SIZE. lia.
Qed.

(** A sequence only depends on the bytes it covers. *)
Lemma chain_frame (m m' : mem) (bl : list block) (a : Z) (more : bool) :
  (forall x, a <= x < a + total bl -> m' x = m x) ->
  chain m a bl more -> chain m' a bl more.
Proof.
  revert a. induction bl as [|b rest IH]; intros a Hx H; cbn [chain]; auto.
  destruct H as (Hs & Hsz & Hfr & Hnx & Hc).
  pose proof (chain_total_nonneg _ _ _ _ Hc) as Ht.
  cbn [total] in Hx. unfold span, HEADER_SIZE in *.
  repeat split; auto.
  - rewrite <- Hsz. unfold get_size. apply load_ext. intros x H. apply Hx.
    cbn in H. lia.
  - rewrite <- Hfr. unfold get_free. apply load_ext. intros x H. apply Hx.
    cbn in H. lia.
  - rewrite <- Hnx. unfold get_next. apply load_ext. intros x H. apply Hx.
    cbn in H. lia.
  - apply IH; auto. intros x H. apply Hx. lia.
Qed.

Lemma nonempty_app {A} (l l' : list A) (c : bool) :
  nonempty (l ++ l') || c = nonempty l || (nonempty l' || c).
Proof. destruct l; reflexivity. Qed.

Lemma total_app (l l' : list block) : total (l ++ l') = total l + total l'.
Proof. induction l as [|b l IH]; cbn [total app]; lia. Qed.

Lemma chain_app (m : mem) (pre post : list block) (a : Z) (more : bool) :
  chain m a (pre ++ post) more <->
  chain m a pre (nonempty post || more) /\ chain m (a + total pre) post more.
Proof.
  revert a. induction pre as [|b pre IH]; intros a; cbn [app chain total].
  - rewrite Z.add_0_r. tauto.
  - rewrite nonempty_app, IH, Z.add_assoc. tauto.
Qed.

Lemma flag_zero (f : bool) : negb (flag f =? 0) = f.
Proof. now destruct f. Qed.

Lemma flag_range (f : bool) : 0 <= flag f < 2 ^ 32.
Proof. destruct f; cbn; lia. Qed.

(** *** First fit *)

Lemma first_fit_some (bl : list block) (size : Z) pre b post :
  first_fit bl size = Some (pre, b, post) ->
  bl = pre ++ b :: post /\ b_free b = true /\ size <= b_size b.
Proof.
  revert pre. induction bl as [|c rest IH]; intros pre H; cbn [first_fit] in H;
    [discriminate|].
  destruct (b_free c && (b_size c >=? size)) eqn:E.
  - inversion H; subst. apply andb_prop in E. destruct E as [E1 E2].
    repeat split; auto. apply Z.geb_le in E2. lia.
  - destruct (first_fit rest size) as [[[pre' c'] post']|]; [|discriminate].
    inversion H; subst. destruct (IH pre' eq_refl) as (-> & Hf & Hs).
    repeat split; auto.
Qed.

Lemma find_free_block_chain (m : mem) (size : Z) (bl : list block) (a : Z)
      (fuel : nat) :
  0 < a -> chain m a bl false -> (length bl < fuel)%nat ->
  find_free_block fuel m (if nonempty bl then a else 0) size =
  Some (fit_address a bl size).
Proof.
  revert a fuel. induction bl as [|b rest IH]; intros a fuel Ha Hc Hf.
  - destruct fuel; [cbn in Hf; lia|]. reflexivity.
  - destruct fuel as [|fuel]; [cbn in Hf; lia|].
    cbn [nonempty find_free_block].
    destruct Hc as (Hs & Hsz & Hfr & Hnx & Hc).
    destruct (Z.eqb_spec a 0); [lia|].
    rewrite Hsz, Hfr, flag_zero. unfold fit_address. cbn [first_fit].
    destruct (b_free b && (b_size b >=? size)).
    + cbn [total]. f_equal. lia.
    + rewrite Hnx, orb_false_r.
      assert (Hpos : 0 < a + span b) by (unfold span, HEADER_SIZE; lia).
      specialize (IH (a + span b) fuel Hpos Hc ltac:(cbn in Hf; lia)).
      rewrite IH. unfold fit_address.
      destruct (first_fit rest size) as [[[pre c] post]|]; cbn [total]; auto.
      f_equal. lia.
Qed.

Lemma find_free_block_mono (m : mem) (size : Z) (fuel fuel' : nat) (a r : Z) :
  find_free_block fuel m a size = Some r -> (fuel <= fuel')%nat ->
  find_free_block fuel' m a size = Some r.
Proof.
  revert fuel' a. induction fuel as [|fuel IH]; intros fuel' a H Hle;
    [discriminate|].
  destruct fuel' as [|fuel']; [lia|]. cbn [find_free_block] in *.
  destruct (a =? 0); auto.
  destruct (negb _ && _); auto. apply IH; auto. lia.
Qed.

(** Whatever fuel made [find_free_block] return, it returned the first fit. *)
Lemma find_free_block_first_fit (st : heap_state) (bl : list block)
      (fuel : nat) (size r : Z) :
  heap_repr st bl ->
  find_free_block fuel (memory st) (heap_start st) size = Some r ->
  r = fit_address (heap_start st) bl size.
Proof.
  intros (Hne & Hpos & Hend & Htot & Hc) H.
  pose proof (find_free_block_chain (memory st) size bl (heap_start st)
                (S (Nat.max fuel (length bl))) Hpos Hc ltac:(lia)) as E.
  destruct bl as [|b rest]; [congruence|]. cbn [nonempty] in E.
  rewrite (find_free_block_mono _ _ fuel _ _ r H) in E by lia.
  congruence.
Qed.

(** *** Walking a sequence *)

Lemma walk_chain (m : mem) (bl : list block) (a : Z) (fuel : nat) :
  0 < a -> chain m a bl false -> (length bl < fuel)%nat ->
  walk fuel m (if nonempty bl then a else 0) = Some (entries a bl).
Proof.
  revert a fuel. induction bl as [|b rest IH]; intros a fuel Ha Hc Hf.
  - destruct fuel; [cbn in Hf; lia|]. reflexivity.
  - destruct fuel as [|fuel]; [cbn in Hf; lia|].
    cbn [nonempty walk entries].
    destruct Hc as (Hs & Hsz & Hfr & Hnx & Hc).
    destruct (Z.eqb_spec a 0); [lia|].
    rewrite Hsz, Hfr, Hnx, orb_false_r.
    assert (Hpos : 0 < a + span b) by (unfold span, HEADER_SIZE; lia).
    now rewrite (IH (a + span b) fuel Hpos Hc ltac:(cbn in Hf; lia)).
Qed.

Lemma walk_mono (m : mem) (fuel fuel' : nat) (a : Z) l :
  walk fuel m a = Some l -> (fuel <= fuel')%nat -> walk fuel' m a = Some l.
Proof.
  revert fuel' a l. induction fuel as [|fuel IH]; intros fuel' a l H Hle;
    [discriminate|].
  destruct fuel' as [|fuel']; [lia|]. cbn [walk] in *.
  destruct (a =? 0); auto.
  destruct (walk fuel m (get_next m a)) eqn:E; [|discriminate].
  now rewrite (IH fuel' _ _ E ltac:(lia)).
Qed.

Lemma walk_entries (st : heap_state) (bl : list block) (fuel : nat) l :
  heap_repr st bl ->
  walk fuel (memory st) (heap_start st) = Some l ->
  l = entries (heap_start st) bl.
Proof.
  intros (Hne & Hpos & Hend & Htot & Hc) H.
  pose proof (walk_chain (memory st) bl (heap_start st)
                (S (Nat.max fuel (length bl))) Hpos Hc ltac:(lia)) as E.
  destruct bl as [|b rest]; [congruence|]. cbn [nonempty] in E.
  rewrite (walk_mono _ fuel _ _ l H) in E by lia.
  congruence.
Qed.

Lemma used_bytes_entries (a : Z) (bl : list block) :
  used_bytes (entries a bl) = used_sum bl.
Proof.
  revert a. induction bl as [|b rest IH]; intros a; cbn [entries used_bytes used_sum];
    auto.
  rewrite IH. destruct (b_free b); reflexivity.
Qed.

(** A block address of the sequence splits it around that block. *)
Lemma entries_address (a : Z) (bl : list block) (x : Z) :
  In x (map (fun e => fst (fst e)) (entries a bl)) ->
  exists pre b post, bl = pre ++ b :: post /\ x = a + total pre.
Proof.
  revert a. induction bl as [|b rest IH]; intros a H; cbn [entries map fst In] in H;
    [contradiction|].
  destruct H as [<-|H].
  - exists [], b, rest. cbn [total app]. split; auto. lia.
  - destruct (IH _ H) as (pre & c & post & -> & ->).
    exists (b :: pre), c, post. cbn [total app]. split; auto.
    unfold span, HEADER_SIZE. lia.
Qed.

(** *** Rounding the request *)

Lemma land_high_mask (x : Z) :
  0 <= x < 2 ^ 64 -> Z.land x (wrap64 (Z.lnot 15)) = 16 * (x / 16).
Proof.
  intros Hx.
  change (wrap64 (Z.lnot 15)) with (Z.land (Z.ones 64) (Z.lnot (Z.ones 4))).
  rewrite Z.land_assoc, Z.land_ones, Z.mod_small by lia.
  rewrite <- Z.ldiff_land, Z.ldiff_ones_r by lia.
  rewrite Z.shiftl_mul_pow2, Z.shiftr_div_pow2 by lia.
  change (2 ^ 4) with 16. lia.
Qed.

Lemma align_size_spec (n : Z) :
  0 <= n < 2 ^ 64 ->
  0 <= align_size n < 2 ^ 64 /\ align_size n mod 16 = 0 /\
  (n + 15 < 2 ^ 64 -> n <= align_size n < n + 16).
Proof.
  intros Hn. unfold align_size.
  assert (Hw : 0 <= wrap64 (n + 15) < 2 ^ 64)
    by (unfold wrap64, wrap; apply Z.mod_pos_bound; lia).
  rewrite land_high_mask by exact Hw.
  pose proof (Z.div_mod (wrap64 (n + 15)) 16 ltac:(lia)) as Hdm.
  pose proof (Z.mod_pos_bound (wrap64 (n + 15)) 16 ltac:(lia)) as Hm.
  split; [lia|]. split.
  - rewrite Z.mul_comm. apply Z.mod_mul. lia.
  - intros Hsmall. rewrite wrap64_small in * by lia. lia.
Qed.

(** *** Allocation on a sequence *)

Lemma used_sum_app (l l' : list block) :
  used_sum (l ++ l') = used_sum l + used_sum l'.
Proof. induction l as [|b l IH]; cbn [used_sum app]; lia. Qed.

Lemma used_sum_le_total (m : mem) (bl : list block) (a : Z) (more : bool) :
  chain m a bl more -> 0 <= used_sum bl <= total bl.
Proof.
  revert a. induction bl as [|b rest IH]; intros a H; cbn [total used_sum]; [lia|].
  destruct H as (Hs & _ & _ & _ & Hc). specialize (IH _ Hc).
  unfold span, HEADER_SIZE. destruct (b_free b); lia.
Qed.

Lemma total_carve (b : block) (size : Z) :
  total (carve b size) = span b.
Proof.
  unfold carve. destruct (_ >=? _); cbn [total]; unfold span, HEADER_SIZE;
    cbn [b_size]; lia.
Qed.

Lemma used_sum_carve (b : block) (size : Z) :
  used_sum (carve b size) = span (hd b (carve b size)).
Proof.
  unfold carve. destruct (_ >=? _); cbn [used_sum hd b_free]; lia.
Qed.

(** The memory after [split_block] and the store to [free] holds the carved
    blocks in place of the chosen one. *)
Lemma carve_in_memory (m : mem) (a req : Z) (b : block) (post : list block) :
  0 < a -> a + span b + total post + HEADER_SIZE <= 2 ^ 64 ->
  0 <= req -> req + HEADER_SIZE <= b_size b ->
  chain m a (b :: post) false ->
  let m' := set_free (split_block m a req) a 0 in
  chain m' a (carve b req ++ post) false /\
  (forall x, x < a \/ a + span b <= x -> m' x = m x) /\
  get_size m' a = b_size (hd b (carve b req)).
Proof.
  intros Ha Hend Hreq Hfit (Hs & Hsz & Hfr & Hnx & Hc) m'.
  pose proof (chain_total_nonneg _ _ _ _ Hc) as Ht.
  unfold span, HEADER_SIZE in *. subst m'.
  unfold split_block, carve, HEADER_SIZE, MIN_BLOCK_SIZE. rewrite Hsz.
  rewrite (wrap64_small (b_size b - req - 24)) by lia.
  destruct (Z.geb_spec (b_size b - req - 24) 16) as [Hsplit|Hkeep].
  - rewrite (wrap64_small (a + 24 + req)) by lia.
    assert (Hnx' : 0 <= get_next m a < 2 ^ 64)
      by (rewrite Hnx; destruct (nonempty post || false); lia).
    split; [|split].
    + cbn [app chain b_size b_free]. unfold span, HEADER_SIZE.
      cbn [b_size flag nonempty orb]. rewrite !Z.add_assoc.
      repeat split; try lia.
      * mem_simpl. reflexivity.
      * mem_simpl. reflexivity.
      * mem_simpl. reflexivity.
      * mem_simpl. reflexivity.
      * mem_simpl. reflexivity.
      * mem_simpl. rewrite Hnx. destruct (nonempty post || false); lia.
      * replace (a + 24 + req + 24 + (b_size b - req - 24))
          with (a + (24 + b_size b)) by lia.
        apply (chain_frame m); auto. intros x Hx. mem_simpl. reflexivity.
    + intros x Hx. mem_simpl. reflexivity.
    + cbn [hd b_size]. mem_simpl. reflexivity.
  - split; [|split].
    + cbn [app chain b_size b_free]. unfold span, HEADER_SIZE. cbn [b_size flag].
      repeat split; try lia.
      * mem_simpl. exact Hsz.
      * mem_simpl. reflexivity.
      * mem_simpl. exact Hnx.
      * apply (chain_frame m); auto. intros x Hx. mem_simpl. reflexivity.
    + intros x Hx. mem_simpl. reflexivity.
    + cbn [hd b_size]. mem_simpl. exact Hsz.
Qed.

(** [kmalloc] on a state that holds a sequence, when the request is one that
    keeps the list intact. *)
Lemma kmalloc_refines (st : heap_state) (bl : list block) (fuel : nat) (n : Z)
      (st' : heap_state) (p : Z) :
  heap_repr st bl -> 0 <= n < 2 ^ 64 -> request_ok fuel st n ->
  kmalloc fuel st n = Some (st', p) ->
  (p = 0 /\ st' = st /\ (n = 0 \/ first_fit bl (align_size n) = None)) \/
  (exists pre b post,
     bl = pre ++ b :: post /\ b_free b = true /\
     first_fit bl (align_size n) = Some (pre, b, post) /\
     align_size n + HEADER_SIZE <= b_size b /\
     p = heap_start st + total pre + HEADER_SIZE /\
     heap_repr st' (pre ++ carve b (align_size n) ++ post) /\
     heap_start st' = heap_start st /\ heap_size st' = heap_size st /\
     heap_used st' =
       wrap64 (heap_used st + span (hd b (carve b (align_size n))))).
Proof.
  intros Hrepr Hn Hreq H. unfold kmalloc in H. unfold request_ok in Hreq.
  destruct (Z.eqb_spec n 0); [left; inversion H; auto|].
  destruct (align_size_spec n Hn) as (Hal & _ & _).
  destruct (find_free_block fuel (memory st) (heap_start st) (align_size n))
    as [blk|] eqn:Efind; [|contradiction].
  pose proof (find_free_block_first_fit st bl fuel _ _ Hrepr Efind) as Hblk.
  unfold fit_address in Hblk.
  destruct (first_fit bl (align_size n)) as [[[pre b] post]|] eqn:Eff;
    [|left; subst blk; inversion H; auto].
  assert (Hblk0 : blk <> 0).
  { destruct (first_fit_some _ _ _ _ _ Eff) as (Hbl & _).
    destruct Hrepr as (_ & Hpos & _ & _ & Hc). rewrite Hbl in Hc.
    apply chain_app in Hc. destruct Hc as [Hpre _].
    pose proof (chain_total_nonneg _ _ _ _ Hpre). lia. }
  destruct (Z.eqb_spec blk 0); [contradiction|].
  destruct Hreq as [?|Hfit]; [contradiction|].
  right.
  destruct (first_fit_some _ _ _ _ _ Eff) as (Hbl & Hfree & Hsize).
  destruct Hrepr as (Hne & Hpos & Hend & Htot & Hc).
  rewrite Hbl in Hc, Htot. apply chain_app in Hc. destruct Hc as [Hpre Hpost].
  rewrite total_app in Htot. cbn [total] in Htot.
  pose proof (chain_total_nonneg _ _ _ _ Hpre) as Htpre.
  pose proof Hpost as (Hs & Hsz & _ & _ & Hc).
  pose proof (chain_total_nonneg _ _ _ _ Hc) as Htpost.
  rewrite <- Hblk in *. rewrite Hsz in Hfit.
  destruct (carve_in_memory (memory st) blk (align_size n) b post)
    as (Hchain & Hframe & Hsize'); auto; try lia.
  exists pre, b, post. inversion H; subst st' p. clear H.
  cbn [heap_start heap_size heap_used memory].
  unfold span, HEADER_SIZE in *.
  repeat split; auto; try lia.
  - rewrite wrap64_small by lia. lia.
  - intros E. apply app_eq_nil in E. destruct E as [_ E].
    apply app_eq_nil in E. destruct E as [E _].
    unfold carve in E. destruct (_ >=? _); discriminate.
  - cbn [heap_size]. rewrite !total_app, total_carve. unfold span, HEADER_SIZE. lia.
  - cbn [heap_start memory]. apply chain_app. split.
    + apply (chain_frame (memory st)).
      * intros x Hx. apply Hframe. lia.
      * destruct (carve b (align_size n)) eqn:Ec; [|exact Hpre].
        unfold carve in Ec. destruct (_ >=? _); discriminate.
    + rewrite <- Hblk. exact Hchain.
  - rewrite Hsize'. f_equal. f_equal.
    assert (0 <= b_size (hd b (carve b (align_size n))) <= b_size b).
    { unfold carve. destruct (_ >=? _); cbn [hd b_size]; lia. }
    rewrite wrap64_small; lia.
Qed.

(** *** Coalescing on a sequence *)

Lemma coalesce_nonempty (rest : list block) (cur : block) :
  nonempty (coalesce cur rest) = true.
Proof.
  revert cur. induction rest as [|b rest IH]; intros cur; cbn [coalesce]; auto.
  destruct (b_free cur && b_free b); auto.
Qed.

Lemma total_coalesce (rest : list block) (cur : block) :
  total (coalesce cur rest) = total (cur :: rest).
Proof.
  revert cur. induction rest as [|b rest IH]; intros cur; cbn [coalesce]; auto.
  destruct (b_free cur && b_free b); cbn [total] in *; rewrite IH;
    cbn [total]; unfold span; cbn [b_size]; lia.
Qed.

Lemma used_sum_coalesce (rest : list block) (cur : block) :
  used_sum (coalesce cur rest) = used_sum (cur :: rest).
Proof.
  revert cur. induction rest as [|b rest IH]; intros cur; cbn [coalesce]; auto.
  destruct (b_free cur) eqn:E1, (b_free b) eqn:E2; cbn [andb used_sum] in *;
    rewrite IH; cbn [used_sum b_free]; rewrite ?E1, ?E2; lia.
Qed.

Lemma offsets_aligned_coalesce (rest : list block) (cur : block) (off : Z) :
  offsets_aligned (cur :: rest) off -> offsets_aligned (coalesce cur rest) off.
Proof.
  revert cur off. induction rest as [|b rest IH]; intros cur off H;
    cbn [coalesce]; auto.
  destruct H as (H0 & H1 & H2).
  destruct (b_free cur && b_free b).
  - apply IH. split; auto.
    replace (off + span (mk_block (b_size cur + (HEADER_SIZE + b_size b)) true))
      with (off + span cur + span b) by (unfold span; cbn [b_size]; lia).
    exact H2.
  - split; auto. apply IH. split; auto.
Qed.

(** The loop of [merge_free_blocks] computes [coalesce]. *)
Lemma merge_loop_refines (rest : list block) (cur : block) (m : mem) (a : Z)
      (fuel : nat) :
  0 < a -> a + total (cur :: rest) + HEADER_SIZE <= 2 ^ 64 ->
  chain m a (cur :: rest) false -> (length rest < fuel)%nat ->
  exists m',
    merge_loop fuel m a = Some m' /\
    chain m' a (coalesce cur rest) false /\
    (forall x, x < a \/ a + total (cur :: rest) <= x -> m' x = m x).
Proof.
  revert cur m a fuel.
  induction rest as [|b rest IH]; intros cur m a fuel Ha Hend Hc Hf.
  - destruct fuel as [|fuel]; [cbn in Hf; lia|].
    destruct Hc as (Hs & Hsz & Hfr & Hnx & _). cbn [nonempty orb] in Hnx.
    exists m. cbn [merge_loop coalesce chain nonempty orb].
    destruct (Z.eqb_spec a 0); [lia|]. rewrite Hnx. cbn.
    repeat split; auto.
  - destruct fuel as [|fuel]; [cbn in Hf; lia|].
    pose proof Hc as (Hs & Hsz & Hfr & Hnx & Hc2).
    pose proof Hc2 as (Hs2 & Hsz2 & Hfr2 & Hnx2 & Hc3).
    pose proof (chain_total_nonneg _ _ _ _ Hc3) as Ht3.
    cbn [nonempty orb] in Hnx. cbn [total] in Hend.
    unfold span, HEADER_SIZE in *.
    cbn [merge_loop coalesce].
    destruct (Z.eqb_spec a 0); [lia|]. rewrite Hnx.
    destruct (Z.eqb_spec (a + (24 + b_size cur)) 0); [lia|].
    rewrite Hfr, Hfr2, !flag_zero, Hsz, Hsz2.
    destruct (b_free cur && b_free b) eqn:Efree.
    + apply andb_prop in Efree. destruct Efree as [Ef1 Ef2].
      unfold HEADER_SIZE.
      rewrite (wrap64_small (24 + b_size b)) by lia.
      rewrite (wrap64_small (b_size cur + (24 + b_size b))) by lia.
      set (m1 := set_size m a (b_size cur + (24 + b_size b))).
      assert (E1 : get_next m1 a = a + (24 + b_size cur))
        by (unfold m1; mem_simpl; exact Hnx).
      rewrite E1.
      assert (E2 : get_next m1 (a + (24 + b_size cur)) =
                   get_next m (a + (24 + b_size cur)))
        by (unfold m1; mem_simpl; reflexivity).
      rewrite E2, Hnx2.
      set (nx := if nonempty rest || false
                 then a + (24 + b_size cur) + (24 + b_size b) else 0).
      assert (Hnxr : 0 <= nx < 2 ^ 64)
        by (unfold nx; destruct (nonempty rest || false); lia).
      destruct (IH (mk_block (b_size cur + (24 + b_size b)) true)
                   (set_next m1 a nx) a fuel) as (m' & Em & Hc' & Hfr');
        auto.
      * cbn [total]. unfold span, HEADER_SIZE. cbn [b_size]. lia.
      * cbn [chain b_size b_free flag]. unfold span, HEADER_SIZE. cbn [b_size].
        repeat split; try lia.
        -- unfold m1. mem_simpl. reflexivity.
        -- unfold m1. mem_simpl. rewrite Hfr, Ef1. reflexivity.
        -- mem_simpl. unfold nx. destruct (nonempty rest || false); lia.
        -- replace (a + (24 + (b_size cur + (24 + b_size b))))
             with (a + (24 + b_size cur) + (24 + b_size b)) by lia.
           apply (chain_frame m); auto. intros x Hx. unfold m1. mem_simpl.
           reflexivity.
      * cbn in Hf. lia.
      * exists m'. split; [exact Em|]. split; [exact Hc'|].
        intros x Hx. cbn [total] in Hx, Hfr'.
        unfold span, HEADER_SIZE in Hx, Hfr'. cbn [b_size] in Hfr'.
        rewrite Hfr' by lia. unfold m1. mem_simpl. reflexivity.
    + destruct (IH b m (a + (24 + b_size cur)) fuel) as (m' & Em & Hc' & Hfr');
        auto; try lia.
      * cbn [total] in *. unfold span, HEADER_SIZE in *. lia.
      * cbn in Hf. lia.
      * exists m'. split; [exact Em|]. split.
        -- cbn [chain]. rewrite coalesce_nonempty. cbn [orb].
           unfold span, HEADER_SIZE.
           repeat split; auto.
           ++ rewrite <- Hsz. unfold get_size. apply load_ext. intros x Hx.
              apply Hfr'. cbn in Hx. lia.
           ++ rewrite <- Hfr. unfold get_free. apply load_ext. intros x Hx.
              apply Hfr'. cbn in Hx. lia.
           ++ rewrite <- Hnx. unfold get_next. apply load_ext. intros x Hx.
              apply Hfr'. cbn in Hx. lia.
        -- intros x Hx. apply Hfr'. cbn [total] in *.
           unfold span, HEADER_SIZE in *. lia.
Qed.

Lemma merge_loop_mono (fuel fuel' : nat) (m : mem) (a : Z) (r : mem) :
  merge_loop fuel m a = Some r -> (fuel <= fuel')%nat ->
  merge_loop fuel' m a = Some r.
Proof.
  revert fuel' m a. induction fuel as [|fuel IH]; intros fuel' m a H Hle;
    [discriminate|].
  destruct fuel' as [|fuel']; [lia|]. cbn [merge_loop] in *.
  destruct (a =? 0); auto.
  destruct (get_next m a =? 0); auto.
  destruct (negb _ && negb _); apply IH; auto; lia.
Qed.

(** *** Freeing on a sequence *)

(** Stores into the payload of one block leave the sequence in place. *)
Lemma chain_payload (m m' : mem) (pre : list block) (c : block)
      (post : list block) (a : Z) :
  chain m a (pre ++ c :: post) false ->
  (forall x, x < a + total pre + HEADER_SIZE \/ a + total pre + span c <= x ->
             m' x = m x) ->
  chain m' a (pre ++ c :: post) false.
Proof.
  intros Hc Hx. apply chain_app in Hc. destruct Hc as [Hpre Hpost].
  pose proof (chain_total_nonneg _ _ _ _ Hpre) as Htpre.
  destruct Hpost as (Hs & Hsz & Hfr & Hnx & Hc).
  unfold span, HEADER_SIZE in *.
  apply chain_app.
  split; [|cbn [chain]; unfold span, HEADER_SIZE; repeat split; auto].
  - apply (chain_frame m); auto. intros x H. apply Hx. lia.
  - rewrite <- Hsz. unfold get_size. apply load_ext. intros x H. apply Hx.
    cbn in H. lia.
  - rewrite <- Hfr. unfold get_free. apply load_ext. intros x H. apply Hx.
    cbn in H. lia.
  - rewrite <- Hnx. unfold get_next. apply load_ext. intros x H. apply Hx.
    cbn in H. lia.
  - apply (chain_frame m); auto. intros x H. apply Hx. lia.
Qed.

(** Marking one block free. *)
Lemma mark_free_in_memory (m : mem) (pre : list block) (b : block)
      (post : list block) (a : Z) :
  0 < a -> chain m a (pre ++ b :: post) false ->
  chain (set_free m (a + total pre) 1) a
        (pre ++ mk_block (b_size b) true :: post) false.
Proof.
  intros Ha Hc. apply chain_app in Hc. destruct Hc as [Hpre Hpost].
  pose proof (chain_total_nonneg _ _ _ _ Hpre) as Htpre.
  destruct Hpost as (Hs & Hsz & Hfr & Hnx & Hc).
  unfold span, HEADER_SIZE in *.
  apply chain_app.
  split; [|cbn [chain b_size b_free flag]; unfold span, HEADER_SIZE;
           cbn [b_size]; repeat split; auto].
  - apply (chain_frame m); auto. intros x H. mem_simpl. reflexivity.
  - mem_simpl. exact Hsz.
  - mem_simpl. reflexivity.
  - mem_simpl. exact Hnx.
  - apply (chain_frame m); auto. intros x H. mem_simpl. reflexivity.
Qed.

Lemma total_mark (pre post : list block) (b : block) (f : bool) :
  total (pre ++ mk_block (b_size b) f :: post) = total (pre ++ b :: post).
Proof. rewrite !total_app. reflexivity. Qed.

Lemma coalesce_all_spec (bl : list block) :
  bl <> [] ->
  coalesce_all bl <> [] /\ total (coalesce_all bl) = total bl /\
  used_sum (coalesce_all bl) = used_sum bl.
Proof.
  destruct bl as [|b rest]; [congruence|]. intros _. cbn [coalesce_all].
  split; [|split].
  - pose proof (coalesce_nonempty rest b). destruct (coalesce b rest);
      [discriminate|congruence].
  - apply total_coalesce.
  - apply used_sum_coalesce.
Qed.

(** [kfree] on a state that holds a sequence, for a pointer that keeps the
    list intact. *)
Lemma kfree_refines (st : heap_state) (bl : list block) (fuel : nat) (ptr : Z)
      (st' : heap_state) :
  heap_repr st bl -> 0 <= ptr < 2 ^ 64 -> pointer_ok fuel st ptr ->
  kfree fuel st ptr = Some st' ->
  (st' = st /\ free_noop st bl ptr) \/
  (exists pre b post,
     bl = pre ++ b :: post /\ b_free b = false /\
     ptr = heap_start st + total pre + HEADER_SIZE /\
     heap_repr st' (coalesce_all (pre ++ mk_block (b_size b) true :: post)) /\
     heap_start st' = heap_start st /\ heap_size st' = heap_size st /\
     heap_used st' = wrap64 (heap_used st - span b)).
Proof.
  intros Hrepr Hptr Hok H. unfold kfree in H.
  unfold free_noop.
  destruct (Z.eqb_spec ptr 0); [left; split; [congruence|auto]|].
  destruct (Z.ltb_spec (wrap64 (ptr - HEADER_SIZE)) (heap_start st));
    [left; cbn [orb] in H; split; [congruence|auto]|].
  destruct (Z.geb_spec (wrap64 (ptr - HEADER_SIZE))
              (wrap64 (heap_start st + heap_size st)));
    [left; cbn [orb] in H; split; [congruence|auto]|].
  cbn [orb] in H.
  destruct Hok as [?|[[?|?]|(l & Hw & Hin)]]; try lia.
  rewrite (walk_entries st bl fuel l Hrepr Hw) in Hin.
  destruct (entries_address _ _ _ Hin) as (pre & b & post & Hbl & Haddr).
  pose proof Hrepr as (Hne & Hpos & Hend & Htot & Hc).
  rewrite Hbl in Hc, Htot.
  pose proof Hc as Hc0. apply chain_app in Hc0. destruct Hc0 as [Hpre Hpost].
  rewrite total_app in Htot. cbn [total] in Htot.
  pose proof (chain_total_nonneg _ _ _ _ Hpre) as Htpre.
  destruct Hpost as (Hs & Hsz & Hfr & Hnx & Hcpost).
  pose proof (chain_total_nonneg _ _ _ _ Hcpost) as Htpost.
  unfold span, HEADER_SIZE in *.
  rewrite Haddr in H. rewrite (wrap64_small (heap_start st + total pre)) in H by lia.
  rewrite Hfr in H. destruct (b_free b) eqn:Efree; cbn [flag Z.eqb] in H.
  { left. split; [congruence|]. right. right. right. exists pre, b, post.
    repeat split; auto. lia. }
  right. exists pre, b, post.
  pose proof (mark_free_in_memory _ _ _ _ _ Hpos Hc) as Hmark.
  set (m1 := set_free (memory st) (heap_start st + total pre) 1) in *.
  set (bl1 := pre ++ mk_block (b_size b) true :: post) in *.
  assert (Hbl1 : bl1 <> []) by (unfold bl1; destruct pre; discriminate).
  assert (Htot1 : total bl1 = heap_size st).
  { unfold bl1. rewrite total_app. cbn [total]. unfold span, HEADER_SIZE.
    cbn [b_size]. lia. }
  destruct bl1 as [|c rest] eqn:Ebl1; [congruence|].
  destruct (merge_loop_refines rest c m1 (heap_start st)
              (S (Nat.max fuel (length rest))))
    as (m' & Em & Hc' & _); auto; try lia.
  { unfold HEADER_SIZE. lia. }
  destruct (merge_loop fuel m1 (heap_start st)) as [m''|] eqn:Em'';
    [|discriminate].
  rewrite (merge_loop_mono fuel _ _ _ _ Em'') in Em by lia.
  inversion Em; subst m''. inversion H; subst st'. clear H Em.
  cbn [heap_start heap_size heap_used memory].
  assert (Esz : get_size m1 (heap_start st + total pre) = b_size b)
    by (unfold m1; mem_simpl; exact Hsz).
  rewrite Esz, (wrap64_small (b_size b + 24)) by lia.
  repeat split; auto; try lia.
  - cbn [coalesce_all]. pose proof (coalesce_nonempty rest c).
    destruct (coalesce c rest); [discriminate|congruence].
  - cbn [coalesce_all heap_size]. rewrite total_coalesce. exact Htot1.
  - f_equal. lia.
Qed.

(** *** Calls return *)

Lemma kmalloc_returns (st : heap_state) (bl : list block) (fuel : nat) (n : Z) :
  heap_repr st bl -> (length bl < fuel)%nat ->
  exists r, kmalloc fuel st n = Some r /\
    (n <> 0 ->
     find_free_block fuel (memory st) (heap_start st) (align_size n) =
     Some (fit_address (heap_start st) bl (align_size n))).
Proof.
  intros (Hne & Hpos & Hend & Htot & Hc) Hf. unfold kmalloc.
  destruct (Z.eqb_spec n 0); [eexists; split; [reflexivity|congruence]|].
  pose proof (find_free_block_chain (memory st) (align_size n) bl
                (heap_start st) fuel Hpos Hc Hf) as E.
  destruct bl as [|b rest]; [congruence|]. cbn [nonempty] in E.
  rewrite E. destruct (_ =? 0); eexists; split; auto.
Qed.

Lemma kfree_returns (st : heap_state) (bl : list block) (fuel : nat) (ptr : Z) :
  heap_repr st bl -> 0 <= ptr < 2 ^ 64 ->
  pointer_ok fuel st ptr -> (length bl < fuel)%nat ->
  exists st', kfree fuel st ptr = Some st'.
Proof.
  intros Hrepr Hptr Hok Hf. unfold kfree.
  destruct (Z.eqb_spec ptr 0); [eauto|].
  destruct (_ || _) eqn:Erange; [eauto|].
  destruct (get_free (memory st) (wrap64 (ptr - HEADER_SIZE)) =? 0) eqn:Efree;
    [|eauto].
  apply orb_false_elim in Erange. destruct Erange as [E1 E2].
  apply Z.ltb_ge in E1. rewrite Z.geb_leb in E2. apply Z.leb_gt in E2.
  destruct Hok as [?|[[?|?]|(l & Hw & Hin)]]; try lia.
  rewrite (walk_entries st bl fuel l Hrepr Hw) in Hin.
  destruct (entries_address _ _ _ Hin) as (pre & b & post & Hbl & Haddr).
  pose proof Hrepr as (Hne & Hpos & Hend & Htot & Hc).
  rewrite Hbl in Hc.
  pose proof (chain_total_nonneg _ _ _ _ Hc) as Htall.
  rewrite <- Hbl, Htot in Htall.
  assert (Htpre : 0 <= total pre).
  { apply chain_app in Hc. destruct Hc as [Hpre _].
    exact (chain_total_nonneg _ _ _ _ Hpre). }
  assert (Htle : total pre <= total bl).
  { rewrite Hbl, total_app. apply chain_app in Hc. destruct Hc as [_ Hpost].
    pose proof (chain_total_nonneg _ _ _ _ Hpost). lia. }
  pose proof (mark_free_in_memory _ _ _ _ _ Hpos Hc) as Hmark.
  rewrite Haddr, (wrap64_small (heap_start st + total pre))
    by (unfold HEADER_SIZE in *; lia).
  assert (Htot1 : total (pre ++ mk_block (b_size b) true :: post) = heap_size st)
    by (rewrite total_mark, <- Hbl; exact Htot).
  destruct (pre ++ mk_block (b_size b) true :: post) as [|c rest] eqn:Ebl1;
    [destruct pre; discriminate|].
  destruct (merge_loop_refines rest c _ (heap_start st) fuel Hpos
              ltac:(rewrite Htot1; exact Hend) Hmark) as (m' & Em & _).
  { assert (length (c :: rest) = length bl)
      by (rewrite <- Ebl1, Hbl, !length_app; reflexivity).
    cbn [length] in *. lia. }
  rewrite Em. eauto.
Qed.

(** *** The invariant along a run *)

Lemma offsets_aligned_app (l l' : list block) (off : Z) :
  offsets_aligned (l ++ l') off <->
  offsets_aligned l off /\ offsets_aligned l' (off + total l).
Proof.
  revert off. induction l as [|b l IH]; intros off; cbn [app offsets_aligned total].
  - rewrite Z.add_0_r. tauto.
  - rewrite IH, Z.add_assoc. tauto.
Qed.

Lemma offsets_aligned_carve (b : block) (req off : Z) :
  req mod 16 = 0 -> off mod 8 = 0 -> offsets_aligned (carve b req) off.
Proof.
  intros Hreq Hoff. unfold carve.
  destruct (_ >=? _); cbn [offsets_aligned]; repeat split; auto.
  unfold span, HEADER_SIZE. cbn [b_size].
  pose proof (Z.div_mod req 16 ltac:(lia)) as Hd.
  replace (off + (24 + req)) with (off + (3 + 2 * (req / 16)) * 8) by lia.
  rewrite Z.mod_add by lia. exact Hoff.
Qed.

Lemma heap_init_inv (m0 : mem) (start size : Z) :
  region_ok start size ->
  heap_inv (heap_init m0 start size) [mk_block (size - HEADER_SIZE) true].
Proof.
  intros (Hpos & Hsize & Hend). unfold HEADER_SIZE in *.
  unfold heap_inv, heap_repr, heap_init, HEADER_SIZE.
  cbn [heap_start heap_size heap_used memory total used_sum offsets_aligned
       chain b_size b_free flag nonempty orb].
  unfold span, HEADER_SIZE. cbn [b_size].
  rewrite (wrap64_small (size - 24)) by lia.
  repeat split; try lia; try discriminate.
  - mem_simpl. reflexivity.
  - mem_simpl. reflexivity.
  - mem_simpl. reflexivity.
Qed.

Lemma carve_head (b : block) (req : Z) :
  exists c tl, carve b req = c :: tl /\ hd b (carve b req) = c /\
    (req + HEADER_SIZE <= b_size b -> 0 <= req -> req <= b_size c <= b_size b).
Proof.
  unfold carve, HEADER_SIZE. destruct (_ >=? _); eexists; eexists;
    (split; [reflexivity|split; [reflexivity|cbn [b_size]; lia]]).
Qed.

Lemma kmalloc_inv (st : heap_state) (bl : list block) (fuel : nat) (n : Z)
      (st' : heap_state) (p : Z) :
  heap_inv st bl -> 0 <= n < 2 ^ 64 -> request_ok fuel st n ->
  kmalloc fuel st n = Some (st', p) ->
  exists bl',
    heap_inv st' bl' /\
    heap_start st' = heap_start st /\ heap_size st' = heap_size st /\
    ((p = 0 /\ st' = st /\ bl' = bl /\
      (n = 0 \/ first_fit bl (align_size n) = None)) \/
     exists pre b post,
       first_fit bl (align_size n) = Some (pre, b, post) /\
       bl' = pre ++ carve b (align_size n) ++ post /\
       align_size n + HEADER_SIZE <= b_size b /\
       p = heap_start st + total pre + HEADER_SIZE /\ total pre mod 8 = 0).
Proof.
  intros (Hrepr & Hused & Hoff) Hn Hreq H.
  destruct (kmalloc_refines st bl fuel n st' p Hrepr Hn Hreq H)
    as [(-> & -> & Hwhy)|(pre & b & post & Hbl & Hfree & Eff & Hfit & Hp & Hrepr' & Hs & Hz & Hu)].
  { exists bl. split; [split; [exact Hrepr|split; assumption]|].
    split; [reflexivity|]. split; [reflexivity|]. left; auto. }
  destruct (align_size_spec n Hn) as (Hal & Hmod & _).
  exists (pre ++ carve b (align_size n) ++ post).
  subst bl. apply offsets_aligned_app in Hoff. destruct Hoff as [Hoff1 Hoff2].
  cbn [offsets_aligned] in Hoff2. destruct Hoff2 as [Hoffb Hoffpost].
  rewrite Z.add_0_l in Hoffb.
  split; [split; [exact Hrepr'|split]|].
  - rewrite Hu, Hused, !used_sum_app, used_sum_carve. cbn [used_sum].
    rewrite Hfree.
    destruct Hrepr' as (_ & Hpos' & Hend' & Htot' & Hc').
    pose proof (used_sum_le_total _ _ _ _ Hc') as Hle.
    rewrite !used_sum_app, used_sum_carve in Hle.
    pose proof (used_sum_le_total _ _ _ _ (proj2 (proj2 (proj2 (proj2 Hrepr)))))
      as Hle0.
    rewrite used_sum_app in Hle0. cbn [used_sum] in Hle0. rewrite Hfree in Hle0.
    rewrite Hs, Hz in *. unfold HEADER_SIZE in *.
    rewrite wrap64_small; lia.
  - apply offsets_aligned_app. split; [exact Hoff1|].
    apply offsets_aligned_app. split.
    + apply offsets_aligned_carve; auto; now rewrite Z.add_0_l.
    + rewrite total_carve. exact Hoffpost.
  - split; [exact Hs|]. split; [exact Hz|]. right.
    exists pre, b, post. repeat split; auto.
Qed.

Lemma kcalloc_inv (st : heap_state) (bl : list block) (fuel : nat)
      (count n : Z) (st' : heap_state) (p : Z) :
  heap_inv st bl -> wrap64 (count * n) <= 2 ^ 64 - 16 ->
  request_ok fuel st (wrap64 (count * n)) ->
  kcalloc fuel st count n = Some (st', p) ->
  exists bl',
    heap_inv st' bl' /\
    heap_start st' = heap_start st /\ heap_size st' = heap_size st /\
    (p = 0 \/ (p - heap_start st) mod 8 = 0).
Proof.
  intros Hinv Htotal Hreq H. unfold kcalloc in H.
  assert (Hrange : 0 <= wrap64 (count * n) < 2 ^ 64)
    by (unfold wrap64, wrap; apply Z.mod_pos_bound; lia).
  destruct (kmalloc fuel st (wrap64 (count * n))) as [[st1 p1]|] eqn:E;
    [|discriminate].
  destruct (kmalloc_inv st bl fuel _ st1 p1 Hinv Hrange Hreq E)
    as (bl' & Hinv' & Hs & Hz & Hp).
  destruct (Z.eqb_spec p1 0).
  { inversion H; subst. exists bl'.
    split; [exact Hinv'|]. split; [exact Hs|]. split; [exact Hz|].
    left; reflexivity. }
  inversion H; subst st' p. clear H.
  destruct Hp as [[? _]|(pre & b & post & Eff & Hbl' & Hfit & Hp & Hmod)]; [lia|].
  destruct (carve_head b (align_size (wrap64 (count * n))))
    as (c & tl & Ec & _ & Hsz).
  destruct (align_size_spec _ Hrange) as (Hal & _ & Hle).
  specialize (Hsz Hfit ltac:(lia)). specialize (Hle ltac:(lia)).
  rewrite Ec in Hbl'. cbn [app] in Hbl'.
  exists bl'. cbn [heap_start heap_size].
  split; [|split; [exact Hs|split; [exact Hz|right]]].
  - destruct Hinv' as ((Hne & Hpos & Hend & Htot & Hc) & Hused & Hoff).
    split; [|split; [exact Hused|exact Hoff]].
    split; [exact Hne|]. split; [exact Hpos|]. split; [exact Hend|].
    split; [exact Htot|]. cbn [memory heap_start].
    rewrite Hbl' in *. apply (chain_payload (memory st1)); auto.
    intros x Hx. unfold mem_zero. unfold span, HEADER_SIZE in *.
    rewrite Hs in *.
    destruct (Z.leb_spec p1 x), (Z.ltb_spec x (p1 + wrap64 (count * n)));
      cbn [andb]; auto; lia.
  - rewrite Hp. unfold HEADER_SIZE.
    replace (heap_start st + total pre + 24 - heap_start st)
      with (total pre + 3 * 8) by lia.
    rewrite Z.mod_add by lia. exact Hmod.
Qed.

Lemma offsets_aligned_mark (pre post : list block) (b : block) (f : bool)
      (off : Z) :
  offsets_aligned (pre ++ b :: post) off ->
  offsets_aligned (pre ++ mk_block (b_size b) f :: post) off.
Proof.
  intros H. apply offsets_aligned_app in H. apply offsets_aligned_app.
  exact H.
Qed.

Lemma kfree_inv (st : heap_state) (bl : list block) (fuel : nat) (ptr : Z)
      (st' : heap_state) :
  heap_inv st bl -> 0 <= ptr < 2 ^ 64 -> pointer_ok fuel st ptr ->
  kfree fuel st ptr = Some st' ->
  exists bl',
    heap_inv st' bl' /\
    heap_start st' = heap_start st /\ heap_size st' = heap_size st /\
    ((st' = st /\ bl' = bl /\ free_noop st bl ptr) \/
     exists pre b post,
       bl = pre ++ b :: post /\ b_free b = false /\
       ptr = heap_start st + total pre + HEADER_SIZE /\
       bl' = coalesce_all (pre ++ mk_block (b_size b) true :: post)).
Proof.
  intros (Hrepr & Hused & Hoff) Hptr Hok H.
  destruct (kfree_refines st bl fuel ptr st' Hrepr Hptr Hok H)
    as [[-> Hwhy]|(pre & b & post & Hbl & Hfree & Hp & Hrepr' & Hs & Hz & Hu)].
  { exists bl. split; [split; [exact Hrepr|split; assumption]|].
    split; [reflexivity|]. split; [reflexivity|]. left; auto. }
  exists (coalesce_all (pre ++ mk_block (b_size b) true :: post)).
  split; [split; [exact Hrepr'|split]|
          split; [exact Hs|split; [exact Hz|right; exists pre, b, post; auto]]].
  - assert (Hne : pre ++ mk_block (b_size b) true :: post <> [])
      by (destruct pre; discriminate).
    destruct (coalesce_all_spec _ Hne) as (_ & _ & Hsum).
    rewrite Hsum, Hu, Hused. subst bl.
    destruct Hrepr as (_ & Hpos & Hend & Htot & Hc).
    pose proof (used_sum_le_total _ _ _ _ Hc) as Hle.
    apply chain_app in Hc. destruct Hc as [Hpre Hpost].
    pose proof (used_sum_le_total _ _ _ _ Hpre) as Hle1.
    destruct Hpost as (Hsb & _ & _ & _ & Hcpost).
    pose proof (used_sum_le_total _ _ _ _ Hcpost) as Hle2.
    rewrite !used_sum_app in *. cbn [used_sum b_free] in *.
    rewrite Hfree in *. unfold span, HEADER_SIZE in *.
    rewrite wrap64_small; lia.
  - subst bl. pose proof (offsets_aligned_mark pre post b true 0 Hoff) as Hoff'.
    destruct (pre ++ mk_block (b_size b) true :: post) as [|c rest];
      [exact I|]. now apply offsets_aligned_coalesce.
Qed.

(** Every reachable state holds a sequence and satisfies the invariant. *)
Lemma heap_reachable_inv (m0 : mem) (start size : Z) (st : heap_state) :
  region_ok start size -> heap_reachable m0 start size st ->
  exists bl, heap_inv st bl /\ heap_start st = start /\ heap_size st = size.
Proof.
  intros Hreg Hr. induction Hr as
    [ | fuel st n st' p Hr IH Hn Hreq H
      | fuel st count n st' p Hr IH Hn Hreq H
      | fuel st ptr st' Hr IH Hptr Hok H ].
  - eexists. split; [apply heap_init_inv; exact Hreg|split; reflexivity].
  - destruct IH as (bl & Hinv & Hs & Hz).
    destruct (kmalloc_inv st bl fuel n st' p Hinv Hn Hreq H)
      as (bl' & Hinv' & Hs' & Hz' & _).
    exists bl'. repeat split; try congruence; apply Hinv'.
  - destruct IH as (bl & Hinv & Hs & Hz).
    destruct (kcalloc_inv st bl fuel count n st' p Hinv Hn Hreq H)
      as (bl' & Hinv' & Hs' & Hz' & _).
    exists bl'. repeat split; try congruence; apply Hinv'.
  - destruct IH as (bl & Hinv & Hs & Hz).
    destruct (kfree_inv st bl fuel ptr st' Hinv Hptr Hok H)
      as (bl' & Hinv' & Hs' & Hz' & _).
    exists bl'. repeat split; try congruence; apply Hinv'.
Qed.

(** *** Running calls forward on a known sequence *)

Lemma chain_sizes (m : mem) (bl : list block) (a : Z) (more : bool) :
  chain m a bl more -> Forall (fun c => 0 <= b_size c) bl.
Proof.
  revert a. induction bl as [|b rest IH]; intros a H; constructor.
  - apply H.
  - destruct H as (_ & _ & _ & _ & Hc). exact (IH _ Hc).
Qed.

Lemma total_pos (bl : list block) :
  Forall (fun c => 0 <= b_size c) bl -> bl <> [] -> 0 < total bl.
Proof.
  intros H Hne. destruct H as [|b rest Hb Hrest]; [congruence|].
  cbn [total]. unfold span, HEADER_SIZE.
  assert (0 <= total rest).
  { clear -Hrest. induction Hrest; cbn [total]; unfold span, HEADER_SIZE; lia. }
  lia.
Qed.

(** A sequence splits in one way only around the block at a given offset. *)
Lemma split_unique (pre pre' : list block) (b b' : block)
      (post post' : list block) :
  Forall (fun c => 0 <= b_size c) (pre ++ b :: post) ->
  pre ++ b :: post = pre' ++ b' :: post' -> total pre = total pre' ->
  pre = pre' /\ b = b' /\ post = post'.
Proof.
  revert pre'. induction pre as [|c pre IH]; intros pre' Hall Heq Htot.
  - destruct pre' as [|c' pre'].
    + cbn [app] in Heq. inversion Heq; auto.
    + exfalso. cbn [app] in Heq. inversion Heq; subst.
      inversion Hall as [|? ? Hb' Hrest]; subst.
      apply Forall_app in Hrest. destruct Hrest as [Hpre' _].
      assert (0 <= total pre').
      { clear -Hpre'. induction Hpre'; cbn [total]; unfold span, HEADER_SIZE; lia. }
      cbn [total] in Htot. unfold span, HEADER_SIZE in Htot. lia.
  - destruct pre' as [|c' pre'].
    + exfalso. cbn [app] in Heq. inversion Heq; subst.
      inversion Hall as [|? ? Hb' Hrest]; subst.
      apply Forall_app in Hrest. destruct Hrest as [Hpre _].
      assert (0 <= total pre).
      { clear -Hpre. induction Hpre; cbn [total]; unfold span, HEADER_SIZE; lia. }
      cbn [total] in Htot. unfold span, HEADER_SIZE in Htot. lia.
    + cbn [app] in Heq. inversion Heq; subst. inversion Hall; subst.
      cbn [total] in Htot.
      destruct (IH pre') as (-> & -> & ->); auto. lia.
Qed.

Lemma entries_in (pre : list block) (b : block) (post : list block) (a : Z) :
  In (a + total pre) (map (fun e => fst (fst e)) (entries a (pre ++ b :: post))).
Proof.
  revert a. induction pre as [|c pre IH]; intros a; cbn [app entries map fst In total].
  - left. lia.
  - right. rewrite Z.add_assoc. apply IH.
Qed.

Lemma entries_length (a : Z) (bl : list block) :
  length (entries a bl) = length bl.
Proof.
  revert a. induction bl as [|b rest IH]; intros a; cbn [entries length]; auto.
Qed.

(** A request served by first fit, with enough fuel. *)
Lemma kmalloc_exec (st : heap_state) (bl : list block) (fuel : nat) (n : Z)
      pre b post :
  heap_inv st bl -> 0 < n < 2 ^ 64 -> (length bl < fuel)%nat ->
  first_fit bl (align_size n) = Some (pre, b, post) ->
  align_size n + HEADER_SIZE <= b_size b ->
  request_ok fuel st n /\
  exists st',
    kmalloc fuel st n = Some (st', heap_start st + total pre + HEADER_SIZE) /\
    heap_inv st' (pre ++ carve b (align_size n) ++ post) /\
    heap_start st' = heap_start st /\ heap_size st' = heap_size st.
Proof.
  intros Hinv Hn Hf Eff Hfit. pose proof Hinv as (Hrepr & _).
  destruct (kmalloc_returns st bl fuel n Hrepr Hf) as ([st' p] & E & Efind).
  specialize (Efind ltac:(lia)).
  assert (Hreq : request_ok fuel st n).
  { unfold request_ok. rewrite Efind. right.
    unfold fit_address. rewrite Eff.
    destruct (first_fit_some _ _ _ _ _ Eff) as (Hbl & _).
    destruct Hrepr as (_ & _ & _ & _ & Hc). rewrite Hbl in Hc.
    apply chain_app in Hc. destruct Hc as (_ & _ & Hsz & _).
    rewrite Hsz. exact Hfit. }
  split; [exact Hreq|].
  destruct (kmalloc_inv st bl fuel n st' p Hinv ltac:(lia) Hreq E)
    as (bl' & Hinv' & Hs & Hz &
        [(_ & _ & _ & [?|?])|(pre' & b' & post' & Eff' & -> & _ & -> & _)]);
    try lia; try congruence.
  rewrite Eff in Eff'. inversion Eff'; subst. exists st'. auto.
Qed.

(** Freeing the block at a known position, with enough fuel. *)
Lemma kfree_exec (st : heap_state) (pre : list block) (b : block)
      (post : list block) (fuel : nat) :
  heap_inv st (pre ++ b :: post) ->
  (length (pre ++ b :: post) < fuel)%nat -> b_free b = false ->
  let ptr := heap_start st + total pre + HEADER_SIZE in
  pointer_ok fuel st ptr /\
  exists st',
    kfree fuel st ptr = Some st' /\
    heap_inv st' (coalesce_all (pre ++ mk_block (b_size b) true :: post)) /\
    heap_start st' = heap_start st /\ heap_size st' = heap_size st.
Proof.
  intros Hinv Hf Hused ptr. pose proof Hinv as (Hrepr & _).
  pose proof Hrepr as (Hne & Hpos & Hend & Htot & Hc).
  pose proof (chain_sizes _ _ _ _ Hc) as Hsizes.
  pose proof (walk_chain _ _ _ fuel Hpos Hc Hf) as Hw.
  assert (Htpre : 0 <= total pre).
  { apply chain_app in Hc. destruct Hc as [Hpre _].
    exact (chain_total_nonneg _ _ _ _ Hpre). }
  assert (Hptr : 0 <= ptr < 2 ^ 64).
  { rewrite total_app in Htot. apply chain_app in Hc. destruct Hc as [_ Hpost].
    destruct Hpost as (Hsb & _ & _ & _ & Hcp).
    pose proof (chain_total_nonneg _ _ _ _ Hcp).
    cbn [total] in Htot. unfold ptr, span, HEADER_SIZE in *. lia. }
  assert (Hok : pointer_ok fuel st ptr).
  { right. right. exists (entries (heap_start st) (pre ++ b :: post)). split.
    - replace (nonempty (pre ++ b :: post)) with true in Hw
        by (destruct pre; reflexivity).
      exact Hw.
    - replace (ptr - HEADER_SIZE) with (heap_start st + total pre)
        by (unfold ptr; lia).
      apply entries_in. }
  split; [exact Hok|].
  destruct (kfree_returns st _ fuel ptr Hrepr Hptr Hok Hf) as (st' & E).
  exists st'. split; [exact E|].
  destruct (kfree_inv st _ fuel ptr st' Hinv Hptr Hok E)
    as (bl' & Hinv' & Hs & Hz &
        [(_ & _ & [?|[?|[?|(pre' & b' & post' & Hbl & Hfree' & Hp)]]])
        |(pre' & b' & post' & Hbl & _ & Hp & ->)]).
  - unfold ptr, HEADER_SIZE in *. lia.
  - exfalso. unfold ptr, HEADER_SIZE in *.
    replace (heap_start st + total pre + 24 - 24)
      with (heap_start st + total pre) in * by lia.
    rewrite total_app in Htot. apply chain_app in Hc. destruct Hc as [_ Hpost].
    pose proof (chain_total_nonneg _ _ _ _ Hpost).
    rewrite wrap64_small in * by lia. lia.
  - exfalso. rewrite total_app in Htot. apply chain_app in Hc.
    destruct Hc as [_ Hpost]. destruct Hpost as (Hsb & _ & _ & _ & Hcp).
    pose proof (chain_total_nonneg _ _ _ _ Hcp).
    cbn [total] in Htot. unfold ptr, span, HEADER_SIZE in *.
    replace (heap_start st + total pre + 24 - 24)
      with (heap_start st + total pre) in * by lia.
    rewrite !wrap64_small in * by lia. lia.
  - destruct (split_unique pre pre' b b' post post' Hsizes Hbl)
      as (_ & -> & _); [unfold ptr in Hp; lia|congruence].
  - destruct (split_unique pre pre' b b' post post' Hsizes Hbl)
      as (-> & -> & ->); [unfold ptr in Hp; lia|].
    repeat split; auto; apply Hinv'.
Qed.

(** *** Properties of the heap *)

(** What [split_block] does when the block exceeds the request by less than a
    header: the subtraction wraps, the test passes, and a header is written
    behind the requested bytes. *)
Lemma split_block_underflow (m : mem) (blk size : Z) :
  size <= get_size m blk < size + HEADER_SIZE ->
  split_block m blk size =
  let nb := wrap64 (blk + HEADER_SIZE + size) in
  let m1 := set_free (set_size m nb (2 ^ 64 + (get_size m blk - size - HEADER_SIZE)))
                     nb 1 in
  set_next (set_size (set_next m1 nb (get_next m1 blk)) blk size) blk nb.
Proof.
  intros H. unfold split_block, HEADER_SIZE, MIN_BLOCK_SIZE in *.
  assert (E : wrap64 (get_size m blk - size - 24) =
              2 ^ 64 + (get_size m blk - size - 24)).
  { unfold wrap64, wrap. symmetry. apply (Z.mod_unique _ _ (-1)); lia. }
  rewrite E. destruct (Z.geb_spec (2 ^ 64 + (get_size m blk - size - 24)) 16);
    [reflexivity|lia].
Qed.

(** C1 (the code departs from it): a free block whose payload equals the
    rounded request is split all the same.  After
    [a = kmalloc(64); b = kmalloc(64); kfree(a)], the block of [a] is free with
    a payload of 64 bytes and [b] is in use; [kmalloc(64)] then returns [a]
    again and writes the header of a remainder of 2^64 - 24 bytes, marked
    free and linked to itself, over the header of [b]. *)
Theorem kmalloc_exact_fit_is_split :
  exact_fit_reuse 8 =
  Some (0x400018, 0x400070, 0x400018,
        (64, 1, 0x400058), (64, 0, 0x4000B0),
        (2 ^ 64 - 24, 1, 0x400058)).
Proof. vm_compute. reflexivity. Qed.

(** C2, as stated, fails: on a heap at the 16-byte aligned address 0x400000
    the first allocation returns 0x400018, which is 8 modulo 16. *)
Lemma first_pointer_not_16_aligned :
  let st := heap_init (fun _ => 0) 0x400000 (4 * 1024 * 1024) in
  0x400000 mod 16 = 0 /\
  option_map snd (kmalloc 2 st 64) = Some 0x400018 /\
  0x400018 <> 0 /\ 0x400018 mod 16 <> 0.
Proof. vm_compute. repeat split; discriminate. Qed.

(** C2 (amended): on a heap initialised at a 16-byte aligned address, after
    any sequence of calls that keep the block list intact, every non-null
    pointer returned by [kmalloc] or [kcalloc] is 8-byte aligned. *)
Theorem returned_pointers_8_aligned (m0 : mem) (start size : Z)
        (st : heap_state) (fuel : nat) :
  region_ok start size -> start mod 16 = 0 ->
  heap_reachable m0 start size st ->
  (forall n st' p,
     0 <= n < 2 ^ 64 -> request_ok fuel st n ->
     kmalloc fuel st n = Some (st', p) -> p <> 0 -> p mod 8 = 0) /\
  (forall count n st' p,
     wrap64 (count * n) <= 2 ^ 64 - 16 ->
     request_ok fuel st (wrap64 (count * n)) ->
     kcalloc fuel st count n = Some (st', p) -> p <> 0 -> p mod 8 = 0).
Proof.
  intros Hreg Hal Hr.
  destruct (heap_reachable_inv m0 start size st Hreg Hr) as (bl & Hinv & Hs & Hz).
  assert (Hstart : start mod 8 = 0).
  { pose proof (Z.div_mod start 16 ltac:(lia)) as Hd. rewrite Hal in Hd.
    replace start with (0 + (2 * (start / 16)) * 8) by lia.
    rewrite Z.mod_add by lia. reflexivity. }
  assert (Hsum : forall x, (x - start) mod 8 = 0 -> x mod 8 = 0).
  { intros x Hx. pose proof (Z.div_mod start 8 ltac:(lia)) as Hd1.
    pose proof (Z.div_mod (x - start) 8 ltac:(lia)) as Hd2.
    rewrite Hstart in Hd1. rewrite Hx in Hd2.
    replace x with (0 + (start / 8 + (x - start) / 8) * 8) by lia.
    rewrite Z.mod_add by lia. reflexivity. }
  split.
  - intros n st' p Hn Hreq E Hp.
    destruct (kmalloc_inv st bl fuel n st' p Hinv Hn Hreq E)
      as (bl' & _ & _ & _ & [(? & _)|(pre & b & post & _ & _ & _ & -> & Hmod)]);
      [contradiction|].
    apply Hsum. rewrite Hs. unfold HEADER_SIZE.
    replace (start + total pre + 24 - start) with (total pre + 3 * 8) by lia.
    rewrite Z.mod_add by lia. exact Hmod.
  - intros count n st' p Hn Hreq E Hp.
    destruct (kcalloc_inv st bl fuel count n st' p Hinv Hn Hreq E)
      as (bl' & _ & _ & _ & [?|Hmod]); [contradiction|].
    apply Hsum. now rewrite <- Hs.
Qed.

Lemma returned_pointers_8_aligned_witness :
  let st := heap_init (fun _ => 0) 0x400000 (4 * 1024 * 1024) in
  (forall n st' p,
     0 <= n < 2 ^ 64 -> request_ok 4 st n ->
     kmalloc 4 st n = Some (st', p) -> p <> 0 -> p mod 8 = 0) /\
  (forall count n st' p,
     wrap64 (count * n) <= 2 ^ 64 - 16 ->
     request_ok 4 st (wrap64 (count * n)) ->
     kcalloc 4 st count n = Some (st', p) -> p <> 0 -> p mod 8 = 0).
Proof.
  apply (returned_pointers_8_aligned (fun _ => 0) 0x400000 (4 * 1024 * 1024)).
  - unfold region_ok, HEADER_SIZE. lia.
  - reflexivity.
  - constructor.
Defined.

(** From a reachable state, the calls that keep the list intact return, as
    soon as the fuel exceeds the number of blocks. *)
Lemma reachable_calls_return (m0 : mem) (start size : Z) (st : heap_state) :
  region_ok start size -> heap_reachable m0 start size st ->
  exists blocks : nat,
    forall fuel, (blocks < fuel)%nat ->
      (forall n, exists r, kmalloc fuel st n = Some r) /\
      (forall count n, exists r, kcalloc fuel st count n = Some r) /\
      (forall ptr, 0 <= ptr < 2 ^ 64 -> pointer_ok fuel st ptr ->
                   exists st', kfree fuel st ptr = Some st').
Proof.
  intros Hreg Hr.
  destruct (heap_reachable_inv m0 start size st Hreg Hr)
    as (bl & (Hrepr & _) & _).
  exists (length bl). intros fuel Hf. split; [|split].
  - intros n. destruct (kmalloc_returns st bl fuel n Hrepr Hf) as (r & E & _).
    eauto.
  - intros count n. unfold kcalloc.
    destruct (kmalloc_returns st bl fuel (wrap64 (count * n)) Hrepr Hf)
      as ([st' p] & E & _).
    rewrite E. destruct (p =? 0); eauto.
  - intros ptr Hptr Hok. exact (kfree_returns st bl fuel ptr Hrepr Hptr Hok Hf).
Qed.

(** C5, as stated, fails: right after [heap_init] the counter reported by
    [heap_stats] is the header size, while the list has no non-free block. *)
Lemma used_counter_after_init :
  let st := heap_init (fun _ => 0) 0x400000 (4 * 1024 * 1024) in
  walk 2 (memory st) (heap_start st) = Some [(0x400000, 4194280, 1)] /\
  snd (fst (heap_stats st)) = 24 /\
  used_bytes [(0x400000, 4194280, 1)] = 0 /\
  snd (fst (heap_stats st)) <> used_bytes [(0x400000, 4194280, 1)].
Proof. vm_compute. repeat split; discriminate. Qed.

(** A [kcalloc] whose total exceeds [2^64 - 16] is not among the calls that
    keep the list intact: the total rounds to 0, the first free block is
    taken, and the clearing of the payload runs over the headers behind it.
    After [kcalloc(1, 2^64 - 1)] on the fresh heap the counter is 48, while
    the list shows two used blocks. *)
Example kcalloc_overrun_breaks_counter :
  let st0 := heap_init (fun _ => 0) 0x400000 (4 * 1024 * 1024) in
  request_ok 4 st0 (wrap64 (1 * (2 ^ 64 - 1))) /\
  exists st p,
    kcalloc 4 st0 1 (2 ^ 64 - 1) = Some (st, p) /\
    walk 4 (memory st) (heap_start st) =
      Some [(0x400000, 0, 0); (0x400018, 0, 0)] /\
    snd (fst (heap_stats st)) = 48 /\
    HEADER_SIZE + used_bytes [(0x400000, 0, 0); (0x400018, 0, 0)] = 72.
Proof.
  intros st0. split; [vm_compute; right; discriminate|].
  pose (r := match kcalloc 4 st0 1 (2 ^ 64 - 1) with
             | Some r => r
             | None => (st0, 0)
             end).
  exists (fst r), (snd r). repeat split; vm_compute; reflexivity.
Qed.

(** C5 (amended): after [heap_init] and after each call of a sequence that
    keeps the block list intact (allocations served from a block that leaves
    room for a header, or failing; [kcalloc] totals of at most [2^64 - 16];
    frees of NULL, of a pointer outside the region or of the payload of a
    listed block), the walk of the list ends and the used counter reported by
    [heap_stats] is the header size plus the sum of header size and payload
    size over the non-free blocks. *)
Theorem used_counter_counts_blocks (m0 : mem) (start size : Z)
        (st : heap_state) :
  region_ok start size -> heap_reachable m0 start size st ->
  exists l,
    walk (S (length l)) (memory st) (heap_start st) = Some l /\
    snd (fst (heap_stats st)) = HEADER_SIZE + used_bytes l.
Proof.
  intros Hreg Hr.
  destruct (heap_reachable_inv m0 start size st Hreg Hr)
    as (bl & (Hrepr & Hused & _) & _).
  pose proof Hrepr as (Hne & Hpos & _ & _ & Hc).
  exists (entries (heap_start st) bl).
  rewrite entries_length, used_bytes_entries. split; [|exact Hused].
  pose proof (walk_chain (memory st) bl (heap_start st) (S (length bl)) Hpos Hc
                ltac:(lia)) as Hw.
  destruct bl; [congruence|exact Hw].
Qed.

Lemma used_counter_counts_blocks_witness :
  let st0 := heap_init (fun _ => 0) 0x400000 (4 * 1024 * 1024) in
  let r1 := match kmalloc 4 st0 64 with Some r => r | None => (st0, 0) end in
  let r2 := match kmalloc 4 (fst r1) 100 with
            | Some r => r
            | None => (fst r1, 0)
            end in
  let st := match kfree 4 (fst r2) (snd r1) with
            | Some s => s
            | None => fst r2
            end in
  walk 4 (memory st) (heap_start st) =
    Some [(0x400000, 64, 1); (0x400058, 112, 0); (0x4000E0, 4194056, 1)] /\
  snd (fst (heap_stats st)) = 160 /\
  exists l,
    walk (S (length l)) (memory st) (heap_start st) = Some l /\
    snd (fst (heap_stats st)) = HEADER_SIZE + used_bytes l.
Proof.
  intros st0 r1 r2 st.
  split; [vm_compute; reflexivity|]. split; [vm_compute; reflexivity|].
  apply (used_counter_counts_blocks (fun _ => 0) 0x400000 (4 * 1024 * 1024)).
  - unfold region_ok, HEADER_SIZE. lia.
  - apply (reach_kfree _ _ _ 4 (fst r2) (snd r1)).
    + apply (reach_kmalloc _ _ _ 4 (fst r1) 100 (fst r2) (snd r2)).
      * apply (reach_kmalloc _ _ _ 4 st0 64 (fst r1) (snd r1)).
        -- constructor.
        -- lia.
        -- vm_compute. right. discriminate.
        -- vm_compute. reflexivity.
      * lia.
      * vm_compute. right. discriminate.
      * vm_compute. reflexivity.
    + vm_compute. split; [discriminate|reflexivity].
    + right. right. eexists. split; [vm_compute; reflexivity|].
      vm_compute. left. reflexivity.
    + vm_compute. reflexivity.
Defined.

(** C3: on a fresh heap of 1 MiB, three allocations of 64 bytes followed by
    the frees of the second, the first and the third leave a list of one block,
    at the heap start, free, with a payload of 1 MiB minus the header size. *)
Theorem split_and_coalesce_single_block (m0 : mem) (base : Z) (fuel : nat) :
  region_ok base (1024 * 1024) -> (4 < fuel)%nat ->
  exists st,
    split_and_coalesce fuel m0 base = Some st /\
    heap_start st = base /\
    walk fuel (memory st) (heap_start st) =
      Some [(base, 1024 * 1024 - HEADER_SIZE, 1)] /\
    get_next (memory st) base = 0.
Proof.
  intros Hreg Hfuel. unfold split_and_coalesce.
  pose proof (heap_init_inv m0 base _ Hreg) as Hinv0.
  set (st0 := heap_init m0 base (1024 * 1024)) in *.
  assert (Hs0 : heap_start st0 = base) by reflexivity.
  (* a = kmalloc(64) *)
  destruct (kmalloc_exec st0 _ fuel 64 [] (mk_block 1048552 true) []
              Hinv0 ltac:(lia) ltac:(cbn; lia) eq_refl ltac:(cbv; discriminate))
    as (_ & st1 & E1 & Hinv1 & Hs1 & _).
  change ([] ++ carve (mk_block 1048552 true) (align_size 64) ++ [])
    with [mk_block 64 false; mk_block 1048464 true] in Hinv1.
  rewrite E1. cbn [obind fst snd].
  (* b = kmalloc(64) *)
  destruct (kmalloc_exec st1 _ fuel 64 [mk_block 64 false]
              (mk_block 1048464 true) []
              Hinv1 ltac:(lia) ltac:(cbn; lia) eq_refl ltac:(cbv; discriminate))
    as (_ & st2 & E2 & Hinv2 & Hs2 & _).
  change ([mk_block 64 false] ++
          carve (mk_block 1048464 true) (align_size 64) ++ [])
    with [mk_block 64 false; mk_block 64 false; mk_block 1048376 true] in Hinv2.
  rewrite E2. cbn [obind fst snd].
  (* c = kmalloc(64) *)
  destruct (kmalloc_exec st2 _ fuel 64 [mk_block 64 false; mk_block 64 false]
              (mk_block 1048376 true) []
              Hinv2 ltac:(lia) ltac:(cbn; lia) eq_refl ltac:(cbv; discriminate))
    as (_ & st3 & E3 & Hinv3 & Hs3 & _).
  change ([mk_block 64 false; mk_block 64 false] ++
          carve (mk_block 1048376 true) (align_size 64) ++ [])
    with [mk_block 64 false; mk_block 64 false; mk_block 64 false;
          mk_block 1048288 true] in Hinv3.
  rewrite E3. cbn [obind fst snd].
  (* kfree(b) *)
  destruct (kfree_exec st3 [mk_block 64 false] (mk_block 64 false)
              [mk_block 64 false; mk_block 1048288 true] fuel
              Hinv3 ltac:(cbn; lia) eq_refl)
    as (_ & st4 & E4 & Hinv4 & Hs4 & _).
  rewrite Hs3, Hs2 in E4. rewrite E4. cbn [obind].
  change (coalesce_all _)
    with [mk_block 64 false; mk_block 64 true; mk_block 64 false;
          mk_block 1048288 true] in Hinv4.
  (* kfree(a) *)
  destruct (kfree_exec st4 [] (mk_block 64 false)
              [mk_block 64 true; mk_block 64 false; mk_block 1048288 true] fuel
              Hinv4 ltac:(cbn; lia) eq_refl)
    as (_ & st5 & E5 & Hinv5 & Hs5 & _).
  rewrite Hs4, Hs3, Hs2, Hs1 in E5. rewrite E5. cbn [obind].
  change (coalesce_all _)
    with [mk_block 152 true; mk_block 64 false; mk_block 1048288 true] in Hinv5.
  (* kfree(c) *)
  destruct (kfree_exec st5 [mk_block 152 true] (mk_block 64 false)
              [mk_block 1048288 true] fuel
              Hinv5 ltac:(cbn; lia) eq_refl)
    as (_ & st6 & E6 & Hinv6 & Hs6 & _).
  rewrite Hs5, Hs4, Hs3 in E6.
  change (total [mk_block 152 true])
    with (total [mk_block 64 false; mk_block 64 false]) in E6.
  rewrite E6.
  change (coalesce_all _) with [mk_block 1048552 true] in Hinv6.
  (* the final list *)
  assert (Hbase : heap_start st6 = base) by congruence.
  exists st6. split; [reflexivity|]. split; [exact Hbase|].
  destruct Hinv6 as ((_ & Hpos & _ & _ & Hc) & _).
  pose proof (walk_chain _ _ _ fuel Hpos Hc ltac:(cbn; lia)) as Hw.
  cbn [nonempty entries b_size b_free flag] in Hw. rewrite Hbase in *.
  split; [exact Hw|]. apply Hc.
Qed.

Lemma split_and_coalesce_single_block_witness :
  exists st,
    split_and_coalesce 5 (fun _ => 0) 0x400000 = Some st /\
    heap_start st = 0x400000 /\
    walk 5 (memory st) (heap_start st) =
      Some [(0x400000, 1024 * 1024 - HEADER_SIZE, 1)] /\
    get_next (memory st) 0x400000 = 0.
Proof.
  apply (split_and_coalesce_single_block (fun _ => 0) 0x400000 5).
  - unfold region_ok, HEADER_SIZE. lia.
  - lia.
Defined.

End HeapProofs.

(** ** More facts on lists and bounded quantification *)

Lemma firstn_list_set_same {A} (l : list A) (n : nat) (v : A) :
  firstn n (list_set l n v) = firstn n l.
Proof.
  revert n. induction l as [|a l IH]; intros [|n]; cbn; try reflexivity.
  rewrite IH. reflexivity.
Qed.

Lemma firstn_list_set_succ {A} (l : list A) (n : nat) (v : A) :
  (n < length l)%nat -> firstn (S n) (list_set l n v) = firstn n l ++ [v].
Proof.
  revert n. induction l as [|a l IH]; intros [|n] H; cbn in *; try lia.
  - reflexivity.
  - f_equal. apply IH. lia.
Qed.

Lemma firstn_In {A} (l : list A) (n : nat) (x : A) :
  In x (firstn n l) -> In x l.
Proof.
  revert n. induction l as [|a l IH]; intros [|n] H; cbn in *;
    try contradiction.
  destruct H as [H|H]; [left; exact H|right; exact (IH n H)].
Qed.

(** A property checked on every number below [n] holds below [n]. *)
Lemma forall_below (n : nat) (P : Z -> bool) :
  forallb P (map Z.of_nat (seq 0 n)) = true ->
  forall x, 0 <= x < Z.of_nat n -> P x = true.
Proof.
  intros H x Hx. rewrite forallb_forall in H. apply H.
  apply in_map_iff. exists (Z.to_nat x).
  split; [lia|]. apply in_seq. lia.
Qed.

(** ** Shapes of the block list *)

Module HeapShapeProofs.

Import Heap HeapShape HeapProofs.

(** *** From states to sequences *)

Lemma kcalloc_steps (st : heap_state) (bl : list block) (fuel : nat)
      (count n : Z) (st' : heap_state) (p : Z) :
  heap_inv st bl -> wrap64 (count * n) <= 2 ^ 64 - 16 ->
  request_ok fuel st (wrap64 (count * n)) ->
  kcalloc fuel st count n = Some (st', p) ->
  exists bl',
    heap_inv st' bl' /\
    heap_start st' = heap_start st /\ heap_size st' = heap_size st /\
    (bl' = bl \/
     exists pre b post,
       first_fit bl (align_size (wrap64 (count * n))) = Some (pre, b, post) /\
       bl' = pre ++ carve b (align_size (wrap64 (count * n))) ++ post /\
       align_size (wrap64 (count * n)) + HEADER_SIZE <= b_size b).
Proof.
  intros Hinv Htotal Hreq H. unfold kcalloc in H.
  assert (Hrange : 0 <= wrap64 (count * n) < 2 ^ 64)
    by (unfold wrap64, wrap; apply Z.mod_pos_bound; lia).
  destruct (kmalloc fuel st (wrap64 (count * n))) as [[st1 p1]|] eqn:E;
    [|discriminate].
  destruct (kmalloc_inv st bl fuel _ st1 p1 Hinv Hrange Hreq E)
    as (bl' & Hinv' & Hs & Hz & Hp).
  destruct (Z.eqb_spec p1 0).
  { inversion H; subst. exists bl'.
    split; [exact Hinv'|]. split; [exact Hs|]. split; [exact Hz|].
    destruct Hp as [(_ & _ & Hbl & _)|(pre & b & post & Eff & Hbl' & Hfit & _)].
    - left; exact Hbl.
    - right. exists pre, b, post. auto. }
  inversion H; subst st' p. clear H.
  destruct Hp as [[? _]|(pre & b & post & Eff & Hbl' & Hfit & Hp & Hmod)]; [lia|].
  destruct (carve_head b (align_size (wrap64 (count * n))))
    as (c & tl & Ec & _ & Hsz).
  destruct (align_size_spec _ Hrange) as (Hal & _ & Hle).
  specialize (Hsz Hfit ltac:(lia)). specialize (Hle ltac:(lia)).
  exists bl'. cbn [heap_start heap_size].
  split; [|split; [exact Hs|split; [exact Hz|right]]].
  - rewrite Ec in Hbl'. cbn [app] in Hbl'.
    destruct Hinv' as ((Hne & Hpos & Hend & Htot & Hc) & Hused & Hoff).
    split; [|split; [exact Hused|exact Hoff]].
    split; [exact Hne|]. split; [exact Hpos|]. split; [exact Hend|].
    split; [exact Htot|]. cbn [memory heap_start].
    rewrite Hbl' in *. apply (chain_payload (memory st1)); auto.
    intros x Hx. unfold mem_zero. unfold span, HEADER_SIZE in *.
    rewrite Hs in *.
    destruct (Z.leb_spec p1 x), (Z.ltb_spec x (p1 + wrap64 (count * n)));
      cbn [andb]; auto; lia.
  - exists pre, b, post. auto.
Qed.

Lemma reachable_seq (m0 : mem) (start size : Z) (st : heap_state) :
  region_ok start size -> heap_reachable m0 start size st ->
  exists bl,
    heap_inv st bl /\ heap_start st = start /\ heap_size st = size /\
    seq_reachable size bl.
Proof.
  intros Hreg Hr. induction Hr as
    [ | fuel st n st' p Hr IH Hn Hreq H
      | fuel st count n st' p Hr IH Hn Hreq H
      | fuel st ptr st' Hr IH Hptr Hok H ].
  - eexists. split; [apply heap_init_inv; exact Hreg|].
    split; [reflexivity|]. split; [reflexivity|]. constructor.
  - destruct IH as (bl & Hinv & Hs & Hz & Hseq).
    destruct (kmalloc_inv st bl fuel n st' p Hinv Hn Hreq H)
      as (bl' & Hinv' & Hs' & Hz' & Hcase).
    exists bl'. split; [exact Hinv'|]. split; [congruence|].
    split; [congruence|].
    destruct Hcase as [(_ & _ & -> & _)|(pre & b & post & Eff & -> & Hfit & _)];
      [exact Hseq|].
    destruct (align_size_spec n Hn) as (Hal & Hmod & _).
    apply (seq_alloc size bl); auto; lia.
  - destruct IH as (bl & Hinv & Hs & Hz & Hseq).
    destruct (kcalloc_steps st bl fuel count n st' p Hinv Hn Hreq H)
      as (bl' & Hinv' & Hs' & Hz' & Hcase).
    exists bl'. split; [exact Hinv'|]. split; [congruence|].
    split; [congruence|].
    destruct Hcase as [->|(pre & b & post & Eff & -> & Hfit)]; [exact Hseq|].
    assert (Hrange : 0 <= wrap64 (count * n) < 2 ^ 64)
      by (unfold wrap64, wrap; apply Z.mod_pos_bound; lia).
    destruct (align_size_spec _ Hrange) as (Hal & Hmod & _).
    apply (seq_alloc size bl); auto; lia.
  - destruct IH as (bl & Hinv & Hs & Hz & Hseq).
    destruct (kfree_inv st bl fuel ptr st' Hinv Hptr Hok H)
      as (bl' & Hinv' & Hs' & Hz' & Hcase).
    exists bl'. split; [exact Hinv'|]. split; [congruence|].
    split; [congruence|].
    destruct Hcase as [(_ & -> & _)|(pre & b & post & -> & Hb & _ & ->)];
      [exact Hseq|].
    apply seq_free; assumption.
Qed.

Lemma walk_of_inv (st : heap_state) (bl : list block) :
  heap_inv st bl ->
  walk (S (length (entries (heap_start st) bl))) (memory st) (heap_start st)
  = Some (entries (heap_start st) bl).
Proof.
  intros ((Hne & Hpos & _ & _ & Hc) & _).
  pose proof (walk_chain (memory st) bl (heap_start st)
                (S (length (entries (heap_start st) bl))) Hpos Hc) as W.
  rewrite entries_length in *.
  destruct bl; [congruence|]. apply W. lia.
Qed.

Lemma entries_app (l l' : list block) (a : Z) :
  entries a (l ++ l') = entries a l ++ entries (a + total l) l'.
Proof.
  revert a. induction l as [|b l IH]; intros a; cbn [entries app total].
  - f_equal. lia.
  - rewrite IH. do 3 f_equal. lia.
Qed.

Lemma entries_bounds (bl : list block) (a0 : Z) (e : Z * Z * Z) :
  Forall (fun c => 0 <= b_size c) bl ->
  In e (entries a0 bl) ->
  a0 <= fst (fst e) /\ fst (fst e) + HEADER_SIZE + snd (fst e) <= a0 + total bl.
Proof.
  revert a0. induction bl as [|b bl IH]; intros a0 Hsz Hin; [destruct Hin|].
  inversion Hsz as [|? ? Hb Hrest]; subst.
  assert (0 <= total bl).
  { clear -Hrest. induction Hrest; cbn [total]; unfold span, HEADER_SIZE; lia. }
  cbn [entries In total] in *. unfold span, HEADER_SIZE in *.
  destruct Hin as [<-|Hin]; cbn [fst snd].
  - lia.
  - specialize (IH _ Hrest Hin). lia.
Qed.

Lemma entries_block (bl : list block) (a0 : Z) (e : Z * Z * Z) :
  In e (entries a0 bl) ->
  exists b, In b bl /\ snd (fst e) = b_size b /\ snd e = flag (b_free b).
Proof.
  revert a0. induction bl as [|b bl IH]; intros a0 Hin; [destruct Hin|].
  cbn [entries In] in Hin. destruct Hin as [<-|Hin].
  - exists b. cbn. auto.
  - destruct (IH _ Hin) as (c & Hc & ?). exists c. cbn. auto.
Qed.

Lemma block_entry (bl : list block) (a0 : Z) (b : block) :
  In b bl ->
  exists e, In e (entries a0 bl) /\
            snd (fst e) = b_size b /\ snd e = flag (b_free b).
Proof.
  revert a0. induction bl as [|c bl IH]; intros a0 Hin; [destruct Hin|].
  destruct Hin as [->|Hin].
  - eexists. split; [left; reflexivity|]. cbn. auto.
  - destruct (IH (a0 + span c) Hin) as (e & He & ?).
    exists e. split; [right; exact He|]. auto.
Qed.

(** *** Neighbouring free blocks *)

Lemma separated_app (l l' : list block) :
  separated (l ++ l') <->
  separated l /\ separated l' /\ last_free l && head_free l' = false.
Proof.
  induction l as [|b l IH].
  - cbn. tauto.
  - destruct l as [|c l].
    + cbn. unfold last_free. cbn. rewrite andb_false_r. tauto.
    + change ((b :: c :: l) ++ l') with (b :: (c :: l) ++ l').
      cbn [separated]. rewrite IH.
      change (head_free ((c :: l) ++ l')) with (b_free c).
      change (head_free (c :: l)) with (b_free c).
      change (last_free (b :: c :: l)) with (last_free (c :: l)).
      cbn [separated]. tauto.
Qed.

Lemma separated_coalesce (rest : list block) (cur : block) :
  separated (coalesce cur rest) /\
  head_free (coalesce cur rest) = b_free cur.
Proof.
  revert cur. induction rest as [|b rest IH]; intros cur; cbn [coalesce].
  - cbn. rewrite andb_false_r. auto.
  - destruct (b_free cur && b_free b) eqn:E.
    + destruct (IH (mk_block (b_size cur + (HEADER_SIZE + b_size b)) true))
        as (Hs & Hh).
      split; [exact Hs|]. rewrite Hh. cbn.
      apply andb_true_iff in E. symmetry. apply E.
    + destruct (IH b) as (Hs & Hh). cbn [separated head_free].
      rewrite Hh. auto.
Qed.

Lemma separated_carve (pre post : list block) (b : block) (req : Z) :
  separated (pre ++ b :: post) -> b_free b = true ->
  separated (pre ++ carve b req ++ post).
Proof.
  intros H Hb. apply separated_app in H. destruct H as (Hpre & Hbp & Hl).
  cbn [separated head_free] in Hbp, Hl. rewrite Hb in *.
  destruct Hbp as (Hhp & Hpost). cbn [andb] in Hhp.
  rewrite andb_true_r in Hl.
  apply separated_app. split; [exact Hpre|].
  unfold carve.
  destruct (b_size b - req - HEADER_SIZE >=? MIN_BLOCK_SIZE);
    cbn [app separated head_free b_free andb]; rewrite ?andb_false_r;
    rewrite ?Hhp; auto.
Qed.

Lemma seq_reachable_separated (size : Z) (bl : list block) :
  seq_reachable size bl -> separated bl.
Proof.
  induction 1 as [|bl req pre b post Hr IH Hreq Hmod Hff Hfit
                  |pre b post Hr IH Hb].
  - cbn. auto.
  - apply first_fit_some in Hff. destruct Hff as (-> & Hb & _).
    apply separated_carve; assumption.
  - destruct pre as [|c pre]; cbn [app coalesce_all];
      apply separated_coalesce.
Qed.

Lemma separated_entries (bl : list block) (a : Z) :
  separated bl -> no_free_neighbours (entries a bl).
Proof.
  revert a. induction bl as [|b bl IH]; intros a H; cbn [entries]; [exact I|].
  destruct H as (Hb & Hrest). cbn [no_free_neighbours].
  split; [|apply IH; exact Hrest].
  destruct bl as [|c bl]; cbn [entries]; [exact I|].
  cbn [head_free] in Hb. unfold flag.
  destruct (b_free b), (b_free c); auto; discriminate.
Qed.

(** *** Sums over the sequence *)

Lemma used_sum_free_block (bl : list block) (b : block) :
  Forall (fun c => 0 <= b_size c) bl ->
  In b bl -> b_free b = true -> used_sum bl + span b <= total bl.
Proof.
  intros Hsz. induction Hsz as [|c bl Hc Hrest IH]; intros Hin Hb;
    [destruct Hin|].
  assert (0 <= used_sum bl <= total bl).
  { clear -Hrest. induction Hrest as [|d l Hd _ IHl]; cbn [used_sum total].
    - lia.
    - unfold span, HEADER_SIZE. destruct (b_free d); lia. }
  cbn [used_sum total]. destruct Hin as [->|Hin].
  - rewrite Hb. lia.
  - specialize (IH Hin Hb). unfold span, HEADER_SIZE in *.
    destruct (b_free c); lia.
Qed.

Lemma used_sum_all_used (bl : list block) :
  (forall b, In b bl -> b_free b = false) -> used_sum bl = total bl.
Proof.
  induction bl as [|c bl IH]; intros H; cbn [used_sum total]; [reflexivity|].
  rewrite (H c (or_introl eq_refl)), IH; [reflexivity|].
  intros b Hb. apply H. right; exact Hb.
Qed.

(** *** First fit on the walk *)

Lemma first_fit_prefix (bl : list block) (size : Z) (pre : list block)
      (b : block) (post : list block) :
  first_fit bl size = Some (pre, b, post) ->
  forall c, In c pre -> b_free c && (b_size c >=? size) = false.
Proof.
  revert pre. induction bl as [|d bl IH]; intros pre H; [discriminate|].
  cbn [first_fit] in H.
  destruct (b_free d && (b_size d >=? size)) eqn:E.
  - inversion H; subst. intros c [].
  - destruct (first_fit bl size) as [[[pre' c'] post']|]; [|discriminate].
    inversion H; subst. intros c [<-|Hc]; [exact E|].
    exact (IH _ eq_refl c Hc).
Qed.

Lemma first_fit_none (bl : list block) (size : Z) :
  first_fit bl size = None ->
  forall c, In c bl -> b_free c && (b_size c >=? size) = false.
Proof.
  induction bl as [|d bl IH]; intros H c Hc; [destruct Hc|].
  cbn [first_fit] in H.
  destruct (b_free d && (b_size d >=? size)) eqn:E; [discriminate|].
  destruct (first_fit bl size) as [[[pre' c'] post']|]; [discriminate|].
  destruct Hc as [<-|Hc]; [exact E|]. exact (IH eq_refl c Hc).
Qed.

Lemma no_fit_entry (bl : list block) (a0 size : Z) :
  (forall c, In c bl -> b_free c && (b_size c >=? size) = false) ->
  forall e, In e (entries a0 bl) -> ~ fits size e.
Proof.
  intros H e He (Hf & Hs).
  destruct (entries_block _ _ _ He) as (b & Hb & Es & Ef).
  specialize (H b Hb). rewrite Es in Hs. rewrite Ef in Hf.
  destruct (b_free b); [|apply Hf; reflexivity].
  cbn [andb] in H. rewrite Z.geb_leb in H. apply Z.leb_gt in H. lia.
Qed.

(** What [kmalloc] does on a sequence, whether or not the first-fit block
    leaves room for a header. *)
Lemma kmalloc_choice (st : heap_state) (bl : list block) (fuel : nat)
      (n : Z) (st' : heap_state) (p : Z) :
  heap_inv st bl -> 0 < n < 2 ^ 64 ->
  kmalloc fuel st n = Some (st', p) ->
  (p = 0 /\ st' = st /\ first_fit bl (align_size n) = None) \/
  exists pre b post,
    first_fit bl (align_size n) = Some (pre, b, post) /\
    p = heap_start st + total pre + HEADER_SIZE.
Proof.
  intros Hinv Hn H. unfold kmalloc in H.
  destruct (Z.eqb_spec n 0); [lia|].
  destruct (find_free_block fuel (memory st) (heap_start st) (align_size n))
    as [r|] eqn:E; [|discriminate].
  pose proof Hinv as ((Hne & Hpos & Hend & Htot & Hc) & _).
  apply (find_free_block_first_fit st bl) in E; [|apply Hinv].
  unfold fit_address in E.
  destruct (first_fit bl (align_size n)) as [[[pre b] post]|] eqn:Eff.
  - right. exists pre, b, post. split; [reflexivity|].
    destruct (first_fit_some _ _ _ _ _ Eff) as (Hbl & _ & _).
    pose proof (chain_sizes _ _ _ _ Hc) as Hsz.
    rewrite Hbl in Htot, Hsz. rewrite total_app in Htot.
    apply Forall_app in Hsz. destruct Hsz as (Hsz1 & Hsz2).
    assert (0 <= total pre).
    { clear -Hsz1. induction Hsz1; cbn [total]; unfold span, HEADER_SIZE; lia. }
    assert (0 < total (b :: post)).
    { apply total_pos; [exact Hsz2|discriminate]. }
    inversion Hsz2 as [|? ? Hb0 Hpost]; subst.
    assert (0 <= total post).
    { clear -Hpost. induction Hpost; cbn [total]; unfold span, HEADER_SIZE; lia. }
    cbn [total] in *. unfold span, HEADER_SIZE in *.
    destruct (Z.eqb_spec (heap_start st + total pre) 0); [lia|].
    inversion H; subst. unfold wrap64, wrap. rewrite Z.mod_small; lia.
  - left. subst r. cbn in H. inversion H; subst. auto.
Qed.

(** The example states are reached by calls that keep the list intact. *)
Lemma alloc_reachable (st : heap_state) (n : Z) :
  heap_reachable (fun _ => 0) 0x400000 (4 * 1024 * 1024) st ->
  0 <= n < 2 ^ 64 -> request_ok 8 st n ->
  kmalloc 8 st n = Some (alloc st n) ->
  heap_reachable (fun _ => 0) 0x400000 (4 * 1024 * 1024) (fst (alloc st n)).
Proof.
  intros Hr Hn Hok E.
  apply (reach_kmalloc _ _ _ 8 st n (fst (alloc st n)) (snd (alloc st n)));
    auto.
  rewrite E. destruct (alloc st n); reflexivity.
Qed.

Lemma release_reachable (st : heap_state) (p : Z) :
  heap_reachable (fun _ => 0) 0x400000 (4 * 1024 * 1024) st ->
  0 <= p < 2 ^ 64 -> pointer_ok 8 st p ->
  kfree 8 st p = Some (release st p) ->
  heap_reachable (fun _ => 0) 0x400000 (4 * 1024 * 1024) (release st p).
Proof.
  intros Hr Hp Hok E. exact (reach_kfree _ _ _ 8 st p _ Hr Hp Hok E).
Qed.

Ltac heap_example_step :=
  lazymatch goal with
  | |- heap_reachable _ _ _ (release _ _) =>
      apply release_reachable;
      [ | vm_compute; split; [discriminate|reflexivity]
        | right; right; eexists; split; [vm_compute; reflexivity|];
          vm_compute; repeat (first [left; reflexivity | right])
        | vm_compute; reflexivity ]
  | |- heap_reachable _ _ _ (fst (alloc _ _)) =>
      apply alloc_reachable;
      [ | lia | vm_compute; right; discriminate | vm_compute; reflexivity ]
  | |- heap_reachable _ _ _ fresh_heap => exact (reach_heap_init _ _ _)
  end.

Lemma holed_heap_reachable :
  heap_reachable (fun _ => 0) 0x400000 (4 * 1024 * 1024) holed_heap.
Proof. unfold holed_heap. cbv zeta. repeat heap_example_step. Qed.

Lemma full_heap_reachable :
  heap_reachable (fun _ => 0) 0x400000 (4 * 1024 * 1024) full_heap.
Proof. unfold full_heap. repeat heap_example_step. Qed.

Lemma merged_heap_reachable :
  heap_reachable (fun _ => 0) 0x400000 (4 * 1024 * 1024) merged_heap.
Proof. unfold merged_heap. cbv zeta. repeat heap_example_step. Qed.

(** X1.  In every state reached from [heap_init] by calls that keep the list
    intact, no two neighbouring blocks of the list are both free: the pass
    that [kfree] runs merges every such pair, and [kmalloc] and [kcalloc]
    never create one. *)
Theorem heap_no_adjacent_free_blocks (m0 : mem) (start size : Z)
        (st : heap_state) :
  region_ok start size -> heap_reachable m0 start size st ->
  exists l,
    walk (S (length l)) (memory st) (heap_start st) = Some l /\
    no_free_neighbours l.
Proof.
  intros Hreg Hr.
  destruct (reachable_seq _ _ _ _ Hreg Hr) as (bl & Hinv & _ & _ & Hseq).
  exists (entries (heap_start st) bl).
  split; [apply walk_of_inv; exact Hinv|].
  apply separated_entries, (seq_reachable_separated size). exact Hseq.
Qed.

Lemma heap_no_adjacent_free_blocks_witness :
  walk 8 (memory merged_heap) (heap_start merged_heap) =
    Some [(0x400000, 152, 1); (0x4000B0, 64, 0); (0x400108, 4194016, 1)] /\
  exists l,
    walk (S (length l)) (memory merged_heap) (heap_start merged_heap) = Some l /\
    no_free_neighbours l.
Proof.
  split; [vm_compute; reflexivity|].
  apply (heap_no_adjacent_free_blocks (fun _ => 0) 0x400000 (4 * 1024 * 1024)).
  - unfold region_ok, HEADER_SIZE. lia.
  - exact merged_heap_reachable.
Defined.

(** X2.  [kmalloc] is first fit.  On an intact heap a call with a non-zero
    request returns, as soon as the fuel exceeds the number of blocks; it
    returns NULL, leaving the state as it was, exactly when no block of the
    list is free and large enough for the rounded size, and otherwise the
    payload address of the first such block of the list. *)
Theorem kmalloc_first_fit (m0 : mem) (start size : Z) (st : heap_state)
        (n : Z) :
  region_ok start size -> heap_reachable m0 start size st ->
  0 < n < 2 ^ 64 ->
  exists l,
    walk (S (length l)) (memory st) (heap_start st) = Some l /\
    forall fuel, (length l < fuel)%nat ->
      exists st' p,
        kmalloc fuel st n = Some (st', p) /\
        ((p = 0 /\ st' = st /\
          forall e, In e l -> ~ fits (align_size n) e) \/
         (exists l1 e l2,
            l = l1 ++ e :: l2 /\ p = fst (fst e) + HEADER_SIZE /\ p <> 0 /\
            fits (align_size n) e /\
            forall e', In e' l1 -> ~ fits (align_size n) e')).
Proof.
  intros Hreg Hr Hn.
  destruct (heap_reachable_inv _ _ _ _ Hreg Hr) as (bl & Hinv & _ & _).
  exists (entries (heap_start st) bl).
  split; [apply walk_of_inv; exact Hinv|].
  intros fuel Hf. rewrite entries_length in Hf.
  pose proof Hinv as (Hrepr & _).
  destruct (kmalloc_returns st bl fuel n Hrepr Hf) as ([st' p] & H & _).
  exists st', p. split; [exact H|].
  destruct (kmalloc_choice st bl fuel n st' p Hinv Hn H)
    as [(-> & -> & Hnone)|(pre & b & post & Eff & ->)].
  - left. split; [reflexivity|]. split; [reflexivity|].
    apply no_fit_entry, first_fit_none, Hnone.
  - right. destruct (first_fit_some _ _ _ _ _ Eff) as (Hbl & Hb & Hfit).
    exists (entries (heap_start st) pre),
      (heap_start st + total pre, b_size b, flag (b_free b)),
      (entries (heap_start st + total pre + span b) post).
    split; [rewrite Hbl, entries_app; reflexivity|].
    cbn [fst snd]. split; [reflexivity|].
    pose proof Hinv as ((_ & Hpos & _ & _ & Hc) & _).
    pose proof (chain_sizes _ _ _ _ Hc) as Hsz.
    rewrite Hbl in Hsz. apply Forall_app in Hsz. destruct Hsz as (Hsz1 & _).
    assert (0 <= total pre).
    { clear -Hsz1. induction Hsz1; cbn [total]; unfold span, HEADER_SIZE; lia. }
    split; [unfold HEADER_SIZE; lia|].
    split; [split; [rewrite Hb; discriminate|exact Hfit]|].
    apply no_fit_entry, (first_fit_prefix bl _ pre b post). exact Eff.
Qed.

Lemma kmalloc_first_fit_witness :
  walk 4 (memory holed_heap) (heap_start holed_heap) =
    Some [(0x400000, 64, 1); (0x400058, 64, 0); (0x4000B0, 4194104, 1)] /\
  (exists st', kmalloc 4 holed_heap 100 = Some (st', 0x4000C8)) /\
  exists l,
    walk (S (length l)) (memory holed_heap) (heap_start holed_heap) = Some l /\
    forall fuel, (length l < fuel)%nat ->
      exists st' p,
        kmalloc fuel holed_heap 100 = Some (st', p) /\
        ((p = 0 /\ st' = holed_heap /\
          forall e, In e l -> ~ fits (align_size 100) e) \/
         (exists l1 e l2,
            l = l1 ++ e :: l2 /\ p = fst (fst e) + HEADER_SIZE /\ p <> 0 /\
            fits (align_size 100) e /\
            forall e', In e' l1 -> ~ fits (align_size 100) e')).
Proof.
  split; [vm_compute; reflexivity|].
  split; [eexists; vm_compute; reflexivity|].
  apply (kmalloc_first_fit (fun _ => 0) 0x400000 (4 * 1024 * 1024)
                           holed_heap 100).
  - unfold region_ok, HEADER_SIZE. lia.
  - exact holed_heap_reachable.
  - lia.
Defined.

(** X3.  The memory [kmalloc] hands out is fresh: the payload of a non-NULL
    result lies inside the heap region and overlaps neither the header nor the
    payload of any block of the list that was in use before the call. *)
Theorem kmalloc_payload_fresh (m0 : mem) (start size : Z) (st : heap_state)
        (fuel : nat) (n : Z) (st' : heap_state) (p : Z) :
  region_ok start size -> heap_reachable m0 start size st ->
  0 < n < 2 ^ 64 ->
  kmalloc fuel st n = Some (st', p) -> p <> 0 ->
  exists l,
    walk (S (length l)) (memory st) (heap_start st) = Some l /\
    start + HEADER_SIZE <= p /\ p + align_size n <= start + size /\
    forall a s f,
      In (a, s, f) l -> f = 0 ->
      a + HEADER_SIZE + s <= p - HEADER_SIZE \/ p + align_size n <= a.
Proof.
  intros Hreg Hr Hn H Hp.
  destruct (heap_reachable_inv _ _ _ _ Hreg Hr) as (bl & Hinv & Hs & Hz).
  exists (entries (heap_start st) bl).
  split; [apply walk_of_inv; exact Hinv|].
  destruct (kmalloc_choice st bl fuel n st' p Hinv Hn H)
    as [(-> & _)|(pre & b & post & Eff & ->)]; [congruence|].
  destruct (first_fit_some _ _ _ _ _ Eff) as (Hbl & Hb & Hfit).
  pose proof Hinv as ((_ & Hpos & _ & Htot & Hc) & _).
  pose proof (chain_sizes _ _ _ _ Hc) as Hsz.
  rewrite Hbl in Hsz, Htot. rewrite total_app in Htot.
  apply Forall_app in Hsz. destruct Hsz as (Hsz1 & Hsz2).
  pose proof (Forall_inv Hsz2) as Hb0. pose proof (Forall_inv_tail Hsz2) as Hpost.
  cbn beta in Hb0.
  assert (0 <= total pre).
  { clear -Hsz1. induction Hsz1; cbn [total]; unfold span, HEADER_SIZE; lia. }
  assert (0 <= total post).
  { clear -Hpost. induction Hpost; cbn [total]; unfold span, HEADER_SIZE; lia. }
  cbn [total] in Htot. rewrite Hs, Hz in *.
  split; [unfold HEADER_SIZE; lia|].
  split; [unfold span, HEADER_SIZE in *; lia|].
  intros a s f Hin Hf. rewrite Hbl, entries_app in Hin.
  apply in_app_or in Hin. destruct Hin as [Hin|Hin].
  - left. apply (entries_bounds _ _ _ Hsz1) in Hin. cbn [fst snd] in Hin.
    unfold HEADER_SIZE in *. lia.
  - cbn [entries In] in Hin. destruct Hin as [E|Hin].
    + injection E as _ _ E3. rewrite <- E3, Hb in Hf. discriminate.
    + right. apply (entries_bounds _ _ _ Hpost) in Hin. cbn [fst snd] in Hin.
      unfold span, HEADER_SIZE in *. lia.
Qed.

Lemma kmalloc_payload_fresh_witness :
  let st := heap_init (fun _ => 0) 0x400000 (4 * 1024 * 1024) in
  exists st' p,
    kmalloc 4 st 100 = Some (st', p) /\ p <> 0 /\
    exists l,
      walk (S (length l)) (memory st) (heap_start st) = Some l /\
      0x400000 + HEADER_SIZE <= p /\
      p + align_size 100 <= 0x400000 + 4 * 1024 * 1024 /\
      forall a s f,
        In (a, s, f) l -> f = 0 ->
        a + HEADER_SIZE + s <= p - HEADER_SIZE \/ p + align_size 100 <= a.
Proof.
  intro st.
  pose (r := match kmalloc 4 st 100 with Some r => r | None => (st, 0) end).
  assert (E : kmalloc 4 st 100 = Some (fst r, snd r))
    by (vm_compute; reflexivity).
  assert (Hp : snd r <> 0) by (vm_compute; discriminate).
  exists (fst r), (snd r). split; [exact E|]. split; [exact Hp|].
  apply (kmalloc_payload_fresh (fun _ => 0) 0x400000 (4 * 1024 * 1024) st 4 100
                               (fst r) (snd r)).
  - unfold region_ok, HEADER_SIZE. lia.
  - constructor.
  - lia.
  - exact E.
  - exact Hp.
Defined.

(** X4.  The free figure of [heap_stats]: while some block of the list is
    free, used and free bytes add up to the total; once every block is in use
    the used counter exceeds the total by one header and the free figure, an
    unsigned difference, wraps around to [2^64 - 24]. *)
Theorem heap_stats_free_figure (m0 : mem) (start size : Z) (st : heap_state) :
  region_ok start size -> heap_reachable m0 start size st ->
  exists l,
    walk (S (length l)) (memory st) (heap_start st) = Some l /\
    let '(t, u, f) := heap_stats st in
    t = size /\
    ((exists e, In e l /\ snd e <> 0) -> u + f = t) /\
    ((forall e, In e l -> snd e = 0) ->
     u = t + HEADER_SIZE /\ f = 2 ^ 64 - HEADER_SIZE).
Proof.
  intros Hreg Hr.
  destruct (heap_reachable_inv _ _ _ _ Hreg Hr) as (bl & Hinv & Hs & Hz).
  exists (entries (heap_start st) bl).
  split; [apply walk_of_inv; exact Hinv|].
  unfold heap_stats.
  pose proof Hinv as ((_ & Hpos & Hend & Htot & Hc) & Hused & _).
  pose proof (chain_sizes _ _ _ _ Hc) as Hsz.
  pose proof (used_sum_le_total _ _ _ _ Hc) as Hle.
  split; [exact Hz|]. split.
  - intros (e & He & Hf).
    destruct (entries_block _ _ _ He) as (b & Hb & _ & Ef).
    assert (Hfree : b_free b = true).
    { destruct (b_free b); [reflexivity|]. rewrite Ef in Hf.
      exfalso; apply Hf; reflexivity. }
    pose proof (used_sum_free_block bl b Hsz Hb Hfree) as Hroom.
    pose proof (Forall_forall (fun c => 0 <= b_size c) bl) as [F _].
    specialize (F Hsz b Hb). cbn beta in F.
    unfold wrap64, wrap. unfold span, HEADER_SIZE in *.
    rewrite Z.mod_small; lia.
  - intros Hall.
    assert (Hfull : used_sum bl = total bl).
    { apply used_sum_all_used. intros b Hb.
      destruct (block_entry bl (heap_start st) b Hb) as (e & He & _ & Ef).
      specialize (Hall e He). rewrite Ef in Hall.
      destruct (b_free b); [discriminate|reflexivity]. }
    split; [lia|].
    rewrite Hused, Hfull, Htot. unfold HEADER_SIZE, wrap64, wrap.
    replace (heap_size st - (24 + heap_size st)) with (-24) by lia.
    reflexivity.
Qed.

Lemma heap_stats_free_figure_witness :
  (walk 2 (memory full_heap) (heap_start full_heap) =
     Some [(0x400000, 4194280, 0)] /\
   heap_stats full_heap = (4194304, 4194328, 2 ^ 64 - 24) /\
   exists l,
     walk (S (length l)) (memory full_heap) (heap_start full_heap) = Some l /\
     let '(t, u, f) := heap_stats full_heap in
     t = 4 * 1024 * 1024 /\
     ((exists e, In e l /\ snd e <> 0) -> u + f = t) /\
     ((forall e, In e l -> snd e = 0) ->
      u = t + HEADER_SIZE /\ f = 2 ^ 64 - HEADER_SIZE)) /\
  (walk 4 (memory holed_heap) (heap_start holed_heap) =
     Some [(0x400000, 64, 1); (0x400058, 64, 0); (0x4000B0, 4194104, 1)] /\
   heap_stats holed_heap = (4194304, 112, 4194192) /\
   exists l,
     walk (S (length l)) (memory holed_heap) (heap_start holed_heap) = Some l /\
     let '(t, u, f) := heap_stats holed_heap in
     t = 4 * 1024 * 1024 /\
     ((exists e, In e l /\ snd e <> 0) -> u + f = t) /\
     ((forall e, In e l -> snd e = 0) ->
      u = t + HEADER_SIZE /\ f = 2 ^ 64 - HEADER_SIZE)).
Proof.
  split.
  - split; [vm_compute; reflexivity|]. split; [vm_compute; reflexivity|].
    apply (heap_stats_free_figure (fun _ => 0) 0x400000 (4 * 1024 * 1024)
                                  full_heap).
    + unfold region_ok, HEADER_SIZE. lia.
    + exact full_heap_reachable.
  - split; [vm_compute; reflexivity|]. split; [vm_compute; reflexivity|].
    apply (heap_stats_free_figure (fun _ => 0) 0x400000 (4 * 1024 * 1024)
                                  holed_heap).
    + unfold region_ok, HEADER_SIZE. lia.
    + exact holed_heap_reachable.
Defined.

(** *** Freeing a block twice *)

Lemma total_nonneg (bl : list block) :
  Forall (fun c => 0 <= b_size c) bl -> 0 <= total bl.
Proof.
  induction 1; cbn [total]; unfold span, HEADER_SIZE; lia.
Qed.

Lemma split_compare (pre pre2 : list block) (b c : block)
      (post post2 : list block) :
  Forall (fun d => 0 <= b_size d) (pre ++ b :: post) ->
  pre ++ b :: post = pre2 ++ c :: post2 ->
  total pre = total pre2 \/
  total pre + span b <= total pre2 \/ total pre2 + span c <= total pre.
Proof.
  revert pre2. induction pre as [|d pre IH]; intros pre2 Hsz E.
  - destruct pre2 as [|d2 pre2]; [left; reflexivity|].
    right; left. cbn [app] in E. injection E as -> ->.
    apply Forall_inv_tail, Forall_app, proj1, total_nonneg in Hsz.
    cbn [total]. lia.
  - destruct pre2 as [|d2 pre2].
    + right; right. cbn [app] in E. injection E as -> <-.
      apply Forall_inv_tail, Forall_app, proj1, total_nonneg in Hsz.
      cbn [total]. lia.
    + cbn [app] in E. injection E as -> E.
      cbn [app] in Hsz. apply Forall_inv_tail in Hsz.
      specialize (IH pre2 Hsz E). cbn [total]. lia.
Qed.

(** [merge_free_blocks] writes nothing but [size] and [next] fields of
    headers of the list. *)
Lemma merge_loop_link_words (rest : list block) (cur : block) (m : mem)
      (a : Z) (fuel : nat) :
  0 < a -> a + total (cur :: rest) + HEADER_SIZE <= 2 ^ 64 ->
  chain m a (cur :: rest) false -> (length rest < fuel)%nat ->
  exists m',
    merge_loop fuel m a = Some m' /\
    (forall x, ~ link_word a (cur :: rest) x -> m' x = m x).
Proof.
  revert cur m a fuel.
  induction rest as [|b rest IH]; intros cur m a fuel Ha Hend Hc Hf.
  - destruct fuel as [|fuel]; [cbn in Hf; lia|].
    destruct Hc as (Hs & Hsz & Hfr & Hnx & _). cbn [nonempty orb] in Hnx.
    exists m. cbn [merge_loop].
    destruct (Z.eqb_spec a 0); [lia|]. rewrite Hnx. cbn. auto.
  - destruct fuel as [|fuel]; [cbn in Hf; lia|].
    pose proof Hc as (Hs & Hsz & Hfr & Hnx & Hc2).
    pose proof Hc2 as (Hs2 & Hsz2 & Hfr2 & Hnx2 & Hc3).
    pose proof (chain_total_nonneg _ _ _ _ Hc3) as Ht3.
    cbn [nonempty orb] in Hnx. cbn [total] in Hend.
    unfold span, HEADER_SIZE in *.
    cbn [merge_loop].
    destruct (Z.eqb_spec a 0); [lia|]. rewrite Hnx.
    destruct (Z.eqb_spec (a + (24 + b_size cur)) 0); [lia|].
    rewrite Hfr, Hfr2, !flag_zero, Hsz, Hsz2.
    destruct (b_free cur && b_free b) eqn:Efree.
    + apply andb_prop in Efree. destruct Efree as [Ef1 Ef2].
      unfold HEADER_SIZE.
      rewrite (wrap64_small (24 + b_size b)) by lia.
      rewrite (wrap64_small (b_size cur + (24 + b_size b))) by lia.
      set (m1 := set_size m a (b_size cur + (24 + b_size b))).
      assert (E1 : get_next m1 a = a + (24 + b_size cur))
        by (unfold m1; mem_simpl; exact Hnx).
      rewrite E1.
      assert (E2 : get_next m1 (a + (24 + b_size cur)) =
                   get_next m (a + (24 + b_size cur)))
        by (unfold m1; mem_simpl; reflexivity).
      rewrite E2, Hnx2.
      set (nx := if nonempty rest || false
                 then a + (24 + b_size cur) + (24 + b_size b) else 0).
      assert (Hnxr : 0 <= nx < 2 ^ 64)
        by (unfold nx; destruct (nonempty rest || false); lia).
      destruct (IH (mk_block (b_size cur + (24 + b_size b)) true)
                   (set_next m1 a nx) a fuel) as (m' & Em & Hfr');
        auto.
      * cbn [total]. unfold span, HEADER_SIZE. cbn [b_size]. lia.
      * cbn [chain b_size b_free flag]. unfold span, HEADER_SIZE. cbn [b_size].
        repeat split; try lia.
        -- unfold m1. mem_simpl. reflexivity.
        -- unfold m1. mem_simpl. rewrite Hfr, Ef1. reflexivity.
        -- mem_simpl. unfold nx. destruct (nonempty rest || false); lia.
        -- replace (a + (24 + (b_size cur + (24 + b_size b))))
             with (a + (24 + b_size cur) + (24 + b_size b)) by lia.
           apply (chain_frame m); auto. intros x Hx. unfold m1. mem_simpl.
           reflexivity.
      * cbn in Hf. lia.
      * exists m'. split; [exact Em|].
        intros x Hx. rewrite Hfr'.
        -- assert (Hx0 : ~ (a <= x < a + 8 \/ a + 16 <= x < a + 24)).
           { intros Hin. apply Hx. exists [], cur, (b :: rest).
             split; [reflexivity|]. cbn [total]. lia. }
           unfold m1, set_next, set_size.
           rewrite !store_outside by (cbn; lia). reflexivity.
        -- intros (pre & c & post & E & Hin). apply Hx.
           destruct pre as [|d pre].
           ++ exists [], cur, (b :: rest). split; [reflexivity|].
              cbn [total] in *. exact Hin.
           ++ change ((d :: pre) ++ c :: post) with (d :: (pre ++ c :: post)) in E.
              pose proof (f_equal (hd cur) E) as Ed.
              pose proof (f_equal (@tl block) E) as Er.
              cbn [hd tl] in Ed, Er. subst d.
              exists (cur :: b :: pre), c, post.
              split; [cbn [app]; rewrite Er; reflexivity|].
              cbn [total] in *. unfold span, HEADER_SIZE in *.
              cbn [b_size] in Hin. lia.
    + destruct (IH b m (a + (24 + b_size cur)) fuel) as (m' & Em & Hfr');
        auto; try lia.
      * cbn [total] in *. unfold span, HEADER_SIZE in *. lia.
      * cbn in Hf. lia.
      * exists m'. split; [exact Em|].
        intros x Hx. apply Hfr'.
        intros (pre & c & post & E & Hin). apply Hx.
        exists (cur :: pre), c, post.
        split; [cbn [app]; rewrite E; reflexivity|].
        cbn [total]. unfold span, HEADER_SIZE. lia.
Qed.

(** X5.  Freeing the same pointer twice is harmless: once [kfree] has
    returned, a second [kfree] of the same pointer returns at once and leaves
    the allocator exactly as the first call left it. *)
Theorem kfree_twice (m0 : mem) (start size : Z) (st : heap_state)
        (fuel : nat) (ptr : Z) (st1 : heap_state) :
  region_ok start size -> heap_reachable m0 start size st ->
  0 <= ptr < 2 ^ 64 -> pointer_ok fuel st ptr ->
  kfree fuel st ptr = Some st1 ->
  forall fuel', kfree fuel' st1 ptr = Some st1.
Proof.
  intros Hreg Hr Hptr Hok H fuel'.
  destruct (heap_reachable_inv _ _ _ _ Hreg Hr) as (bl & Hinv & Hs & Hz).
  pose proof Hinv as ((Hne & Hpos & Hend & Htot & Hc) & _).
  unfold kfree in H |- *.
  destruct (Z.eqb_spec ptr 0) as [E0|E0]; [inversion H; reflexivity|].
  destruct ((wrap64 (ptr - HEADER_SIZE) <? heap_start st)
            || (wrap64 (ptr - HEADER_SIZE) >=?
                wrap64 (heap_start st + heap_size st))) eqn:Erange.
  { inversion H; subst. rewrite Erange. reflexivity. }
  destruct (Z.eqb_spec (get_free (memory st) (wrap64 (ptr - HEADER_SIZE))) 0)
    as [Efree|Efree].
  2:{ inversion H; subst. rewrite Erange.
      destruct (Z.eqb_spec (get_free (memory st1) (wrap64 (ptr - HEADER_SIZE))) 0);
        [contradiction|reflexivity]. }
  set (m1 := set_free (memory st) (wrap64 (ptr - HEADER_SIZE)) 1) in *.
  destruct (merge_loop fuel m1 (heap_start st)) as [m'|] eqn:Em; [|discriminate].
  inversion H; subst st1; clear H. cbn [heap_start heap_size memory].
  rewrite Erange.
  apply orb_false_iff in Erange. destruct Erange as [R1 R2].
  apply Z.ltb_ge in R1. rewrite Z.geb_leb in R2. apply Z.leb_gt in R2.
  destruct Hok as [?|[[?|?]|(l & Hw & Hin)]]; try lia.
  apply (walk_entries st bl) in Hw; [|apply Hinv]. subst l.
  apply entries_address in Hin.
  destruct Hin as (pre & b & post & Hbl & Haddr).
  pose proof (chain_sizes _ _ _ _ Hc) as Hsz.
  assert (Hblk : wrap64 (ptr - HEADER_SIZE) = heap_start st + total pre).
  { rewrite Haddr. apply wrap64_small. rewrite Hbl in Hsz.
    apply Forall_app, proj1, total_nonneg in Hsz. unfold HEADER_SIZE in *. lia. }
  unfold m1 in *. clear m1. rewrite Hblk in *. rewrite Hbl in Hc.
  set (m1 := set_free (memory st) (heap_start st + total pre) 1) in *.
  pose proof (mark_free_in_memory _ _ _ _ _ Hpos Hc) as Hc1.
  fold m1 in Hc1.
  set (bl1 := pre ++ mk_block (b_size b) true :: post) in *.
  assert (Htot1 : total bl1 = heap_size st).
  { unfold bl1. rewrite <- Htot, Hbl, !total_app. reflexivity. }
  assert (Hsz1 : Forall (fun c => 0 <= b_size c) bl1)
    by exact (chain_sizes _ _ _ _ Hc1).
  destruct bl1 as [|c rest] eqn:Ebl1.
  { destruct pre; discriminate. }
  destruct (merge_loop_link_words rest c m1 (heap_start st) (S (length rest))
              Hpos ltac:(lia) Hc1 ltac:(lia)) as (m2 & Em2 & Hframe).
  assert (Em' : m' = m2).
  { pose proof (merge_loop_mono _ (Nat.max fuel (S (length rest))) _ _ _ Em
                  (Nat.le_max_l _ _)) as A.
    pose proof (merge_loop_mono _ (Nat.max fuel (S (length rest))) _ _ _ Em2
                  (Nat.le_max_r _ _)) as B.
    congruence. }
  subst m2.
  assert (Eflag : get_free m' (heap_start st + total pre) = 1).
  { transitivity (get_free m1 (heap_start st + total pre)).
    - unfold get_free. apply load_ext. intros x Hx. apply Hframe.
      intros (pre2 & c2 & post2 & E2 & Hin2).
      pose proof (split_compare pre pre2 (mk_block (b_size b) true) c2
                    post post2) as Cmp.
      change (pre ++ mk_block (b_size b) true :: post) with bl1 in Cmp.
      rewrite Ebl1 in Cmp. specialize (Cmp Hsz1 E2).
      assert (0 <= b_size c2).
      { rewrite E2 in Hsz1. apply Forall_app, proj2, Forall_inv in Hsz1.
        exact Hsz1. }
      assert (0 <= b_size b).
      { rewrite Hbl in Hsz. apply Forall_app, proj2, Forall_inv in Hsz.
        exact Hsz. }
      unfold span, HEADER_SIZE in Cmp. cbn [b_size] in Cmp.
      cbn in Hx. lia.
    - unfold m1. mem_simpl. reflexivity. }
  rewrite Eflag. reflexivity.
Qed.

Lemma kfree_twice_witness :
  let st0 := heap_init (fun _ => 0) 0x400000 (4 * 1024 * 1024) in
  exists st p st1,
    kmalloc 4 st0 64 = Some (st, p) /\ p <> 0 /\
    kfree 4 st p = Some st1 /\
    forall fuel', kfree fuel' st1 p = Some st1.
Proof.
  intro st0.
  pose (r := match kmalloc 4 st0 64 with Some r => r | None => (st0, 0) end).
  pose (st1 := match kfree 4 (fst r) (snd r) with
               | Some s => s
               | None => fst r
               end).
  assert (E : kmalloc 4 st0 64 = Some (fst r, snd r))
    by (vm_compute; reflexivity).
  assert (F : kfree 4 (fst r) (snd r) = Some st1)
    by (vm_compute; reflexivity).
  exists (fst r), (snd r), st1.
  split; [exact E|]. split; [vm_compute; discriminate|]. split; [exact F|].
  apply (kfree_twice (fun _ => 0) 0x400000 (4 * 1024 * 1024) (fst r) 4 (snd r)
                     st1).
  - unfold region_ok, HEADER_SIZE. lia.
  - apply (reach_kmalloc _ _ _ 4 st0 64 (fst r) (snd r));
      [constructor|lia| |exact E].
    vm_compute. right. discriminate.
  - vm_compute. split; [discriminate|reflexivity].
  - right. right. eexists. split; [vm_compute; reflexivity|].
    vm_compute. left. reflexivity.
  - exact F.
Defined.

End HeapShapeProofs.

(** ** Frame allocator: single frames and runs *)

Module PmmRunProofs.

Import Pmm PmmProofs.

Lemma frames_in_window (p : Z) : In p frames -> in_window p.
Proof.
  unfold frames, in_window. intros H. apply in_map_iff in H.
  destruct H as (k & <- & Hk). apply in_seq in Hk. lia.
Qed.

Lemma cleared_bits_none (bm : list Z) :
  (forall p, in_window p -> frame_used bm p = true) -> cleared_bits bm = 0.
Proof.
  intros H. unfold cleared_bits.
  assert (E : forall l, (forall p, In p l -> in_window p) ->
                        filter (fun p => negb (frame_used bm p)) l = []).
  { induction l as [|x l IH]; intros Hl; [reflexivity|].
    cbn [filter]. rewrite (H x) by (apply Hl; left; reflexivity).
    cbn [negb]. apply IH. intros p Hp. apply Hl. right; exact Hp. }
  rewrite E; [reflexivity|]. exact frames_in_window.
Qed.

(** A bitmap of the declared shape is determined by its [PMM_TOTAL_PAGES]
    bits. *)
Lemma bitmap_ext (bm bm' : list Z) :
  bitmap_ok bm -> bitmap_ok bm' ->
  (forall q, in_window q -> frame_used bm q = frame_used bm' q) ->
  bm = bm'.
Proof.
  intros [Hl Hb] [Hl' Hb'] H.
  apply (nth_ext bm bm' 0 0); [congruence|].
  intros n Hn. rewrite Hl in Hn.
  change (Z.to_nat PMM_BITMAP_SIZE) with 448%nat in *.
  assert (Hr : 0 <= nth n bm 0 < 256).
  { apply (proj1 (Forall_forall _ bm) Hb). apply nth_In. lia. }
  assert (Hr' : 0 <= nth n bm' 0 < 256).
  { apply (proj1 (Forall_forall _ bm') Hb'). apply nth_In. lia. }
  apply Z.bits_inj'. intros k Hk.
  destruct (Z.ltb_spec k 8) as [Hlt|Hge].
  - specialize (H (8 * Z.of_nat n + k)).
    rewrite !frame_used_testbit in H.
    replace ((8 * Z.of_nat n + k) / 8) with (Z.of_nat n) in H
      by (apply (Z.div_unique _ 8 _ k); lia).
    replace ((8 * Z.of_nat n + k) mod 8) with k in H
      by (apply (Z.mod_unique _ 8 (Z.of_nat n) k); lia).
    unfold zget in H. rewrite Nat2Z.id in H. apply H.
    unfold in_window. change PMM_TOTAL_PAGES with 3584. lia.
  - rewrite <- (Z.mod_small (nth n bm 0) (2 ^ 8)) by (change (2 ^ 8) with 256; lia).
    rewrite <- (Z.mod_small (nth n bm' 0) (2 ^ 8)) by (change (2 ^ 8) with 256; lia).
    rewrite !Z.mod_pow2_bits_high by lia. reflexivity.
Qed.

(** [pmm_free_pages] on a run of used frames. *)
Lemma free_pages_loop_run (n : nat) (i t : Z) (s : pmm_state) :
  bitmap_ok (pmm_bitmap s) -> 0 <= t -> 0 <= i ->
  t + i + Z.of_nat n <= PMM_TOTAL_PAGES ->
  (forall q, t + i <= q < t + i + Z.of_nat n ->
             frame_used (pmm_bitmap s) q = true) ->
  0 <= pmm_free_count s -> pmm_free_count s + Z.of_nat n <= PMM_TOTAL_PAGES ->
  let s' := free_pages_loop n i (PMM_START_ADDR + t * PMM_PAGE_SIZE) s in
  bitmap_ok (pmm_bitmap s') /\
  pmm_free_count s' = pmm_free_count s + Z.of_nat n /\
  pmm_total_pages s' = pmm_total_pages s /\
  forall q, 0 <= q ->
    frame_used (pmm_bitmap s') q =
    frame_used (pmm_bitmap s) q &&
    negb ((t + i <=? q) && (q <? t + i + Z.of_nat n)).
Proof.
  revert i s. induction n as [|n IH]; intros i s Hok Ht Hi Hfit Hused Hc0 Hc.
  - cbn [free_pages_loop]. split; [exact Hok|]. split; [cbn; lia|].
    split; [reflexivity|]. intros q Hq.
    destruct (Z.leb_spec (t + i) q), (Z.ltb_spec q (t + i + Z.of_nat 0));
      cbn [andb negb]; rewrite ?andb_true_r; auto; cbn in *; lia.
  - cbn [free_pages_loop].
    assert (Hin : in_window (t + i)).
    { unfold in_window. lia. }
    assert (Ea : wrap64 (PMM_START_ADDR + t * PMM_PAGE_SIZE +
                         wrap64 (i * PMM_PAGE_SIZE))
                 = PMM_START_ADDR + (t + i) * PMM_PAGE_SIZE).
    { change PMM_TOTAL_PAGES with 3584 in *.
      change PMM_START_ADDR with 2097152. change PMM_PAGE_SIZE with 4096.
      rewrite (wrap64_small (i * 4096)) by lia.
      rewrite wrap64_small by lia. lia. }
    rewrite Ea.
    destruct (pmm_free_page_cases s (PMM_START_ADDR + (t + i) * PMM_PAGE_SIZE))
      as (_ & _ & Hcase).
    rewrite page_of_frame_addr in Hcase.
    rewrite Hcase;
      [|apply frame_addr_in_window; exact Hin|apply Hused; lia].
    assert (Ew : wrap64 (pmm_free_count s + 1) = pmm_free_count s + 1).
    { apply wrap64_small. change PMM_TOTAL_PAGES with 3584 in *. lia. }
    rewrite Ew.
    set (s1 := mk_pmm (pmm_clear_bit (pmm_bitmap s) (t + i))
                      (pmm_free_count s + 1) (pmm_total_pages s)).
    destruct (IH (i + 1) s1) as (Hok' & Hc' & Ht' & Hbits);
      cbn [s1 pmm_bitmap pmm_free_count pmm_total_pages]; try lia.
    + apply pmm_clear_bit_ok; exact Hok.
    + intros q Hq. rewrite frame_used_clear_bit by (auto; lia).
      rewrite Hused by lia.
      destruct (Z.eqb_spec q (t + i)); [lia|reflexivity].
    + split; [exact Hok'|]. split; [rewrite Hc'; cbn [s1 pmm_free_count]; lia|].
      split; [exact Ht'|]. intros q Hq. rewrite Hbits by exact Hq.
      cbn [s1 pmm_bitmap]. rewrite frame_used_clear_bit by (auto; lia).
      destruct (Z.eqb_spec q (t + i)), (Z.leb_spec (t + (i + 1)) q),
        (Z.ltb_spec q (t + (i + 1) + Z.of_nat n)), (Z.leb_spec (t + i) q),
        (Z.ltb_spec q (t + i + Z.of_nat (S n)));
        cbn [andb negb]; rewrite ?andb_true_r, ?andb_false_r; auto; lia.
Qed.

(** X6.  [pmm_alloc_page] hands out the lowest free frame: it returns NULL
    and leaves the state untouched exactly when every frame of the window is
    in use; otherwise the result is the address of the free frame with the
    least index, that frame's bit is set and the free count drops by one. *)
Theorem pmm_alloc_page_lowest_free (st st' : pmm_state) (a : Z) :
  pmm_inv st -> pmm_alloc_page st = (st', a) ->
  (a = 0 /\ st' = st /\
   forall p, in_window p -> frame_used (pmm_bitmap st) p = true) \/
  (exists p,
     in_window p /\ frame_used (pmm_bitmap st) p = false /\
     (forall q, 0 <= q < p -> frame_used (pmm_bitmap st) q = true) /\
     a = PMM_START_ADDR + p * PMM_PAGE_SIZE /\ a <> 0 /\
     st' = mk_pmm (pmm_set_bit (pmm_bitmap st) p) (pmm_free_count st - 1)
                  (pmm_total_pages st)).
Proof.
  intros [Hok Hc] E. unfold pmm_alloc_page in E.
  pose proof (cleared_bits_range (pmm_bitmap st)) as Hrange.
  destruct (alloc_page_loop_spec (Z.to_nat PMM_TOTAL_PAGES) 0 st
              ltac:(lia) eq_refl) as [[E' Hall]|(p & Hp & Hf & Hlow & E')].
  - left.
    assert (Hall' : forall p, in_window p ->
                              frame_used (pmm_bitmap st) p = true)
      by (intros p Hp; apply Hall; exact Hp).
    destruct (Z.eqb_spec (pmm_free_count st) 0).
    + pose proof (f_equal fst E) as E1. pose proof (f_equal snd E) as E2.
      cbn [fst snd] in E1, E2. auto.
    + pose proof (eq_trans (eq_sym E') E) as E0.
      pose proof (f_equal fst E0) as E1. pose proof (f_equal snd E0) as E2.
      cbn [fst snd] in E1, E2. auto.
  - pose proof (cleared_bits_pos _ p Hp Hf) as Hpos.
    destruct (Z.eqb_spec (pmm_free_count st) 0); [lia|].
    right. exists p.
    pose proof (eq_trans (eq_sym E') E) as E0.
    pose proof (f_equal fst E0) as E1. pose proof (f_equal snd E0) as E2.
    cbn [fst snd] in E1, E2.
    split; [exact Hp|]. split; [exact Hf|].
    split; [intros q Hq; apply Hlow; lia|].
    split; [auto|]. split.
    + rewrite <- E2. unfold in_window in Hp.
      change PMM_START_ADDR with 2097152. change PMM_PAGE_SIZE with 4096. lia.
    + rewrite <- E1. f_equal. apply wrap64_small.
      change PMM_TOTAL_PAGES with 3584 in *. lia.
Qed.

Lemma pmm_alloc_page_lowest_free_witness :
  let st' := fst (pmm_alloc_page pmm_init) in
  let a := snd (pmm_alloc_page pmm_init) in
  (a = 0 /\ st' = pmm_init /\
   forall p, in_window p -> frame_used (pmm_bitmap pmm_init) p = true) \/
  (exists p,
     in_window p /\ frame_used (pmm_bitmap pmm_init) p = false /\
     (forall q, 0 <= q < p -> frame_used (pmm_bitmap pmm_init) q = true) /\
     a = PMM_START_ADDR + p * PMM_PAGE_SIZE /\ a <> 0 /\
     st' = mk_pmm (pmm_set_bit (pmm_bitmap pmm_init) p)
                  (pmm_free_count pmm_init - 1)
                  (pmm_total_pages pmm_init)).
Proof.
  intros st' a. apply (pmm_alloc_page_lowest_free pmm_init st' a).
  - exact pmm_init_inv.
  - apply surjective_pairing.
Defined.

(** X7.  Allocating a run and freeing it is a round trip: [pmm_free_pages] on
    a non-NULL result of [pmm_alloc_pages], with the same count, restores the
    bitmap, the free count and the total exactly. *)
Theorem pmm_alloc_free_pages_roundtrip (st st' : pmm_state) (count a : Z) :
  pmm_inv st -> 0 <= count < 2 ^ 64 ->
  pmm_alloc_pages st count = (st', a) -> a <> 0 ->
  pmm_free_pages st' a count = st.
Proof.
  intros [Hok Hc] Hcount E Ha. unfold pmm_alloc_pages in E.
  pose proof (cleared_bits_range (pmm_bitmap st)) as Hrange.
  destruct (Z.eqb_spec count 0) as [E0|E0]; cbn [orb] in E.
  { pose proof (f_equal snd E) as E2. cbn [snd] in E2. congruence. }
  destruct (Z.ltb_spec (pmm_free_count st) count) as [Hlt|Hge].
  { pose proof (f_equal snd E) as E2. cbn [snd] in E2. congruence. }
  destruct (alloc_pages_loop_spec (Z.to_nat PMM_TOTAL_PAGES) 0 0 0 count st
              ltac:(lia) eq_refl ltac:(lia) ltac:(lia) ltac:(lia)
              ltac:(intros; lia)
              ltac:(intros t Ht [H0 _]; lia))
    as [[E' _]|(t & Hrun & _ & E')];
    pose proof (eq_trans (eq_sym E') E) as Eq;
    pose proof (f_equal fst Eq) as E1; pose proof (f_equal snd Eq) as E2;
    cbn [fst snd] in E1, E2; [congruence|].
  clear E E' Eq. subst st' a.
  destruct Hrun as (Ht0 & Htn & Hfree).
  unfold pmm_free_pages.
  rewrite (wrap64_small (pmm_free_count st - count))
    by (change PMM_TOTAL_PAGES with 3584 in *; lia).
  set (s1 := mk_pmm (set_bits (Z.to_nat count) t (pmm_bitmap st))
                    (pmm_free_count st - count) (pmm_total_pages st)).
  destruct (free_pages_loop_run (Z.to_nat count) 0 t s1)
    as (Hok' & Hc' & Ht' & Hbits);
    cbn [s1 pmm_bitmap pmm_free_count pmm_total_pages]; try lia.
  - apply set_bits_ok; exact Hok.
  - intros q Hq. rewrite frame_used_set_bits by (auto; lia).
    destruct (Z.leb_spec t q), (Z.ltb_spec q (t + Z.of_nat (Z.to_nat count)));
      cbn [andb orb]; auto; lia.
  - destruct (free_pages_loop (Z.to_nat count) 0
                (PMM_START_ADDR + t * PMM_PAGE_SIZE) s1) as [bm2 fc2 tp2].
    cbn [pmm_bitmap pmm_free_count pmm_total_pages] in *.
    destruct st as [bm fc tp].
    cbn [pmm_bitmap pmm_free_count pmm_total_pages] in *.
    cbn [s1 pmm_bitmap pmm_free_count pmm_total_pages] in Hc', Ht', Hbits.
    f_equal; [|lia|exact Ht'].
    apply bitmap_ext; auto. intros q Hq. rewrite Hbits by apply Hq.
    rewrite frame_used_set_bits by (auto; try lia; apply Hq).
    rewrite Z.add_0_r.
    destruct (Z.leb_spec t q), (Z.ltb_spec q (t + Z.of_nat (Z.to_nat count)));
      cbn [andb orb negb]; rewrite ?andb_true_r, ?andb_false_r; auto.
    symmetry. apply Hfree. lia.
Qed.

Lemma pmm_alloc_free_pages_roundtrip_witness :
  let st' := fst (pmm_alloc_pages pmm_init 4) in
  let a := snd (pmm_alloc_pages pmm_init 4) in
  a <> 0 /\ pmm_free_pages st' a 4 = pmm_init.
Proof.
  intros st' a.
  assert (Ha : a <> 0) by (vm_compute; discriminate).
  split; [exact Ha|].
  apply (pmm_alloc_free_pages_roundtrip pmm_init st' 4 a).
  - exact pmm_init_inv.
  - lia.
  - apply surjective_pairing.
  - exact Ha.
Defined.

End PmmRunProofs.

(** ** Reading from the keyboard *)

Module KeyboardReaderProofs.

Import Keyboard KeyboardReader.

(** *** The ring buffer *)

Lemma queued_length (st : kbd_state) :
  Z.of_nat (length (queued st)) =
  (kbd_buffer_head st - kbd_buffer_tail st) mod KBD_BUFFER_SIZE.
Proof.
  unfold queued. rewrite length_map, length_seq, Z2Nat.id; [reflexivity|].
  apply Z.mod_pos_bound. reflexivity.
Qed.

Lemma queued_put (st : kbd_state) (c : Z) :
  ring_ok st -> Z.of_nat (length (queued st)) < 255 ->
  queued (kbd_buffer_put st c) = queued st ++ [c] /\
  ring_ok (kbd_buffer_put st c).
Proof.
  intros (Hlen & Hh & Ht) Hn. rewrite queued_length in Hn.
  unfold kbd_buffer_put, KBD_BUFFER_SIZE in *.
  rewrite Z.rem_mod_nonneg by lia.
  set (h := kbd_buffer_head st) in *. set (t := kbd_buffer_tail st) in *.
  set (n := (h - t) mod 256) in *.
  assert (Hn0 : 0 <= n) by (apply Z.mod_pos_bound; lia).
  assert (Eh : (t + n) mod 256 = h).
  { clear Hn. unfold n. Z.div_mod_to_equations. lia. }
  assert (Hnext : (h + 1) mod 256 <> t).
  { unfold n in Hn. Z.div_mod_to_equations. lia. }
  destruct (Z.eqb_spec ((h + 1) mod 256) t); [contradiction|]. cbn [negb].
  split.
  - unfold queued, KBD_BUFFER_SIZE.
    cbn [kbd_buffer kbd_buffer_head kbd_buffer_tail].
    fold h t.
    assert (En : ((h + 1) mod 256 - t) mod 256 = n + 1).
    { unfold n in *. Z.div_mod_to_equations. lia. }
    rewrite En. fold n.
    rewrite Z2Nat.inj_add, Nat.add_1_r, seq_S, map_app by lia.
    cbn [map Nat.add]. f_equal.
    + apply map_ext_in. intros k Hk. apply in_seq in Hk.
      apply PmmProofs.zget_zset_other.
      * lia.
      * apply Z.mod_pos_bound. lia.
      * unfold n in *. Z.div_mod_to_equations. lia.
    + rewrite Z2Nat.id by lia.
      rewrite Eh.
      rewrite PmmProofs.zget_zset_same; [reflexivity|]. rewrite Hlen. lia.
  - unfold ring_ok. cbn [kbd_buffer kbd_buffer_head kbd_buffer_tail].
    rewrite PmmProofs.zset_length. fold t. split; [exact Hlen|].
    split; [apply Z.mod_pos_bound; reflexivity|exact Ht].
Qed.

Lemma queued_full (st : kbd_state) (c : Z) :
  ring_ok st -> Z.of_nat (length (queued st)) = 255 ->
  kbd_buffer_put st c = st.
Proof.
  intros (Hlen & Hh & Ht) Hn. rewrite queued_length in Hn.
  unfold kbd_buffer_put, KBD_BUFFER_SIZE in *.
  rewrite Z.rem_mod_nonneg by lia.
  assert (Hnext : (kbd_buffer_head st + 1) mod 256 = kbd_buffer_tail st).
  { Z.div_mod_to_equations. lia. }
  rewrite Hnext, Z.eqb_refl. reflexivity.
Qed.

Lemma queued_take (st : kbd_state) (x : Z) (rest : list Z) :
  ring_ok st -> queued st = x :: rest ->
  fst (take_char st) = x /\ queued (snd (take_char st)) = rest /\
  ring_ok (snd (take_char st)).
Proof.
  intros (Hlen & Hh & Ht) Hq.
  pose proof (f_equal (fun l => Z.of_nat (length l)) Hq) as Hn.
  cbn beta in Hn. rewrite queued_length in Hn. cbn [length] in Hn.
  unfold queued in *. unfold take_char, KBD_BUFFER_SIZE in *.
  cbn [fst snd kbd_buffer kbd_buffer_head kbd_buffer_tail].
  rewrite Z.rem_mod_nonneg by lia.
  set (h := kbd_buffer_head st) in *. set (t := kbd_buffer_tail st) in *.
  set (n := (h - t) mod 256) in *.
  assert (En : Z.to_nat n = S (length rest)) by lia.
  rewrite En in Hq. cbn [seq map] in Hq.
  injection Hq as Hx Hrest.
  split; [|split].
  - rewrite <- Hx, Z.add_0_r, Z.mod_small by lia. reflexivity.
  - rewrite <- Hrest.
    replace (Z.to_nat ((h - (t + 1) mod 256) mod 256)) with (length rest).
    2:{ assert (E : (h - (t + 1) mod 256) mod 256 = n - 1)
          by (unfold n in *; Z.div_mod_to_equations; lia).
        rewrite E. lia. }
    rewrite <- seq_shift, map_map. apply map_ext. intros k.
    f_equal. rewrite Nat2Z.inj_succ. Z.div_mod_to_equations. lia.
  - unfold ring_ok. cbn [kbd_buffer kbd_buffer_head kbd_buffer_tail].
    fold h. split; [exact Hlen|]. split; [exact Hh|].
    apply Z.mod_pos_bound. reflexivity.
Qed.

Lemma haschar_queued (st : kbd_state) :
  ring_ok st -> (keyboard_haschar st = 0 <-> queued st = []).
Proof.
  intros (Hlen & Hh & Ht). unfold keyboard_haschar, KBD_BUFFER_SIZE in *.
  split.
  - destruct (Z.eqb_spec (kbd_buffer_head st) (kbd_buffer_tail st)) as [E|E];
      [|discriminate].
    intros _. unfold queued. rewrite E, Z.sub_diag. reflexivity.
  - intros Hq. pose proof (queued_length st) as Hn. rewrite Hq in Hn.
    cbn [length] in Hn. unfold KBD_BUFFER_SIZE in Hn.
    destruct (Z.eqb_spec (kbd_buffer_head st) (kbd_buffer_tail st));
      [reflexivity|].
    exfalso. Z.div_mod_to_equations. lia.
Qed.

(** X8.  The keyboard ring is a first-in first-out queue of at most 255
    characters: [kbd_buffer_put] appends its character to the waiting ones,
    or drops it and changes nothing when 255 are waiting;
    [keyboard_haschar] is 0 exactly when none is waiting; and
    [keyboard_getchar], when some are waiting, returns the oldest at once and
    leaves the others. *)
Theorem keyboard_ring_is_fifo (st : kbd_state) :
  ring_ok st ->
  Z.of_nat (length (queued st)) <= 255 /\
  (forall c,
     ring_ok (kbd_buffer_put st c) /\
     (Z.of_nat (length (queued st)) < 255 ->
      queued (kbd_buffer_put st c) = queued st ++ [c]) /\
     (Z.of_nat (length (queued st)) = 255 -> kbd_buffer_put st c = st)) /\
  (keyboard_haschar st = 0 <-> queued st = []) /\
  (forall x rest irqs,
     queued st = x :: rest ->
     exists st',
       keyboard_getchar irqs st = Some (x, st', irqs) /\
       queued st' = rest /\ ring_ok st').
Proof.
  intros Hok.
  assert (Hle : Z.of_nat (length (queued st)) <= 255).
  { rewrite queued_length. unfold KBD_BUFFER_SIZE.
    pose proof (Z.mod_pos_bound (kbd_buffer_head st - kbd_buffer_tail st) 256).
    lia. }
  split; [exact Hle|]. split; [|split].
  - intros c.
    assert (Hcase : Z.of_nat (length (queued st)) < 255 \/
                    Z.of_nat (length (queued st)) = 255) by lia.
    split; [|split].
    + destruct Hcase as [Hlt|Heq].
      * apply queued_put; assumption.
      * rewrite queued_full; assumption.
    + intros Hlt. apply queued_put; assumption.
    + intros Heq. apply queued_full; assumption.
  - apply haschar_queued. exact Hok.
  - intros x rest irqs Hq.
    destruct (queued_take st x rest Hok Hq) as (Hx & Hrest & Hok').
    exists (snd (take_char st)).
    split; [|split; assumption].
    assert (Hhas : keyboard_haschar st <> 0).
    { intros E. apply (haschar_queued st Hok) in E. congruence. }
    destruct irqs as [|r irqs]; cbn [keyboard_getchar];
      destruct (Z.eqb_spec (keyboard_haschar st) 0); try contradiction;
      cbn [negb]; rewrite Hx; reflexivity.
Qed.

Lemma keyboard_ring_is_fifo_witness :
  let st := mk_kbd (repeat 0 256) 0 0 0 0 0 0 in
  Z.of_nat (length (queued st)) <= 255 /\
  (forall c,
     ring_ok (kbd_buffer_put st c) /\
     (Z.of_nat (length (queued st)) < 255 ->
      queued (kbd_buffer_put st c) = queued st ++ [c]) /\
     (Z.of_nat (length (queued st)) = 255 -> kbd_buffer_put st c = st)) /\
  (keyboard_haschar st = 0 <-> queued st = []) /\
  (forall x rest irqs,
     queued st = x :: rest ->
     exists st',
       keyboard_getchar irqs st = Some (x, st', irqs) /\
       queued st' = rest /\ ring_ok st').
Proof.
  apply (keyboard_ring_is_fifo (mk_kbd (repeat 0 256) 0 0 0 0 0 0)).
  unfold ring_ok, KBD_BUFFER_SIZE. cbn [kbd_buffer kbd_buffer_head kbd_buffer_tail].
  split; [reflexivity|lia].
Defined.

(** *** Key translation *)

Lemma make_code_fields (sc : Z) :
  0 <= sc < 128 -> Z.land sc 0x80 = 0 /\ Z.land sc 0x7F = sc.
Proof.
  intros H.
  pose proof (forall_below 128
                (fun x => (Z.land x 0x80 =? 0) && (Z.land x 0x7F =? x))
                eq_refl sc H) as E.
  cbn beta in E. apply andb_true_iff in E. destruct E as [E1 E2].
  split; [apply Z.eqb_eq, E1|apply Z.eqb_eq, E2].
Qed.

Lemma handler_on_key (sc : Z) (st : kbd_state) :
  0 <= sc < 128 -> is_modifier sc = false ->
  keyboard_interrupt_handler sc st =
  let c := handler_char (shift_pressed st) (caps_lock st) (ctrl_pressed st) sc in
  if c =? 0 then st else kbd_buffer_put st c.
Proof.
  intros Hsc Hmod. unfold keyboard_interrupt_handler.
  destruct (make_code_fields sc Hsc) as [-> ->].
  unfold is_modifier in Hmod.
  repeat (apply orb_false_iff in Hmod; destruct Hmod as [Hmod ?]).
  repeat match goal with H : (_ =? _) = false |- _ => rewrite H; clear H end.
  cbn [orb negb]. rewrite Z.eqb_refl. cbn [negb].
  unfold handler_char. cbv zeta.
  match goal with |- (if negb (?c =? 0) then _ else _) = _ =>
    destruct (c =? 0); reflexivity end.
Qed.

Lemma handler_char_flags (shift caps ctrl sc : Z) :
  handler_char shift caps ctrl sc =
  handler_char (flag_bit (negb (shift =? 0))) (flag_bit (negb (caps =? 0)))
               (flag_bit (negb (ctrl =? 0))) sc.
Proof.
  unfold handler_char.
  destruct (shift =? 0), (caps =? 0), (ctrl =? 0); reflexivity.
Qed.

Lemma handler_char_key_char (s k : bool) (sc : Z) :
  0 <= sc < 128 -> is_modifier sc = false ->
  handler_char (flag_bit s) (flag_bit k) 0 sc = key_char s k sc.
Proof.
  intros Hsc Hmod.
  assert (Hall : forallb key_char_agrees (map Z.of_nat (seq 0 128)) = true)
    by (vm_compute; reflexivity).
  pose proof (forall_below 128 key_char_agrees Hall sc Hsc) as E.
  unfold key_char_agrees in E. cbn [forallb] in E. rewrite Hmod in E.
  cbn [orb] in E. rewrite !andb_true_r in E.
  rewrite !andb_true_iff in E. destruct E as [[E1 E2] [E3 E4]].
  destruct s, k; apply Z.eqb_eq; assumption.
Qed.

Lemma handler_char_ctrl (shift caps ctrl sc : Z) :
  handler_char shift caps ctrl sc =
  let c := handler_char shift caps 0 sc in
  if negb (ctrl =? 0) && ((c =? ch "c") || (c =? ch "C")) then 3 else c.
Proof.
  unfold handler_char. cbn [Z.eqb negb andb]. reflexivity.
Qed.

(** X9.  What a key press puts into the ring.  For every make code that is
    not a modifier key the handler enqueues the character of [key_char]:
    on a letter key the upper-case letter exactly when one of Shift and Caps
    Lock is active, the lower-case letter when both or neither are; on any
    other key the shifted or unshifted character, whatever Caps Lock is.
    With Ctrl held, the letter c becomes the code 3.  A key without a
    character enqueues nothing. *)
Theorem key_press_character (sc : Z) (st : kbd_state) :
  0 <= sc < 128 -> is_modifier sc = false ->
  let c := key_char (negb (shift_pressed st =? 0))
                    (negb (caps_lock st =? 0)) sc in
  let c' := if negb (ctrl_pressed st =? 0) && ((c =? ch "c") || (c =? ch "C"))
            then 3 else c in
  keyboard_interrupt_handler sc st =
  if c' =? 0 then st else kbd_buffer_put st c'.
Proof.
  intros Hsc Hmod. rewrite (handler_on_key sc st Hsc Hmod). cbv zeta.
  rewrite handler_char_ctrl. cbv zeta.
  rewrite (handler_char_flags _ _ 0).
  change (flag_bit (negb (0 =? 0))) with 0.
  rewrite (handler_char_key_char _ _ sc Hsc Hmod). reflexivity.
Qed.

Lemma key_press_character_witness :
  let st := mk_kbd (repeat 0 256) 0 0 1 0 0 1 in
  keyboard_interrupt_handler 0x1E st = kbd_buffer_put st (ch "a").
Proof.
  apply (key_press_character 0x1E (mk_kbd (repeat 0 256) 0 0 1 0 0 1)).
  - lia.
  - reflexivity.
Defined.

(** *** Reading a line *)

Lemma readline_typed (cs rest : list Z) (t : Z) (buf line : list Z)
      (max_len : Z) :
  no_terminator cs -> stays_below (max_len - 1) line cs ->
  max_len <= Z.of_nat (length buf) ->
  firstn (length line) buf = line ->
  let text := fold_left edit cs line in
  (t = 10 \/ t = 13 ->
   exists buf',
     readline_loop (cs ++ t :: rest) buf (Z.of_nat (length line)) max_len
     = Some (buf', Z.of_nat (length text), rest) /\
     length buf' = length buf /\
     firstn (length text) buf' = text /\
     zget buf' (Z.of_nat (length text)) = 0) /\
  (t = 3 ->
   exists buf',
     readline_loop (cs ++ t :: rest) buf (Z.of_nat (length line)) max_len
     = Some (buf', -1, rest) /\
     length buf' = length buf /\ zget buf' 0 = 0).
Proof.
  revert buf line.
  induction cs as [|c cs IH]; intros buf line Hnt Hlim Hbuf Hline text.
  - destruct Hlim as [Hlim _]. cbn [app readline_loop].
    destruct (Z.ltb_spec (Z.of_nat (length line)) (max_len - 1)); [|lia].
    unfold text. cbn [fold_left]. split.
    + intros Ht.
      assert (E : (t =? 10) || (t =? 13) = true).
      { destruct Ht; subst; reflexivity. }
      rewrite E. eexists. split; [reflexivity|].
      split; [apply PmmProofs.zset_length|]. split.
      * unfold zset. destruct (Z.ltb_spec (Z.of_nat (length line)) 0); [lia|].
        rewrite Nat2Z.id, firstn_list_set_same. exact Hline.
      * apply PmmProofs.zget_zset_same. lia.
    + intros ->. cbn [Z.eqb orb]. eexists. split; [reflexivity|].
      split; [apply PmmProofs.zset_length|].
      apply PmmProofs.zget_zset_same. lia.
  - destruct Hlim as [Hlim Hrest].
    pose proof (Forall_inv Hnt) as (Hc10 & Hc13 & Hc3).
    pose proof (Forall_inv_tail Hnt) as Hnt'.
    change ((c :: cs) ++ t :: rest) with (c :: (cs ++ t :: rest)).
    cbn [readline_loop].
    destruct (Z.ltb_spec (Z.of_nat (length line)) (max_len - 1)); [|lia].
    destruct (Z.eqb_spec c 10); [contradiction|].
    destruct (Z.eqb_spec c 13); [contradiction|]. cbn [orb].
    unfold text. cbn [fold_left].
    set (line' := edit line c) in *.
    destruct (Z.eqb_spec c 8) as [E8|E8].
    + (* backspace *)
      assert (El' : line' = removelast line).
      { unfold line', edit. rewrite E8. reflexivity. }
      assert (Elen : length line' = pred (length line)).
      { rewrite El'. destruct line as [|x l0]; [reflexivity|].
        rewrite (app_removelast_last x (l := x :: l0)) at 2 by discriminate.
        rewrite length_app. cbn [length]. lia. }
      assert (Epos : (if Z.of_nat (length line) >? 0
                      then Z.of_nat (length line) - 1
                      else Z.of_nat (length line))
                     = Z.of_nat (length line')).
      { destruct (Z.gtb_spec (Z.of_nat (length line)) 0); lia. }
      rewrite Epos.
      refine (IH buf line' Hnt' Hrest Hbuf _).
      rewrite Elen, El'. rewrite <- Hline at 2.
      destruct (length line) as [|k] eqn:Ek; [reflexivity|].
      cbn [pred]. rewrite removelast_firstn; [reflexivity|lia].
    + destruct (Z.eqb_spec c 3); [contradiction|].
      destruct (Z.geb_spec c 32) as [Hp|Hp].
      * assert (El' : line' = line ++ [c]).
        { unfold line', edit. destruct (Z.eqb_spec c 8); [contradiction|].
          destruct (Z.geb_spec c 32); [reflexivity|lia]. }
        replace (Z.of_nat (length line) + 1)
          with (Z.of_nat (length line'))
          by (rewrite El', length_app; cbn; lia).
        assert (R : forall P : Prop,
                      (max_len <= Z.of_nat
                         (length (zset buf (Z.of_nat (length line)) c)) ->
                       firstn (length line')
                              (zset buf (Z.of_nat (length line)) c) = line' ->
                       P) -> P).
        2:{ apply R. intros Hb' Hl'.
            pose proof (IH _ line' Hnt' Hrest Hb' Hl') as Q. cbv zeta in Q.
            rewrite PmmProofs.zset_length in Q. exact Q. }
        intros P HP. apply HP.
        -- rewrite PmmProofs.zset_length. exact Hbuf.
        -- unfold zset. destruct (Z.ltb_spec (Z.of_nat (length line)) 0); [lia|].
           rewrite El', Nat2Z.id, length_app, Nat.add_1_r.
           rewrite firstn_list_set_succ by lia. rewrite Hline. reflexivity.
      * assert (El' : line' = line).
        { unfold line', edit. destruct (Z.eqb_spec c 8); [contradiction|].
          destruct (Z.geb_spec c 32); [lia|reflexivity]. }
        replace (Z.of_nat (length line)) with (Z.of_nat (length line'))
          by (rewrite El'; reflexivity).
        refine (IH buf line' Hnt' Hrest Hbuf _).
        rewrite El'. exact Hline.
Qed.

(** X10.  [keyboard_readline] is a line editor.  While the line stays
    shorter than [max_len - 1], printable characters are appended, a
    backspace removes the last character (and does nothing on an empty
    line), other control characters are ignored; on Enter the call returns
    the length of the edited line, which sits NUL-terminated at the start of
    the caller's array; on Ctrl+C it returns -1 with an empty string in the
    array.  Characters typed after the terminator are left unread. *)
Theorem keyboard_readline_edits_line (cs rest : list Z) (t : Z)
        (buf : list Z) (max_len : Z) :
  no_terminator cs -> stays_below (max_len - 1) [] cs ->
  max_len <= Z.of_nat (length buf) ->
  let text := fold_left edit cs [] in
  (t = 10 \/ t = 13 ->
   exists buf',
     keyboard_readline (cs ++ t :: rest) buf max_len
     = Some (buf', Z.of_nat (length text), rest) /\
     length buf' = length buf /\
     firstn (length text) buf' = text /\
     zget buf' (Z.of_nat (length text)) = 0) /\
  (t = 3 ->
   exists buf',
     keyboard_readline (cs ++ t :: rest) buf max_len = Some (buf', -1, rest) /\
     length buf' = length buf /\ zget buf' 0 = 0).
Proof.
  intros Hnt Hlim Hbuf. unfold keyboard_readline.
  exact (readline_typed cs rest t buf [] max_len Hnt Hlim Hbuf eq_refl).
Qed.

Lemma keyboard_readline_edits_line_witness :
  exists buf',
    keyboard_readline ([ch "l"; ch "x"; 8; ch "s"] ++ 10 :: [ch "q"])
                      (repeat 7 8) 8
    = Some (buf', 2, [ch "q"]) /\
    length buf' = 8%nat /\
    firstn 2 buf' = [ch "l"; ch "s"] /\
    zget buf' 2 = 0.
Proof.
  apply (keyboard_readline_edits_line [ch "l"; ch "x"; 8; ch "s"] [ch "q"] 10
           (repeat 7 8) 8).
  - repeat constructor; vm_compute; discriminate.
  - vm_compute. repeat split; reflexivity.
  - vm_compute. discriminate.
  - left. reflexivity.
Defined.

(** *** Typing *)

Lemma handler_press (sc : Z) (st : kbd_state) :
  0 <= sc < 128 -> is_modifier sc = false ->
  keyboard_interrupt_handler sc st =
  if press_char st sc =? 0 then st else kbd_buffer_put st (press_char st sc).
Proof.
  intros Hsc Hmod. rewrite (handler_on_key sc st Hsc Hmod). cbv zeta.
  rewrite handler_char_ctrl. cbv zeta.
  rewrite (handler_char_flags _ _ 0).
  change (flag_bit (negb (0 =? 0))) with 0.
  rewrite (handler_char_key_char _ _ sc Hsc Hmod). reflexivity.
Qed.

Lemma press_char_put (st : kbd_state) (c sc : Z) :
  press_char (kbd_buffer_put st c) sc = press_char st sc.
Proof.
  unfold press_char, kbd_buffer_put.
  destruct (negb (Z.rem (kbd_buffer_head st + 1) KBD_BUFFER_SIZE
                  =? kbd_buffer_tail st)); reflexivity.
Qed.

(** X27.  Keys typed are read back in the order typed.  Delivering the make
    codes of non-modifier keys to the interrupt handler appends to the
    waiting characters, in order, the character of each key under the
    current Shift, Caps Lock and Ctrl state (keys without a character add
    nothing), as long as the ring does not hold more than 255 characters;
    the modifier flags are unchanged. *)
Theorem typed_keys_queue_in_order (scs : list Z) (st : kbd_state) :
  ring_ok st -> plain_keys scs ->
  let cs := filter (fun c => negb (c =? 0)) (map (press_char st) scs) in
  Z.of_nat (length (queued st)) + Z.of_nat (length cs) <= 255 ->
  queued (deliver scs st) = queued st ++ cs /\
  ring_ok (deliver scs st) /\
  shift_pressed (deliver scs st) = shift_pressed st /\
  ctrl_pressed (deliver scs st) = ctrl_pressed st /\
  alt_pressed (deliver scs st) = alt_pressed st /\
  caps_lock (deliver scs st) = caps_lock st.
Proof.
  revert st. induction scs as [|sc scs IH]; intros st Hok Hkeys cs Hroom.
  - unfold cs. cbn [map filter deliver fold_left]. rewrite app_nil_r.
    split; [reflexivity|]. split; [exact Hok|]. repeat split; reflexivity.
  - pose proof (Forall_inv Hkeys) as [Hsc Hmod].
    pose proof (Forall_inv_tail Hkeys) as Hkeys'.
    unfold deliver. cbn [fold_left].
    change (fold_left (fun s r => keyboard_interrupt_handler r s) scs
                      (keyboard_interrupt_handler sc st))
      with (deliver scs (keyboard_interrupt_handler sc st)).
    rewrite (handler_press sc st Hsc Hmod).
    unfold cs in *. cbn [map filter] in *.
    destruct (Z.eqb_spec (press_char st sc) 0) as [E|E]; cbn [negb] in *.
    + apply IH; assumption.
    + cbn [length] in Hroom.
      destruct (queued_put st (press_char st sc) Hok ltac:(lia)) as [Hq Hok'].
      assert (Hsame : map (press_char (kbd_buffer_put st (press_char st sc))) scs
                      = map (press_char st) scs).
      { apply map_ext. intros x. apply press_char_put. }
      destruct (IH (kbd_buffer_put st (press_char st sc)) Hok' Hkeys')
        as (Hq' & Hok'' & Hs & Hc & Ha & Hl).
      { rewrite Hsame, Hq, length_app. cbn [length]. lia. }
      rewrite Hq', Hq, Hsame, <- app_assoc. cbn [app].
      split; [reflexivity|]. split; [exact Hok''|].
      rewrite Hs, Hc, Ha, Hl. unfold kbd_buffer_put.
      destruct (negb (Z.rem (kbd_buffer_head st + 1) KBD_BUFFER_SIZE
                      =? kbd_buffer_tail st)); auto.
Qed.

Lemma typed_keys_queue_in_order_witness :
  let st := mk_kbd (repeat 0 256) 0 0 1 0 0 0 in
  queued (deliver [0x23; 0x17] st) = queued st ++ [ch "H"; ch "I"] /\
  ring_ok (deliver [0x23; 0x17] st) /\
  shift_pressed (deliver [0x23; 0x17] st) = shift_pressed st /\
  ctrl_pressed (deliver [0x23; 0x17] st) = ctrl_pressed st /\
  alt_pressed (deliver [0x23; 0x17] st) = alt_pressed st /\
  caps_lock (deliver [0x23; 0x17] st) = caps_lock st.
Proof.
  apply (typed_keys_queue_in_order [0x23; 0x17]
           (mk_kbd (repeat 0 256) 0 0 1 0 0 0)).
  - unfold ring_ok, KBD_BUFFER_SIZE.
    cbn [kbd_buffer kbd_buffer_head kbd_buffer_tail].
    split; [reflexivity|lia].
  - repeat constructor; vm_compute; congruence.
  - vm_compute. discriminate.
Defined.

End KeyboardReaderProofs.

(** ** Setting up the virtio queues *)

Module VirtioSetupProofs.

Import VirtioNet VirtioSetup VirtioNetProofs.

(** *** The ring layout *)

Lemma land_page_mask (x : Z) :
  0 <= x < 2 ^ 64 -> Z.land x (wrap64 (Z.lnot 4095)) = 4096 * (x / 4096).
Proof.
  intros Hx.
  change (wrap64 (Z.lnot 4095)) with (Z.land (Z.ones 64) (Z.lnot (Z.ones 12))).
  rewrite Z.land_assoc, Z.land_ones, Z.mod_small by lia.
  rewrite <- Z.ldiff_land, Z.ldiff_ones_r by lia.
  rewrite Z.shiftl_mul_pow2, Z.shiftr_div_pow2 by lia.
  change (2 ^ 12) with 4096. lia.
Qed.

Lemma ALIGN_UP_page (x : Z) :
  0 <= x -> x + 4095 < 2 ^ 64 ->
  ALIGN_UP x 4096 = 4096 * ((x + 4095) / 4096).
Proof.
  intros H0 H1. unfold ALIGN_UP.
  change (4096 - 1) with 4095.
  rewrite wrap64_small by lia. apply land_page_mask. lia.
Qed.

(** X11.  The rings [virtq_init] lays out fit the memory it asks for and do
    not overlap: the descriptor table starts on a page boundary at or after
    the allocation, the available ring follows it directly, the used ring
    starts on the next page boundary after the available ring, and its end is
    inside the allocation.  The page frame number handed to the device
    designates the descriptor table. *)
Theorem virtq_layout_fits (mem size : Z) :
  0 < size < 2 ^ 16 -> 0 <= mem ->
  mem + alloc_bytes (virtq_layout mem size) <= 2 ^ 64 ->
  let l := virtq_layout mem size in
  mem <= desc_at l /\ desc_at l mod 4096 = 0 /\
  avail_at l = desc_at l + 16 * size /\
  avail_at l + (6 + 2 * size) <= used_at l /\
  used_at l < avail_at l + (6 + 2 * size) + 4096 /\
  used_at l mod 4096 = 0 /\
  used_at l + (6 + 8 * size) <= mem + alloc_bytes l /\
  (desc_at l < 2 ^ 44 -> queue_pfn l * 4096 = desc_at l).
Proof.
  intros Hsize Hmem. unfold queue_pfn, virtq_layout, PAGE_SIZE.
  cbn [alloc_bytes desc_at avail_at used_at].
  unfold desc_table_bytes, avail_ring_bytes, used_ring_bytes.
  rewrite (wrap64_small (size * 16)), (wrap64_small (2 * 3 + 2 * size)),
    (wrap64_small (2 * 3 + 8 * size)) by lia.
  rewrite (wrap64_small (size * 16 + (2 * 3 + 2 * size))) by lia.
  rewrite (ALIGN_UP_page (size * 16 + (2 * 3 + 2 * size))) by lia.
  rewrite (ALIGN_UP_page (2 * 3 + 8 * size)) by lia.
  set (a := (size * 16 + (2 * 3 + 2 * size) + 4095) / 4096).
  set (u := (2 * 3 + 8 * size + 4095) / 4096).
  assert (Ha : size * 16 + (2 * 3 + 2 * size) <= 4096 * a
               < size * 16 + (2 * 3 + 2 * size) + 4096)
    by (unfold a; Z.div_mod_to_equations; lia).
  assert (Hu : 2 * 3 + 8 * size <= 4096 * u < 2 * 3 + 8 * size + 4096)
    by (unfold u; Z.div_mod_to_equations; lia).
  rewrite (wrap64_small (4096 * a + 4096 * u)) by lia.
  rewrite (wrap64_small (4096 * a + 4096 * u + 4096)) by lia.
  intros Hfit.
  rewrite (ALIGN_UP_page mem) by lia.
  set (m := (mem + 4095) / 4096).
  assert (Hm : mem <= 4096 * m < mem + 4096)
    by (unfold m; Z.div_mod_to_equations; lia).
  rewrite (wrap64_small (4096 * m + size * 16)) by lia.
  rewrite (wrap64_small (4096 * m + size * 16 + (2 * 3 + 2 * size))) by lia.
  rewrite ALIGN_UP_page by lia.
  replace ((4096 * m + size * 16 + (2 * 3 + 2 * size) + 4095) / 4096)
    with (m + a).
  2:{ unfold a. replace (4096 * m + size * 16 + (2 * 3 + 2 * size) + 4095)
        with (size * 16 + (2 * 3 + 2 * size) + 4095 + m * 4096) by lia.
      rewrite Z.div_add by lia. lia. }
  cbv zeta.
  split; [lia|]. split; [rewrite Z.mul_comm; apply Z.mod_mul; lia|].
  split; [lia|]. split; [lia|]. split; [lia|].
  split; [rewrite Z.mul_comm; apply Z.mod_mul; lia|]. split; [lia|].
  - intros Hlow.
    replace (4096 * m / 4096) with m
      by (rewrite Z.mul_comm, Z.div_mul; lia).
    rewrite wrap32_small; lia.
Qed.

Lemma virtq_layout_fits_witness :
  let l := virtq_layout 0x400018 256 in
  0x400018 <= desc_at l /\ desc_at l mod 4096 = 0 /\
  avail_at l = desc_at l + 16 * 256 /\
  avail_at l + (6 + 2 * 256) <= used_at l /\
  used_at l < avail_at l + (6 + 2 * 256) + 4096 /\
  used_at l mod 4096 = 0 /\
  used_at l + (6 + 8 * 256) <= 0x400018 + alloc_bytes l /\
  (desc_at l < 2 ^ 44 -> queue_pfn l * 4096 = desc_at l).
Proof.
  apply (virtq_layout_fits 0x400018 256).
  - lia.
  - lia.
  - vm_compute. discriminate.
Defined.

(** *** Offering the RX buffers *)

Lemma skipn_nth_cons {A} (l : list A) (n : nat) (d : A) :
  (n < length l)%nat -> skipn n l = nth n l d :: skipn (S n) l.
Proof.
  revert n. induction l as [|a l IH]; intros [|n] H; cbn in *; try lia.
  - reflexivity.
  - apply IH. lia.
Qed.

Lemma rx_refill_ok (vq : virtq_t) (idx : Z) :
  queue_ok vq -> queue_ok (rx_refill vq idx).
Proof.
  unfold queue_ok, rx_refill.
  cbn [size desc avail a_ring used buffers]. rewrite !list_set_length. auto.
Qed.

Lemma rx_offer_loop_run (n : nat) :
  forall (i : Z) (st : net_state) (fuel : nat),
    queue_ok (rx_queue st) -> 0 <= i ->
    i + Z.of_nat n = size (rx_queue st) ->
    a_idx (avail (rx_queue st)) = i -> (n <= fuel)%nat ->
    exists st',
      rx_offer_loop fuel i st = Some (tt, st') /\
      desc (rx_queue st') =
        firstn (Z.to_nat i) (desc (rx_queue st)) ++
        map rx_desc (skipn (Z.to_nat i) (buffers (rx_queue st))) /\
      a_ring (avail (rx_queue st')) =
        firstn (Z.to_nat i) (a_ring (avail (rx_queue st))) ++
        map Z.of_nat (seq (Z.to_nat i) n) /\
      a_idx (avail (rx_queue st')) = size (rx_queue st) /\
      size (rx_queue st') = size (rx_queue st) /\
      buffers (rx_queue st') = buffers (rx_queue st) /\
      used (rx_queue st') = used (rx_queue st) /\
      last_used_idx (rx_queue st') = last_used_idx (rx_queue st) /\
      tx_queue st' = tx_queue st /\ dma st' = dma st /\
      io_base st' = io_base st /\
      virtio_initialized st' = virtio_initialized st /\
      exists tr, trace st' = trace st ++ tr.
Proof.
  induction n as [|n IH]; intros i st fuel Hok Hi Hsz Hai Hfuel.
  - exists st. pose proof Hok as (Hsize & Hd & Hr & Hu & Hb).
    assert (Ei : i = size (rx_queue st)) by lia.
    assert (Erun : rx_offer_loop fuel i st = Some (tt, st)).
    { destruct fuel; cbn [rx_offer_loop];
        (destruct (Z.ltb_spec i (size (rx_queue st))); [lia|reflexivity]). }
    split; [exact Erun|].
    rewrite firstn_all2, skipn_all2, firstn_all2 by lia.
    cbn [map seq]. rewrite !app_nil_r.
    do 11 (split; [auto; congruence|]).
    exists (@nil event). now rewrite app_nil_r.
  - pose proof Hok as (Hsize & Hd & Hr & Hu & Hb).
    destruct fuel as [|fuel]; [lia|]. cbn [rx_offer_loop].
    destruct (Z.ltb_spec i (size (rx_queue st))); [|lia].
    rewrite (bind_some _ _ _ _ _
               (virtq_add_rx_buffer_rx st i Hok ltac:(lia) ltac:(lia))).
    set (st1 := mk_net (virtio_initialized st) (io_base st)
                  (rx_refill (rx_queue st) i) (tx_queue st) (tx_idx st)
                  (dma st)
                  (trace st ++ rx_refill_events RXQ (rx_queue st) i)).
    destruct (IH (i + 1) st1 fuel) as
      (st' & Erun & Hdesc & Hring & Hidx & Hsz' & Hbuf & Hused & Hlast & Htx &
       Hdma & Hio & Hini & tr & Htr);
      cbn [st1 rx_queue]; try lia.
    + apply rx_refill_ok. exact Hok.
    + unfold rx_refill. cbn [size]. lia.
    + unfold rx_refill. cbn [avail a_idx]. rewrite Hai.
      apply wrap16_small. lia.
    + exists st'. split; [exact Erun|].
      cbn [st1 rx_queue tx_queue dma io_base virtio_initialized trace] in *.
      unfold rx_refill in Hdesc, Hring, Hidx, Hsz', Hbuf, Hused, Hlast.
      cbn [desc avail a_ring a_idx size buffers used last_used_idx]
        in Hdesc, Hring, Hidx, Hsz', Hbuf, Hused, Hlast.
      rewrite Hai, Z.rem_small, (wrap16_small i) in Hring by lia.
      replace (Z.to_nat (i + 1)) with (S (Z.to_nat i)) in Hdesc, Hring by lia.
      rewrite firstn_list_set_succ in Hdesc by lia.
      rewrite firstn_list_set_succ in Hring by lia.
      rewrite <- app_assoc in Hdesc, Hring. cbn [app] in Hdesc, Hring.
      split.
      { rewrite Hdesc. f_equal.
        rewrite (skipn_nth_cons (buffers (rx_queue st)) (Z.to_nat i) 0) by lia.
        reflexivity. }
      split.
      { rewrite Hring. f_equal. cbn [seq map]. rewrite Z2Nat.id by lia.
        reflexivity. }
      repeat split; auto.
      rewrite Htr, <- app_assoc. eexists. reflexivity.
Qed.

(** X12.  After [virtq_init], the loop of [virtio_net_init] offers every RX
    buffer to the device exactly once and in slot order: descriptor [i]
    designates buffer [i] with 2048 device-writable bytes, the available ring
    lists the slots 0, 1, ..., size-1, the available index equals the queue
    size, and the last effect is the write of 0 to the queue-notify port.
    The used ring, the TX queue and the slot buffers are untouched. *)
Theorem rx_offer_all_publishes (st : net_state) (fuel : nat) :
  queue_ok (rx_queue st) -> a_idx (avail (rx_queue st)) = 0 ->
  (Z.to_nat (size (rx_queue st)) <= fuel)%nat ->
  exists st' tr,
    rx_offer_all fuel st = Some (tt, st') /\
    desc (rx_queue st') = map rx_desc (buffers (rx_queue st)) /\
    a_ring (avail (rx_queue st')) =
      map Z.of_nat (seq 0 (Z.to_nat (size (rx_queue st)))) /\
    a_idx (avail (rx_queue st')) = size (rx_queue st) /\
    trace st' =
      trace st ++ tr ++ [EvOutw (wrap16 (io_base st + VIRTIO_PCI_QUEUE_NOTIFY)) 0] /\
    used (rx_queue st') = used (rx_queue st) /\
    buffers (rx_queue st') = buffers (rx_queue st) /\
    tx_queue st' = tx_queue st /\ dma st' = dma st.
Proof.
  intros Hok Hai Hfuel. pose proof Hok as (Hsize & _).
  destruct (rx_offer_loop_run (Z.to_nat (size (rx_queue st))) 0 st fuel)
    as (st1 & Erun & Hdesc & Hring & Hidx & Hsz' & Hbuf & Hused & Hlast & Htx &
        Hdma & Hio & Hini & tr & Htr); auto; try lia.
  cbn [Z.to_nat firstn skipn app] in Hdesc, Hring.
  unfold rx_offer_all.
  rewrite (bind_some _ _ _ _ _ Erun).
  unfold gets, outw, modify, bind, log.
  eexists. exists tr. split; [reflexivity|].
  cbn [rx_queue tx_queue dma trace].
  rewrite Hio, Htr, <- app_assoc. repeat split; auto.
Qed.

Lemma rx_offer_all_publishes_witness :
  exists st' tr,
    rx_offer_all 16 allocated_state = Some (tt, st') /\
    desc (rx_queue st') = map rx_desc (buffers (rx_queue allocated_state)) /\
    a_ring (avail (rx_queue st')) =
      map Z.of_nat (seq 0 (Z.to_nat (size (rx_queue allocated_state)))) /\
    a_idx (avail (rx_queue st')) = size (rx_queue allocated_state) /\
    trace st' =
      trace allocated_state ++ tr ++
      [EvOutw (wrap16 (io_base allocated_state + VIRTIO_PCI_QUEUE_NOTIFY)) 0] /\
    used (rx_queue st') = used (rx_queue allocated_state) /\
    buffers (rx_queue st') = buffers (rx_queue allocated_state) /\
    tx_queue st' = tx_queue allocated_state /\
    dma st' = dma allocated_state.
Proof.
  apply (rx_offer_all_publishes allocated_state 16).
  - unfold queue_ok. repeat split; vm_compute; congruence.
  - reflexivity.
  - vm_compute. lia.
Defined.

(** *** Receiving a packet *)

(** X13.  [virtio_net_receive] on a used entry longer than the 10-byte
    header returns the payload length, capped at [max_len], and copies that
    many bytes from behind the header of the slot's buffer; it advances
    [last_used_idx], offers the slot to the device again and writes 0 to the
    queue-notify port.  The slot buffers are not modified. *)
Theorem virtio_net_receive_packet (st : net_state) (max_len : Z) :
  virtio_initialized st <> 0 ->
  let vq := rx_queue st in
  let e := nth (Z.to_nat (last_used_idx vq mod size vq)) (u_ring (used vq))
               (mk_used_elem 0 0) in
  let buf := nth (Z.to_nat (e_id e)) (buffers vq) 0 in
  let n := Z.min (e_len e - 10) max_len in
  last_used_idx vq <> u_idx (used vq) ->
  queue_ok vq -> 0 <= last_used_idx vq < 2 ^ 16 ->
  0 <= a_idx (avail vq) < 2 ^ 16 ->
  10 < e_len e < 2 ^ 32 -> 0 <= e_id e < size vq ->
  exists st',
    virtio_net_receive max_len st =
      Some ((n, load_bytes (dma st) (buf + 10) n), st') /\
    last_used_idx (rx_queue st') = (last_used_idx vq + 1) mod 2 ^ 16 /\
    desc (rx_queue st') =
      list_set (desc vq) (Z.to_nat (e_id e)) (rx_desc buf) /\
    a_ring (avail (rx_queue st')) =
      list_set (a_ring (avail vq))
        (Z.to_nat (a_idx (avail vq) mod size vq)) (e_id e) /\
    a_idx (avail (rx_queue st')) = (a_idx (avail vq) + 1) mod 2 ^ 16 /\
    trace st' = trace st ++ rx_refill_events RXQ vq (e_id e) ++
      [EvOutw (wrap16 (io_base st + VIRTIO_PCI_QUEUE_NOTIFY)) 0] /\
    used (rx_queue st') = used vq /\ dma st' = dma st /\
    tx_queue st' = tx_queue st.
Proof.
  intros Hini vq e buf n Hne Hok Hlast Hai Hlen Hid.
  pose proof Hok as (Hsz & Hd & Hr & Hu & Hb).
  pose proof (rem_in_range (last_used_idx vq) (size vq) ltac:(lia) ltac:(lia))
    as Hslot.
  unfold n, buf, e in *. clear n buf e.
  rewrite <- (Z.rem_mod_nonneg (last_used_idx vq) (size vq)) in * by lia.
  rewrite <- (Z.rem_mod_nonneg (a_idx (avail vq)) (size vq)) by lia.
  unfold virtio_net_receive.
  rewrite (bind_some _ _ st st (virtio_initialized st)) by reflexivity.
  destruct (Z.eqb_spec (virtio_initialized st) 0); [contradiction|].
  rewrite (bind_some _ _ st st (last_used_idx vq)) by reflexivity.
  rewrite (bind_some _ _ st st (u_idx (used vq))) by reflexivity.
  destruct (Z.eqb_spec (last_used_idx vq) (u_idx (used vq))); [contradiction|].
  rewrite (bind_some _ _ st st (size vq)) by reflexivity.
  rewrite (bind_some _ _ st st (Z.rem (last_used_idx vq) (size vq)))
    by (unfold c_mod; destruct (Z.eqb_spec (size vq) 0); [lia|reflexivity]).
  rewrite (bind_some _ _ st st
             (nth (Z.to_nat (Z.rem (last_used_idx vq) (size vq)))
                  (u_ring (used vq)) (mk_used_elem 0 0)))
    by (unfold read_used_ring; cbn [get_queue]; fold vq;
        now rewrite in_bounds_true by lia).
  set (e' := nth (Z.to_nat (Z.rem (last_used_idx vq) (size vq)))
                 (u_ring (used vq)) (mk_used_elem 0 0)) in *.
  set (st1 := set_queue RXQ
                (mk_virtq (desc vq) (avail vq) (used vq) (size vq)
                          (wrap16 (last_used_idx vq + 1)) (buffers vq)) st).
  rewrite (bind_some _ _ st st1 tt) by reflexivity.
  destruct (Z.gtb_spec (e_len e') NET_HDR_SIZE);
    [|change NET_HDR_SIZE with 10 in *; lia].
  change NET_HDR_SIZE with 10.
  rewrite (wrap32_small (e_len e' - 10)) by lia.
  assert (En : (if e_len e' - 10 >? max_len then max_len else e_len e' - 10)
               = Z.min (e_len e' - 10) max_len).
  { destruct (Z.gtb_spec (e_len e' - 10) max_len); lia. }
  rewrite En.
  rewrite (bind_some _ _ st1 st1
             (Z.min (e_len e' - 10) max_len,
              load_bytes (dma st)
                (nth (Z.to_nat (e_id e')) (buffers vq) 0 + 10)
                (Z.min (e_len e' - 10) max_len))).
  2:{ unfold bind, read_buffer, gets, ret. cbn [st1 set_queue get_queue rx_queue
        buffers dma]. fold vq. rewrite in_bounds_true by lia. reflexivity. }
  rewrite (bind_some _ _ _ _ _ (virtq_add_rx_buffer_rx st1 (e_id e') Hok Hid
                                  ltac:(cbn; fold vq; lia))).
  eexists. split; [reflexivity|].
  unfold outw, modify, log, rx_refill, rx_refill_events, rx_desc.
  cbn [rx_queue tx_queue last_used_idx desc avail a_ring a_idx
       trace used dma st1 set_queue size buffers io_base a_flags].
  fold vq. rewrite (wrap16_small (e_id e')) by lia.
  rewrite <- !app_assoc. repeat split; reflexivity.
Qed.

Lemma virtio_net_receive_packet_witness :
  exists st',
    virtio_net_receive 1500 packet_state =
      Some ((4, [1; 2; 3; 4]), st') /\
    last_used_idx (rx_queue st') = 1 /\
    a_idx (avail (rx_queue st')) = 1 /\
    dma st' = dma packet_state.
Proof.
  destruct (virtio_net_receive_packet packet_state 1500)
    as (st' & E & Hl & _ & _ & Ha & _ & _ & Hd & _).
  - vm_compute. congruence.
  - vm_compute. congruence.
  - unfold queue_ok. repeat split; vm_compute; congruence.
  - vm_compute. split; congruence.
  - vm_compute. split; congruence.
  - vm_compute. split; reflexivity.
  - vm_compute. split; congruence.
  - exists st'. split; [exact E|]. split; [exact Hl|]. split; [exact Ha|].
    exact Hd.
Defined.

End VirtioSetupProofs.

(** ** PCI configuration space *)

Module PciProofs.

Import Pci.

(** *** The address register *)

Lemma wrap32_lor (x y : Z) : wrap32 (Z.lor x y) = Z.lor (wrap32 x) (wrap32 y).
Proof.
  unfold wrap32, wrap. rewrite <- !Z.land_ones by lia.
  apply Z.land_lor_distr_l.
Qed.

Lemma field_lor (k m x y : Z) :
  field k m (Z.lor x y) = Z.lor (field k m x) (field k m y).
Proof.
  unfold field. rewrite wrap32_lor, Z.shiftr_lor. apply Z.land_lor_distr_l.
Qed.

Lemma below_eq (n : nat) (g h : Z -> Z) :
  forallb (fun x => g x =? h x) (map Z.of_nat (seq 0 n)) = true ->
  forall x, 0 <= x < Z.of_nat n -> g x = h x.
Proof.
  intros H x Hx. apply Z.eqb_eq.
  exact (forall_below n (fun x => g x =? h x) H x Hx).
Qed.

Ltac by_cases_below n :=
  match goal with
  | |- ?l = ?r =>
      match goal with
      | H : 0 <= ?x < _ |- _ =>
          match l with
          | context [x] =>
              pattern x;
              match goal with
              | |- (fun y => @?g y = @?h y) x =>
                  exact (below_eq n g h eq_refl x H)
              end
          end
      end
  end.

Lemma pci_address_field (k m : Z) (b d f o : Z) :
  field k m (Z.lor (Z.lor (Z.lor (Z.lor (Z.shiftl 1 31)
                                        (wrap32 (Z.shiftl b 16)))
                                 (wrap32 (Z.shiftl d 11)))
                          (wrap32 (Z.shiftl f 8)))
                   (Z.land o 0xFC)) =
  Z.lor (Z.lor (Z.lor (Z.lor (field k m (Z.shiftl 1 31))
                             (field k m (wrap32 (Z.shiftl b 16))))
                      (field k m (wrap32 (Z.shiftl d 11))))
               (field k m (wrap32 (Z.shiftl f 8))))
        (field k m (Z.land o 0xFC)).
Proof. rewrite !field_lor. reflexivity. Qed.

Lemma pci_address_parts (b d f o : Z) :
  0 <= b < 256 -> 0 <= d < 32 -> 0 <= f < 8 -> 0 <= o < 256 ->
  field 31 1 (pci_address b d f o) = 1 /\
  field 16 0xFF (pci_address b d f o) = b /\
  field 11 0x1F (pci_address b d f o) = d /\
  field 8 0x07 (pci_address b d f o) = f /\
  field 0 0xFF (pci_address b d f o) = Z.land o 0xFC.
Proof.
  intros Hb Hd Hf Ho.
  assert (Hw : forall k m x, field k m (wrap32 x) = field k m x).
  { intros. unfold field, wrap32, wrap. rewrite Z.mod_mod by lia. reflexivity. }
  unfold pci_address. rewrite !Hw, !pci_address_field, !Hw.
  assert (Eb31 : field 31 1 (Z.shiftl b 16) = 0) by by_cases_below 256%nat.
  assert (Ed31 : field 31 1 (Z.shiftl d 11) = 0) by by_cases_below 32%nat.
  assert (Ef31 : field 31 1 (Z.shiftl f 8) = 0) by by_cases_below 8%nat.
  assert (Eo31 : field 31 1 (Z.land o 252) = 0) by by_cases_below 256%nat.
  assert (Eb16 : field 16 255 (Z.shiftl b 16) = b) by by_cases_below 256%nat.
  assert (Ed16 : field 16 255 (Z.shiftl d 11) = 0) by by_cases_below 32%nat.
  assert (Ef16 : field 16 255 (Z.shiftl f 8) = 0) by by_cases_below 8%nat.
  assert (Eo16 : field 16 255 (Z.land o 252) = 0) by by_cases_below 256%nat.
  assert (Eb11 : field 11 31 (Z.shiftl b 16) = 0) by by_cases_below 256%nat.
  assert (Ed11 : field 11 31 (Z.shiftl d 11) = d) by by_cases_below 32%nat.
  assert (Ef11 : field 11 31 (Z.shiftl f 8) = 0) by by_cases_below 8%nat.
  assert (Eo11 : field 11 31 (Z.land o 252) = 0) by by_cases_below 256%nat.
  assert (Eb8 : field 8 7 (Z.shiftl b 16) = 0) by by_cases_below 256%nat.
  assert (Ed8 : field 8 7 (Z.shiftl d 11) = 0) by by_cases_below 32%nat.
  assert (Ef8 : field 8 7 (Z.shiftl f 8) = f) by by_cases_below 8%nat.
  assert (Eo8 : field 8 7 (Z.land o 252) = 0) by by_cases_below 256%nat.
  assert (Eb0 : field 0 255 (Z.shiftl b 16) = 0) by by_cases_below 256%nat.
  assert (Ed0 : field 0 255 (Z.shiftl d 11) = 0) by by_cases_below 32%nat.
  assert (Ef0 : field 0 255 (Z.shiftl f 8) = 0) by by_cases_below 8%nat.
  assert (Eo0 : field 0 255 (Z.land o 252) = Z.land o 252)
    by by_cases_below 256%nat.
  rewrite Eb31, Ed31, Ef31, Eo31, Eb16, Ed16, Ef16, Eo16, Eb11, Ed11, Ef11,
    Eo11, Eb8, Ed8, Ef8, Eo8, Eb0, Ed0, Ef0, Eo0.
  change (field 31 1 (Z.shiftl 1 31)) with 1.
  change (field 16 255 (Z.shiftl 1 31)) with 0.
  change (field 11 31 (Z.shiftl 1 31)) with 0.
  change (field 8 7 (Z.shiftl 1 31)) with 0.
  change (field 0 255 (Z.shiftl 1 31)) with 0.
  rewrite !Z.lor_0_r, !Z.lor_0_l. auto.
Qed.

(** X14.  The value [pci_address] writes to the address port carries its
    arguments in separate bit fields: bit 31 is set, bits 16 to 23 hold the
    bus, bits 11 to 15 the slot, bits 8 to 10 the function, and the low byte
    the offset with its two low bits cleared.  Hence two calls select the
    same dword exactly when bus, slot and function agree and the offsets lie
    in the same dword. *)
Theorem pci_address_bit_fields (b d f o b' d' f' o' : Z) :
  0 <= b < 256 -> 0 <= d < 32 -> 0 <= f < 8 -> 0 <= o < 256 ->
  0 <= b' < 256 -> 0 <= d' < 32 -> 0 <= f' < 8 -> 0 <= o' < 256 ->
  let a := pci_address b d f o in
  0 <= a < 2 ^ 32 /\
  Z.shiftr a 31 = 1 /\
  Z.land (Z.shiftr a 16) 0xFF = b /\
  Z.land (Z.shiftr a 11) 0x1F = d /\
  Z.land (Z.shiftr a 8) 0x07 = f /\
  Z.land a 0xFF = 4 * (o / 4) /\
  (a = pci_address b' d' f' o' <->
   b = b' /\ d = d' /\ f = f' /\ o / 4 = o' / 4).
Proof.
  intros Hb Hd Hf Ho Hb' Hd' Hf' Ho' a.
  destruct (pci_address_parts b d f o Hb Hd Hf Ho) as (E31 & E16 & E11 & E8 & E0).
  destruct (pci_address_parts b' d' f' o' Hb' Hd' Hf' Ho')
    as (_ & E16' & E11' & E8' & E0').
  assert (Hr : forall x y z w, 0 <= pci_address x y z w < 2 ^ 32).
  { intros. unfold pci_address, wrap32, wrap. apply Z.mod_pos_bound. lia. }
  assert (Hw : forall k m x y z w,
             field k m (pci_address x y z w)
             = Z.land (Z.shiftr (pci_address x y z w) k) m).
  { intros. unfold field. rewrite wrap32_small by apply Hr. reflexivity. }
  rewrite Hw in E31, E16, E11, E8, E0, E16', E11', E8', E0'.
  rewrite Z.shiftr_0_r in E0, E0'.
  assert (Eo : forall x, 0 <= x < 256 -> Z.land x 0xFC = 4 * (x / 4)).
  { intros x Hx.
    exact (below_eq 256 (fun x => Z.land x 0xFC) (fun x => 4 * (x / 4))
             eq_refl x Hx). }
  fold a in E31, E16, E11, E8, E0.
  split; [apply Hr|].
  split.
  { assert (Hs : 0 <= Z.shiftr a 31 < 2).
    { rewrite Z.shiftr_div_pow2 by lia. specialize (Hr b d f o). fold a in Hr.
      Z.div_mod_to_equations. lia. }
    assert (Hc : Z.shiftr a 31 = 0 \/ Z.shiftr a 31 = 1) by lia.
    destruct Hc as [Hc|Hc]; [|exact Hc].
    rewrite Hc in E31. discriminate E31. }
  split; [exact E16|]. split; [exact E11|]. split; [exact E8|].
  split; [rewrite E0; apply Eo; exact Ho|].
  split.
  - intros Ea. rewrite <- Ea in E16', E11', E8', E0'.
    rewrite E16 in E16'. rewrite E11 in E11'. rewrite E8 in E8'.
    rewrite E0 in E0'. rewrite !Eo in E0' by assumption.
    repeat split; auto. lia.
  - intros (-> & -> & -> & Eq). unfold a, pci_address.
    rewrite !Eo, Eq by assumption. reflexivity.
Qed.

Lemma pci_address_bit_fields_witness :
  let a := pci_address 0 3 0 0x3C in
  0 <= a < 2 ^ 32 /\
  Z.shiftr a 31 = 1 /\
  Z.land (Z.shiftr a 16) 0xFF = 0 /\
  Z.land (Z.shiftr a 11) 0x1F = 3 /\
  Z.land (Z.shiftr a 8) 0x07 = 0 /\
  Z.land a 0xFF = 4 * (0x3C / 4) /\
  (a = pci_address 0 3 0 0x3E <->
   0 = 0 /\ 3 = 3 /\ 0 = 0 /\ 0x3C / 4 = 0x3E / 4).
Proof.
  apply (pci_address_bit_fields 0 3 0 0x3C 0 3 0 0x3E); lia.
Defined.

(** *** Scanning the bus *)

Lemma record_device_fold (l reg : list pci_device_t) :
  (length reg <= 32)%nat ->
  fold_left record_device l reg = reg ++ firstn (32 - length reg) l.
Proof.
  revert reg. induction l as [|x l IH]; intros reg Hlen; cbn [fold_left].
  - rewrite firstn_nil, app_nil_r. reflexivity.
  - unfold record_device at 2. unfold MAX_PCI_DEVICES.
    destruct (Z.ltb_spec (Z.of_nat (length reg)) 32).
    + rewrite IH by (rewrite length_app; cbn; lia).
      rewrite length_app. cbn [length].
      replace (32 - length reg)%nat with (S (32 - (length reg + 1)))%nat by lia.
      cbn [firstn]. rewrite <- app_assoc. reflexivity.
    + rewrite IH by lia.
      replace (32 - length reg)%nat with 0%nat by lia. reflexivity.
Qed.

Lemma func_loop_tail (cs : config_space) (b d : Z) (n : nat) :
  forall (f : Z) (reg : list pci_device_t),
    1 <= f ->
    func_loop cs b d n f reg =
    fold_left record_device
      (map (pci_read_device cs b d)
           (filter (pci_device_exists cs b d)
                   (map Z.of_nat (seq (Z.to_nat f) n))))
      reg.
Proof.
  induction n as [|n IH]; intros f reg Hf; [reflexivity|].
  cbn [func_loop seq map filter]. rewrite Z2Nat.id by lia.
  destruct (Z.eqb_spec f 0); [lia|]. cbn [andb].
  replace (S (Z.to_nat f)) with (Z.to_nat (f + 1)) by lia.
  destruct (pci_device_exists cs b d f); cbn [negb map fold_left];
    apply IH; lia.
Qed.

Lemma func_loop_step (cs : config_space) (b d : Z) (n : nat) (func : Z)
      (reg : list pci_device_t) :
  func_loop cs b d (S n) func reg =
  if negb (pci_device_exists cs b d func) then
    if func =? 0 then reg else func_loop cs b d n (func + 1) reg
  else
    if (func =? 0) && (Z.land (pci_config_read8 cs b d 0 0x0E) 0x80 =? 0)
    then record_device reg (pci_read_device cs b d func)
    else func_loop cs b d n (func + 1)
                   (record_device reg (pci_read_device cs b d func)).
Proof. reflexivity. Qed.

Lemma func_loop_slot (cs : config_space) (b d : Z) (reg : list pci_device_t) :
  func_loop cs b d 8 0 reg =
  fold_left record_device
    (map (pci_read_device cs b d) (slot_functions cs b d)) reg.
Proof.
  rewrite func_loop_step. unfold slot_functions.
  destruct (pci_device_exists cs b d 0); cbn [negb Z.eqb andb];
    [|reflexivity].
  unfold multi_function.
  destruct (Z.land (pci_config_read8 cs b d 0 14) 128 =? 0);
    cbn [negb map fold_left]; [reflexivity|].
  rewrite func_loop_tail by lia. reflexivity.
Qed.

Lemma device_loop_slots (cs : config_space) (b : Z) (n : nat) :
  forall (d : Z) (reg : list pci_device_t),
    0 <= d ->
    device_loop cs b n d reg =
    fold_left record_device
      (flat_map (fun d => map (pci_read_device cs b d) (slot_functions cs b d))
                (map Z.of_nat (seq (Z.to_nat d) n)))
      reg.
Proof.
  induction n as [|n IH]; intros d reg Hd; [reflexivity|].
  cbn [device_loop seq map flat_map]. rewrite Z2Nat.id by lia.
  rewrite fold_left_app, <- func_loop_slot.
  replace (S (Z.to_nat d)) with (Z.to_nat (d + 1)) by lia.
  apply IH. lia.
Qed.

Lemma bus_loop_buses (cs : config_space) (n : nat) :
  forall (b : Z) (reg : list pci_device_t),
    0 <= b ->
    bus_loop cs n b reg =
    fold_left record_device
      (flat_map (fun b =>
         flat_map (fun d => map (pci_read_device cs b d)
                                (slot_functions cs b d))
                  (upto 32))
         (map Z.of_nat (seq (Z.to_nat b) n)))
      reg.
Proof.
  induction n as [|n IH]; intros b reg Hb; [reflexivity|].
  cbn [bus_loop seq map flat_map]. rewrite Z2Nat.id by lia.
  rewrite fold_left_app.
  rewrite (device_loop_slots cs b 32 0 reg) by lia.
  change (map Z.of_nat (seq (Z.to_nat 0) 32)) with (upto 32).
  replace (S (Z.to_nat b)) with (Z.to_nat (b + 1)) by lia.
  apply IH. lia.
Qed.

Lemma pci_enumerate_scan (cs : config_space) :
  pci_enumerate cs = firstn 32 (bus_functions cs).
Proof.
  unfold pci_enumerate. rewrite bus_loop_buses by lia.
  rewrite record_device_fold by (cbn; lia). reflexivity.
Qed.

Lemma upto_range (n : nat) (x : Z) : In x (upto n) -> 0 <= x < Z.of_nat n.
Proof.
  unfold upto. intros H. apply in_map_iff in H.
  destruct H as (k & <- & Hk). apply in_seq in Hk. lia.
Qed.

Lemma slot_functions_spec (cs : config_space) (b d f : Z) :
  In f (slot_functions cs b d) ->
  0 <= f < 8 /\ pci_device_exists cs b d f = true /\
  pci_device_exists cs b d 0 = true /\
  (f <> 0 -> multi_function cs b d = true).
Proof.
  unfold slot_functions.
  destruct (pci_device_exists cs b d 0) eqn:E0; [|intros []].
  intros [<-|Hin]; [repeat split; auto; try lia; congruence|].
  destruct (multi_function cs b d); [|destruct Hin].
  apply filter_In in Hin. destruct Hin as [Hin He].
  repeat split; auto; cbn in Hin; lia.
Qed.

Lemma bus_functions_spec (cs : config_space) (r : pci_device_t) :
  In r (bus_functions cs) ->
  0 <= bus r < 256 /\ 0 <= device r < 32 /\ 0 <= function r < 8 /\
  r = pci_read_device cs (bus r) (device r) (function r) /\
  pci_device_exists cs (bus r) (device r) (function r) = true /\
  pci_device_exists cs (bus r) (device r) 0 = true /\
  (function r <> 0 -> multi_function cs (bus r) (device r) = true).
Proof.
  unfold bus_functions. intros H.
  apply in_flat_map in H. destruct H as (b & Hb & H).
  apply in_flat_map in H. destruct H as (d & Hd & H).
  apply in_map_iff in H. destruct H as (f & <- & Hf).
  apply upto_range in Hb, Hd.
  destruct (slot_functions_spec cs b d f Hf) as (Hr & He & He0 & Hm).
  cbn [pci_read_device bus device function].
  repeat split; auto; lia.
Qed.

Lemma pci_find_device_first (reg : list pci_device_t) (v i : Z) :
  match pci_find_device reg v i with
  | Some r =>
      exists pre post,
        reg = pre ++ r :: post /\ vendor_id r = v /\ device_id r = i /\
        forall x, In x pre -> ~ (vendor_id x = v /\ device_id x = i)
  | None => forall x, In x reg -> ~ (vendor_id x = v /\ device_id x = i)
  end.
Proof.
  induction reg as [|r reg IH]; cbn [pci_find_device]; [intros x []|].
  destruct (Z.eqb_spec (vendor_id r) v) as [Ev|Ev]; cbn [andb].
  - destruct (Z.eqb_spec (device_id r) i) as [Ei|Ei].
    + exists [], reg. split; [reflexivity|]. split; [exact Ev|].
      split; [exact Ei|]. intros x [].
    + destruct (pci_find_device reg v i) as [r'|].
      * destruct IH as (pre & post & -> & Hv & Hi & Hpre).
        exists (r :: pre), post. repeat split; auto.
        intros x [<-|Hx]; [intros [_ ?]; contradiction|auto].
      * intros x [<-|Hx]; [intros [_ ?]; contradiction|auto].
  - destruct (pci_find_device reg v i) as [r'|].
    + destruct IH as (pre & post & -> & Hv & Hi & Hpre).
      exists (r :: pre), post. repeat split; auto.
      intros x [<-|Hx]; [intros [? _]; contradiction|auto].
    + intros x [<-|Hx]; [intros [? _]; contradiction|auto].
Qed.

(** X15.  [pci_enumerate] records, in bus, slot and function order, the
    functions that answer: function 0 of every slot whose vendor ID is not
    0xFFFF and, when that function's header type has the multi-function bit,
    the answering functions 1 to 7 of the slot.  The table holds the first 32
    of them; later ones are dropped without notice. *)
Theorem pci_enumerate_records_bus_functions (cs : config_space) :
  pci_enumerate cs = firstn 32 (bus_functions cs) /\
  pci_get_device_count (pci_enumerate cs) <= MAX_PCI_DEVICES /\
  forall r, In r (pci_enumerate cs) ->
    0 <= bus r < 256 /\ 0 <= device r < 32 /\ 0 <= function r < 8 /\
    r = pci_read_device cs (bus r) (device r) (function r) /\
    vendor_id r <> 0xFFFF.
Proof.
  rewrite pci_enumerate_scan. split; [reflexivity|]. split.
  - unfold pci_get_device_count, MAX_PCI_DEVICES.
    pose proof (firstn_le_length 32 (bus_functions cs)). lia.
  - intros r Hr. apply firstn_In in Hr.
    destruct (bus_functions_spec cs r Hr) as (Hb & Hd & Hf & Er & He & _).
    repeat split; try lia; auto.
    intros Hv. rewrite Er in Hv. cbn [vendor_id pci_read_device] in Hv.
    unfold pci_device_exists in He. rewrite Hv in He. discriminate.
Qed.

(** X16.  What [pci_find_device] returns after [pci_init]: the first
    recorded function, in scan order, whose vendor and device IDs are the
    requested ones, and these IDs are the ones its configuration space
    reports; it reports failure exactly when none of the recorded functions
    has these IDs. *)
Theorem pci_find_device_after_enumerate (cs : config_space) (v i : Z) :
  match pci_find_device (pci_enumerate cs) v i with
  | Some r =>
      (exists pre post,
         firstn 32 (bus_functions cs) = pre ++ r :: post /\
         forall x, In x pre -> ~ (vendor_id x = v /\ device_id x = i)) /\
      pci_config_read16 cs (bus r) (device r) (function r) 0 = v /\
      pci_config_read16 cs (bus r) (device r) (function r) 2 = i /\
      v <> 0xFFFF /\
      0 <= bus r < 256 /\ 0 <= device r < 32 /\ 0 <= function r < 8
  | None =>
      forall x, In x (firstn 32 (bus_functions cs)) ->
                ~ (vendor_id x = v /\ device_id x = i)
  end.
Proof.
  pose proof (pci_find_device_first (pci_enumerate cs) v i) as H.
  rewrite pci_enumerate_scan in *.
  destruct (pci_find_device (firstn 32 (bus_functions cs)) v i) as [r|];
    [|exact H].
  destruct H as (pre & post & E & Hv & Hi & Hpre).
  assert (Hin : In r (bus_functions cs)).
  { apply (firstn_In _ 32). rewrite E. apply in_elt. }
  destruct (bus_functions_spec cs r Hin) as (Hb & Hd & Hf & Er & He & _).
  split; [exists pre, post; auto|].
  assert (Ev : pci_config_read16 cs (bus r) (device r) (function r) 0 = v).
  { rewrite <- Hv. rewrite Er at 4. reflexivity. }
  assert (Ei : pci_config_read16 cs (bus r) (device r) (function r) 2 = i).
  { rewrite <- Hi. rewrite Er at 4. reflexivity. }
  repeat split; auto; try lia.
  intros Hff. unfold pci_device_exists in He.
  rewrite Ev, Hff in He. discriminate.
Qed.

End PciProofs.

(** ** ATA disk driver *)

Module AtaProofs.

Import Ata.

Lemma extends_refl (st : ata_state) : extends st st [].
Proof. unfold extends. rewrite app_nil_r. auto. Qed.

Lemma extends_trans (st st1 st2 : ata_state) (l1 l2 : list io_event) :
  extends st st1 l1 -> extends st1 st2 l2 -> extends st st2 (l1 ++ l2).
Proof.
  unfold extends. intros (A1 & B1 & C1 & D1) (A2 & B2 & C2 & D2).
  rewrite D2, D1, app_assoc. repeat split; congruence.
Qed.

Lemma extends_log (e : io_event) (st : ata_state) :
  extends st (log_io e st) [e].
Proof. unfold extends, log_io. cbn. auto. Qed.

Lemma outputs_app (l l' : list io_event) :
  outputs (l ++ l') = outputs l ++ outputs l'.
Proof. apply filter_app. Qed.

Lemma words_read_app (port : Z) (l l' : list io_event) :
  words_read port (l ++ l') = words_read port l ++ words_read port l'.
Proof.
  induction l as [|e l IH]; [reflexivity|].
  destruct e; cbn [app words_read]; auto.
  destruct (port0 =? port); cbn [app]; now rewrite IH.
Qed.

Lemma words_written_app (port : Z) (l l' : list io_event) :
  words_written port (l ++ l') =
  words_written port l ++ words_written port l'.
Proof.
  induction l as [|e l IH]; [reflexivity|].
  destruct e; cbn [app words_written]; auto.
  destruct (port0 =? port); cbn [app]; now rewrite IH.
Qed.

Lemma wait_polls_succ : WAIT_POLLS = S (Z.to_nat 99999).
Proof. unfold WAIT_POLLS. lia. Qed.

Section WithDevice.

Variable dev : device.

(** *** A drive that stays busy *)

Lemma wait_ready_busy (n : nat) (st : ata_state) :
  0 <= ata_io_base st -> ata_io_base st + 7 < 2 ^ 16 ->
  always_busy dev (ata_io_base st) ->
  exists st' l,
    wait_ready_loop dev n st = (-1, st') /\ extends st st' l /\
    length l = n /\ outputs l = [] /\
    words_read (ata_io_base st) l = [].
Proof.
  intros Hb0 Hb1 Hbusy. revert st Hb0 Hb1 Hbusy.
  induction n as [|n IH]; intros st Hb0 Hb1 Hbusy.
  - exists st, []. cbn. repeat split; auto. apply extends_refl.
  - cbn [wait_ready_loop]. unfold inb.
    rewrite (wrap16_small (ata_io_base st + ATA_REG_STATUS))
      by (unfold ATA_REG_STATUS; lia).
    set (v := wrap8 (dev (io_log st) (ata_io_base st + ATA_REG_STATUS))).
    destruct (Z.eqb_spec (Z.land v ATA_SR_BSY) 0) as [E|E];
      [destruct (Hbusy (io_log st) E)|].
    set (st1 := log_io (IoIn8 (ata_io_base st + ATA_REG_STATUS) v) st).
    destruct (IH st1) as (st' & l & Er & Hext & Hlen & Hout & Hw); auto.
    exists st', (IoIn8 (ata_io_base st + ATA_REG_STATUS) v :: l).
    split; [exact Er|]. split.
    + exact (extends_trans _ _ _ _ _ (extends_log _ st) Hext).
    + cbn [length outputs filter is_output words_read].
      repeat split; auto.
Qed.

(** *** A drive that answers at once *)

Lemma inb_status_ready (st : ata_state) :
  0 <= ata_io_base st -> ata_io_base st + 7 < 2 ^ 16 ->
  always_ready dev (ata_io_base st) ->
  exists v,
    inb dev (ata_io_base st + ATA_REG_STATUS) st =
      (v, log_io (IoIn8 (ata_io_base st + ATA_REG_STATUS) v) st) /\
    Z.land v ATA_SR_BSY = 0 /\ Z.land v ATA_SR_ERR = 0 /\
    Z.land v ATA_SR_DRQ <> 0.
Proof.
  intros Hb0 Hb1 Hr. unfold inb.
  rewrite (wrap16_small (ata_io_base st + ATA_REG_STATUS))
    by (unfold ATA_REG_STATUS; lia).
  eexists. split; [reflexivity|]. apply Hr.
Qed.

Lemma wait_ready_ready (st : ata_state) :
  0 <= ata_io_base st -> ata_io_base st + 7 < 2 ^ 16 ->
  always_ready dev (ata_io_base st) ->
  exists st' v,
    ata_wait_ready dev st = (0, st') /\
    extends st st' [IoIn8 (ata_io_base st + ATA_REG_STATUS) v].
Proof.
  intros Hb0 Hb1 Hr.
  destruct (inb_status_ready st Hb0 Hb1 Hr) as (v & Ein & Hbsy & _).
  unfold ata_wait_ready. rewrite wait_polls_succ. cbn [wait_ready_loop].
  rewrite Ein, Hbsy. cbn [Z.eqb].
  eexists. exists v. split; [reflexivity|]. apply extends_log.
Qed.

Lemma wait_drq_ready (st : ata_state) :
  0 <= ata_io_base st -> ata_io_base st + 7 < 2 ^ 16 ->
  always_ready dev (ata_io_base st) ->
  exists st' v,
    ata_wait_drq dev st = (0, st') /\
    extends st st' [IoIn8 (ata_io_base st + ATA_REG_STATUS) v].
Proof.
  intros Hb0 Hb1 Hr.
  destruct (inb_status_ready st Hb0 Hb1 Hr) as (v & Ein & _ & Herr & Hdrq).
  unfold ata_wait_drq. rewrite wait_polls_succ. cbn [wait_drq_loop].
  rewrite Ein, Herr. cbn [Z.eqb negb].
  destruct (Z.eqb_spec (Z.land v ATA_SR_DRQ) 0); [contradiction|]. cbn [negb].
  eexists. exists v. split; [reflexivity|]. apply extends_log.
Qed.

Lemma read_words_log (n : nat) :
  forall (buf : list Z) (st : ata_state),
    0 <= ata_io_base st -> ata_io_base st + 7 < 2 ^ 16 ->
    exists ws st',
      read_words dev n buf st = (buf ++ ws, st') /\
      extends st st' (map (IoIn16 (ata_io_base st + ATA_REG_DATA)) ws) /\
      length ws = n.
Proof.
  induction n as [|n IH]; intros buf st Hb0 Hb1.
  - exists [], st. cbn. rewrite app_nil_r. repeat split; auto.
    apply extends_refl.
  - cbn [read_words]. unfold inw.
    rewrite (wrap16_small (ata_io_base st + ATA_REG_DATA))
      by (unfold ATA_REG_DATA; lia).
    set (w := wrap16 (dev (io_log st) (ata_io_base st + ATA_REG_DATA))).
    set (st1 := log_io (IoIn16 (ata_io_base st + ATA_REG_DATA) w) st).
    destruct (IH (buf ++ [w]) st1) as (ws & st' & Er & Hext & Hlen); auto.
    exists (w :: ws), st'. rewrite Er, <- app_assoc.
    split; [reflexivity|]. split; [|cbn; lia].
    exact (extends_trans _ _ _ _ _ (extends_log _ st) Hext).
Qed.

Lemma data_reads (port : Z) (ws : list Z) :
  outputs (map (IoIn16 port) ws) = [] /\
  words_read port (map (IoIn16 port) ws) = ws.
Proof.
  induction ws as [|w ws [IH1 IH2]]; [split; reflexivity|].
  cbn [map outputs filter is_output words_read]. rewrite Z.eqb_refl.
  split; [exact IH1|]. f_equal. exact IH2.
Qed.

Lemma read_sector_loop_ready (n : nat) :
  forall (buf : list Z) (st : ata_state),
    0 <= ata_io_base st -> ata_io_base st + 7 < 2 ^ 16 ->
    always_ready dev (ata_io_base st) ->
    exists ws st' l,
      read_sector_loop dev n buf st = (0, buf ++ ws, st') /\
      extends st st' l /\ outputs l = [] /\
      words_read (ata_io_base st + ATA_REG_DATA) l = ws /\
      length ws = (256 * n)%nat.
Proof.
  induction n as [|n IH]; intros buf st Hb0 Hb1 Hr.
  - exists [], st, []. cbn [read_sector_loop]. rewrite app_nil_r.
    repeat split; auto. apply extends_refl.
  - cbn [read_sector_loop].
    destruct (wait_drq_ready st Hb0 Hb1 Hr) as (st1 & v & Ew & Hext1).
    rewrite Ew. cbn [Z.ltb Z.compare].
    pose proof Hext1 as (Eb1 & _).
    destruct (read_words_log 256 buf st1) as (ws1 & st2 & Er & Hext2 & Hlen1);
      try (rewrite Eb1; assumption).
    rewrite Er. pose proof Hext2 as (Eb2 & _).
    destruct (IH (buf ++ ws1) st2) as (ws2 & st' & l & Eloop & Hext3 & Hout &
                                       Hwords & Hlen2);
      try (rewrite Eb2, Eb1; assumption).
    rewrite Eloop, <- app_assoc.
    eexists. exists st'. eexists. split; [reflexivity|].
    split; [exact (extends_trans _ _ _ _ _
                     (extends_trans _ _ _ _ _ Hext1 Hext2) Hext3)|].
    rewrite Eb2, Eb1 in Hwords. rewrite Eb1.
    destruct (data_reads (ata_io_base st + ATA_REG_DATA) ws1) as [Ho Hw].
    rewrite !outputs_app, !words_read_app, Ho, Hw, Hout, Hwords.
    cbn [outputs filter is_output words_read app].
    repeat split; auto. rewrite length_app. lia.
Qed.

Lemma drive_register (x : Z) :
  0 <= x < 16 -> wrap8 (Z.lor (Z.lor ATA_DRIVE_MASTER 0x40) x) = 0xE0 + x.
Proof.
  intros Hx.
  apply Z.eqb_eq.
  exact (forall_below 16
           (fun x => wrap8 (Z.lor (Z.lor ATA_DRIVE_MASTER 0x40) x) =? 0xE0 + x)
           eq_refl x Hx).
Qed.

Lemma select_sectors_log (lba count cmd : Z) (st : ata_state) :
  0 <= ata_io_base st -> ata_io_base st + 7 < 2 ^ 16 ->
  0 <= lba -> 0 <= count < 256 -> 0 <= cmd < 256 ->
  extends st (select_sectors lba count cmd st)
          (transfer_setup (ata_io_base st) lba count cmd).
Proof.
  intros Hb0 Hb1 Hlba Hcount Hcmd.
  unfold extends, select_sectors, io_wait, outb, log_io, transfer_setup.
  cbn [ata_io_base ata_ctrl_base ata_drive_present io_log].
  unfold ATA_REG_DRIVE, ATA_REG_SECCOUNT, ATA_REG_LBA_LO, ATA_REG_LBA_MID,
    ATA_REG_LBA_HI, ATA_REG_COMMAND.
  rewrite !(wrap16_small (ata_io_base st + _)) by lia.
  change (wrap16 128) with 128. change (wrap8 0) with 0.
  change 0xFF with (Z.ones 8). change 0x0F with (Z.ones 4).
  rewrite !Z.land_ones, !Z.shiftr_div_pow2 by lia.
  change (2 ^ 4) with 16. change (2 ^ 8) with 256.
  rewrite drive_register by (apply Z.mod_pos_bound; lia).
  unfold wrap8, wrap. change (2 ^ 8) with 256.
  rewrite !Z.mod_mod by lia.
  rewrite (Z.mod_small count), (Z.mod_small cmd) by lia.
  rewrite <- !app_assoc. repeat split; reflexivity.
Qed.

Lemma transfer_setup_outputs (base lba count cmd : Z) :
  outputs (transfer_setup base lba count cmd)
  = transfer_setup base lba count cmd /\
  words_read base (transfer_setup base lba count cmd) = [] /\
  words_written base (transfer_setup base lba count cmd) = [].
Proof. repeat split; reflexivity. Qed.

(** *** Sending sectors *)

Lemma write_words_log (data : list Z) (sector : nat) (n : nat) :
  forall (i : nat) (st : ata_state),
    0 <= ata_io_base st -> ata_io_base st + 7 < 2 ^ 16 ->
    extends st
      (write_words n data (Z.of_nat sector) (Z.of_nat i) st)
      (map (fun i => IoOut16 (ata_io_base st + ATA_REG_DATA)
                             (wrap16 (nth (sector * 256 + i) data 0)))
           (seq i n)).
Proof.
  induction n as [|n IH]; intros i st Hb0 Hb1.
  - apply extends_refl.
  - cbn [write_words seq map]. unfold outw.
    rewrite (wrap16_small (ata_io_base st + ATA_REG_DATA))
      by (unfold ATA_REG_DATA; lia).
    replace (Z.to_nat (Z.of_nat sector * 256 + Z.of_nat i))
      with (sector * 256 + i)%nat by lia.
    replace (Z.of_nat i + 1) with (Z.of_nat (S i)) by lia.
    match goal with |- extends _ (write_words _ _ _ _ ?s) _ =>
      set (st1 := s) end.
    exact (extends_trans _ _ _ [_] _ (extends_log _ st) (IH (S i) st1 Hb0 Hb1)).
Qed.

Lemma write_sector_loop_ready (data : list Z) (n : nat) :
  forall (k : nat) (st : ata_state),
    0 <= ata_io_base st -> ata_io_base st + 7 < 2 ^ 16 ->
    always_ready dev (ata_io_base st) ->
    exists st' l,
      write_sector_loop dev n data (Z.of_nat k) st = (0, st') /\
      extends st st' l /\
      outputs l = flat_map (sector_writes (ata_io_base st) data) (seq k n) /\
      words_read (ata_io_base st + ATA_REG_DATA) l = [].
Proof.
  induction n as [|n IH]; intros k st Hb0 Hb1 Hr.
  - cbn [write_sector_loop seq flat_map].
    destruct (wait_ready_ready st Hb0 Hb1 Hr) as (st1 & v & Ew & Hext).
    rewrite Ew. cbn [snd]. exists st1. eexists.
    split; [reflexivity|]. split; [exact Hext|]. split; reflexivity.
  - cbn [write_sector_loop seq flat_map].
    destruct (wait_drq_ready st Hb0 Hb1 Hr) as (st1 & v & Ew & Hext1).
    rewrite Ew. cbn [Z.ltb Z.compare].
    pose proof Hext1 as (Eb1 & _).
    pose proof (write_words_log data k 256 0 st1
                  ltac:(rewrite Eb1; assumption)
                  ltac:(rewrite Eb1; assumption)) as Hext2.
    cbn [Z.of_nat] in Hext2.
    set (st2 := write_words 256 data (Z.of_nat k) 0 st1) in *.
    pose proof Hext2 as (Eb2 & _).
    pose proof (extends_log (IoOut8 (wrap16 128) (wrap8 0)) st2) as Hext3.
    change (log_io (IoOut8 (wrap16 128) (wrap8 0)) st2) with (io_wait st2)
      in Hext3.
    set (st3 := io_wait st2) in *.
    pose proof Hext3 as (Eb3 & _).
    replace (Z.of_nat k + 1) with (Z.of_nat (S k)) by lia.
    destruct (IH (S k) st3) as (st' & l & Eloop & Hext4 & Hout & Hwords);
      try (rewrite Eb3, Eb2, Eb1; assumption).
    rewrite Eloop. exists st'. eexists. split; [reflexivity|].
    split; [exact (extends_trans _ _ _ _ _
                     (extends_trans _ _ _ _ _
                        (extends_trans _ _ _ _ _ Hext1 Hext2) Hext3) Hext4)|].
    rewrite Eb3, Eb2, Eb1 in Hout, Hwords. rewrite Eb1.
    rewrite !outputs_app, !words_read_app, Hout, Hwords.
    unfold sector_writes at 2.
    assert (Hmap : forall (f : nat -> Z) (l0 : list nat) p q,
               outputs (map (fun i => IoOut16 p (f i)) l0)
               = map (fun i => IoOut16 p (f i)) l0 /\
               words_read q (map (fun i => IoOut16 p (f i)) l0) = []).
    { intros f l0 p q. induction l0 as [|a l0 [I1 I2]]; [split; reflexivity|].
      cbn [map outputs filter is_output words_read].
      split; [f_equal; exact I1|exact I2]. }
    destruct (Hmap (fun i => wrap16 (nth (k * 256 + i) data 0)) (seq 0 256)
                   (ata_io_base st + ATA_REG_DATA)
                   (ata_io_base st + ATA_REG_DATA)) as [Ho Hw].
    rewrite Ho, Hw. cbn [outputs filter is_output words_read app].
    rewrite <- app_assoc. split; reflexivity.
Qed.

End WithDevice.

(** X17.  When neither channel has a controller (both status ports read
    0xFF), [ata_init] touches the ports only for those two reads and leaves
    the drive marked absent; every later [ata_read_sectors] and
    [ata_write_sectors] then fails with -1 without any port access. *)
Theorem ata_init_without_controller (dev : device) (st : ata_state) :
  no_controller dev ->
  let st' := ata_init dev st in
  ata_is_present st' = 0 /\
  io_log st' = io_log st ++ [IoIn8 0x1F7 0xFF; IoIn8 0x177 0xFF] /\
  (forall lba count, ata_read_sectors dev lba count st' = (-1, [], st')) /\
  (forall lba count data,
     ata_write_sectors dev lba count data st' = (-1, st')).
Proof.
  intros Hno. unfold ata_init, inb, set_bases, set_present, log_io.
  cbn [ata_io_base ata_ctrl_base ata_drive_present io_log].
  change (wrap16 (ATA_PRIMARY_IO + ATA_REG_STATUS)) with 0x1F7.
  change (wrap16 (ATA_SECONDARY_IO + ATA_REG_STATUS)) with 0x177.
  destruct (Hno (io_log st)) as [E1 _].
  change (ATA_PRIMARY_IO + ATA_REG_STATUS) with 0x1F7 in E1.
  rewrite E1. cbn [Z.eqb Pos.eqb].
  destruct (Hno (io_log st ++ [IoIn8 0x1F7 0xFF])) as [_ E2].
  change (ATA_SECONDARY_IO + ATA_REG_STATUS) with 0x177 in E2.
  cbn [fst snd ata_io_base ata_ctrl_base ata_drive_present io_log].
  rewrite E2. cbn [Z.eqb Pos.eqb negb fst snd].
  unfold ata_is_present, ata_read_sectors, ata_write_sectors.
  cbn [ata_drive_present io_log Z.eqb]. rewrite <- app_assoc.
  repeat split; reflexivity.
Qed.

Lemma ata_init_without_controller_witness :
  let st' := ata_init floating_bus boot_state in
  ata_is_present st' = 0 /\
  io_log st' = io_log boot_state ++ [IoIn8 0x1F7 0xFF; IoIn8 0x177 0xFF] /\
  (forall lba count,
     ata_read_sectors floating_bus lba count st' = (-1, [], st')) /\
  (forall lba count data,
     ata_write_sectors floating_bus lba count data st' = (-1, st')).
Proof.
  apply (ata_init_without_controller floating_bus boot_state).
  intros l. split; reflexivity.
Defined.

(** X18.  A drive that never drops BSY makes [ata_read_sectors] and
    [ata_write_sectors] give up with -1 after exactly 100000 reads of the
    status port, before any register has been written: no command reaches
    the drive and no data is transferred. *)
Theorem ata_transfer_times_out_on_busy_drive (dev : device) (st : ata_state)
        (lba count : Z) (data : list Z) :
  ata_drive_present st <> 0 ->
  0 <= ata_io_base st -> ata_io_base st + 7 < 2 ^ 16 ->
  always_busy dev (ata_io_base st) ->
  exists st' l,
    ata_read_sectors dev lba count st = (-1, [], st') /\
    ata_write_sectors dev lba count data st = (-1, st') /\
    extends st st' l /\ length l = Z.to_nat 100000 /\ outputs l = [].
Proof.
  intros Hp Hb0 Hb1 Hbusy.
  destruct (wait_ready_busy dev WAIT_POLLS st Hb0 Hb1 Hbusy)
    as (st' & l & Ew & Hext & Hlen & Hout & _).
  exists st', l. unfold ata_read_sectors, ata_write_sectors, ata_wait_ready.
  destruct (Z.eqb_spec (ata_drive_present st) 0); [contradiction|].
  rewrite Ew. cbn [Z.ltb Z.compare]. repeat split; auto; apply Hext.
Qed.

Lemma ata_transfer_times_out_on_busy_drive_witness :
  exists st' l,
    ata_read_sectors busy_drive 0 1 ready_state = (-1, [], st') /\
    ata_write_sectors busy_drive 0 1 [] ready_state = (-1, st') /\
    extends ready_state st' l /\ length l = Z.to_nat 100000 /\ outputs l = [].
Proof.
  apply (ata_transfer_times_out_on_busy_drive busy_drive ready_state 0 1 []).
  - discriminate.
  - vm_compute. discriminate.
  - reflexivity.
  - intros l. vm_compute. discriminate.
Defined.

(** X19.  [ata_read_sectors] on a drive that answers every poll at once
    returns 0.  The registers it writes are, in order, drive/head, sector
    count, the three address bytes and the READ command 0x20; they carry
    [lba mod 2^28], the top four bits of the 32-bit address being dropped,
    and a count of 0 is sent as 1.  The caller's buffer receives exactly 256
    words per sector: the words the data port delivered, in order. *)
Theorem ata_read_sectors_on_ready_drive (dev : device) (st : ata_state)
        (lba count : Z) :
  ata_drive_present st <> 0 ->
  0 <= ata_io_base st -> ata_io_base st + 7 < 2 ^ 16 ->
  always_ready dev (ata_io_base st) ->
  0 <= lba < 2 ^ 32 -> 0 <= count < 256 ->
  let n := if count =? 0 then 1 else count in
  let base := ata_io_base st in
  exists buf st' l,
    ata_read_sectors dev lba count st = (0, buf, st') /\
    extends st st' l /\
    outputs l = transfer_setup base lba n ATA_CMD_READ_PIO /\
    buf = words_read (base + ATA_REG_DATA) l /\
    Z.of_nat (length buf) = 256 * n /\
    ((lba / 2 ^ 24) mod 16) * 2 ^ 24 + ((lba / 2 ^ 16) mod 256) * 2 ^ 16 +
    ((lba / 2 ^ 8) mod 256) * 2 ^ 8 + lba mod 256 = lba mod 2 ^ 28.
Proof.
  intros Hp Hb0 Hb1 Hr Hlba Hcount n base.
  assert (Hn : 0 < n < 256) by (unfold n; destruct (Z.eqb_spec count 0); lia).
  unfold ata_read_sectors.
  destruct (Z.eqb_spec (ata_drive_present st) 0); [contradiction|].
  fold n.
  destruct (wait_ready_ready dev st Hb0 Hb1 Hr) as (st1 & v & Ew & Hext1).
  rewrite Ew. cbn [Z.ltb Z.compare].
  pose proof Hext1 as (Eb1 & _).
  pose proof (select_sectors_log lba n ATA_CMD_READ_PIO st1
                ltac:(rewrite Eb1; assumption)
                ltac:(rewrite Eb1; assumption)
                ltac:(lia) ltac:(lia) ltac:(unfold ATA_CMD_READ_PIO; lia))
    as Hext2.
  set (st2 := select_sectors lba n ATA_CMD_READ_PIO st1) in *.
  pose proof Hext2 as (Eb2 & _).
  destruct (read_sector_loop_ready dev (Z.to_nat n) [] st2)
    as (ws & st' & l & Eloop & Hext3 & Hout & Hwords & Hlen);
    try (rewrite Eb2, Eb1; assumption).
  rewrite Eloop. cbn [app].
  exists ws, st'. eexists. split; [reflexivity|].
  split; [exact (extends_trans _ _ _ _ _
                   (extends_trans _ _ _ _ _ Hext1 Hext2) Hext3)|].
  rewrite Eb2, Eb1 in Hwords. rewrite Eb1.
  destruct (transfer_setup_outputs (ata_io_base st) lba n ATA_CMD_READ_PIO)
    as (Ho & Hw & _).
  rewrite !outputs_app, !words_read_app, Hout, Ho.
  cbn [outputs filter is_output words_read app]. rewrite app_nil_r.
  split; [reflexivity|]. split.
  - unfold base. symmetry.
    assert (Hw' : words_read (ata_io_base st + ATA_REG_DATA)
                    (transfer_setup (ata_io_base st) lba n ATA_CMD_READ_PIO)
                  = []) by reflexivity.
    rewrite Hw'. exact Hwords.
  - split; [lia|]. Z.div_mod_to_equations. lia.
Qed.

Lemma ata_read_sectors_on_ready_drive_witness :
  exists buf st' l,
    ata_read_sectors ready_drive 0x12345678 0 ready_state = (0, buf, st') /\
    extends ready_state st' l /\
    outputs l = transfer_setup 0x1F0 0x12345678 1 ATA_CMD_READ_PIO /\
    buf = words_read (0x1F0 + ATA_REG_DATA) l /\
    Z.of_nat (length buf) = 256 * 1 /\
    ((0x12345678 / 2 ^ 24) mod 16) * 2 ^ 24 +
    ((0x12345678 / 2 ^ 16) mod 256) * 2 ^ 16 +
    ((0x12345678 / 2 ^ 8) mod 256) * 2 ^ 8 + 0x12345678 mod 256
    = 0x12345678 mod 2 ^ 28.
Proof.
  apply (ata_read_sectors_on_ready_drive ready_drive ready_state 0x12345678 0).
  - discriminate.
  - vm_compute. discriminate.
  - reflexivity.
  - intros l. vm_compute. repeat split; discriminate.
  - lia.
  - lia.
Defined.

(** X20.  [ata_write_sectors] on a drive that answers every poll at once
    returns 0 after writing the transfer registers with the WRITE command
    0x30 and then, sector by sector, the 256 words of the sector to the data
    port in buffer order, each sector followed by the write to port 0x80;
    it reads no data. *)
Theorem ata_write_sectors_on_ready_drive (dev : device) (st : ata_state)
        (lba count : Z) (data : list Z) :
  ata_drive_present st <> 0 ->
  0 <= ata_io_base st -> ata_io_base st + 7 < 2 ^ 16 ->
  always_ready dev (ata_io_base st) ->
  0 <= lba < 2 ^ 32 -> 0 <= count < 256 ->
  let n := if count =? 0 then 1 else count in
  let base := ata_io_base st in
  exists st' l,
    ata_write_sectors dev lba count data st = (0, st') /\
    extends st st' l /\
    outputs l =
      transfer_setup base lba n ATA_CMD_WRITE_PIO ++
      flat_map (sector_writes base data) (seq 0 (Z.to_nat n)) /\
    words_read (base + ATA_REG_DATA) l = [].
Proof.
  intros Hp Hb0 Hb1 Hr Hlba Hcount n base.
  assert (Hn : 0 < n < 256) by (unfold n; destruct (Z.eqb_spec count 0); lia).
  unfold ata_write_sectors.
  destruct (Z.eqb_spec (ata_drive_present st) 0); [contradiction|].
  fold n.
  destruct (wait_ready_ready dev st Hb0 Hb1 Hr) as (st1 & v & Ew & Hext1).
  rewrite Ew. cbn [Z.ltb Z.compare].
  pose proof Hext1 as (Eb1 & _).
  pose proof (select_sectors_log lba n ATA_CMD_WRITE_PIO st1
                ltac:(rewrite Eb1; assumption)
                ltac:(rewrite Eb1; assumption)
                ltac:(lia) ltac:(lia) ltac:(unfold ATA_CMD_WRITE_PIO; lia))
    as Hext2.
  set (st2 := select_sectors lba n ATA_CMD_WRITE_PIO st1) in *.
  pose proof Hext2 as (Eb2 & _).
  destruct (write_sector_loop_ready dev data (Z.to_nat n) 0 st2)
    as (st' & l & Eloop & Hext3 & Hout & Hwords);
    try (rewrite Eb2, Eb1; assumption).
  cbn [Z.of_nat] in Eloop. rewrite Eloop.
  exists st'. eexists. split; [reflexivity|].
  split; [exact (extends_trans _ _ _ _ _
                   (extends_trans _ _ _ _ _ Hext1 Hext2) Hext3)|].
  rewrite Eb2, Eb1 in Hout, Hwords. rewrite Eb1. unfold base.
  rewrite !outputs_app, !words_read_app, Hout, Hwords.
  split; reflexivity.
Qed.

Lemma ata_write_sectors_on_ready_drive_witness :
  exists st' l,
    ata_write_sectors ready_drive 7 1 (repeat 0xABCD 256) ready_state
    = (0, st') /\
    extends ready_state st' l /\
    outputs l =
      transfer_setup 0x1F0 7 1 ATA_CMD_WRITE_PIO ++
      flat_map (sector_writes 0x1F0 (repeat 0xABCD 256)) (seq 0 (Z.to_nat 1)) /\
    words_read (0x1F0 + ATA_REG_DATA) l = [].
Proof.
  apply (ata_write_sectors_on_ready_drive ready_drive ready_state 7 1
           (repeat 0xABCD 256)).
  - discriminate.
  - vm_compute. discriminate.
  - reflexivity.
  - intros l. vm_compute. repeat split; discriminate.
  - lia.
  - lia.
Defined.

End AtaProofs.

(** ** Interrupt descriptor table *)

Module IdtProofs.

Import Idt.

Lemma gate_set_same (idt : list idt_entry_t) (i h s a : Z) :
  0 <= i < Z.of_nat (length idt) ->
  gate_at (idt_set_entry idt i h s a) i =
  mk_idt_entry (Z.land h 0xFFFF) (wrap16 s) 0 (wrap8 a)
               (Z.land (Z.shiftr h 16) 0xFFFF)
               (Z.land (Z.shiftr h 32) 0xFFFFFFFF) 0.
Proof.
  intros Hi. unfold gate_at, idt_set_entry.
  destruct (Z.ltb_spec i 0); [lia|].
  apply nth_list_set_same. lia.
Qed.

Lemma gate_set_other (idt : list idt_entry_t) (i j h s a : Z) :
  0 <= j -> j <> i ->
  gate_at (idt_set_entry idt i h s a) j = gate_at idt j.
Proof.
  intros Hj Hne. unfold gate_at, idt_set_entry.
  destruct (Z.ltb_spec i 0); [reflexivity|].
  apply nth_list_set_other. lia.
Qed.

Lemma idt_set_entry_length (idt : list idt_entry_t) (i h s a : Z) :
  length (idt_set_entry idt i h s a) = length idt.
Proof.
  unfold idt_set_entry. destruct (i <? 0); [reflexivity|].
  apply list_set_length.
Qed.

Lemma offset_split (h : Z) :
  0 <= h < 2 ^ 64 ->
  Z.land h 0xFFFF + 2 ^ 16 * Z.land (Z.shiftr h 16) 0xFFFF +
  2 ^ 32 * Z.land (Z.shiftr h 32) 0xFFFFFFFF = h.
Proof.
  intros Hh.
  change 0xFFFF with (Z.ones 16). change 0xFFFFFFFF with (Z.ones 32).
  rewrite !Z.land_ones, !Z.shiftr_div_pow2 by lia.
  change (2 ^ 16) with 65536. change (2 ^ 32) with 4294967296.
  change (2 ^ 64) with 18446744073709551616 in Hh.
  Z.div_mod_to_equations. lia.
Qed.

Lemma clear_entries_gates (n : nat) :
  forall (i : Z) (idt : list idt_entry_t),
    0 <= i -> i + Z.of_nat n <= Z.of_nat (length idt) ->
    length (clear_entries n i idt) = length idt /\
    forall j, 0 <= j ->
      gate_at (clear_entries n i idt) j =
      if (i <=? j) && (j <? i + Z.of_nat n) then null_entry
      else gate_at idt j.
Proof.
  induction n as [|n IH]; intros i idt Hi Hlen.
  - split; [reflexivity|]. intros j Hj. cbn [clear_entries].
    destruct (Z.leb_spec i j), (Z.ltb_spec j (i + Z.of_nat 0));
      cbn [andb]; auto; lia.
  - cbn [clear_entries].
    destruct (IH (i + 1) (idt_set_entry idt i 0 0 0)) as [Hl Hg];
      rewrite ?idt_set_entry_length; try lia.
    split; [rewrite Hl; apply idt_set_entry_length|].
    intros j Hj. rewrite Hg by exact Hj.
    destruct (Z.eq_dec j i) as [->|Hne].
    + rewrite gate_set_same by lia.
      destruct (Z.leb_spec (i + 1) i), (Z.leb_spec i i),
        (Z.ltb_spec i (i + Z.of_nat (S n))); cbn [andb]; try lia.
      reflexivity.
    + rewrite gate_set_other by assumption.
      destruct (Z.leb_spec (i + 1) j), (Z.ltb_spec j (i + 1 + Z.of_nat n)),
        (Z.leb_spec i j), (Z.ltb_spec j (i + Z.of_nat (S n)));
        cbn [andb]; auto; lia.
Qed.

Lemma install_stubs_gates (stub : Z -> Z) (n : nat) :
  forall (v : Z) (idt : list idt_entry_t),
    0 <= v -> v + Z.of_nat n <= Z.of_nat (length idt) ->
    forall j, 0 <= j ->
      gate_at (install_stubs stub n v idt) j =
      if (v <=? j) && (j <? v + Z.of_nat n)
      then gate_at (idt_set_entry idt j (stub j) KERNEL_CS INT_GATE) j
      else gate_at idt j.
Proof.
  induction n as [|n IH]; intros v idt Hv Hlen j Hj.
  - cbn [install_stubs].
    destruct (Z.leb_spec v j), (Z.ltb_spec j (v + Z.of_nat 0));
      cbn [andb]; auto; lia.
  - cbn [install_stubs].
    rewrite IH by (rewrite ?idt_set_entry_length; lia).
    destruct (Z.eq_dec j v) as [->|Hne].
    + destruct (Z.leb_spec (v + 1) v), (Z.leb_spec v v),
        (Z.ltb_spec v (v + Z.of_nat (S n))); cbn [andb]; try lia.
      reflexivity.
    + destruct (Z.leb_spec (v + 1) j), (Z.ltb_spec j (v + 1 + Z.of_nat n)),
        (Z.leb_spec v j), (Z.ltb_spec j (v + Z.of_nat (S n)));
        cbn [andb]; try lia;
        try (apply gate_set_other; assumption).
      rewrite !gate_set_same by (rewrite ?idt_set_entry_length; lia).
      reflexivity.
Qed.

(** X21.  [idt_set_entry] stores a gate from which the processor reads back
    the handler address: the three offset fields recombine to the 64-bit
    address, selector and type are the ones given, IST and the reserved
    word are zero; the other gates of the table are untouched. *)
Theorem idt_set_entry_gate (idt : list idt_entry_t) (index handler sel attr : Z) :
  0 <= index < Z.of_nat (length idt) ->
  0 <= handler < 2 ^ 64 -> 0 <= sel < 2 ^ 16 -> 0 <= attr < 2 ^ 8 ->
  let idt' := idt_set_entry idt index handler sel attr in
  let g := gate_at idt' index in
  gate_offset g = handler /\ selector g = sel /\ type_attr g = attr /\
  ist g = 0 /\ reserved g = 0 /\
  0 <= offset_low g < 2 ^ 16 /\ 0 <= offset_mid g < 2 ^ 16 /\
  0 <= offset_high g < 2 ^ 32 /\
  length idt' = length idt /\
  forall j, 0 <= j -> j <> index -> gate_at idt' j = gate_at idt j.
Proof.
  intros Hi Hh Hs Ha idt' g. unfold g, idt'.
  rewrite gate_set_same by exact Hi.
  unfold gate_offset.
  cbn [offset_low offset_mid offset_high selector type_attr ist reserved].
  split; [apply offset_split; exact Hh|].
  split; [apply wrap16_small; exact Hs|].
  split; [unfold wrap8, wrap; apply Z.mod_small; exact Ha|].
  split; [reflexivity|]. split; [reflexivity|].
  change 0xFFFF with (Z.ones 16). change 0xFFFFFFFF with (Z.ones 32).
  rewrite !Z.land_ones by lia.
  split; [apply Z.mod_pos_bound; lia|].
  split; [apply Z.mod_pos_bound; lia|].
  split; [apply Z.mod_pos_bound; lia|].
  split; [apply idt_set_entry_length|].
  intros j Hj Hne. apply gate_set_other; assumption.
Qed.

Lemma idt_set_entry_gate_witness :
  let idt' := idt_set_entry (repeat null_entry 256) 33 0xFFFFFFFF80102030
                            KERNEL_CS INT_GATE in
  let g := gate_at idt' 33 in
  gate_offset g = 0xFFFFFFFF80102030 /\ selector g = KERNEL_CS /\
  type_attr g = INT_GATE /\
  ist g = 0 /\ reserved g = 0 /\
  0 <= offset_low g < 2 ^ 16 /\ 0 <= offset_mid g < 2 ^ 16 /\
  0 <= offset_high g < 2 ^ 32 /\
  length idt' = length (repeat null_entry 256) /\
  forall j, 0 <= j -> j <> 33 ->
            gate_at idt' j = gate_at (repeat null_entry 256) j.
Proof.
  apply (idt_set_entry_gate (repeat null_entry 256) 33 0xFFFFFFFF80102030
           KERNEL_CS INT_GATE).
  - rewrite repeat_length. lia.
  - lia.
  - unfold KERNEL_CS. lia.
  - unfold INT_GATE. lia.
Defined.

(** X22.  The table [idt_init] builds: each of the vectors 0 to 47 has a
    present 64-bit interrupt gate (type 0x8E) in the kernel code segment
    whose offset is the address of that vector's stub, and each of the
    vectors 48 to 255 has an all-zero, hence not present, gate, whatever the
    table held before. *)
Theorem idt_init_gates (stub : Z -> Z) (idt : list idt_entry_t) (v : Z) :
  length idt = 256%nat ->
  (forall i, 0 <= stub i < 2 ^ 64) ->
  0 <= v < 256 ->
  let g := gate_at (idt_init_table stub idt) v in
  (v < 48 ->
   gate_offset g = stub v /\ selector g = KERNEL_CS /\
   type_attr g = INT_GATE /\ ist g = 0 /\ reserved g = 0) /\
  (48 <= v -> g = null_entry).
Proof.
  intros Hlen Hstub Hv g. unfold g, idt_init_table.
  destruct (clear_entries_gates 256 0 idt ltac:(lia) ltac:(rewrite Hlen; lia))
    as [Hl Hclear].
  rewrite install_stubs_gates by (rewrite ?Hl, ?Hlen; lia).
  split.
  - intros Hlt.
    destruct (Z.leb_spec 0 v), (Z.ltb_spec v (0 + Z.of_nat 48));
      cbn [andb]; try lia.
    rewrite gate_set_same by (rewrite Hl, Hlen; lia).
    unfold gate_offset.
    cbn [offset_low offset_mid offset_high selector type_attr ist reserved].
    split; [apply offset_split, Hstub|]. repeat split; reflexivity.
  - intros Hge.
    destruct (Z.leb_spec 0 v), (Z.ltb_spec v (0 + Z.of_nat 48));
      cbn [andb]; try lia.
    rewrite Hclear by lia.
    destruct (Z.leb_spec 0 v), (Z.ltb_spec v (0 + Z.of_nat 256));
      cbn [andb]; try lia.
    reflexivity.
Qed.

Lemma idt_init_gates_witness :
  let g := gate_at (idt_init_table (fun v => 0x100000 + 16 * (v mod 48))
                                   (repeat null_entry 256)) 33 in
  (33 < 48 ->
   gate_offset g = 0x100000 + 16 * (33 mod 48) /\ selector g = KERNEL_CS /\
   type_attr g = INT_GATE /\ ist g = 0 /\ reserved g = 0) /\
  (48 <= 33 -> g = null_entry).
Proof.
  apply (idt_init_gates (fun v => 0x100000 + 16 * (v mod 48))
           (repeat null_entry 256) 33).
  - apply repeat_length.
  - intros i. pose proof (Z.mod_pos_bound i 48). lia.
  - lia.
Defined.

End IdtProofs.

(** ** Memory block functions *)

Module StringLibProofs.

Import Heap StringLib HeapProofs.

Lemma copy_forward_outside (n : nat) :
  forall (m : mem) (d s x : Z),
    x < d \/ d + Z.of_nat n <= x -> copy_forward n m d s x = m x.
Proof.
  induction n as [|n IH]; intros m d s x Hx; [reflexivity|].
  cbn [copy_forward]. rewrite IH by lia. apply upd_other. lia.
Qed.

Lemma copy_forward_spec (n : nat) :
  forall (m : mem) (d s : Z),
    d <= s \/ s + Z.of_nat n <= d ->
    (forall k, 0 <= k < Z.of_nat n ->
               copy_forward n m d s (d + k) = m (s + k)) /\
    (forall x, x < d \/ d + Z.of_nat n <= x -> copy_forward n m d s x = m x).
Proof.
  induction n as [|n IH]; intros m d s Hcond.
  - split; [intros k Hk; cbn in Hk; lia|reflexivity].
  - cbn [copy_forward].
    destruct (IH (upd m d (m s)) (d + 1) (s + 1)) as [Hin Hout]; [lia|].
    split.
    + intros k Hk. destruct (Z.eq_dec k 0) as [->|Hk0].
      * rewrite Z.add_0_r, Hout by lia. rewrite upd_same.
        now rewrite Z.add_0_r.
      * replace (d + k) with (d + 1 + (k - 1)) by lia.
        rewrite Hin by lia. rewrite upd_other by lia. f_equal. lia.
    + intros x Hx. rewrite Hout by lia. apply upd_other. lia.
Qed.

Lemma copy_backward_spec (n : nat) :
  forall (m : mem) (d s : Z),
    s <= d \/ d <= s - Z.of_nat n ->
    (forall k, 0 <= k < Z.of_nat n ->
               copy_backward n m d s (d - Z.of_nat n + k)
               = m (s - Z.of_nat n + k)) /\
    (forall x, x < d - Z.of_nat n \/ d <= x -> copy_backward n m d s x = m x).
Proof.
  induction n as [|n IH]; intros m d s Hcond.
  - split; [intros k Hk; cbn in Hk; lia|reflexivity].
  - cbn [copy_backward].
    destruct (IH (upd m (d - 1) (m (s - 1))) (d - 1) (s - 1)) as [Hin Hout];
      [lia|].
    split.
    + intros k Hk. destruct (Z.eq_dec k (Z.of_nat n)) as [->|Hkn].
      * rewrite Hout by lia.
        replace (d - Z.of_nat (S n) + Z.of_nat n) with (d - 1) by lia.
        rewrite upd_same. f_equal. lia.
      * replace (d - Z.of_nat (S n) + k) with (d - 1 - Z.of_nat n + k) by lia.
        rewrite Hin by lia. rewrite upd_other by lia. f_equal. lia.
    + intros x Hx. rewrite Hout by lia. apply upd_other. lia.
Qed.

(** X23.  [memmove] copies correctly whatever the overlap: afterwards the
    [n] bytes at [dest] are the [n] bytes that were at [src] before the
    call, and no byte outside the destination block has changed. *)
Theorem memmove_copies_any_overlap (m : mem) (dest src n : Z) :
  0 <= n ->
  (forall k, 0 <= k < n -> memmove m dest src n (dest + k) = m (src + k)) /\
  (forall x, x < dest \/ dest + n <= x -> memmove m dest src n x = m x).
Proof.
  intros Hn. unfold memmove.
  destruct (Z.ltb_spec dest src).
  - destruct (copy_forward_spec (Z.to_nat n) m dest src ltac:(lia))
      as [Hin Hout].
    split; [intros k Hk; apply Hin; lia|intros x Hx; apply Hout; lia].
  - destruct (Z.gtb_spec dest src).
    + destruct (copy_backward_spec (Z.to_nat n) m (dest + n) (src + n)
                  ltac:(lia)) as [Hin Hout].
      split.
      * intros k Hk. specialize (Hin k ltac:(lia)).
        rewrite Z2Nat.id in Hin by lia.
        replace (dest + n - n + k) with (dest + k) in Hin by lia.
        replace (src + n - n + k) with (src + k) in Hin by lia. exact Hin.
      * intros x Hx. apply Hout. lia.
    + assert (dest = src) by lia. subst. split; reflexivity.
Qed.

Lemma memmove_copies_any_overlap_witness :
  let m : mem := fun x => x mod 256 in
  (forall k, 0 <= k < 8 -> memmove m 0x1004 0x1000 8 (0x1004 + k)
                           = m (0x1000 + k)) /\
  (forall x, x < 0x1004 \/ 0x1004 + 8 <= x ->
             memmove m 0x1004 0x1000 8 x = m x).
Proof.
  apply (memmove_copies_any_overlap (fun x => x mod 256) 0x1004 0x1000 8).
  lia.
Defined.

(** X24.  [memcpy] copies forward, byte by byte.  It is a correct copy when
    the destination does not start inside the source block; when it does,
    the source bytes are overwritten before they are read, and the block
    ends up filled with repetitions of its first [dest - src] bytes. *)
Theorem memcpy_forward_copy (m : mem) (dest src n : Z) :
  0 <= n ->
  (dest <= src \/ src + n <= dest ->
   (forall k, 0 <= k < n -> memcpy m dest src n (dest + k) = m (src + k)) /\
   (forall x, x < dest \/ dest + n <= x -> memcpy m dest src n x = m x)) /\
  (src < dest < src + n ->
   forall k, 0 <= k < n ->
     memcpy m dest src n (dest + k) = m (src + k mod (dest - src))).
Proof.
  intros Hn. unfold memcpy. split.
  - intros Hcond.
    destruct (copy_forward_spec (Z.to_nat n) m dest src ltac:(lia))
      as [Hin Hout].
    split; [intros k Hk; apply Hin; lia|intros x Hx; apply Hout; lia].
  - intros Hov.
    set (g := dest - src).
    assert (Hg : 0 < g) by (unfold g; lia).
    assert (Hgen : forall (c : nat) (m1 : mem) (j : Z),
               0 <= j ->
               (forall i, 0 <= i < g -> m1 (src + j + i) = m (src + (j + i) mod g)) ->
               forall k, 0 <= k < Z.of_nat c ->
                 copy_forward c m1 (dest + j) (src + j) (dest + j + k)
                 = m (src + (j + k) mod g)).
    { induction c as [|c IH]; intros m1 j Hj Hwin k Hk; [cbn in Hk; lia|].
      cbn [copy_forward].
      destruct (Z.eq_dec k 0) as [->|Hk0].
      - rewrite !Z.add_0_r, copy_forward_outside by lia. rewrite upd_same.
        specialize (Hwin 0 ltac:(lia)). rewrite !Z.add_0_r in Hwin. exact Hwin.
      - replace (dest + j + k) with (dest + (j + 1) + (k - 1)) by lia.
        replace (dest + j + 1) with (dest + (j + 1)) by lia.
        replace (src + j + 1) with (src + (j + 1)) by lia.
        rewrite IH; [f_equal; f_equal; f_equal; lia|lia| |lia].
        intros i Hi.
        destruct (Z.eq_dec i (g - 1)) as [->|Hne].
        + replace (src + (j + 1) + (g - 1)) with (dest + j) by (unfold g; lia).
          rewrite upd_same.
          specialize (Hwin 0 ltac:(lia)). rewrite !Z.add_0_r in Hwin.
          rewrite Hwin. f_equal. f_equal.
          replace (j + 1 + (g - 1)) with (j + 1 * g) by lia.
          now rewrite Z.mod_add by lia.
        + rewrite upd_other by (unfold g in *; lia).
          replace (src + (j + 1) + i) with (src + j + (i + 1)) by lia.
          rewrite Hwin by lia. f_equal. f_equal. f_equal. lia. }
    intros k Hk.
    specialize (Hgen (Z.to_nat n) m 0 ltac:(lia)).
    rewrite !Z.add_0_r in Hgen.
    rewrite (Hgen ltac:(intros i Hi; rewrite Z.add_0_l, Z.mod_small by lia;
                        reflexivity) k ltac:(lia)).
    rewrite Z.add_0_l. reflexivity.
Qed.

Lemma memcpy_forward_copy_witness :
  let m : mem := fun x => x mod 256 in
  (0x1004 <= 0x1000 \/ 0x1000 + 8 <= 0x1004 ->
   (forall k, 0 <= k < 8 -> memcpy m 0x1004 0x1000 8 (0x1004 + k)
                            = m (0x1000 + k)) /\
   (forall x, x < 0x1004 \/ 0x1004 + 8 <= x ->
              memcpy m 0x1004 0x1000 8 x = m x)) /\
  (0x1000 < 0x1004 < 0x1000 + 8 ->
   forall k, 0 <= k < 8 ->
     memcpy m 0x1004 0x1000 8 (0x1004 + k)
     = m (0x1000 + k mod (0x1004 - 0x1000))).
Proof.
  apply (memcpy_forward_copy (fun x => x mod 256) 0x1004 0x1000 8). lia.
Defined.

(** X25.  [memcmp] returns 0 exactly when the two blocks hold the same [n]
    bytes; otherwise it returns the difference of the bytes at the first
    position where they differ. *)
Theorem memcmp_first_difference (m : mem) (s1 s2 n : Z) :
  0 <= n ->
  (memcmp m s1 s2 n = 0 <->
   forall k, 0 <= k < n -> m (s1 + k) = m (s2 + k)) /\
  (memcmp m s1 s2 n <> 0 ->
   exists k, 0 <= k < n /\
     (forall j, 0 <= j < k -> m (s1 + j) = m (s2 + j)) /\
     m (s1 + k) <> m (s2 + k) /\
     memcmp m s1 s2 n = m (s1 + k) - m (s2 + k)).
Proof.
  intros Hn. unfold memcmp.
  assert (Hgen : forall (c : nat) (p1 p2 : Z),
             (compare_bytes c m p1 p2 = 0 /\
              forall k, 0 <= k < Z.of_nat c -> m (p1 + k) = m (p2 + k)) \/
             (exists k, 0 <= k < Z.of_nat c /\
                (forall j, 0 <= j < k -> m (p1 + j) = m (p2 + j)) /\
                m (p1 + k) <> m (p2 + k) /\
                compare_bytes c m p1 p2 = m (p1 + k) - m (p2 + k))).
  { induction c as [|c IH]; intros p1 p2.
    - left. split; [reflexivity|]. intros k Hk. cbn in Hk. lia.
    - cbn [compare_bytes]. destruct (Z.eqb_spec (m p1) (m p2)) as [E|E];
        cbn [negb].
      + destruct (IH (p1 + 1) (p2 + 1)) as [[E0 Hall]|(k & Hk & Hpre & Hd & Er)].
        * left. split; [exact E0|]. intros k Hk.
          destruct (Z.eq_dec k 0) as [->|Hk0];
            [rewrite !Z.add_0_r; exact E|].
          replace (p1 + k) with (p1 + 1 + (k - 1)) by lia.
          replace (p2 + k) with (p2 + 1 + (k - 1)) by lia.
          apply Hall. lia.
        * right. exists (k + 1).
          replace (p1 + (k + 1)) with (p1 + 1 + k) by lia.
          replace (p2 + (k + 1)) with (p2 + 1 + k) by lia.
          split; [lia|]. split; [|split; assumption].
          intros j Hj. destruct (Z.eq_dec j 0) as [->|Hj0];
            [rewrite !Z.add_0_r; exact E|].
          replace (p1 + j) with (p1 + 1 + (j - 1)) by lia.
          replace (p2 + j) with (p2 + 1 + (j - 1)) by lia.
          apply Hpre. lia.
      + right. exists 0. rewrite !Z.add_0_r.
        split; [lia|]. split; [intros j Hj; lia|]. split; [exact E|reflexivity]. }
  destruct (Hgen (Z.to_nat n) s1 s2) as [[E0 Hall]|(k & Hk & Hpre & Hd & Er)].
  - split.
    + split; [intros _ k Hk; apply Hall; lia|intros _; exact E0].
    + intros Hne. contradiction.
  - assert (Hnz : compare_bytes (Z.to_nat n) m s1 s2 <> 0) by lia.
    split.
    + split; [intros E0; contradiction|].
      intros Hall. exfalso. apply Hd. apply Hall. lia.
    + intros _. exists k. repeat split; auto; lia.
Qed.

Lemma memcmp_first_difference_witness :
  let m : mem := fun x => if x =? 0x2003 then 9 else 1 in
  (memcmp m 0x1000 0x2000 6 = 0 <->
   forall k, 0 <= k < 6 -> m (0x1000 + k) = m (0x2000 + k)) /\
  (memcmp m 0x1000 0x2000 6 <> 0 ->
   exists k, 0 <= k < 6 /\
     (forall j, 0 <= j < k -> m (0x1000 + j) = m (0x2000 + j)) /\
     m (0x1000 + k) <> m (0x2000 + k) /\
     memcmp m 0x1000 0x2000 6 = m (0x1000 + k) - m (0x2000 + k)).
Proof.
  apply (memcmp_first_difference
           (fun x => if x =? 0x2003 then 9 else 1) 0x1000 0x2000 6).
  lia.
Defined.

End StringLibProofs.

(** ** Internet checksum *)

Module ChecksumProofs.

Import Checksum.

(** Induction over a block two bytes at a time. *)
Lemma pair_ind (P : list Z -> Prop) :
  P [] -> (forall b, P [b]) ->
  (forall b0 b1 rest, P rest -> P (b0 :: b1 :: rest)) ->
  forall l, P l.
Proof.
  intros H0 H1 H2 l.
  assert (H : forall n l, (length l <= n)%nat -> P l).
  { induction n as [|n IH]; intros [|b0 [|b1 rest]] Hl; cbn in Hl; auto;
      try lia.
    apply H2. apply IH. lia. }
  exact (H (length l) l (le_n _)).
Qed.

Lemma word_sum_bound (data : list Z) :
  bytes_ok data -> 0 <= word_sum data <= 32768 * Z.of_nat (length data).
Proof.
  unfold bytes_ok. induction data as [| b | b0 b1 rest IH] using pair_ind;
    intros H.
  - cbn. lia.
  - pose proof (Forall_inv H). cbn in *. lia.
  - pose proof (Forall_inv H) as Hb0.
    pose proof (Forall_inv (Forall_inv_tail H)) as Hb1.
    specialize (IH (Forall_inv_tail (Forall_inv_tail H))).
    cbn [word_sum length] in *. cbn beta in Hb0, Hb1. lia.
Qed.

Lemma sum_words_exact (data : list Z) :
  bytes_ok data ->
  forall s, 0 <= s -> s + word_sum data < 2 ^ 32 ->
            sum_words data s = s + word_sum data.
Proof.
  unfold bytes_ok. induction data as [| b | b0 b1 rest IH] using pair_ind;
    intros H s Hs Hfit.
  - cbn. lia.
  - pose proof (Forall_inv H). cbn in *. apply wrap32_small. lia.
  - pose proof (Forall_inv H) as Hb0.
    pose proof (Forall_inv (Forall_inv_tail H)) as Hb1.
    pose proof (word_sum_bound rest (Forall_inv_tail (Forall_inv_tail H))).
    cbn [word_sum sum_words] in *. cbn beta in Hb0, Hb1.
    rewrite (wrap32_small (s + (b0 + 256 * b1))) by lia.
    rewrite IH; [lia| |lia|lia].
    exact (Forall_inv_tail (Forall_inv_tail H)).
Qed.

(** Folding the carries keeps the value modulo 65535 and maps only 0 to
    0. *)
Lemma fold_carries_value (fuel : nat) (s : Z) :
  (2 <= fuel)%nat -> 0 <= s < 2 ^ 32 ->
  exists f q,
    fold_carries fuel s = Some f /\ 0 <= f < 2 ^ 16 /\
    s = f + 65535 * q /\ 0 <= q /\ (f = 0 -> s = 0).
Proof.
  intros Hfuel Hs. destruct fuel as [|[|fuel]]; try lia.
  assert (Hfold : forall x, 0 <= x ->
            Z.shiftr x 16 = x / 65536 /\ Z.land x 0xFFFF = x mod 65536).
  { intros x Hx. change 0xFFFF with (Z.ones 16).
    rewrite Z.shiftr_div_pow2, Z.land_ones by lia.
    split; reflexivity. }
  cbn [fold_carries].
  destruct (Hfold s ltac:(lia)) as [E1 E2]. rewrite E1, E2.
  destruct (Z.eqb_spec (s / 65536) 0) as [Hz|Hz].
  { exists s, 0. split; [reflexivity|].
    change (2 ^ 16) with 65536. Z.div_mod_to_equations. lia. }
  set (s1 := s mod 65536 + s / 65536).
  assert (Hs1 : 0 < s1 <= 131070 /\ s = s1 + 65535 * (s / 65536)).
  { unfold s1. change (2 ^ 32) with 4294967296 in Hs.
    Z.div_mod_to_equations. lia. }
  rewrite (wrap32_small s1) by lia.
  destruct (Hfold s1 ltac:(lia)) as [F1 F2]. rewrite F1, F2.
  destruct (Z.eqb_spec (s1 / 65536) 0) as [Hz1|Hz1].
  { exists s1, (s / 65536). split; [reflexivity|].
    change (2 ^ 16) with 65536. Z.div_mod_to_equations. lia. }
  set (s2 := s1 mod 65536 + s1 / 65536).
  assert (Hs2 : 0 < s2 < 65536 /\ s1 = s2 + 65535)
    by (unfold s2; Z.div_mod_to_equations; lia).
  rewrite (wrap32_small s2) by lia.
  assert (Hz2 : Z.shiftr s2 16 = 0).
  { rewrite (proj1 (Hfold s2 ltac:(lia))). Z.div_mod_to_equations. lia. }
  assert (Hq : 0 <= s / 65536) by (apply Z.div_pos; lia).
  destruct Hs1 as [Hs1 Es1]. destruct Hs2 as [Hs2 Es2].
  destruct fuel; cbn [fold_carries]; rewrite Hz2; cbn [Z.eqb];
    (exists s2, (s / 65536 + 1); split; [reflexivity|];
     change (2 ^ 16) with 65536; clearbody s1 s2; lia).
Qed.

Lemma store16_zero_word (i : nat) :
  forall (data : list Z) (c : Z),
    (2 * i + 1 < length data)%nat ->
    nth (2 * i) data 0 = 0 -> nth (2 * i + 1) data 0 = 0 ->
    0 <= c < 2 ^ 16 -> bytes_ok data ->
    word_sum (store16 data (2 * i) c) = word_sum data + c /\
    bytes_ok (store16 data (2 * i) c) /\
    length (store16 data (2 * i) c) = length data.
Proof.
  induction i as [|i IH]; intros data c Hlen H0 H1 Hc Hok.
  - change (2 * 0)%nat with 0%nat in *.
    destruct data as [|b0 [|b1 rest]]; cbn in Hlen; try lia.
    cbn in H0, H1. subst b0 b1. unfold store16. cbn [list_set].
    cbn [word_sum length]. split; [|split; [|reflexivity]].
    + change (2 ^ 16) with 65536 in Hc. Z.div_mod_to_equations. lia.
    + unfold bytes_ok in *.
      apply Forall_inv_tail, Forall_inv_tail in Hok.
      change (2 ^ 16) with 65536 in Hc.
      repeat constructor; auto; Z.div_mod_to_equations; lia.
  - destruct data as [|b0 [|b1 rest]]; cbn in Hlen; try lia.
    replace (2 * S i)%nat with (S (S (2 * i))) in * by lia.
    cbn [nth Nat.add] in H0, H1.
    destruct (IH rest c) as (Hs & Hb & Hl); auto; try lia.
    { unfold bytes_ok in *. apply Forall_inv_tail, Forall_inv_tail in Hok.
      exact Hok. }
    unfold store16 in *. cbn [list_set word_sum length].
    split; [lia|]. split; [|now rewrite Hl].
    unfold bytes_ok in *.
    pose proof (Forall_inv Hok) as Hb0.
    pose proof (Forall_inv (Forall_inv_tail Hok)) as Hb1.
    cbn beta in Hb0, Hb1.
    constructor; [exact Hb0|]. constructor; [exact Hb1|]. exact Hb.
Qed.

Lemma lnot_low16 (f : Z) : 0 <= f < 2 ^ 16 -> wrap16 (Z.lnot f) = 65535 - f.
Proof.
  intros Hf. unfold wrap16, wrap, Z.lnot. change (2 ^ 16) with 65536 in *.
  symmetry. apply (Z.mod_unique _ _ (-1)); lia.
Qed.

(** X26.  The checksum verifies itself.  Take a block of fewer than 2^16
    bytes whose checksum field, a 16-bit word at an even offset, is zero:
    [checksum] returns a value, and once that value is stored in the field,
    as [ip_send], [icmp_ping] and [icmp_reply] do, [checksum] over the
    finished block returns 0. *)
Theorem checksum_verifies (data : list Z) (i : nat) (fuel : nat) :
  bytes_ok data -> Z.of_nat (length data) < 2 ^ 16 ->
  (2 * i + 1 < length data)%nat ->
  nth (2 * i) data 0 = 0 -> nth (2 * i + 1) data 0 = 0 ->
  (2 <= fuel)%nat ->
  exists c,
    checksum fuel data = Some c /\ 0 <= c < 2 ^ 16 /\
    checksum fuel (store16 data (2 * i) c) = Some 0.
Proof.
  intros Hok Hlen Hpos H0 H1 Hfuel.
  pose proof (word_sum_bound data Hok) as Hw.
  change (2 ^ 16) with 65536 in Hlen.
  unfold checksum.
  rewrite (sum_words_exact data Hok 0) by (change (2 ^ 32) with 4294967296; lia).
  rewrite Z.add_0_l.
  destruct (fold_carries_value fuel (word_sum data) Hfuel
              ltac:(change (2 ^ 32) with 4294967296; lia))
    as (f & q & Ef & Hf & Es & Hq & Hzero).
  rewrite Ef, (lnot_low16 f Hf).
  change (2 ^ 16) with 65536 in *.
  exists (65535 - f). split; [reflexivity|]. split; [lia|].
  destruct (store16_zero_word i data (65535 - f) Hpos H0 H1
              ltac:(change (2 ^ 16) with 65536; lia) Hok)
    as (Hsum & Hok' & Hlen').
  rewrite (sum_words_exact _ Hok' 0)
    by (rewrite ?Hsum; change (2 ^ 32) with 4294967296; lia).
  rewrite Z.add_0_l, Hsum.
  destruct (fold_carries_value fuel (word_sum data + (65535 - f)) Hfuel
              ltac:(change (2 ^ 32) with 4294967296; lia))
    as (f' & q' & Ef' & Hf' & Es' & Hq' & Hzero').
  rewrite Ef', (lnot_low16 f' Hf').
  change (2 ^ 16) with 65536 in *.
  f_equal.
  assert (f' <> 0) by (intros E; specialize (Hzero' E); lia).
  assert (f' = 65535 * (q + 1 - q')) by lia.
  assert (q + 1 - q' = 1) by nia.
  lia.
Qed.

Lemma checksum_verifies_witness :
  exists c,
    checksum 2 [0x45; 0; 0; 84; 0; 1; 0; 0; 64; 1; 0; 0; 10; 0; 2; 15;
                10; 0; 2; 2] = Some c /\
    0 <= c < 2 ^ 16 /\
    checksum 2 (store16 [0x45; 0; 0; 84; 0; 1; 0; 0; 64; 1; 0; 0; 10; 0; 2; 15;
                         10; 0; 2; 2] (2 * 5) c) = Some 0.
Proof.
  apply (checksum_verifies
           [0x45; 0; 0; 84; 0; 1; 0; 0; 64; 1; 0; 0; 10; 0; 2; 15; 10; 0; 2; 2]
           5 2).
  - repeat constructor; vm_compute; discriminate.
  - vm_compute. reflexivity.
  - vm_compute. lia.
  - reflexivity.
  - reflexivity.
  - lia.
Defined.

End ChecksumProofs.
